(** * A Pintos-style file system: sector cache, inode layer, directories

    A shallow embedding of the file-system core of the project
    (filesys/cache.c, filesys/inode.c, filesys/directory.c and
    filesys/filesys.c) together with the properties its design document
    states about it.

    Conventions.
    - Machine integers are [Z]; where the C arithmetic can leave the range
      of its type the wrap-around is written out ([u32], [s32]).
    - A sector is a [list byte] of [BLOCK_SECTOR_SIZE] bytes; a sector used
      as an array of 128 sector numbers is read with [word_at]
      (little-endian, as on the 80x86 target).
    - The kernel code is sequential per thread.  A function is a state
      transformer in the monad [M]; besides returning ([Done]) a call can
      suspend its thread for ever on a semaphore or condition variable
      nobody else signals ([Blocked]), dereference a null pointer or index
      outside an array ([Fault]), or loop for ever ([Diverge]).
    - Pointers to cache lines are indices into the cache array; pointers to
      in-memory inodes are addresses into [heap]. *)

From Stdlib Require Import ZArith List Lia Bool Arith.
From Stdlib Require Import Strings.Ascii Strings.String Strings.Byte.
Import ListNotations.
Local Open Scope Z_scope.

(** ** Bytes, words and sectors *)

(** Modelled from the spec: the sector size [S] of the block device is 512
    bytes (devices/block.h is not part of the sources at hand). *)
Definition BLOCK_SECTOR_SIZE : Z := 512.

(** filesys/cache.h *)
Definition CACHE_SIZE : nat := 64.
Definition READ_AHEAD_BUFFER_SIZE : Z := 64.

(** Conversion of an integer to [uint32_t] and to [int32_t] ([off_t]). *)
Definition u32 (x : Z) : Z := x mod 2 ^ 32.
Definition s32 (x : Z) : Z := (x + 2 ^ 31) mod 2 ^ 32 - 2 ^ 31.

Definition byte_val (b : byte) : Z := Z.of_N (Byte.to_N b).

Definition byte_of_Z (z : Z) : byte :=
  match Byte.of_N (Z.to_N (z mod 256)) with
  | Some b => b
  | None => x00
  end.

(** The [i]-th 32-bit little-endian word of a buffer. *)
Definition word_at (d : list byte) (i : nat) : Z :=
  byte_val (nth (4 * i) d x00)
  + 2 ^ 8 * byte_val (nth (4 * i + 1) d x00)
  + 2 ^ 16 * byte_val (nth (4 * i + 2) d x00)
  + 2 ^ 24 * byte_val (nth (4 * i + 3) d x00).

Definition word_bytes (w : Z) : list byte :=
  [byte_of_Z w; byte_of_Z (w / 2 ^ 8); byte_of_Z (w / 2 ^ 16);
   byte_of_Z (w / 2 ^ 24)].

Definition words_bytes (ws : list Z) : list byte := flat_map word_bytes ws.

Definition words_of (d : list byte) (n : nat) : list Z :=
  map (word_at d) (seq 0 n).

(** [static char zeros[BLOCK_SECTOR_SIZE]] *)
Definition zeros : list byte := repeat x00 (Z.to_nat BLOCK_SECTOR_SIZE).

(** [memcpy] of one sector out of a buffer: exactly [BLOCK_SECTOR_SIZE]
    bytes, whatever lies behind a shorter list being read as zero. *)
Definition sector_of (buf : list byte) : list byte :=
  firstn (Z.to_nat BLOCK_SECTOR_SIZE) (buf ++ zeros).

(** Array update, [a[i] = v]; out of range leaves the list unchanged, the
    callers check the range first. *)
Fixpoint set_nth {A : Type} (i : nat) (v : A) (l : list A) : list A :=
  match l, i with
  | [], _ => []
  | _ :: t, O => v :: t
  | h :: t, S i' => h :: set_nth i' v t
  end.

(** ** The machine state *)

(** filesys/cache.c, [struct cache_block].  [sema] is the value of the
    line's semaphore: 1 when free, 0 when held. *)
Record cache_block : Type := mk_cache_block {
  dirty : bool;
  valid : bool;
  disk_sector : Z;
  time : Z;
  sema : nat;
  block : Z;
  disk_data : list byte
}.

(** filesys/cache.c, [struct read_head_elem]. *)
Record read_head_elem : Type := mk_read_head_elem {
  rh_sector : Z;
  rh_block : Z
}.

(** filesys/inode.c, [struct inode_disk].  [length] is the [off_t] file
    size; from here on the length of a list is written [List.length]. *)
Record inode_disk : Type := mk_inode_disk {
  blocks : list Z;
  direct_usage : Z;
  indirect_used : Z;
  indirect_block_usage : Z;
  double_used : Z;
  double_l1_usage : Z;
  double_l2_usage : Z;
  sector_usage : Z;
  length : Z;
  magic : Z;
  is_dir : Z;
  parent : Z;
  unused : list Z
}.

(** filesys/inode.c, [struct inode]; the list element is the membership
    of the inode's address in [open_inodes]. *)
Record inode : Type := mk_inode {
  sector : Z;
  open_cnt : Z;
  removed : bool;
  deny_write_cnt : Z;
  data : inode_disk
}.

(** One transfer on a block device, recorded in the order it happens. *)
Inductive io_event : Type :=
| IoRead (dev sec : Z)
| IoWrite (dev sec : Z) (d : list byte).

Record state : Type := mk_state {
  (** contents of the block devices, by device handle and sector *)
  disk : Z -> Z -> list byte;
  (** number of sectors of a device, [block_size] *)
  dev_size : Z -> Z;
  (** every device transfer so far, most recent first *)
  io_log : list io_event;
  (** the [k]-th reading of [timer_ticks] and the number of readings *)
  clock : nat -> Z;
  clock_reads : nat;
  (** the sector cache *)
  cache : list cache_block;
  (** the read-ahead buffer and its fill count *)
  read_head_buffer : list read_head_elem;
  read_head_buffer_n : Z;
  (** the free-sector bitmap, [true] for a sector in use *)
  free_map : list bool;
  (** kernel heap: whether the [k]-th [malloc] fails, the number of calls,
      and the in-memory inodes by address *)
  malloc_fails : nat -> bool;
  malloc_calls : nat;
  heap : Z -> option inode;
  (** the list of open inodes, front first *)
  open_inodes : list Z;
  (** what an uninitialised array on the kernel stack happens to hold *)
  junk : list Z
}.

Definition set_disk (f : Z -> Z -> list byte) (s : state) : state :=
  mk_state f (dev_size s) (io_log s) (clock s) (clock_reads s) (cache s)
    (read_head_buffer s) (read_head_buffer_n s) (free_map s)
    (malloc_fails s) (malloc_calls s) (heap s) (open_inodes s) (junk s).
Definition set_io_log (l : list io_event) (s : state) : state :=
  mk_state (disk s) (dev_size s) l (clock s) (clock_reads s) (cache s)
    (read_head_buffer s) (read_head_buffer_n s) (free_map s)
    (malloc_fails s) (malloc_calls s) (heap s) (open_inodes s) (junk s).
Definition set_clock_reads (n : nat) (s : state) : state :=
  mk_state (disk s) (dev_size s) (io_log s) (clock s) n (cache s)
    (read_head_buffer s) (read_head_buffer_n s) (free_map s)
    (malloc_fails s) (malloc_calls s) (heap s) (open_inodes s) (junk s).
Definition set_cache (c : list cache_block) (s : state) : state :=
  mk_state (disk s) (dev_size s) (io_log s) (clock s) (clock_reads s) c
    (read_head_buffer s) (read_head_buffer_n s) (free_map s)
    (malloc_fails s) (malloc_calls s) (heap s) (open_inodes s) (junk s).
Definition set_read_head (b : list read_head_elem) (n : Z) (s : state)
  : state :=
  mk_state (disk s) (dev_size s) (io_log s) (clock s) (clock_reads s)
    (cache s) b n (free_map s)
    (malloc_fails s) (malloc_calls s) (heap s) (open_inodes s) (junk s).
Definition set_free_map (m : list bool) (s : state) : state :=
  mk_state (disk s) (dev_size s) (io_log s) (clock s) (clock_reads s)
    (cache s) (read_head_buffer s) (read_head_buffer_n s) m
    (malloc_fails s) (malloc_calls s) (heap s) (open_inodes s) (junk s).
Definition set_malloc_calls (n : nat) (s : state) : state :=
  mk_state (disk s) (dev_size s) (io_log s) (clock s) (clock_reads s)
    (cache s) (read_head_buffer s) (read_head_buffer_n s) (free_map s)
    (malloc_fails s) n (heap s) (open_inodes s) (junk s).
Definition set_heap (h : Z -> option inode) (s : state) : state :=
  mk_state (disk s) (dev_size s) (io_log s) (clock s) (clock_reads s)
    (cache s) (read_head_buffer s) (read_head_buffer_n s) (free_map s)
    (malloc_fails s) (malloc_calls s) h (open_inodes s) (junk s).
Definition set_open_inodes (l : list Z) (s : state) : state :=
  mk_state (disk s) (dev_size s) (io_log s) (clock s) (clock_reads s)
    (cache s) (read_head_buffer s) (read_head_buffer_n s) (free_map s)
    (malloc_fails s) (malloc_calls s) (heap s) l (junk s).

(** ** The monad of kernel code *)

Inductive outcome (A : Type) : Type :=
| Done (a : A) (s : state)
| Blocked
| Fault
| Diverge.
Arguments Done {A} a s.
Arguments Blocked {A}.
Arguments Fault {A}.
Arguments Diverge {A}.

Definition M (A : Type) : Type := state -> outcome A.

Definition ret {A : Type} (a : A) : M A := fun s => Done a s.

Definition bind {A B : Type} (m : M A) (f : A -> M B) : M B :=
  fun s =>
    match m s with
    | Done a s' => f a s'
    | Blocked => Blocked
    | Fault => Fault
    | Diverge => Diverge
    end.

Declare Scope kernel_scope.
Delimit Scope kernel_scope with kernel.
Notation "x <- m ;; k" := (bind m (fun x => k))
  (at level 61, m at next level, right associativity) : kernel_scope.
Notation "m ;; k" := (bind m (fun _ => k))
  (at level 61, right associativity) : kernel_scope.
Local Open Scope kernel_scope.

Definition blocked {A : Type} : M A := fun _ => Blocked.
Definition fault {A : Type} : M A := fun _ => Fault.
Definition diverge {A : Type} : M A := fun _ => Diverge.
Definition get {A : Type} (f : state -> A) : M A := fun s => Done (f s) s.
Definition modify (f : state -> state) : M unit := fun s => Done tt (f s).

(** [if (p != NULL) ...] style conditional effect. *)
Definition when (b : bool) (m : M unit) : M unit := if b then m else ret tt.

(** ** External collaborators: timer, block device, heap *)

(** devices/timer.c, [timer_ticks]: the next reading of the tick counter. *)
Definition timer_ticks : M Z :=
  fun s => Done (clock s (clock_reads s)) (set_clock_reads (S (clock_reads s)) s).

(** The handle of the file-system partition, [fs_device]. *)
Definition fs_device : Z := 1.

(** Modelled from the spec: [block_read(block, sector, buf)] delivers the
    sector's contents (devices/block.c is not part of the sources). *)
Definition block_read (dev sec : Z) : M (list byte) :=
  fun s => Done (disk s dev sec) (set_io_log (IoRead dev sec :: io_log s) s).

(** Modelled from the spec: [block_write(block, sector, buf)] stores one
    sector. *)
Definition block_write (dev sec : Z) (buf : list byte) : M unit :=
  fun s =>
    let d := sector_of buf in
    Done tt
      (set_io_log (IoWrite dev sec d :: io_log s)
         (set_disk (fun dv sc => if (dv =? dev) && (sc =? sec) then d
                                 else disk s dv sc) s)).

(** [block_size (block)] *)
Definition block_size (dev : Z) : M Z := get (fun s => dev_size s dev).

(** ** filesys/cache.c: the sector cache *)

(** [cache + i], faulting outside the array. *)
Definition get_line (i : nat) : M cache_block :=
  fun s =>
    match nth_error (cache s) i with
    | Some l => Done l s
    | None => Fault
    end.

Definition upd_line (i : nat) (f : cache_block -> cache_block) : M unit :=
  fun s =>
    match nth_error (cache s) i with
    | Some l => Done tt (set_cache (set_nth i (f l) (cache s)) s)
    | None => Fault
    end.

Definition with_sema (n : nat) (l : cache_block) : cache_block :=
  mk_cache_block (dirty l) (valid l) (disk_sector l) (time l) n (block l)
    (disk_data l).
Definition with_time (t : Z) (l : cache_block) : cache_block :=
  mk_cache_block (dirty l) (valid l) (disk_sector l) t (sema l) (block l)
    (disk_data l).
Definition with_dirty (d : bool) (l : cache_block) : cache_block :=
  mk_cache_block d (valid l) (disk_sector l) (time l) (sema l) (block l)
    (disk_data l).
Definition with_data (d : list byte) (l : cache_block) : cache_block :=
  mk_cache_block (dirty l) (valid l) (disk_sector l) (time l) (sema l)
    (block l) d.
(** The four assignments [dirty = d; valid = true; disk_sector = sec;
    block = dev] that prepare an evicted line for a new sector. *)
Definition with_identity (d : bool) (dev sec : Z) (l : cache_block)
  : cache_block :=
  mk_cache_block d true sec (time l) (sema l) dev (disk_data l).

(** [sema_down (&cache_line->sema)]: waits while the value is 0. *)
Definition sema_down (i : nat) : M unit :=
  l <- get_line i ;;
  match sema l with
  | O => blocked
  | S n => upd_line i (with_sema n)
  end.

(** [sema_up (&cache_line->sema)] *)
Definition sema_up (i : nat) : M unit :=
  upd_line i (fun l => with_sema (S (sema l)) l).

(** [if (evict != NULL) sema_up (&evict->sema);] *)
Definition sema_up_opt (evict : option nat) : M unit :=
  match evict with
  | Some e => sema_up e
  | None => ret tt
  end.

(** The loop of [find_cacheline], with [k] lines left to visit from line
    [i] on. *)
Fixpoint find_cacheline_from (k i : nat) (dev sec : Z) : M (option nat) :=
  match k with
  | O => ret None
  | S k' =>
      sema_down i ;;
      l <- get_line i ;;
      if valid l && (block l =? dev) && (disk_sector l =? sec)
      then ret (Some i)
      else sema_up i ;; find_cacheline_from k' (S i) dev sec
  end.

Definition find_cacheline (dev sec : Z) : M (option nat) :=
  find_cacheline_from CACHE_SIZE 0 dev sec.

(** The loop of [choose_evict]: [inl i] is the early [return cache_line]
    of an invalid line, [inr evict] the value of [evict] when the loop
    runs to its end. *)
Fixpoint choose_evict_from (k i : nat) (evict : option nat)
    (earlist_time : Z) : M (nat + option nat) :=
  match k with
  | O => ret (inr evict)
  | S k' =>
      sema_down i ;;
      l <- get_line i ;;
      if negb (valid l) then
        sema_up_opt evict ;; ret (inl i)
      else if time l <? earlist_time then
        sema_up_opt evict ;;
        choose_evict_from k' (S i) (Some i) (time l)
      else
        sema_up i ;; choose_evict_from k' (S i) evict earlist_time
  end.

Definition choose_evict : M nat :=
  earlist_time <- timer_ticks ;;
  r <- choose_evict_from CACHE_SIZE 0 None earlist_time ;;
  match r with
  | inl i => ret i
  | inr None => fault
  | inr (Some e) =>
      l <- get_line e ;;
      when (dirty l) (block_write (block l) (disk_sector l) (disk_data l)) ;;
      ret e
  end.

(** The producer of read-ahead requests. *)
Definition put_read_ahead_buffer (dev sec : Z) : M unit :=
  n <- get read_head_buffer_n ;;
  if n =? READ_AHEAD_BUFFER_SIZE then blocked
  else
    modify (fun s =>
      set_read_head
        (set_nth (Z.to_nat n) (mk_read_head_elem sec dev) (read_head_buffer s))
        (u32 (n + 1)) s).

(** The miss path shared by [cache_read] and [read_ahead]. *)
Definition load_line (dev sec : Z) : M nat :=
  i <- choose_evict ;;
  upd_line i (with_identity false dev sec) ;;
  d <- block_read dev sec ;;
  upd_line i (with_data (sector_of d)) ;;
  ret i.

Definition cache_read (dev sec : Z) : M (list byte) :=
  found <- find_cacheline dev sec ;;
  i <- match found with
       | Some i => ret i
       | None => load_line dev sec
       end ;;
  l <- get_line i ;;
  t <- timer_ticks ;;
  upd_line i (with_time t) ;;
  sema_up i ;;
  put_read_ahead_buffer dev (u32 (sec + 1)) ;;
  ret (disk_data l).

Definition cache_write (dev sec : Z) (buffer : list byte) : M unit :=
  found <- find_cacheline dev sec ;;
  i <- match found with
       | Some i => ret i
       | None =>
           i <- choose_evict ;;
           upd_line i (with_identity true dev sec) ;;
           ret i
       end ;;
  upd_line i (with_data (sector_of buffer)) ;;
  t <- timer_ticks ;;
  upd_line i (with_time t) ;;
  upd_line i (with_dirty true) ;;
  sema_up i.

(** The critical section at the head of the consumer's loop: wait for a
    request and pop it. *)
Definition read_ahead_pop : M read_head_elem :=
  n <- get read_head_buffer_n ;;
  if n =? 0 then blocked
  else
    modify (fun s => set_read_head (read_head_buffer s) (u32 (n - 1)) s) ;;
    b <- get read_head_buffer ;;
    match nth_error b (Z.to_nat (u32 (n - 1))) with
    | Some e => ret e
    | None => fault
    end.

(** What the consumer does with a popped request. *)
Definition read_ahead_fetch (elem : read_head_elem) : M unit :=
  size <- block_size (rh_block elem) ;;
  if rh_sector elem <? size then
    found <- find_cacheline (rh_block elem) (rh_sector elem) ;;
    i <- match found with
         | Some i => ret i
         | None => load_line (rh_block elem) (rh_sector elem)
         end ;;
    sema_up i
  else ret tt.

(** One round of the [while (true)] loop of [read_ahead]. *)
Definition read_ahead : M unit :=
  elem <- read_ahead_pop ;;
  read_ahead_fetch elem.

(** The loop of [flush_cache]. *)
Fixpoint flush_cache_from (k i : nat) : M unit :=
  match k with
  | O => ret tt
  | S k' =>
      sema_down i ;;
      l <- get_line i ;;
      when (dirty l)
        (block_write (block l) (disk_sector l) (disk_data l) ;;
         upd_line i (with_dirty false)) ;;
      sema_up i ;;
      flush_cache_from k' (S i)
  end.

Definition flush_cache : M unit := flush_cache_from CACHE_SIZE 0.

(** The state [cache_init] leaves behind on a machine [s]: every line
    zeroed by [calloc] with its semaphore at 1, an empty request buffer. *)
Definition empty_line : cache_block :=
  mk_cache_block false false 0 0 1 0 zeros.

Definition cache_init (s : state) : state :=
  set_read_head
    (repeat (mk_read_head_elem 0 0) (Z.to_nat READ_AHEAD_BUFFER_SIZE)) 0
    (set_cache (repeat empty_line CACHE_SIZE) s).


(** ** The two scans of the cache, as functions of the lines alone *)

(** [hold held c]: the cache [c] with the semaphore of line [held], if
    any, taken once; nothing else differs. *)
Definition hold (held : option nat) (c : list cache_block)
  : list cache_block :=
  match held with
  | Some e =>
      match nth_error c e with
      | Some l => set_nth e (with_sema (pred (sema l)) l) c
      | None => c
      end
  | None => c
  end.

Definition matches (dev sec : Z) (l : cache_block) : bool :=
  valid l && (block l =? dev) && (disk_sector l =? sec).

Fixpoint scan_find (ls : list cache_block) (i : nat) (dev sec : Z)
  : option nat :=
  match ls with
  | [] => None
  | l :: t => if matches dev sec l then Some i else scan_find t (S i) dev sec
  end.

Fixpoint scan_evict (ls : list cache_block) (i : nat) (evict : option nat)
    (earlist_time : Z) : nat + option nat :=
  match ls with
  | [] => inr evict
  | l :: t =>
      if negb (valid l) then inl i
      else if time l <? earlist_time then scan_evict t (S i) (Some i) (time l)
      else scan_evict t (S i) evict earlist_time
  end.

Definition selected (r : nat + option nat) : option nat :=
  match r with inl i => Some i | inr e => e end.

(** Line [i] is the first invalid line of the cache. *)
Definition first_invalid (c : list cache_block) (i : nat) : Prop :=
  (exists l, nth_error c i = Some l /\ valid l = false) /\
  (forall j l, (j < i)%nat -> nth_error c j = Some l -> valid l = true).

(** Line [i] has the smallest [time] of all lines, and is the first such
    line in the order of the scan. *)
Definition least_recently_used (c : list cache_block) (i : nat) : Prop :=
  exists l, nth_error c i = Some l /\
    (forall j l', nth_error c j = Some l' -> time l <= time l') /\
    (forall j l', (j < i)%nat -> nth_error c j = Some l' -> time l < time l').

(** ** The read-ahead buffer as a sequence of pending requests *)

(** The requests waiting in the buffer, oldest first. *)
Definition pending (s : state) : list read_head_elem :=
  firstn (Z.to_nat (read_head_buffer_n s)) (read_head_buffer s).

(** The steps by which any thread moves the cache and its buffer on.  The
    body of a step runs with [read_head_lock] held wherever it touches the
    buffer, and a step that would wait is not taken until it can proceed. *)
Inductive cache_step : state -> state -> Prop :=
| step_cache_read (dev sec : Z) (d : list byte) (s s' : state) :
    cache_read dev sec s = Done d s' -> cache_step s s'
| step_cache_write (dev sec : Z) (buf : list byte) (s s' : state) :
    cache_write dev sec buf s = Done tt s' -> cache_step s s'
| step_put (dev sec : Z) (s s' : state) :
    put_read_ahead_buffer dev sec s = Done tt s' -> cache_step s s'
| step_read_ahead (s s' : state) :
    read_ahead s = Done tt s' -> cache_step s s'
| step_flush (s s' : state) :
    flush_cache s = Done tt s' -> cache_step s s'.

Inductive cache_reachable : state -> Prop :=
| reach_init (s : state) : cache_reachable (cache_init s)
| reach_step (s s' : state) :
    cache_reachable s -> cache_step s s' -> cache_reachable s'.

(** [m] leaves the component [f] of the state as it is. *)
Definition keeps {X A : Type} (f : state -> X) (m : M A) : Prop :=
  forall s a s', m s = Done a s' -> f s' = f s.

(** [m], if it returns, re-establishes [P]. *)
Definition preserves {A : Type} (P : state -> Prop) (m : M A) : Prop :=
  forall s a s', P s -> m s = Done a s' -> P s'.

(** The buffer is the array of [READ_AHEAD_BUFFER_SIZE] requests that
    [cache_init] allocated and its fill count stays inside it. *)
Definition buffer_ok (s : state) : Prop :=
  List.length (read_head_buffer s) = Z.to_nat READ_AHEAD_BUFFER_SIZE /\
  0 <= read_head_buffer_n s <= READ_AHEAD_BUFFER_SIZE.

(** The buffer and its fill count, as one component of the state. *)
Definition buffer_of (s : state) : list read_head_elem * Z :=
  (read_head_buffer s, read_head_buffer_n s).

(** ** External collaborators: kernel heap and free map *)

(** [malloc] / [calloc]: a null pointer ([None]) when the allocator fails,
    otherwise an address not handed out before. *)
Definition malloc : M (option Z) :=
  fun s =>
    let k := malloc_calls s in
    Done (if malloc_fails s k then None else Some (Z.of_nat k + 1))
         (set_malloc_calls (S k) s).

(** Index of the first clear bit of a bitmap, from bit [i] on. *)
Fixpoint first_clear (m : list bool) (i : Z) : option Z :=
  match m with
  | [] => None
  | b :: t => if b then first_clear t (i + 1) else Some i
  end.

(** Modelled from the spec: [free_map_allocate(n, *out_sector)] of the
    free-sector bitmap (filesys/free-map.c is not part of the sources),
    here for [n = 1] as at every call site: the first free sector is marked
    used and returned; [None] stands for the result [false], which leaves
    [*out_sector] untouched. *)
Definition free_map_allocate : M (option Z) :=
  fun s =>
    match first_clear (free_map s) 0 with
    | Some sec =>
        Done (Some sec) (set_free_map (set_nth (Z.to_nat sec) true (free_map s)) s)
    | None => Done None s
    end.

(** Modelled from the spec: [free_map_release(sector, n)] for [n = 1]
    marks the sector free. *)
Definition free_map_release (sec : Z) : M unit :=
  modify (fun s =>
    set_free_map (if sec <? 0 then free_map s
                  else set_nth (Z.to_nat sec) false (free_map s)) s).

(** [free_map_allocate (1, &x)] with its result ignored: the new value of
    [x], which is its old value [old] when no sector is free. *)
Definition allocate_into (old : Z) : M Z :=
  r <- free_map_allocate ;;
  ret (match r with Some sec => sec | None => old end).

(** ** filesys/inode.c: the inode layer *)

Definition INODE_MAGIC : Z := 0x494e4f44.

(** Modelled from the spec: sector 1 holds the root directory's inode
    ([ROOT_DIR_SECTOR] of filesys/filesys.h). *)
Definition ROOT_DIR_SECTOR : Z := 1.

(** The 128 words of the sector an on-disk inode occupies.  The [bool]
    [is_dir] is the low byte of word 21, the rest of the word is padding. *)
Definition inode_disk_words (d : inode_disk) : list Z :=
  blocks d ++
  [direct_usage d; indirect_used d; indirect_block_usage d; double_used d;
   double_l1_usage d; double_l2_usage d; sector_usage d; u32 (length d);
   magic d; is_dir d; parent d] ++
  unused d.

Definition sector_of_inode_disk (d : inode_disk) : list byte :=
  sector_of (words_bytes (inode_disk_words d)).

Definition inode_disk_of_sector (d : list byte) : inode_disk :=
  mk_inode_disk (words_of d 12)
    (word_at d 12) (word_at d 13) (word_at d 14) (word_at d 15)
    (word_at d 16) (word_at d 17) (word_at d 18) (s32 (word_at d 19))
    (word_at d 20) (word_at d 21) (word_at d 22)
    (map (word_at d) (seq 23 105)).

Definition with_blocks (b : list Z) (d : inode_disk) : inode_disk :=
  mk_inode_disk b (direct_usage d) (indirect_used d) (indirect_block_usage d)
    (double_used d) (double_l1_usage d) (double_l2_usage d) (sector_usage d)
    (length d) (magic d) (is_dir d) (parent d) (unused d).
Definition with_direct_usage (n : Z) (d : inode_disk) : inode_disk :=
  mk_inode_disk (blocks d) n (indirect_used d) (indirect_block_usage d)
    (double_used d) (double_l1_usage d) (double_l2_usage d) (sector_usage d)
    (length d) (magic d) (is_dir d) (parent d) (unused d).
Definition with_indirect_used (n : Z) (d : inode_disk) : inode_disk :=
  mk_inode_disk (blocks d) (direct_usage d) n (indirect_block_usage d)
    (double_used d) (double_l1_usage d) (double_l2_usage d) (sector_usage d)
    (length d) (magic d) (is_dir d) (parent d) (unused d).
Definition with_indirect_block_usage (n : Z) (d : inode_disk) : inode_disk :=
  mk_inode_disk (blocks d) (direct_usage d) (indirect_used d) n
    (double_used d) (double_l1_usage d) (double_l2_usage d) (sector_usage d)
    (length d) (magic d) (is_dir d) (parent d) (unused d).
Definition with_double_used (n : Z) (d : inode_disk) : inode_disk :=
  mk_inode_disk (blocks d) (direct_usage d) (indirect_used d)
    (indirect_block_usage d) n (double_l1_usage d) (double_l2_usage d)
    (sector_usage d) (length d) (magic d) (is_dir d) (parent d) (unused d).
Definition with_double_l1_usage (n : Z) (d : inode_disk) : inode_disk :=
  mk_inode_disk (blocks d) (direct_usage d) (indirect_used d)
    (indirect_block_usage d) (double_used d) n (double_l2_usage d)
    (sector_usage d) (length d) (magic d) (is_dir d) (parent d) (unused d).
Definition with_double_l2_usage (n : Z) (d : inode_disk) : inode_disk :=
  mk_inode_disk (blocks d) (direct_usage d) (indirect_used d)
    (indirect_block_usage d) (double_used d) (double_l1_usage d) n
    (sector_usage d) (length d) (magic d) (is_dir d) (parent d) (unused d).
Definition with_sector_usage (n : Z) (d : inode_disk) : inode_disk :=
  mk_inode_disk (blocks d) (direct_usage d) (indirect_used d)
    (indirect_block_usage d) (double_used d) (double_l1_usage d)
    (double_l2_usage d) n (length d) (magic d) (is_dir d) (parent d)
    (unused d).
Definition with_length (n : Z) (d : inode_disk) : inode_disk :=
  mk_inode_disk (blocks d) (direct_usage d) (indirect_used d)
    (indirect_block_usage d) (double_used d) (double_l1_usage d)
    (double_l2_usage d) (sector_usage d) n (magic d) (is_dir d) (parent d)
    (unused d).
Definition with_parent (n : Z) (d : inode_disk) : inode_disk :=
  mk_inode_disk (blocks d) (direct_usage d) (indirect_used d)
    (indirect_block_usage d) (double_used d) (double_l1_usage d)
    (double_l2_usage d) (sector_usage d) (length d) (magic d) (is_dir d) n
    (unused d).

Definition with_open_cnt (n : Z) (i : inode) : inode :=
  mk_inode (sector i) n (removed i) (deny_write_cnt i) (data i).
Definition with_removed (b : bool) (i : inode) : inode :=
  mk_inode (sector i) (open_cnt i) b (deny_write_cnt i) (data i).
Definition with_deny_write_cnt (n : Z) (i : inode) : inode :=
  mk_inode (sector i) (open_cnt i) (removed i) n (data i).
Definition with_inode_data (d : inode_disk) (i : inode) : inode :=
  mk_inode (sector i) (open_cnt i) (removed i) (deny_write_cnt i) d.

(** [a[i]] for an array of [List.length a] elements and a C index [i];
    reading outside the array is a fault. *)
Definition index {A : Type} (a : list A) (i : Z) : M A :=
  if i <? 0 then fault
  else match nth_error a (Z.to_nat i) with
       | Some x => ret x
       | None => fault
       end.

(** [*inode] for a pointer into the heap. *)
Definition deref (p : Z) : M inode :=
  fun s => match heap s p with Some i => Done i s | None => Fault end.

Definition store (p : Z) (i : inode) : M unit :=
  modify (fun s => set_heap (fun q => if q =? p then Some i else heap s q) s).

(** [free (inode)] *)
Definition free (p : Z) : M unit :=
  modify (fun s => set_heap (fun q => if q =? p then None else heap s q) s).

(** An uninitialised [block_sector_t x[128]] on the stack. *)
Definition stack_array : M (list Z) :=
  get (fun s => firstn 128 (junk s ++ repeat 0 128)).

(** [block_read (fs_device, sec, &x)] into a [block_sector_t x[128]]. *)
Definition read_index_block (sec : Z) : M (list Z) :=
  d <- block_read fs_device sec ;;
  ret (words_of d 128).

(** [DIV_ROUND_UP (size, BLOCK_SECTOR_SIZE)], computed in [int] and
    returned as [size_t]. *)
Definition bytes_to_sectors (size : Z) : Z :=
  u32 (Z.quot (s32 (size + BLOCK_SECTOR_SIZE - 1)) BLOCK_SECTOR_SIZE).

Definition byte_to_sector (ino : inode) (pos : Z) : M Z :=
  if pos <? length (data ino) then
    if pos <? 10 * BLOCK_SECTOR_SIZE then
      index (blocks (data ino)) (Z.quot pos BLOCK_SECTOR_SIZE)
    else if pos - 10 * BLOCK_SECTOR_SIZE <? 128 * BLOCK_SECTOR_SIZE then
      b10 <- index (blocks (data ino)) 10 ;;
      temp_blocks <- read_index_block b10 ;;
      index temp_blocks
        (Z.quot (pos - 10 * BLOCK_SECTOR_SIZE) BLOCK_SECTOR_SIZE)
    else
      b11 <- index (blocks (data ino)) 11 ;;
      temp_l1_blocks <- read_index_block b11 ;;
      let l1_index :=
        Z.quot (pos - (10 + 128) * BLOCK_SECTOR_SIZE)
               (128 * BLOCK_SECTOR_SIZE) in
      l2 <- index temp_l1_blocks l1_index ;;
      temp_l2_blocks <- read_index_block l2 ;;
      index temp_l2_blocks
        (Z.quot (Z.rem (pos - (10 + 128) * BLOCK_SECTOR_SIZE)
                       (128 * BLOCK_SECTOR_SIZE))
                BLOCK_SECTOR_SIZE)
  else ret (u32 (-1)).

(** The [for] loop of the indirect phase of [inode_disk_grow], from index
    [i] with [k = 128 - i] slots left. *)
Fixpoint grow_indirect (k : nat) (i : Z) (arr : list Z) (d : inode_disk)
    (remain : Z) : M (list Z * inode_disk * Z) :=
  match k with
  | O => ret (arr, d, remain)
  | S k' =>
      if remain >? 0 then
        old <- index arr i ;;
        b <- allocate_into old ;;
        block_write fs_device b zeros ;;
        grow_indirect k' (i + 1) (set_nth (Z.to_nat i) b arr)
          (with_sector_usage (u32 (sector_usage d + 1))
             (with_indirect_block_usage (u32 (indirect_block_usage d + 1)) d))
          (remain - 1)
      else ret (arr, d, remain)
  end.

(** The inner [for] loop of the doubly-indirect phase, over the entries
    [j] of one level-2 block. *)
Fixpoint grow_l2 (k : nat) (j : Z) (arr : list Z) (d : inode_disk)
    (remain : Z) : M (list Z * inode_disk * Z) :=
  match k with
  | O => ret (arr, d, remain)
  | S k' =>
      if remain >? 0 then
        old <- index arr j ;;
        b <- allocate_into old ;;
        block_write fs_device b zeros ;;
        let d1 :=
          with_sector_usage (u32 (sector_usage d + 1))
            (with_double_l2_usage (u32 (double_l2_usage d + 1)) d) in
        let d2 :=
          if j =? 127
          then with_double_l1_usage (u32 (double_l1_usage d1 + 1))
                 (with_double_l2_usage 0 d1)
          else d1 in
        grow_l2 k' (j + 1) (set_nth (Z.to_nat j) b arr) d2 (remain - 1)
      else ret (arr, d, remain)
  end.

(** The outer [for] loop of the doubly-indirect phase, over the entries
    [i] of the level-1 block. *)
Fixpoint grow_l1 (k : nat) (i : Z) (l1 : list Z) (d : inode_disk)
    (remain : Z) : M (list Z * inode_disk * Z) :=
  match k with
  | O => ret (l1, d, remain)
  | S k' =>
      if remain >? 0 then
        old <- index l1 i ;;
        r <- (if double_l2_usage d >? 0
              then l2 <- read_index_block old ;; ret (old, l2)
              else b <- allocate_into old ;;
                   l2 <- stack_array ;; ret (b, l2)) ;;
        let '(b, l2) := r in
        let l1' := set_nth (Z.to_nat i) b l1 in
        let j0 := double_l2_usage d in
        r2 <- grow_l2 (Z.to_nat (128 - j0)) j0 l2 d remain ;;
        let '(l2', d', remain') := r2 in
        block_write fs_device b (words_bytes l2') ;;
        grow_l1 k' (i + 1) l1' d' remain'
      else ret (l1, d, remain)
  end.

(** The [while (remain_sectors > 0)] loop of [inode_disk_grow]. *)
Fixpoint grow_loop (fuel : nat) (d : inode_disk) (remain : Z)
  : M inode_disk :=
  if remain >? 0 then
    match fuel with
    | O => diverge
    | S fuel' =>
        if direct_usage d <? 10 then
          old <- index (blocks d) (direct_usage d) ;;
          b <- allocate_into old ;;
          block_write fs_device b zeros ;;
          grow_loop fuel'
            (with_sector_usage (u32 (sector_usage d + 1))
               (with_direct_usage (u32 (direct_usage d + 1))
                  (with_blocks
                     (set_nth (Z.to_nat (direct_usage d)) b (blocks d)) d)))
            (remain - 1)
        else if indirect_block_usage d <? 128 then
          r <- (if indirect_block_usage d >? 0
                then b10 <- index (blocks d) 10 ;;
                     arr <- read_index_block b10 ;; ret (d, arr)
                else old <- index (blocks d) 10 ;;
                     b <- allocate_into old ;;
                     arr <- stack_array ;;
                     ret (with_blocks (set_nth 10 b (blocks d)) d, arr)) ;;
          let '(d1, arr) := r in
          let i0 := indirect_block_usage d1 in
          r2 <- grow_indirect (Z.to_nat (128 - i0)) i0 arr d1 remain ;;
          let '(arr', d2, remain') := r2 in
          b10 <- index (blocks d2) 10 ;;
          block_write fs_device b10 (words_bytes arr') ;;
          grow_loop fuel' (with_indirect_used 1 d2) remain'
        else
          r <- (if double_used d =? 1
                then b11 <- index (blocks d) 11 ;;
                     l1 <- read_index_block b11 ;; ret (d, l1)
                else old <- index (blocks d) 11 ;;
                     b <- allocate_into old ;;
                     l1 <- stack_array ;;
                     ret (with_blocks (set_nth 11 b (blocks d)) d, l1)) ;;
          let '(d1, l1) := r in
          let i0 := double_l1_usage d1 in
          r2 <- grow_l1 (Z.to_nat (128 - i0)) i0 l1 d1 remain ;;
          let '(l1', d2, remain') := r2 in
          b11 <- index (blocks d2) 11 ;;
          block_write fs_device b11 (words_bytes l1') ;;
          grow_loop fuel' (with_double_used 1 d2) remain'
    end
  else ret d.

(** [inode_disk_grow (disk_inode)]: the grown on-disk inode.  An iteration
    of the [while] loop that allocates nothing leaves the loop where it
    was, so more rounds than sectors to add means the loop never ends. *)
Definition inode_disk_grow (d : inode_disk) : M inode_disk :=
  let remain_sectors := s32 (bytes_to_sectors (length d) - sector_usage d) in
  if remain_sectors =? 0 then ret d
  else grow_loop (Z.to_nat remain_sectors) d remain_sectors.

Definition inode_create (sec len : Z) (isdir : bool) : M bool :=
  if len <? 0 then fault
  else
    m <- malloc ;;
    match m with
    | None => ret false
    | Some _ =>
        let disk_inode :=
          mk_inode_disk (repeat 0 12) 0 0 0 0 0 0 0 len INODE_MAGIC
            (if isdir then 1 else 0) ROOT_DIR_SECTOR (repeat 0 105) in
        grown <- inode_disk_grow disk_inode ;;
        cache_write fs_device sec (sector_of_inode_disk grown) ;;
        ret true
    end.

(** [inode_reopen (inode)] *)
Definition inode_reopen (p : option Z) : M (option Z) :=
  match p with
  | Some a =>
      i <- deref a ;;
      store a (with_open_cnt (s32 (open_cnt i + 1)) i) ;;
      ret (Some a)
  | None => ret None
  end.

(** The search of [open_inodes] at the head of [inode_open]. *)
Fixpoint find_open (l : list Z) (sec : Z) : M (option Z) :=
  match l with
  | [] => ret None
  | a :: t =>
      i <- deref a ;;
      if sector i =? sec then ret (Some a) else find_open t sec
  end.

Definition inode_open (sec : Z) : M (option Z) :=
  l <- get open_inodes ;;
  found <- find_open l sec ;;
  match found with
  | Some a => inode_reopen (Some a)
  | None =>
      m <- malloc ;;
      match m with
      | None => ret None
      | Some a =>
          modify (fun s => set_open_inodes (a :: open_inodes s) s) ;;
          d <- cache_read fs_device sec ;;
          store a (mk_inode sec 1 false 0 (inode_disk_of_sector d)) ;;
          ret (Some a)
      end
  end.

Definition inode_get_inumber (i : inode) : Z := sector i.
Definition inode_length (i : inode) : Z := length (data i).
Definition inode_isdir (i : inode) : bool := negb (is_dir (data i) mod 256 =? 0).
Definition inode_get_parent (i : inode) : Z := parent (data i).
Definition inode_get_sector (i : inode) : Z := sector i.

(** [list_remove (&inode->elem)] *)
Fixpoint list_remove (a : Z) (l : list Z) : list Z :=
  match l with
  | [] => []
  | b :: t => if b =? a then t else b :: list_remove a t
  end.

(** The [for] loop of the indirect branch of [free_inode]. *)
Fixpoint free_entries (k : nat) (i : Z) (bound : Z) (arr : list Z)
    (remain : Z) : M Z :=
  match k with
  | O => ret remain
  | S k' =>
      if (i <? bound) && (remain >? 0) then
        b <- index arr i ;;
        free_map_release b ;;
        free_entries k' (i + 1) bound arr (remain - 1)
      else ret remain
  end.

(** The outer [for] loop of the doubly-indirect branch of [free_inode]. *)
Fixpoint free_l1 (k : nat) (i : Z) (bound : Z) (l1 : list Z) (remain : Z)
  : M Z :=
  match k with
  | O => ret remain
  | S k' =>
      if (i <? bound) && (remain >? 0) then
        b <- index l1 i ;;
        l2 <- read_index_block b ;;
        remain' <- free_entries 128 0 128 l2 remain ;;
        free_map_release b ;;
        free_l1 k' (i + 1) bound l1 remain'
      else ret remain
  end.

(** The [while (remain_sectors > 0)] loop of [free_inode]. *)
Fixpoint free_loop (fuel : nat) (d : inode_disk) (remain : Z)
  : M inode_disk :=
  if remain >? 0 then
    match fuel with
    | O => diverge
    | S fuel' =>
        if direct_usage d >? 0 then
          b <- index (blocks d) (direct_usage d - 1) ;;
          free_map_release b ;;
          free_loop fuel' (with_direct_usage (u32 (direct_usage d - 1)) d)
            (remain - 1)
        else if indirect_used d =? 1 then
          b10 <- index (blocks d) 10 ;;
          arr <- read_index_block b10 ;;
          remain' <- free_entries (Z.to_nat (indirect_block_usage d))
                       0 (indirect_block_usage d) arr remain ;;
          free_map_release b10 ;;
          free_loop fuel' (with_indirect_used 0 d) remain'
        else if double_used d =? 1 then
          b11 <- index (blocks d) 11 ;;
          l1 <- read_index_block b11 ;;
          remain' <- free_l1 (Z.to_nat (double_l1_usage d))
                       0 (double_l1_usage d) l1 remain ;;
          free_map_release b11 ;;
          free_loop fuel' (with_double_used 0 d) remain'
        else diverge
    end
  else ret d.

(** [free_inode (inode)].  Every round of the [while] loop either frees a
    sector or clears one of the two flags, so [remain + 2] rounds not
    being enough means that it spins. *)
Definition free_inode (p : Z) : M unit :=
  i <- deref p ;;
  let remain_sectors := s32 (bytes_to_sectors (length (data i))) in
  if remain_sectors =? 0 then ret tt
  else
    d <- free_loop (Z.to_nat remain_sectors + 2) (data i) remain_sectors ;;
    store p (with_inode_data d i).

Definition inode_close (p : option Z) : M unit :=
  match p with
  | None => ret tt
  | Some a =>
      i <- deref a ;;
      let i1 := with_open_cnt (s32 (open_cnt i - 1)) i in
      store a i1 ;;
      if open_cnt i1 =? 0 then
        modify (fun s => set_open_inodes (list_remove a (open_inodes s)) s) ;;
        cache_write fs_device (sector i1) (sector_of_inode_disk (data i1)) ;;
        when (removed i1) (free_map_release (sector i1) ;; free_inode a) ;;
        free a
      else ret tt
  end.

Definition inode_remove (p : Z) : M unit :=
  i <- deref p ;;
  store p (with_removed true i).

(** [bounce = malloc (BLOCK_SECTOR_SIZE)] on first use: whether a bounce
    buffer is there afterwards. *)
Definition need_bounce (bounce : bool) : M bool :=
  if bounce then ret true
  else m <- malloc ;;
       ret (match m with Some _ => true | None => false end).

(** The [while (size > 0)] loop of [inode_read_at].  [buffer] is what has
    been copied to the caller's buffer so far, [bytes_read] bytes.  Every
    round that does not leave the loop copies at least one byte, so [fuel]
    rounds for [size <= fuel] always suffice. *)
Fixpoint read_loop (fuel : nat) (p : Z) (size offset bytes_read : Z)
    (buffer : list byte) (bounce : bool) : M (Z * list byte) :=
  if size >? 0 then
    match fuel with
    | O => diverge
    | S fuel' =>
        ino <- deref p ;;
        sector_idx <- byte_to_sector ino offset ;;
        let sector_ofs := Z.rem offset BLOCK_SECTOR_SIZE in
        let inode_left := s32 (inode_length ino - offset) in
        let sector_left := BLOCK_SECTOR_SIZE - sector_ofs in
        let min_left :=
          if inode_left <? sector_left then inode_left else sector_left in
        let chunk_size := if size <? min_left then size else min_left in
        if chunk_size <=? 0 then ret (bytes_read, buffer)
        else if (sector_ofs =? 0) && (chunk_size =? BLOCK_SECTOR_SIZE) then
          d <- cache_read fs_device sector_idx ;;
          read_loop fuel' p (size - chunk_size) (offset + chunk_size)
            (bytes_read + chunk_size) (buffer ++ d) bounce
        else
          ok <- need_bounce bounce ;;
          if ok then
            d <- cache_read fs_device sector_idx ;;
            read_loop fuel' p (size - chunk_size) (offset + chunk_size)
              (bytes_read + chunk_size)
              (buffer ++ firstn (Z.to_nat chunk_size)
                           (skipn (Z.to_nat sector_ofs) d))
              true
          else ret (bytes_read, buffer)
    end
  else ret (bytes_read, buffer).

(** [inode_read_at (inode, buffer_, size, offset)]: the number of bytes
    read and the bytes themselves. *)
Definition inode_read_at (p : Z) (size offset : Z) : M (Z * list byte) :=
  read_loop (Z.to_nat size) p size offset 0 [] false.

(** [memcpy (bounce + sector_ofs, buffer + bytes_written, chunk_size)] *)
Definition patch (bounce : list byte) (ofs : Z) (chunk : list byte)
  : list byte :=
  firstn (Z.to_nat ofs) bounce ++ chunk
  ++ skipn (Z.to_nat ofs + List.length chunk) bounce.

(** The [while (size > 0)] loop of [inode_write_at]; [source] is what is
    left of the caller's buffer, from [buffer + bytes_written] on. *)
Fixpoint write_loop (fuel : nat) (p : Z) (size offset bytes_written : Z)
    (source : list byte) (bounce : bool) : M Z :=
  if size >? 0 then
    match fuel with
    | O => diverge
    | S fuel' =>
        ino <- deref p ;;
        sector_idx <- byte_to_sector ino offset ;;
        let sector_ofs := Z.rem offset BLOCK_SECTOR_SIZE in
        let inode_left := s32 (inode_length ino - offset) in
        let sector_left := BLOCK_SECTOR_SIZE - sector_ofs in
        let min_left :=
          if inode_left <? sector_left then inode_left else sector_left in
        let chunk_size := if size <? min_left then size else min_left in
        if chunk_size <=? 0 then ret bytes_written
        else if (sector_ofs =? 0) && (chunk_size =? BLOCK_SECTOR_SIZE) then
          cache_write fs_device sector_idx source ;;
          write_loop fuel' p (size - chunk_size) (offset + chunk_size)
            (bytes_written + chunk_size)
            (skipn (Z.to_nat chunk_size) source) bounce
        else
          ok <- need_bounce bounce ;;
          if ok then
            old <- (if (sector_ofs >? 0) || (chunk_size <? sector_left)
                    then cache_read fs_device sector_idx
                    else ret zeros) ;;
            cache_write fs_device sector_idx
              (patch old sector_ofs (firstn (Z.to_nat chunk_size) source)) ;;
            write_loop fuel' p (size - chunk_size) (offset + chunk_size)
              (bytes_written + chunk_size)
              (skipn (Z.to_nat chunk_size) source) true
          else ret bytes_written
    end
  else ret bytes_written.

(** [inode_write_at (inode, buffer_, size, offset)]; the caller's buffer
    holds at least [size] bytes. *)
Definition inode_write_at (p : Z) (buffer : list byte) (size offset : Z)
  : M Z :=
  ino <- deref p ;;
  if negb (deny_write_cnt ino =? 0) then ret 0
  else
    (if s32 (offset + size) >? inode_length ino then
       let d := with_length (s32 (offset + size)) (data ino) in
       store p (with_inode_data d ino) ;;
       grown <- inode_disk_grow d ;;
       store p (with_inode_data grown ino)
     else ret tt) ;;
    write_loop (Z.to_nat size) p size offset 0 buffer false.

Definition inode_deny_write (p : Z) : M unit :=
  i <- deref p ;;
  let i1 := with_deny_write_cnt (s32 (deny_write_cnt i + 1)) i in
  store p i1 ;;
  if deny_write_cnt i1 <=? open_cnt i1 then ret tt else fault.

Definition inode_allow_write (p : Z) : M unit :=
  i <- deref p ;;
  if (deny_write_cnt i >? 0) && (deny_write_cnt i <=? open_cnt i)
  then store p (with_deny_write_cnt (s32 (deny_write_cnt i - 1)) i)
  else fault.

Definition inode_set_parent (parent_sec child : Z) : M bool :=
  c <- inode_open child ;;
  match c with
  | Some a =>
      i <- deref a ;;
      store a (with_inode_data (with_parent parent_sec (data i)) i) ;;
      inode_close (Some a) ;;
      ret true
  | None => ret false
  end.

(** ** The byte-to-sector mapping as the design document words it *)

(** Entry [i] of the index block stored in sector [sec] of the
    file-system device. *)
Definition index_entry (s : state) (sec : Z) (i : Z) : Z :=
  word_at (disk s fs_device sec) (Z.to_nat i).

(** With [S] the sector size: [blocks[p/S]] below [10·S]; below
    [(10+128)·S] the entry [(p − 10·S)/S] of the block at [blocks[10]];
    beyond, with [q = p − (10+128)·S], the entry [(q mod 128·S)/S] of the
    level-2 block found at entry [q/(128·S)] of the block at [blocks[11]]. *)
Definition sector_of_byte (s : state) (d : inode_disk) (p : Z) : Z :=
  let S := BLOCK_SECTOR_SIZE in
  if p <? 10 * S then nth (Z.to_nat (p / S)) (blocks d) 0
  else if p <? (10 + 128) * S then
    index_entry s (nth 10 (blocks d) 0) ((p - 10 * S) / S)
  else
    let q := p - (10 + 128) * S in
    let l2 := index_entry s (nth 11 (blocks d) 0) (q / (128 * S)) in
    index_entry s l2 ((q mod (128 * S)) / S).

(** The device reads the mapping performs on its way, most recent first. *)
Definition index_reads (s : state) (d : inode_disk) (p : Z) : list io_event :=
  let S := BLOCK_SECTOR_SIZE in
  if p <? 10 * S then []
  else if p <? (10 + 128) * S then [IoRead fs_device (nth 10 (blocks d) 0)]
  else
    let q := p - (10 + 128) * S in
    [IoRead fs_device (index_entry s (nth 11 (blocks d) 0) (q / (128 * S)));
     IoRead fs_device (nth 11 (blocks d) 0)].

(** The file size the index tree of one inode can address:
    10 + 128 + 128·128 sectors. *)
Definition MAX_FILE_BYTES : Z := (10 + 128 + 128 * 128) * BLOCK_SECTOR_SIZE.

(** [inode->deny_write_cnt] of the inode at address [a], if there is one. *)
Definition deny_write_cnt_of (s : state) (a : Z) : option Z :=
  option_map deny_write_cnt (heap s a).

(** ** The table of open inodes *)

(** [inode_init]: [list_init (&open_inodes)]. *)
Definition inode_init (s : state) : state := set_open_inodes [] s.

(** The sector of the in-memory inode at address [a], if there is one. *)
Definition sector_at (s : state) (a : Z) : option Z :=
  option_map sector (heap s a).

(** Single instance: the in-memory inodes are exactly the members of
    [open_inodes], each listed once, and no two of them are for the same
    sector.  (The last part bounds the addresses in use, so that the next
    one [malloc] hands out is new.) *)
Definition single_instance (s : state) : Prop :=
  NoDup (open_inodes s) /\
  (forall a, In a (open_inodes s) <-> heap s a <> None) /\
  (forall a b sec,
      sector_at s a = Some sec -> sector_at s b = Some sec -> a = b) /\
  (forall a, In a (open_inodes s) -> a <= Z.of_nat (malloc_calls s)).

(** The steps by which the file system moves on: the cache's own steps and
    the calls into the inode layer, with any arguments. *)
Inductive inode_step : state -> state -> Prop :=
| step_cache (s s' : state) : cache_step s s' -> inode_step s s'
| step_inode_create (sec len : Z) (isdir r : bool) (s s' : state) :
    inode_create sec len isdir s = Done r s' -> inode_step s s'
| step_inode_open (sec : Z) (r : option Z) (s s' : state) :
    inode_open sec s = Done r s' -> inode_step s s'
| step_inode_reopen (p r : option Z) (s s' : state) :
    inode_reopen p s = Done r s' -> inode_step s s'
| step_inode_close (p : option Z) (s s' : state) :
    inode_close p s = Done tt s' -> inode_step s s'
| step_inode_remove (p : Z) (s s' : state) :
    inode_remove p s = Done tt s' -> inode_step s s'
| step_inode_read_at (p size offset : Z) (r : Z * list byte) (s s' : state) :
    inode_read_at p size offset s = Done r s' -> inode_step s s'
| step_inode_write_at (p : Z) (buf : list byte) (size offset r : Z)
    (s s' : state) :
    inode_write_at p buf size offset s = Done r s' -> inode_step s s'
| step_inode_deny_write (p : Z) (s s' : state) :
    inode_deny_write p s = Done tt s' -> inode_step s s'
| step_inode_allow_write (p : Z) (s s' : state) :
    inode_allow_write p s = Done tt s' -> inode_step s s'
| step_inode_set_parent (parent_sec child : Z) (r : bool) (s s' : state) :
    inode_set_parent parent_sec child s = Done r s' -> inode_step s s'.

(** The states reachable from boot, when no in-memory inode exists yet. *)
Inductive inode_reachable : state -> Prop :=
| reach_boot (s : state) :
    (forall a, heap s a = None) -> inode_reachable (inode_init (cache_init s))
| reach_inode_step (s s' : state) :
    inode_reachable s -> inode_step s s' -> inode_reachable s'.

(** [s'] has the heap and the list of open inodes of [s], and no fewer
    allocations behind it. *)
Definition table_le (s s' : state) : Prop :=
  heap s' = heap s /\ open_inodes s' = open_inodes s /\
  (malloc_calls s <= malloc_calls s')%nat.

(** [m] does not touch the in-memory inodes. *)
Definition quiet {A : Type} (m : M A) : Prop :=
  forall s r s', m s = Done r s' -> table_le s s'.

(** Partial-correctness triples for kernel code. *)
Definition hoare {A : Type} (P : state -> Prop) (m : M A)
    (Q : A -> state -> Prop) : Prop :=
  forall s r s', P s -> m s = Done r s' -> Q r s'.

(** [s'] has the open inodes of [s], each for the sector it was for. *)
Definition sectors_le (s s' : state) : Prop :=
  open_inodes s' = open_inodes s /\
  (forall a, sector_at s' a = sector_at s a) /\
  (malloc_calls s <= malloc_calls s')%nat.

(** [m] neither opens nor closes an inode nor changes the sector of one,
    provided the inode at [p], if [p] is given, is for sector [sec]. *)
Definition tame_at {A : Type} (p : option (Z * Z)) (m : M A) : Prop :=
  forall s r s',
    (forall a sec, p = Some (a, sec) -> sector_at s a = Some sec) ->
    m s = Done r s' -> sectors_le s s'.

(** The heap, the list of open inodes and the allocation count, as one
    component of the state. *)
Definition table_of (s : state) : (Z -> option inode) * list Z * nat :=
  (heap s, open_inodes s, malloc_calls s).

(** The state in which the inode at [a] has been replaced by [x]. *)
Definition stored (a : Z) (x : inode) (s : state) : state :=
  set_heap (fun q => if q =? a then Some x else heap s q) s.

(** ** What a read through the cache sees *)

(** The line that caches sector [sec] of device [dev], if any. *)
Definition cached (s : state) (dev sec : Z) : option nat :=
  scan_find (cache s) O dev sec.

(** The contents of a sector as the cache presents them: the cached copy
    if there is one, the device's otherwise. *)
Definition sector_view (s : state) (dev sec : Z) : list byte :=
  match cached s dev sec with
  | Some i => disk_data (nth i (cache s) empty_line)
  | None => sector_of (disk s dev sec)
  end.

(** A miss can be served: some line is invalid or was last used before
    the tick the clock shows next. *)
Definition evictable (s : state) : Prop :=
  Exists (fun l => valid l = false \/ time l < clock s (clock_reads s))
    (cache s).

(** The cache is at rest and can serve a read of ([dev], [sec]): no line
    is held, the sector is cached or a line can be evicted for it, and the
    read-ahead buffer has room for one more request. *)
Definition cache_ready (s : state) (dev sec : Z) : Prop :=
  List.length (cache s) = CACHE_SIZE /\
  Forall (fun l => sema l = 1%nat) (cache s) /\
  (cached s dev sec <> None \/ evictable s) /\
  buffer_ok s /\ read_head_buffer_n s < READ_AHEAD_BUFFER_SIZE.

(** ** filesys/directory.c and filesys/filesys.c: directories and paths

    The directory layer reads and writes a directory one [struct dir_entry]
    at a time, with [inode_read_at] and [inode_write_at] at multiples of
    [sizeof e].  Here the data of an inode is seen as what those reads
    return: its array of entries.  An in-memory inode is named by its
    sector (there is one per sector), a [struct dir *] by the sector of
    its inode, a null pointer by [None]; memory allocation is taken to
    succeed, and the counting of openers is left to the inode layer.  A C
    string is the [string] of its characters before the terminator.

    The same functions with the inode layer underneath them, where an
    allocation, a cache access or a transfer can fail, are the module
    [OnDisk] further down; that [lookup], [dir_lookup] and [dir_is_empty]
    of this section return on the entries of a directory what those
    return on its sector is shown under "The directory model of the path
    resolver". *)

Definition NAME_MAX : nat := 14.

(** Modelled from the spec: [PATH_MAX] is 256 (its definition is not part
    of the sources at hand). *)
Definition PATH_MAX : nat := 256.

(** filesys/directory.c, [struct dir_entry]. *)
Record dir_entry : Type := mk_dir_entry {
  inode_sector : Z;
  name : string;
  in_use : bool
}.

(** The file system as the directory layer sees it. *)
Record tree : Type := mk_tree {
  (** the data of the inode in a sector, as an array of entries *)
  entries : Z -> list dir_entry;
  (** [inode_isdir] of the inode in a sector *)
  isdir : Z -> bool;
  (** the inodes [inode_remove] has marked, most recent first *)
  removed_inodes : list Z
}.

(** What [filesys_remove] consults of the calling thread: the inode of its
    working directory [cur_dir] and the inodes of its open files, in the
    order of the list [files]. *)
Record thread : Type := mk_thread {
  cur_dir : Z;
  files : list Z
}.

Definition slash : ascii := "/"%char.

(** [strlcpy (dst, src, size)] for [size > 0]: what [dst] holds. *)
Definition strlcpy (src : string) (size : nat) : string :=
  substring 0 (size - 1) src.

(** The three loops at the head of [find_dir] that drop every '/' that
    follows a '/'; [prev] tells whether the character before was one. *)
Fixpoint collapse_from (prev : bool) (s : string) : string :=
  match s with
  | EmptyString => EmptyString
  | String c r =>
      if Ascii.eqb c slash then
        if prev then collapse_from true r
        else String c (collapse_from true r)
      else String c (collapse_from false r)
  end.

Definition collapse (s : string) : string := collapse_from false s.

(** [strtok_r] with the delimiter "/": skip the delimiters in front, ... *)
Fixpoint skip_delim (s : string) : string :=
  match s with
  | EmptyString => EmptyString
  | String c r => if Ascii.eqb c slash then skip_delim r else s
  end.

(** ... then cut the token off at the next delimiter: the token and what
    [save_ptr] is left pointing at. *)
Fixpoint take_token (s : string) : string * string :=
  match s with
  | EmptyString => (EmptyString, EmptyString)
  | String c r =>
      if Ascii.eqb c slash then (EmptyString, r)
      else let '(tok, rest) := take_token r in (String c tok, rest)
  end.

Definition strtok_r (s : string) : option (string * string) :=
  match skip_delim s with
  | EmptyString => None
  | s' => Some (take_token s')
  end.

(** The tokens the [for] loop of [find_dir] is run for, in order.  Every
    call of [strtok_r] but the last consumes a character, so
    [String.length s + 1] calls reach the end. *)
Fixpoint tokens (fuel : nat) (s : string) : list string :=
  match fuel with
  | O => []
  | S fuel' =>
      match strtok_r s with
      | None => []
      | Some (tok, rest) => tok :: tokens fuel' rest
      end
  end.

(** filesys/directory.c, [lookup]: the first entry in use with the name,
    and its index. *)
Fixpoint lookup_from (es : list dir_entry) (nm : string) (i : nat)
  : option (dir_entry * nat) :=
  match es with
  | [] => None
  | e :: t =>
      if in_use e && String.eqb nm (name e) then Some (e, i)
      else lookup_from t nm (S i)
  end.

Definition lookup (t : tree) (dir : Z) (nm : string)
  : option (dir_entry * nat) :=
  lookup_from (entries t dir) nm O.

(** [dir_lookup (dir, name, &inode)]: the inode found, [None] for the
    result [false]. *)
Definition dir_lookup (t : tree) (dir : Z) (nm : string) : option Z :=
  match lookup t dir nm with
  | Some (e, _) => Some (inode_sector e)
  | None => None
  end.

Inductive find_result : Type :=
| FindFault
| FindFalse
| FindTrue (inode : Z) (last_name : string).

(** The [for] loop of [find_dir] over the tokens still to come; [dir] is
    the directory being descended into, [inode] and [last_name] are what
    the two result parameters hold. *)
Fixpoint find_dir_loop (t : tree) (toks : list string) (dir : option Z)
    (inode : Z) (last_name : string) (not_found : bool) : find_result :=
  match toks with
  | [] => FindTrue inode last_name
  | token :: rest =>
      if not_found || (NAME_MAX <? String.length token)%nat then FindFalse
      else
        match dir with
        | None => FindFault
        | Some d =>
            let last_name' := strlcpy token (NAME_MAX + 1) in
            match dir_lookup t d token with
            | None => find_dir_loop t rest None d last_name' true
            | Some next =>
                find_dir_loop t rest (Some next) d last_name' not_found
            end
        end
  end.

(** The last character of a string, [name_[strlen (name_) - 1]]; there is
    none in the empty string, where the C expression reads the byte in
    front of the string. *)
Fixpoint last_char (s : string) : option ascii :=
  match s with
  | EmptyString => None
  | String c EmptyString => Some c
  | String _ r => last_char r
  end.

(** [find_dir (name_, inode, last_name)]; [last_name0] is what the
    caller's buffer holds on entry. *)
Definition find_dir (t : tree) (th : thread) (name_ : string)
    (last_name0 : string) : find_result :=
  let temp_name := strlcpy name_ (PATH_MAX + 1) in
  let nm := collapse temp_name in
  let dir :=
    match nm with
    | String c _ => if Ascii.eqb c slash then ROOT_DIR_SECTOR else cur_dir th
    | EmptyString => cur_dir th
    end in
  match find_dir_loop t (tokens (S (String.length nm)) nm) (Some dir) dir
          last_name0 false with
  | FindTrue inode last_name =>
      match last_char name_ with
      | None => FindFault
      | Some c =>
          if Ascii.eqb c slash
          then FindTrue inode (strlcpy "." (NAME_MAX + 1))
          else FindTrue inode last_name
      end
  | r => r
  end.

(** [dir_is_empty (dir)] *)
Fixpoint dir_is_empty_from (es : list dir_entry) : bool :=
  match es with
  | [] => true
  | e :: t =>
      if in_use e && negb (String.eqb (name e) ".")
                  && negb (String.eqb (name e) "..")
      then false
      else dir_is_empty_from t
  end.

Definition dir_is_empty (t : tree) (dir : Z) : bool :=
  dir_is_empty_from (entries t dir).

Definition with_in_use (b : bool) (e : dir_entry) : dir_entry :=
  mk_dir_entry (inode_sector e) (name e) b.

(** [dir_remove (dir, name)]: the entry is marked free on disk and its
    inode is marked removed. *)
Definition dir_remove (t : tree) (dir : Z) (nm : string) : bool * tree :=
  match lookup t dir nm with
  | None => (false, t)
  | Some (e, i) =>
      (true,
       mk_tree
         (fun d => if d =? dir
                   then set_nth i (with_in_use false e) (entries t dir)
                   else entries t d)
         (isdir t)
         (inode_sector e :: removed_inodes t))
  end.

(** The loop of [filesys_remove] over the calling thread's open files:
    whether it comes to its [return false]. *)
Fixpoint denies_removal (t : tree) (th : thread) (fs : list Z) : bool :=
  match fs with
  | [] => false
  | f :: rest =>
      if isdir t f && (f =? cur_dir th) then true
      else denies_removal t th rest
  end.

(** [filesys_remove (name)]: the result and the file system afterwards;
    [None] where [find_dir] faults. *)
Definition filesys_remove (t : tree) (th : thread) (nm : string)
    (find_name0 : string) : option (bool * tree) :=
  match find_dir t th nm find_name0 with
  | FindFault => None
  | FindFalse => Some (false, t)
  | FindTrue dir find_name =>
      match dir_lookup t dir find_name with
      | Some inode_new =>
          if isdir t inode_new then
            if dir_is_empty t inode_new then
              if denies_removal t th (files th) then Some (false, t)
              else Some (true, snd (dir_remove t dir find_name))
            else Some (false, t)
          else Some (dir_remove t dir find_name)
      | None => Some (dir_remove t dir find_name)
      end
  end.

(** ** Path resolution as the design document words it *)

(** The components of a path: its maximal runs of characters other than
    '/'. *)
Fixpoint components_from (cur : string) (s : string) : list string :=
  match s with
  | EmptyString =>
      match cur with EmptyString => [] | _ => [cur] end
  | String c r =>
      if Ascii.eqb c slash then
        match cur with
        | EmptyString => components_from EmptyString r
        | _ => cur :: components_from EmptyString r
        end
      else components_from (cur ++ String c EmptyString) r
  end.

Definition components (s : string) : list string :=
  components_from EmptyString s.

(** The directory reached from [d] by looking up one component after the
    other. *)
Fixpoint descend (t : tree) (d : Z) (comps : list string) : option Z :=
  match comps with
  | [] => Some d
  | c :: rest =>
      match dir_lookup t d c with
      | Some next => descend t next rest
      | None => None
      end
  end.

(** Where the walk starts: at the root for a path with a leading '/', at
    the working directory otherwise. *)
Definition start_dir (th : thread) (path : string) : Z :=
  match path with
  | String c _ => if Ascii.eqb c slash then ROOT_DIR_SECTOR else cur_dir th
  | EmptyString => cur_dir th
  end.

Definition ends_in_slash (path : string) : bool :=
  match last_char path with
  | Some c => Ascii.eqb c slash
  | None => false
  end.

Definition too_long (c : string) : Prop := (NAME_MAX < String.length c)%nat.

(** ** The cache at rest and what it shows *)

(** The device contents after [block_write] of line [l] to its recorded
    place. *)
Definition written (l : cache_block) (d : Z -> Z -> list byte)
  : Z -> Z -> list byte :=
  fun dv sc =>
    if (dv =? block l) && (sc =? disk_sector l)
    then sector_of (disk_data l) else d dv sc.

(** Between two operations: the array has its 64 lines, no line is held,
    every line holds one sector's worth of data, an invalid line is not
    dirty, no two valid lines are for the same sector, and a valid line
    that is not dirty holds what the device holds. *)
Definition cache_inv (s : state) : Prop :=
  List.length (cache s) = CACHE_SIZE /\
  Forall (fun l => sema l = 1%nat) (cache s) /\
  Forall (fun l => List.length (disk_data l) = Z.to_nat BLOCK_SECTOR_SIZE)
         (cache s) /\
  Forall (fun l => valid l = false -> dirty l = false) (cache s) /\
  (forall i j li lj,
      nth_error (cache s) i = Some li -> nth_error (cache s) j = Some lj ->
      valid li = true -> valid lj = true ->
      block li = block lj -> disk_sector li = disk_sector lj -> i = j) /\
  Forall (fun l => valid l = true -> dirty l = false ->
                   disk_data l = sector_of (disk s (block l) (disk_sector l)))
         (cache s).

(** The line [cache_read] leaves behind: the line it found, touched, or
    a clean line with the device's copy of the sector. *)
Definition line_read (hit : bool) (l : cache_block) (t dev sec : Z)
    (d : list byte) : cache_block :=
  if hit then with_time t l
  else mk_cache_block false true sec t 1 dev (sector_of d).

(** The device after [flush_cache] has gone over the lines [ls]. *)
Definition flushed (ls : list cache_block) (d : Z -> Z -> list byte)
  : Z -> Z -> list byte :=
  fold_left (fun d l => if dirty l then written l d else d) ls d.

(** ** On-disk inodes that fit their sector *)

(** The words of an on-disk inode are 32-bit values, its arrays have the
    declared sizes, and its length is an [off_t]. *)
Definition is_word (w : Z) : Prop := 0 <= w < 2 ^ 32.

Definition inode_disk_ok (d : inode_disk) : Prop :=
  List.length (blocks d) = 12%nat /\ Forall is_word (blocks d) /\
  is_word (direct_usage d) /\ is_word (indirect_used d) /\
  is_word (indirect_block_usage d) /\ is_word (double_used d) /\
  is_word (double_l1_usage d) /\ is_word (double_l2_usage d) /\
  is_word (sector_usage d) /\ - 2 ^ 31 <= length d < 2 ^ 31 /\
  is_word (magic d) /\ is_word (is_dir d) /\ is_word (parent d) /\
  List.length (unused d) = 105%nat /\ Forall is_word (unused d).

(** What the cache never touches: the free map, the allocator, the
    in-memory inodes, the stack contents and the device sizes. *)
Definition rest_of (s : state)
  : list bool * (nat -> bool) * nat * (Z -> option inode) * list Z * list Z
    * (Z -> Z) :=
  (free_map s, malloc_fails s, malloc_calls s, heap s, open_inodes s, junk s,
   dev_size s).

(** The inode [inode_create] lays out for an empty file or directory. *)
Definition empty_inode_disk (isdir : bool) : inode_disk :=
  mk_inode_disk (repeat 0 12) 0 0 0 0 0 0 0 0 INODE_MAGIC
    (if isdir then 1 else 0) ROOT_DIR_SECTOR (repeat 0 105).

(** The free map after [free_map_release] of one sector, and of the
    sectors of a list, first to last. *)
Definition release (b : Z) (m : list bool) : list bool :=
  if b <? 0 then m else set_nth (Z.to_nat b) false m.

Definition release_all (bs : list Z) (m : list bool) : list bool :=
  fold_left (fun m b => release b m) bs m.


(** ** filesys/directory.c over the inode layer

    The functions of filesys/directory.c with the inode layer underneath
    them: a directory is the file of its inode, a [struct dir_entry] is
    the [sizeof e] = 20 bytes that [inode_read_at] delivers and
    [inode_write_at] stores (the sector number in bytes 0 to 3, the name
    in bytes 4 to 18, the flag in byte 19), and every allocation, cache
    access and transfer can end the way it does in the inode layer.  A
    [struct dir *] is the structure it points to, a null pointer [None];
    the memory of a [struct dir] is not part of [heap], which holds the
    in-memory inodes, so [free (dir)] leaves the state as it is. *)

Module OnDisk.

(** [sizeof (struct dir_entry)] *)
Definition ENTRY_SIZE : Z := 20.

(** filesys/directory.c, [struct dir]. *)
Record dir : Type := mk_dir {
  dir_inode : Z;
  dir_pos : Z
}.

(** The fields of a [struct dir_entry] in memory. *)
Definition entry_sector (e : list byte) : Z := word_at e 0.
Definition entry_name (e : list byte) : list byte := firstn 15 (skipn 4 e).
Definition entry_in_use (e : list byte) : bool :=
  negb (byte_val (nth 19 e x00) =? 0).

Definition set_entry_sector (sec : Z) (e : list byte) : list byte :=
  word_bytes sec ++ skipn 4 e.
Definition set_entry_in_use (b : bool) (e : list byte) : list byte :=
  firstn 19 e ++ [if b then x01 else x00].

(** The characters of a C string: those in front of the terminator. *)
Fixpoint c_chars (l : list byte) : list byte :=
  match l with
  | [] => []
  | c :: r => if Byte.eqb c x00 then [] else c :: c_chars r
  end.

Definition chars (nm : string) : list byte :=
  c_chars (list_byte_of_string nm).

(** [strlen (buf)] for a character array that ends with [buf]: [None]
    when there is no terminator in it, where [strlen] reads on behind
    the array. *)
Fixpoint strlen_in (buf : list byte) : option nat :=
  match buf with
  | [] => None
  | c :: r => if Byte.eqb c x00 then Some O else option_map S (strlen_in r)
  end.

(** [strcmp (a, buf) == 0] for the string with the characters [a] and a
    character array that ends with [buf]: [None] when the comparison
    reads on behind the array. *)
Fixpoint str_eq (a : list byte) (buf : list byte) : option bool :=
  match buf with
  | [] => None
  | c :: r =>
      match a with
      | [] => Some (Byte.eqb c x00)
      | x :: a' => if Byte.eqb x c then str_eq a' r else Some false
      end
  end.

(** [strlcpy (e.name, name, sizeof e.name)]: the characters that fit, a
    terminator, and behind it what the field held before. *)
Definition set_entry_name (nm : string) (e : list byte) : list byte :=
  let c := firstn (NAME_MAX) (chars nm) in
  firstn 4 e
  ++ (c ++ [x00] ++ skipn (List.length c + 1) (entry_name e))
  ++ skipn 19 e.

(** An uninitialised [struct dir_entry e] on the stack. *)
Definition stack_entry : M (list byte) :=
  get (fun s => firstn 20 (words_bytes (junk s) ++ repeat x00 20)).

(** [inode_read_at (inode, &e, sizeof e, ofs)]: the count returned and
    what [e] holds afterwards, the bytes read in front of what was there
    before. *)
Definition read_entry (p : Z) (e : list byte) (ofs : Z)
  : M (Z * list byte) :=
  r <- inode_read_at p ENTRY_SIZE ofs ;;
  ret (fst r, snd r ++ skipn (List.length (snd r)) e).

(** The number of rounds the loops over the entries of a directory can
    take: a round that does not leave the loop has read a whole entry
    inside the file, [ENTRY_SIZE] bytes further on than the one before. *)
Definition entry_rounds (p : Z) : M nat :=
  i <- deref p ;;
  ret (S (Z.to_nat (inode_length i / ENTRY_SIZE))).

(** [dir_create (sector, entry_cnt)] *)
Definition dir_create (sec entry_cnt : Z) : M bool :=
  inode_create sec (s32 (u32 (entry_cnt * ENTRY_SIZE))) true.

(** [dir_open (inode)] *)
Definition dir_open (inode : option Z) : M (option dir) :=
  m <- malloc ;;
  match inode, m with
  | Some i, Some _ => ret (Some (mk_dir i (2 * ENTRY_SIZE)))
  | _, _ => inode_close inode ;; ret None
  end.

Definition dir_open_root : M (option dir) :=
  i <- inode_open ROOT_DIR_SECTOR ;;
  dir_open i.

Definition dir_reopen (d : dir) : M (option dir) :=
  i <- inode_reopen (Some (dir_inode d)) ;;
  dir_open i.

Definition dir_close (d : option dir) : M unit :=
  match d with
  | Some d => inode_close (Some (dir_inode d))
  | None => ret tt
  end.

Definition dir_get_inode (d : dir) : Z := dir_inode d.

(** The [for] loop of [lookup], from offset [ofs] on: the entry found and
    its offset as an [off_t]. *)
Fixpoint lookup_from (fuel : nat) (d : dir) (nm : string) (e : list byte)
    (ofs : Z) : M (option (list byte * Z)) :=
  match fuel with
  | O => diverge
  | S fuel' =>
      r <- read_entry (dir_inode d) e (s32 ofs) ;;
      if fst r =? ENTRY_SIZE then
        if entry_in_use (snd r) then
          match str_eq (chars nm) (skipn 4 (snd r)) with
          | None => fault
          | Some true => ret (Some (snd r, s32 ofs))
          | Some false =>
              lookup_from fuel' d nm (snd r) (u32 (ofs + ENTRY_SIZE))
          end
        else lookup_from fuel' d nm (snd r) (u32 (ofs + ENTRY_SIZE))
      else ret None
  end.

(** [lookup (dir, name, ep, ofsp)]: [None] for the result [false]. *)
Definition lookup (d : dir) (nm : string) : M (option (list byte * Z)) :=
  fuel <- entry_rounds (dir_inode d) ;;
  e <- stack_entry ;;
  lookup_from fuel d nm e 0.

(** [dir_lookup (dir, name, &inode)]: what [*inode] is set to; the result
    is whether that is a null pointer. *)
Definition dir_lookup (d : dir) (nm : string) : M (option Z) :=
  r <- lookup d nm ;;
  match r with
  | Some (e, _) => inode_open (entry_sector e)
  | None => ret None
  end.

(** The second [for] loop of [dir_add]: what [e] holds and the offset
    when the loop is left. *)
Fixpoint free_slot_from (fuel : nat) (d : dir) (e : list byte) (ofs : Z)
  : M (list byte * Z) :=
  match fuel with
  | O => diverge
  | S fuel' =>
      r <- read_entry (dir_inode d) e ofs ;;
      if fst r =? ENTRY_SIZE then
        if entry_in_use (snd r)
        then free_slot_from fuel' d (snd r) (s32 (ofs + ENTRY_SIZE))
        else ret (snd r, ofs)
      else ret (snd r, ofs)
  end.

(** [dir_add (dir, name, inode_sector)] *)
Definition dir_add (d : dir) (nm : string) (sec : Z) : M bool :=
  if match chars nm with [] => true | _ => false end
     || (NAME_MAX <? List.length (chars nm))%nat
  then ret false
  else
    found <- lookup d nm ;;
    match found with
    | Some _ => ret false
    | None =>
        fuel <- entry_rounds (dir_inode d) ;;
        e0 <- stack_entry ;;
        slot <- free_slot_from fuel d e0 0 ;;
        let e :=
          set_entry_sector sec
            (set_entry_name nm (set_entry_in_use true (fst slot))) in
        n <- inode_write_at (dir_inode d) e ENTRY_SIZE (snd slot) ;;
        ret (n =? ENTRY_SIZE)
    end.

(** [dir_remove (dir, name)] *)
Definition dir_remove (d : dir) (nm : string) : M bool :=
  found <- lookup d nm ;;
  match found with
  | None => ret false
  | Some (e, ofs) =>
      inode <- inode_open (entry_sector e) ;;
      match inode with
      | None => ret false
      | Some i =>
          n <- inode_write_at (dir_inode d) (set_entry_in_use false e)
                 ENTRY_SIZE ofs ;;
          if n =? ENTRY_SIZE then
            inode_remove i ;;
            inode_close (Some i) ;;
            ret true
          else
            inode_close (Some i) ;;
            ret false
      end
  end.

(** The [while] loop of [dir_readdir]: the name stored, if any, and
    [dir->pos] afterwards. *)
Fixpoint readdir_from (fuel : nat) (p : Z) (e : list byte) (pos : Z)
  : M (option (list byte) * Z) :=
  match fuel with
  | O => diverge
  | S fuel' =>
      r <- read_entry p e pos ;;
      if fst r =? ENTRY_SIZE then
        let pos' := s32 (pos + ENTRY_SIZE) in
        if entry_in_use (snd r) then
          match strlen_in (skipn 4 (snd r)) with
          | None => fault
          | Some len => ret (Some (firstn (Nat.min len NAME_MAX)
                                     (skipn 4 (snd r))), pos')
          end
        else readdir_from fuel' p (snd r) pos'
      else ret (None, pos)
  end.

(** [dir_readdir (dir, name)]: the characters stored in [name], [None]
    for the result [false], and the directory with its new position. *)
Definition dir_readdir (d : dir) : M (option (list byte) * dir) :=
  fuel <- entry_rounds (dir_inode d) ;;
  e <- stack_entry ;;
  r <- readdir_from fuel (dir_inode d) e (dir_pos d) ;;
  ret (fst r, mk_dir (dir_inode d) (snd r)).

(** [dir_parent (dir)] *)
Definition dir_parent (d : dir) : M (option Z) :=
  i <- deref (dir_inode d) ;;
  inode_open (inode_get_parent i).

(** The [while] loop of [dir_is_empty]. *)
Fixpoint is_empty_from (fuel : nat) (p : Z) (e : list byte) (cur_pos : Z)
  : M bool :=
  match fuel with
  | O => diverge
  | S fuel' =>
      r <- read_entry p e cur_pos ;;
      if fst r =? ENTRY_SIZE then
        if entry_in_use (snd r) then
          match str_eq [x2e] (skipn 4 (snd r)),
                str_eq [x2e; x2e] (skipn 4 (snd r)) with
          | Some a, Some b =>
              if negb a && negb b then ret false
              else is_empty_from fuel' p (snd r) (s32 (cur_pos + ENTRY_SIZE))
          | _, _ => fault
          end
        else is_empty_from fuel' p (snd r) (s32 (cur_pos + ENTRY_SIZE))
      else ret true
  end.

(** [dir_is_empty (dir)] *)
Definition dir_is_empty (d : dir) : M bool :=
  fuel <- entry_rounds (dir_inode d) ;;
  e <- stack_entry ;;
  is_empty_from fuel (dir_inode d) e 0.

(** [dir_is_root (dir)] *)
Definition dir_is_root (d : dir) : M bool :=
  i <- deref (dir_inode d) ;;
  ret (inode_get_sector i =? ROOT_DIR_SECTOR).

End OnDisk.

(** ** A directory as its file shows it *)

(** Entry [j] of a directory whose file holds [bytes]. *)
Definition entry_at (bytes : list byte) (j : nat) : list byte :=
  firstn 20 (skipn (20 * j) bytes).

(** [m] more reads of an entry of the directory at [p], whose file lies
    in sector [b], can be served: the cache is coherent and holds the
    sector or can take it in, the read-ahead queue has room for [m]
    requests and the next [m] allocations succeed. *)
Definition dir_ready (p : Z) (ino : inode) (b : Z) (m : nat) (s : state)
  : Prop :=
  cache_inv s /\ heap s p = Some ino /\
  (cached s fs_device b <> None \/ evictable s) /\
  0 <= read_head_buffer_n s /\
  read_head_buffer_n s + Z.of_nat m <= READ_AHEAD_BUFFER_SIZE /\
  (forall j, (j < m)%nat -> malloc_fails s (malloc_calls s + j) = false).

(** What [m] reads of entries of a directory in sector [b] leave of the
    state [s]: the cache is coherent, holds the sector and shows what it
    showed for every sector; the in-memory inodes, the free map and the
    stack contents are as they were; [m] allocations and [m] read-ahead
    requests have been made. *)
Definition dir_read (b : Z) (m : nat) (s s' : state) : Prop :=
  cache_inv s' /\ heap s' = heap s /\ free_map s' = free_map s /\
  open_inodes s' = open_inodes s /\ junk s' = junk s /\
  malloc_fails s' = malloc_fails s /\
  malloc_calls s' = (malloc_calls s + m)%nat /\
  read_head_buffer_n s' = read_head_buffer_n s + Z.of_nat m /\
  (m = O -> s' = s) /\
  ((0 < m)%nat -> cached s' fs_device b <> None) /\
  forall dev sec, sector_view s' dev sec = sector_view s dev sec.

(** The entries of a directory of [k] entries whose file holds [bytes]. *)
Definition entries_of (bytes : list byte) (k : nat) : list (list byte) :=
  map (entry_at bytes) (seq 0 k).

(** The test [lookup] makes of an entry: in use and of the name. *)
Definition names (nm : string) (e : list byte) : bool :=
  OnDisk.entry_in_use e &&
  match OnDisk.str_eq (OnDisk.chars nm) (skipn 4 e) with
  | Some true => true
  | _ => false
  end.

(** The first entry of the name among the entries [es], which are the
    entries [j], [j + 1], ... of their directory, and its offset. *)
Fixpoint find_entry (nm : string) (es : list (list byte)) (j : nat)
  : option (list byte * Z) :=
  match es with
  | [] => None
  | e :: t =>
      if names nm e then Some (e, 20 * Z.of_nat j)
      else find_entry nm t (S j)
  end.

(** How many entries [lookup] reads before it is done: up to and with
    the first of the name. *)
Fixpoint reads_to (nm : string) (es : list (list byte)) : nat :=
  match es with
  | [] => O
  | e :: t => if names nm e then 1%nat else S (reads_to nm t)
  end.

(** An entry is in use and holds the name. *)
Definition entry_named (nm : string) (e : list byte) : Prop :=
  OnDisk.entry_in_use e = true /\
  OnDisk.c_chars (OnDisk.entry_name e) = OnDisk.chars nm.

(** Where [dir_add] puts a new entry: what its [e] holds and the offset
    it has come to when its second loop is left, over the entries [es],
    which are the entries [j], [j + 1], ... of their directory. *)
Fixpoint free_slot (es : list (list byte)) (j : nat) (e : list byte)
  : list byte * Z :=
  match es with
  | [] => (e, 20 * Z.of_nat j)
  | x :: t =>
      if OnDisk.entry_in_use x then free_slot t (S j) x
      else (x, 20 * Z.of_nat j)
  end.

(** How many entries that loop reads. *)
Fixpoint reads_free (es : list (list byte)) : nat :=
  match es with
  | [] => O
  | x :: t => if OnDisk.entry_in_use x then S (reads_free t) else 1%nat
  end.

(** A directory of [k] entries, at most 25, whose file lies in the one
    sector [b]. *)
Definition small_dir (ino : inode) (b : Z) (k : nat) : Prop :=
  length (data ino) = 20 * Z.of_nat k /\ (k <= 25)%nat /\
  nth_error (blocks (data ino)) 0 = Some b.

(** The first entry in use among the entries [es], which are the entries
    [j], [j + 1], ... of their directory, and its index; and how many
    entries are read to find it. *)
Fixpoint next_used (es : list (list byte)) (j : nat)
  : option (list byte * nat) :=
  match es with
  | [] => None
  | e :: t => if OnDisk.entry_in_use e then Some (e, j) else next_used t (S j)
  end.

Fixpoint reads_used (es : list (list byte)) : nat :=
  match es with
  | [] => O
  | e :: t => if OnDisk.entry_in_use e then 1%nat else S (reads_used t)
  end.

(** The name field of an entry holds a terminator. *)
Definition terminated (e : list byte) : Prop :=
  OnDisk.strlen_in (OnDisk.entry_name e) <> None.

(** An entry in use that is neither "." nor "..". *)
Definition foreign (e : list byte) : bool :=
  OnDisk.entry_in_use e && negb (names "." e) && negb (names ".." e).

(** How many entries [dir_is_empty] reads: up to and with the first
    foreign one. *)
Fixpoint reads_foreign (es : list (list byte)) : nat :=
  match es with
  | [] => O
  | e :: t => if foreign e then 1%nat else S (reads_foreign t)
  end.

(** An entry as the directory model of the path resolver has it. *)
Definition entry_of (e : list byte) : dir_entry :=
  mk_dir_entry (OnDisk.entry_sector e)
    (string_of_list_byte (OnDisk.c_chars (OnDisk.entry_name e)))
    (OnDisk.entry_in_use e).

(** ** Concrete machines *)

(** A machine with a zeroed disk of 128 sectors, a clock reading 100, 101,
    ..., an allocator that never fails and all of the free map free except
    sectors 0 and 1 (free-map file and root directory). *)
Definition machine0 : state :=
  mk_state (fun _ _ => zeros) (fun _ => 128) []
    (fun k => 100 + Z.of_nat k) 0 [] [] 0
    (true :: true :: repeat false 126)
    (fun _ => false) 0 (fun _ => None) [] [].

Definition booted : state := cache_init machine0.

(** A cache whose 64 lines are all valid: line [i] caches sector [i] of the
    file-system device, was last used at tick [10 + i], except that line 5
    is dirty and was last used at tick 3. *)
Definition busy_line (i : nat) : cache_block :=
  if Nat.eqb i 5
  then mk_cache_block true true 5 3 1 fs_device (repeat x07 512)
  else mk_cache_block false true (Z.of_nat i) (10 + Z.of_nat i) 1 fs_device
         zeros.

Definition busy : state := set_cache (map busy_line (seq 0 CACHE_SIZE)) booted.

(** The same cache with every line last used at tick 100, the tick the
    clock shows next. *)
Definition hot_line (i : nat) : cache_block :=
  mk_cache_block false true (Z.of_nat i) 100 1 fs_device zeros.

Definition hot : state := set_cache (map hot_line (seq 0 CACHE_SIZE)) booted.

(** [booted] with a free map in which only sector 2 is left. *)
Definition tight : state :=
  set_free_map (map (fun i => negb (Nat.eqb i 2)) (seq 0 128)) booted.

(** [booted] on a clock that stands at tick 100 for as long as the runs
    below take. *)
Definition frozen : state :=
  cache_init
    (mk_state (fun _ _ => zeros) (fun _ => 128) [] (fun _ => 100) 0 [] [] 0
       (true :: true :: repeat false 126) (fun _ => false) 0 (fun _ => None)
       [] []).

(** Two sectors' worth of data whose halves differ. *)
Definition two_sectors : list byte := repeat x01 512 ++ repeat x02 512.

(** [booted] with no free sector at all. *)
Definition full : state := set_free_map (repeat true 128) booted.

(** Create an empty file in sector 3 and open it. *)
Definition create_and_open : M Z :=
  inode_create 3 0 false ;;
  p <- inode_open 3 ;;
  match p with
  | Some a => ret a
  | None => fault
  end.

(** Write [len] bytes of [buf] at offset 0 and read them back. *)
Definition write_then_read (a : Z) (buf : list byte) (len : Z)
  : M (Z * (Z * list byte)) :=
  w <- inode_write_at a buf len 0 ;;
  r <- inode_read_at a len 0 ;;
  ret (w, r).

(** Sixty-three more sectors written through the cache, one after the
    other. *)
Fixpoint write_sectors (k : nat) (sec : Z) : M unit :=
  match k with
  | O => ret tt
  | S k' => cache_write fs_device sec zeros ;; write_sectors k' (sec + 1)
  end.

(** [booted] after a file has been created in sector 3, and after that
    file has been opened. *)
Definition created : state :=
  match inode_create 3 0 false booted with
  | Done _ s => s
  | _ => booted
  end.

Definition opened : state :=
  match inode_open 3 created with
  | Done _ s => s
  | _ => created
  end.

(** An inode of 100000 bytes with its twelve pointers in sectors 20..31,
    on a disk whose sector 30, the single-indirect block, lists the sectors
    40, 41, ... *)
Definition big_inode : inode :=
  mk_inode 3 1 false 0
    (mk_inode_disk (map Z.of_nat (seq 20 12)) 10 1 128 1 0 58 196 100000
       INODE_MAGIC 0 ROOT_DIR_SECTOR (repeat 0 105)).

Definition indexed : state :=
  set_disk
    (fun dv sc =>
       if sc =? 30 then words_bytes (map (fun i => 40 + Z.of_nat i) (seq 0 128))
       else zeros)
    booted.

(** [booted] after two read-ahead requests, for sectors 5 and 9. *)
Definition queued1 : state :=
  match put_read_ahead_buffer fs_device 5 booted with
  | Done _ s => s
  | _ => booted
  end.

Definition queued : state :=
  match put_read_ahead_buffer fs_device 9 queued1 with
  | Done _ s => s
  | _ => queued1
  end.

(** A file system with a root directory (sector 1) that holds an empty
    directory "d" (sector 5) and a file "f" (sector 6). *)
Definition tree1 : tree :=
  mk_tree
    (fun s =>
       if s =? 1 then
         [mk_dir_entry 1 "." true; mk_dir_entry 1 ".." true;
          mk_dir_entry 5 "d" true; mk_dir_entry 6 "f" true]
       else if s =? 5 then
         [mk_dir_entry 5 "." true; mk_dir_entry 1 ".." true]
       else [])
    (fun s => (s =? 1) || (s =? 5))
    [].

(** A process whose working directory is the root and which holds "/d"
    open; one whose working directory is "/d"; and one that holds its own
    working directory, the root, open. *)
Definition holder : thread := mk_thread 1 [5].
Definition dweller : thread := mk_thread 5 [].
Definition self_holder : thread := mk_thread 1 [1].

(** 243 slashes followed by a name of 20 characters: 263 characters. *)
Definition long_path : string :=
  string_of_list_ascii (repeat slash 243 ++ repeat "b"%char 20).

(** [booted] with, at address 9, an open inode of 139 sectors (71168
    bytes): ten direct blocks, a full indirect block and one sector in
    the first level-2 block, as [inode_disk_grow] counts them. *)
Definition lopsided_inode : inode :=
  mk_inode 3 1 true 0
    (mk_inode_disk (map Z.of_nat (seq 20 12)) 10 1 128 1 0 1 139 71168
       INODE_MAGIC 0 ROOT_DIR_SECTOR (repeat 0 105)).

Definition lopsided : state := stored 9 lopsided_inode booted.

(** [booted] with, at address 9, an open file of 1000 bytes in the
    sectors 20 and 21. *)
Definition small_inode : inode :=
  mk_inode 3 1 false 0
    (mk_inode_disk (map Z.of_nat (seq 20 12)) 2 0 0 0 0 0 2 1000
       INODE_MAGIC 0 ROOT_DIR_SECTOR (repeat 0 105)).

Definition filed : state := stored 9 small_inode booted.



(** [filed] after [inode_remove] of its file: the file at address 9 is
    marked for deletion at its last close. *)
Definition condemned : state :=
  stored 9 (with_removed true small_inode) booted.

(** [filed] after three bytes have been read from its file at offset
    600. *)
Definition read_back : state :=
  match inode_read_at 9 3 600 filed with
  | Done _ s' => s'
  | _ => filed
  end.

(** A sector that holds no inode: byte [k] of it is [k mod 256]. *)
Definition scribble : list byte :=
  map (fun k => byte_of_Z (Z.of_nat k)) (seq 0 512).

(** [booted] with [scribble] in sector 7 of every device. *)
Definition scribbled : state :=
  set_disk (fun dv sc => if sc =? 7 then scribble else zeros) booted.

(** The entry for a sector and a name in a slot that held zeros. *)
Definition entry_bytes (sec : Z) (nm : string) : list byte :=
  OnDisk.set_entry_sector sec
    (OnDisk.set_entry_name nm (OnDisk.set_entry_in_use true (repeat x00 20))).

(** A root directory of five entries in sector 2: ".", "..", the
    directory "d" (sector 5), a free slot and the file "f" (sector 6). *)
Definition root_disk_inode : inode_disk :=
  mk_inode_disk (2 :: repeat 0 11) 1 0 0 0 0 0 1 100 INODE_MAGIC 1
    ROOT_DIR_SECTOR (repeat 0 105).

Definition root_inode : inode := mk_inode ROOT_DIR_SECTOR 1 false 0 root_disk_inode.

Definition root_bytes : list byte :=
  entry_bytes 1 "." ++ entry_bytes 1 ".." ++ entry_bytes 5 "d"
  ++ repeat x00 20 ++ entry_bytes 6 "f".

(** A machine with that root directory on its disk and its inode open at
    address 1, as after [dir_open_root], two allocations behind it and
    nothing in the cache yet; [fails] tells which allocations fail. *)
Definition rooted_with (fails : nat -> bool) : state :=
  cache_init
    (mk_state
       (fun dv sc =>
          if sc =? 1 then sector_of_inode_disk root_disk_inode
          else if sc =? 2 then root_bytes
          else zeros)
       (fun _ => 128) [] (fun k => 100 + Z.of_nat k) 0 [] [] 0
       (true :: true :: true :: repeat false 125)
       fails 2
       (fun a => if a =? 1 then Some root_inode else None) [1] []).

Definition rooted : state := rooted_with (fun _ => false).

(** The same machine short of memory for a while: the next two
    allocations fail. *)
Definition starved : state :=
  rooted_with (fun n => Nat.eqb n 2 || Nat.eqb n 3).

Definition root_dir : OnDisk.dir := OnDisk.mk_dir 1 40.

(** [rooted] with the file "f" open once, at address 2. *)
Definition shared : state :=
  set_open_inodes [2; 1]
    (set_heap
       (fun a => if a =? 2 then Some (mk_inode 6 1 false 0
                                        (empty_inode_disk false))
                 else heap rooted a)
       rooted).

(** [rooted] on a machine whose allocation number 7 fails. *)
Definition penniless : state := rooted_with (fun n => Nat.eqb n 7).

(** The root directory of [tree1] on a disk: four entries in sector 2,
    its inode open at address 1. *)
Definition tree1_inode : inode :=
  mk_inode ROOT_DIR_SECTOR 1 false 0
    (mk_inode_disk (2 :: repeat 0 11) 1 0 0 0 0 0 1 80 INODE_MAGIC 1
       ROOT_DIR_SECTOR (repeat 0 105)).

Definition tree1_disk : state :=
  cache_init
    (mk_state
       (fun dv sc =>
          if sc =? 1 then sector_of_inode_disk (data tree1_inode)
          else if sc =? 2 then
            entry_bytes 1 "." ++ entry_bytes 1 ".." ++ entry_bytes 5 "d"
            ++ entry_bytes 6 "f"
          else zeros)
       (fun _ => 128) [] (fun k => 100 + Z.of_nat k) 0 [] [] 0
       (true :: true :: true :: repeat false 125)
       (fun _ => false) 2
       (fun a => if a =? 1 then Some tree1_inode else None) [1] []).
(** ** Facts about arrays *)

Lemma set_nth_length {A : Type} (i : nat) (v : A) (l : list A) :
  List.length (set_nth i v l) = List.length l.
Proof.
  revert i; induction l as [|h t IH]; intros [|i]; simpl; auto.
Qed.

Lemma nth_error_set_nth {A : Type} (i j : nat) (v : A) (l : list A) :
  nth_error (set_nth i v l) j =
  if Nat.eqb i j
  then match nth_error l j with Some _ => Some v | None => None end
  else nth_error l j.
Proof.
  revert i j; induction l as [|h t IH]; intros [|i] [|j]; simpl; auto.
  destruct (Nat.eqb i j); reflexivity.
Qed.

Lemma nth_error_set_nth_eq {A : Type} (i : nat) (v x : A) (l : list A) :
  nth_error l i = Some x -> nth_error (set_nth i v l) i = Some v.
Proof.
  intros H. rewrite nth_error_set_nth, Nat.eqb_refl, H. reflexivity.
Qed.

Lemma nth_error_set_nth_neq {A : Type} (i j : nat) (v : A) (l : list A) :
  i <> j -> nth_error (set_nth i v l) j = nth_error l j.
Proof.
  intros H. rewrite nth_error_set_nth.
  destruct (Nat.eqb_spec i j); [contradiction | reflexivity].
Qed.

Lemma skipn_nth_error {A : Type} (i : nat) (x : A) (l : list A) :
  nth_error l i = Some x -> skipn i l = x :: skipn (S i) l.
Proof.
  revert i; induction l as [|h t IH]; intros [|i] H; simpl in *;
    try discriminate.
  - congruence.
  - apply IH, H.
Qed.

Lemma skipn_all_nil {A : Type} (l : list A) : skipn (List.length l) l = [].
Proof. induction l; simpl; auto. Qed.

(** ** Facts about the semaphores of the cache lines *)

Lemma with_sema_restore (l : cache_block) (n : nat) :
  sema l = S n -> with_sema (S (sema (with_sema n l))) (with_sema n l) = l.
Proof. destruct l; simpl; intros ->; reflexivity. Qed.

Lemma with_sema_again (l : cache_block) (n : nat) :
  sema l = S n -> with_sema (S n) (with_sema n l) = l.
Proof. destruct l; simpl; intros ->; reflexivity. Qed.

Lemma get_line_at (i : nat) (l : cache_block) (s : state) :
  nth_error (cache s) i = Some l -> get_line i s = Done l s.
Proof. unfold get_line; intros ->; reflexivity. Qed.

Lemma upd_line_at (i : nat) (f : cache_block -> cache_block)
    (l : cache_block) (s : state) :
  nth_error (cache s) i = Some l ->
  upd_line i f s = Done tt (set_cache (set_nth i (f l) (cache s)) s).
Proof. unfold upd_line; intros ->; reflexivity. Qed.

Lemma sema_down_at (i n : nat) (l : cache_block) (s : state) :
  nth_error (cache s) i = Some l -> sema l = S n ->
  sema_down i s = Done tt (set_cache (set_nth i (with_sema n l) (cache s)) s).
Proof.
  intros H Hs. unfold sema_down, bind. rewrite (get_line_at _ _ _ H), Hs.
  apply upd_line_at, H.
Qed.

Lemma sema_down_held (i : nat) (l : cache_block) (s : state) :
  nth_error (cache s) i = Some l -> sema l = O -> sema_down i s = Blocked.
Proof.
  intros H Hs. unfold sema_down, bind. rewrite (get_line_at _ _ _ H), Hs.
  reflexivity.
Qed.

Lemma sema_up_at (i : nat) (l : cache_block) (s : state) :
  nth_error (cache s) i = Some l ->
  sema_up i s =
  Done tt (set_cache (set_nth i (with_sema (S (sema l)) l) (cache s)) s).
Proof. intros H. unfold sema_up. rewrite (upd_line_at _ _ _ _ H). reflexivity. Qed.

Lemma hold_length (held : option nat) (c : list cache_block) :
  List.length (hold held c) = List.length c.
Proof.
  destruct held as [e|]; simpl; auto.
  destruct (nth_error c e); auto using set_nth_length.
Qed.

Lemma nth_error_hold_other (held : option nat) (c : list cache_block)
    (j : nat) :
  held <> Some j -> nth_error (hold held c) j = nth_error c j.
Proof.
  intros H. destruct held as [e|]; simpl; auto.
  destruct (nth_error c e) eqn:E; auto.
  apply nth_error_set_nth_neq. congruence.
Qed.

Lemma nth_error_hold_self (c : list cache_block) (j : nat) (l : cache_block) :
  nth_error c j = Some l ->
  nth_error (hold (Some j) c) j = Some (with_sema (pred (sema l)) l).
Proof.
  intros H. simpl. rewrite H. apply (nth_error_set_nth_eq _ _ _ _ H).
Qed.

(** After taking line [i] on top of [hold evict c], giving [evict] back
    leaves exactly line [i] held. *)
Lemma sema_up_opt_swap (c : list cache_block) (evict : option nat)
    (i n : nat) (l : cache_block) (s : state) :
  Forall (fun x => sema x <> O) c ->
  nth_error c i = Some l -> sema l = S n ->
  (forall e, evict = Some e -> (e < i)%nat) ->
  cache s = set_nth i (with_sema n l) (hold evict c) ->
  sema_up_opt evict s = Done tt (set_cache (hold (Some i) c) s).
Proof.
  intros Hfree Hi Hs Hlt Hc.
  assert (Hn : with_sema n l = with_sema (pred (sema l)) l)
    by (rewrite Hs; reflexivity).
  destruct evict as [e|]; simpl sema_up_opt.
  - assert (Hei : (e < i)%nat) by auto.
    assert (He : exists le, nth_error c e = Some le).
    { destruct (nth_error c e) eqn:E; eauto.
      apply nth_error_None in E.
      assert (nth_error c i <> None) by congruence.
      apply nth_error_Some in H. lia. }
    destruct He as [le He].
    assert (Hle : sema le <> O).
    { rewrite Forall_forall in Hfree. apply Hfree.
      eapply nth_error_In; eauto. }
    rewrite (sema_up_at e (with_sema (pred (sema le)) le)).
    + f_equal. f_equal. rewrite Hc.
      apply nth_error_ext; intros j.
      simpl hold. rewrite He, Hi.
      rewrite !nth_error_set_nth.
      destruct (Nat.eqb_spec e j) as [->|Hej].
      * destruct (Nat.eqb_spec i j); [lia|].
        rewrite He.
        destruct le as [d v ds t [|m] b dd]; simpl in *; [congruence|].
        reflexivity.
      * destruct (Nat.eqb_spec i j) as [->|Hij].
        -- rewrite Hi. congruence.
        -- reflexivity.
    + rewrite Hc, nth_error_set_nth_neq by lia.
      apply nth_error_hold_self, He.
  - unfold ret. f_equal. destruct s; simpl in *. subst cache0.
    unfold set_cache; simpl. rewrite Hi. congruence.
Qed.

(** With every line free at the start, [find_cacheline] returns what
    [scan_find] computes and leaves exactly the line it returns held. *)
Lemma find_cacheline_from_run (c : list cache_block) (dev sec : Z) :
  Forall (fun x => sema x <> O) c ->
  forall (k i : nat) (s : state),
    (i + k = List.length c)%nat -> cache s = c ->
    find_cacheline_from k i dev sec s =
    Done (scan_find (skipn i c) i dev sec)
         (set_cache (hold (scan_find (skipn i c) i dev sec) c) s).
Proof.
  intros Hfree. induction k as [|k IH]; intros i s Hik Hc.
  - replace i with (List.length c) by lia. rewrite skipn_all_nil. simpl.
    unfold ret. f_equal. destruct s; simpl in *; subst; reflexivity.
  - assert (Hl : exists l, nth_error c i = Some l).
    { destruct (nth_error c i) eqn:E; eauto.
      apply nth_error_None in E. lia. }
    destruct Hl as [l Hl].
    assert (Hs : exists n, sema l = S n).
    { rewrite Forall_forall in Hfree.
      specialize (Hfree l (nth_error_In _ _ Hl)).
      destruct (sema l); [congruence | eauto]. }
    destruct Hs as [n Hs].
    rewrite (skipn_nth_error _ _ _ Hl). cbn [scan_find find_cacheline_from].
    unfold bind at 1.
    rewrite (sema_down_at i n l s) by congruence.
    unfold bind at 1. rewrite (get_line_at i (with_sema n l)).
    2:{ simpl. rewrite Hc. apply (nth_error_set_nth_eq _ _ _ _ Hl). }
    change (valid (with_sema n l) && (block (with_sema n l) =? dev)
            && (disk_sector (with_sema n l) =? sec))
      with (matches dev sec l).
    destruct (matches dev sec l).
    + unfold ret. f_equal. unfold set_cache; simpl. rewrite Hc.
      simpl hold. rewrite Hl, Hs. reflexivity.
    + unfold bind at 1. rewrite (sema_up_at i (with_sema n l)).
      2:{ simpl. rewrite Hc. apply (nth_error_set_nth_eq _ _ _ _ Hl). }
      rewrite (IH (S i)); [reflexivity | lia |].
      simpl. rewrite Hc, (with_sema_again _ _ Hs).
      apply nth_error_ext; intros j. rewrite !nth_error_set_nth.
      destruct (Nat.eqb_spec i j) as [->|]; [rewrite Hl|]; reflexivity.
Qed.

(** The same for the loop of [choose_evict]. *)
Lemma choose_evict_from_run (c : list cache_block) :
  Forall (fun x => sema x <> O) c ->
  forall (k i : nat) (evict : option nat) (t : Z) (s : state),
    (i + k = List.length c)%nat ->
    (forall e, evict = Some e -> (e < i)%nat) ->
    cache s = hold evict c ->
    choose_evict_from k i evict t s =
    Done (scan_evict (skipn i c) i evict t)
         (set_cache (hold (selected (scan_evict (skipn i c) i evict t)) c) s).
Proof.
  intros Hfree. induction k as [|k IH]; intros i evict t s Hik Hlt Hc.
  - replace i with (List.length c) by lia. rewrite skipn_all_nil. simpl.
    unfold ret. f_equal. destruct s; simpl in *; subst; reflexivity.
  - assert (Hl : exists l, nth_error c i = Some l).
    { destruct (nth_error c i) eqn:E; eauto.
      apply nth_error_None in E. lia. }
    destruct Hl as [l Hl].
    assert (Hs : exists n, sema l = S n).
    { rewrite Forall_forall in Hfree.
      specialize (Hfree l (nth_error_In _ _ Hl)).
      destruct (sema l); [congruence | eauto]. }
    destruct Hs as [n Hs].
    assert (Hne : evict <> Some i).
    { intros E. specialize (Hlt _ E). lia. }
    assert (Hci : nth_error (cache s) i = Some l).
    { rewrite Hc, nth_error_hold_other; auto. }
    rewrite (skipn_nth_error _ _ _ Hl). cbn [scan_evict choose_evict_from].
    unfold bind at 1.
    rewrite (sema_down_at i n l s Hci Hs).
    unfold bind at 1. rewrite (get_line_at i (with_sema n l)).
    2:{ simpl. apply (nth_error_set_nth_eq _ _ _ _ Hci). }
    change (valid (with_sema n l)) with (valid l).
    change (time (with_sema n l)) with (time l).
    destruct (valid l); cbn [negb].
    + destruct (time l <? t).
      * unfold bind at 1.
        rewrite (sema_up_opt_swap c evict i n l); auto.
        2:{ simpl. rewrite Hc. reflexivity. }
        rewrite (IH (S i)); [reflexivity | lia | | reflexivity].
        intros e [= <-]. lia.
      * unfold bind at 1. rewrite (sema_up_at i (with_sema n l)).
        2:{ simpl. apply (nth_error_set_nth_eq _ _ _ _ Hci). }
        rewrite (IH (S i)); [reflexivity | lia | |].
        -- intros e He. specialize (Hlt e He). lia.
        -- simpl. rewrite (with_sema_again _ _ Hs), <- Hc.
           apply nth_error_ext; intros j. rewrite !nth_error_set_nth.
           destruct (Nat.eqb_spec i j) as [->|]; [rewrite Hci|]; reflexivity.
    + unfold bind at 1.
      rewrite (sema_up_opt_swap c evict i n l); auto.
      simpl. rewrite Hc. reflexivity.
Qed.

(** ** What the eviction scan selects *)

Arguments hold : simpl never.

Lemma scan_evict_first_invalid (ls : list cache_block) :
  forall (base : nat) (evict : option nat) (t : Z) (k : nat),
    first_invalid ls k -> scan_evict ls base evict t = inl (base + k)%nat.
Proof.
  induction ls as [|h tl IH]; intros base evict t k [[l [Hk Hv]] Hbefore].
  - destruct k; discriminate.
  - destruct k as [|k]; simpl in *.
    + injection Hk as ->. rewrite Hv. simpl. f_equal. lia.
    + rewrite (Hbefore O h); [simpl | lia | reflexivity].
      assert (Hrec : first_invalid tl k).
      { split; [eauto|]. intros j l' Hj Hl'. apply (Hbefore (S j) l'); [lia|].
        exact Hl'. }
      destruct (time h <? t); rewrite (IH _ _ _ k Hrec); f_equal; lia.
Qed.

(** Lines that are valid and not older than the current candidate leave the
    candidate as it is. *)
Lemma scan_evict_keep (ls : list cache_block) :
  forall (base : nat) (evict : option nat) (t : Z),
    Forall (fun l => valid l = true) ls ->
    Forall (fun l => t <= time l) ls ->
    scan_evict ls base evict t = inr evict.
Proof.
  induction ls as [|h tl IH]; intros base evict t Hv Ht; simpl; auto.
  inversion Hv; inversion Ht; subst.
  rewrite H1. simpl.
  destruct (Z.ltb_spec (time h) t); [lia|]. auto.
Qed.

Lemma scan_evict_least_recent (ls : list cache_block) :
  forall (base : nat) (evict : option nat) (t : Z) (k : nat) (l : cache_block),
    Forall (fun x => valid x = true) ls ->
    least_recently_used ls k -> nth_error ls k = Some l -> time l < t ->
    scan_evict ls base evict t = inr (Some (base + k)%nat).
Proof.
  induction ls as [|h tl IH];
    intros base evict t k l Hv [l0 [Hk0 [Hmin Hfirst]]] Hk Ht.
  - destruct k; discriminate.
  - rewrite Hk in Hk0. injection Hk0 as <-.
    inversion Hv as [|? ? Hvh Hvt]; subst.
    destruct k as [|k]; simpl in *.
    + injection Hk as ->. rewrite Hvh; simpl.
      destruct (Z.ltb_spec (time l) t); [|lia].
      rewrite scan_evict_keep; auto.
      * f_equal. f_equal. lia.
      * rewrite Forall_forall. intros x Hx.
        destruct (In_nth_error _ _ Hx) as [j Hj].
        apply (Hmin (S j) x). exact Hj.
    + rewrite Hvh; simpl.
      assert (Hh : time l < time h) by (apply (Hfirst O h); [lia|reflexivity]).
      assert (Hrec : least_recently_used tl k).
      { exists l. split; [exact Hk|]. split.
        - intros j l' Hj. apply (Hmin (S j) l'). exact Hj.
        - intros j l' Hj Hl'. apply (Hfirst (S j) l'); [lia|exact Hl']. }
      destruct (time h <? t).
      * rewrite (IH _ _ _ k l); auto. f_equal. f_equal. lia.
      * rewrite (IH _ _ _ k l); auto. f_equal. f_equal. lia.
Qed.

Lemma all_free_nonzero (c : list cache_block) :
  Forall (fun l => sema l = 1%nat) c -> Forall (fun l => sema l <> O) c.
Proof. apply Forall_impl. intros l ->. discriminate. Qed.

(** C5 (as amended).  Entered with every line free, [choose_evict] returns
    the first invalid line if there is one and otherwise, when the least
    recently used line was last used before the current tick, that line.
    The returned line is still acquired and every other line is released
    again.  A returned line that is valid and dirty has had its data written
    to its recorded (block, sector), as the last step before the return.
    No field of any line is changed: an invalid line comes back with
    [valid = false] and a dirty one with [dirty = true]; setting them is
    left to the caller. *)
Theorem choose_evict_selects (s : state) (i : nat) (l : cache_block) :
  List.length (cache s) = CACHE_SIZE ->
  Forall (fun x => sema x = 1%nat) (cache s) ->
  nth_error (cache s) i = Some l ->
  first_invalid (cache s) i \/
  (Forall (fun x => valid x = true) (cache s) /\
   least_recently_used (cache s) i /\
   time l < clock s (clock_reads s)) ->
  exists s',
    choose_evict s = Done i s' /\
    nth_error (cache s') i = Some (with_sema O l) /\
    (forall j, j <> i -> nth_error (cache s') j = nth_error (cache s) j) /\
    io_log s' =
      (if valid l && dirty l
       then [IoWrite (block l) (disk_sector l) (sector_of (disk_data l))]
       else []) ++ io_log s /\
    (forall dev sec,
        disk s' dev sec =
        if valid l && dirty l && (dev =? block l) && (sec =? disk_sector l)
        then sector_of (disk_data l) else disk s dev sec).
Proof.
  intros Hlen Hfree Hl Hcase.
  assert (Hsl : sema l = 1%nat).
  { rewrite Forall_forall in Hfree. apply Hfree. eapply nth_error_In; eauto. }
  assert (Hheld : nth_error (hold (Some i) (cache s)) i = Some (with_sema O l)).
  { rewrite (nth_error_hold_self _ _ _ Hl), Hsl. reflexivity. }
  assert (Hother : forall j, j <> i ->
            nth_error (hold (Some i) (cache s)) j = nth_error (cache s) j).
  { intros j Hj. apply nth_error_hold_other. congruence. }
  unfold choose_evict, bind, timer_ticks.
  rewrite (choose_evict_from_run (cache s) (all_free_nonzero _ Hfree));
    [| simpl; lia | discriminate | reflexivity].
  change (skipn 0 (cache s)) with (cache s).
  destruct Hcase as [Hinv | [Hv [Hlru Ht]]].
  - rewrite (scan_evict_first_invalid _ _ _ _ _ Hinv).
    cbn [selected Nat.add ret].
    destruct Hinv as [[l' [Hl' Hvl]] _].
    rewrite Hl in Hl'. injection Hl' as <-. rewrite Hvl.
    eexists. split; [reflexivity|]. cbn.
    repeat split; auto.
  - rewrite (scan_evict_least_recent _ _ _ _ i l Hv Hlru Hl Ht).
    cbn [selected Nat.add].
    rewrite (get_line_at i (with_sema O l)) by exact Hheld.
    assert (Hvl : valid l = true).
    { rewrite Forall_forall in Hv. apply Hv. eapply nth_error_In; eauto. }
    rewrite Hvl. change (dirty (with_sema O l)) with (dirty l).
    cbn [andb].
    destruct (dirty l); eexists; (split; [reflexivity|]); cbn;
      repeat split; auto.
Qed.

(** When every line is valid and none was used before the current tick the
    scan ends with [evict == NULL], which [evict->dirty] dereferences. *)
Lemma choose_evict_no_candidate (s : state) :
  List.length (cache s) = CACHE_SIZE ->
  Forall (fun x => sema x = 1%nat) (cache s) ->
  Forall (fun x => valid x = true) (cache s) ->
  Forall (fun x => clock s (clock_reads s) <= time x) (cache s) ->
  choose_evict s = Fault.
Proof.
  intros Hlen Hfree Hv Ht.
  unfold choose_evict, bind, timer_ticks.
  rewrite (choose_evict_from_run (cache s) (all_free_nonzero _ Hfree));
    [| simpl; lia | discriminate | reflexivity].
  change (skipn 0 (cache s)) with (cache s).
  rewrite scan_evict_keep; auto.
Qed.

Lemma booted_all_free : Forall (fun x => sema x = 1%nat) (cache booted).
Proof. apply Forall_forall. intros x Hx. apply repeat_spec in Hx. subst. reflexivity. Qed.

(** The hypotheses of [choose_evict_selects] hold on the freshly
    initialised cache, whose first invalid line is line 0. *)
Lemma choose_evict_selects_witness :
  exists s',
    choose_evict booted = Done O s' /\
    nth_error (cache s') O = Some (with_sema O empty_line) /\
    (forall j, j <> O -> nth_error (cache s') j = nth_error (cache booted) j) /\
    io_log s' = io_log booted /\
    (forall dev sec, disk s' dev sec = disk booted dev sec).
Proof.
  apply (choose_evict_selects booted O empty_line).
  - reflexivity.
  - exact booted_all_free.
  - reflexivity.
  - left. split.
    + exists empty_line. split; reflexivity.
    + intros j l Hj. inversion Hj.
Defined.

(** The second case on a full cache: line 5, dirty and last used at tick
    3, is written back and returned, still dirty. *)
Example choose_evict_busy :
  exists s',
    choose_evict busy = Done 5%nat s' /\
    nth_error (cache s') 5 = Some (with_sema O (busy_line 5)) /\
    io_log s' = [IoWrite fs_device 5 (repeat x07 512)].
Proof. eexists. split; [vm_compute; reflexivity|]. split; reflexivity. Qed.

Lemma choose_evict_booted_run :
  exists s',
    choose_evict booted = Done O s' /\
    nth_error (cache s') O = Some (with_sema O empty_line).
Proof. eexists. split; [vm_compute; reflexivity | reflexivity]. Qed.

(** C5 (as stated) fails: on the freshly initialised cache the line that
    [choose_evict] returns is not valid, so it is not returned with
    [valid = true] and [dirty = false]. *)
Lemma choose_evict_counterexample :
  ~ (exists i s' l,
        choose_evict booted = Done i s' /\
        nth_error (cache s') i = Some l /\
        valid l = true /\ dirty l = false).
Proof.
  intros [i [s' [l [Hrun [Hl [Hv _]]]]]].
  destruct choose_evict_booted_run as [s0 [Hrun0 Hl0]].
  rewrite Hrun0 in Hrun. injection Hrun as <- <-.
  rewrite Hl0 in Hl. injection Hl as <-. discriminate.
Qed.

(** A full cache whose lines were all used in the current tick has no
    candidate: the call does not return a line at all. *)
Example choose_evict_hot : choose_evict hot = Fault.
Proof. vm_compute. reflexivity. Qed.

(** ** Framing: what the cache operations leave alone *)

Lemma keeps_ret {X A : Type} (f : state -> X) (a : A) : keeps f (ret a).
Proof. intros s b s' [= _ <-]. reflexivity. Qed.

Lemma keeps_bind {X A B : Type} (f : state -> X) (m : M A) (k : A -> M B) :
  keeps f m -> (forall a, keeps f (k a)) -> keeps f (bind m k).
Proof.
  intros Hm Hk s b s' H. unfold bind in H.
  destruct (m s) as [a s1| | |] eqn:E; try discriminate.
  rewrite (Hk a _ _ _ H). exact (Hm _ _ _ E).
Qed.

Lemma keeps_get {X A : Type} (f : state -> X) (g : state -> A) :
  keeps f (get g).
Proof. intros s b s' [= _ <-]. reflexivity. Qed.

Lemma keeps_blocked {X A : Type} (f : state -> X) : keeps f (@blocked A).
Proof. intros s b s' H. discriminate. Qed.

Lemma keeps_fault {X A : Type} (f : state -> X) : keeps f (@fault A).
Proof. intros s b s' H. discriminate. Qed.

Lemma keeps_diverge {X A : Type} (f : state -> X) : keeps f (@diverge A).
Proof. intros s b s' H. discriminate. Qed.

Lemma keeps_when {X : Type} (f : state -> X) (b : bool) (m : M unit) :
  keeps f m -> keeps f (when b m).
Proof. destruct b; simpl; auto using keeps_ret. Qed.

Lemma keeps_modify {X : Type} (f : state -> X) (g : state -> state) :
  (forall s, f (g s) = f s) -> keeps f (modify g).
Proof. intros H s b s' [= _ <-]. apply H. Qed.

Create HintDb keeps.
#[export] Hint Resolve keeps_ret keeps_get keeps_blocked keeps_fault
  keeps_diverge keeps_when : keeps.

(** Splits a monadic term along its binds and case distinctions. *)
Ltac keeps_step :=
  match goal with
  | |- keeps _ (bind _ _) => apply keeps_bind; [|intros ?]
  | |- keeps _ (match ?x with _ => _ end) => destruct x
  | |- keeps _ (if ?x then _ else _) => destruct x
  | |- keeps _ (when _ _) => apply keeps_when
  | |- keeps _ _ => solve [auto with keeps]
  end.
Ltac keeps_auto := repeat keeps_step.

Section CacheFrame.
Context {X : Type} (f : state -> X).
Hypothesis f_cache : forall c s, f (set_cache c s) = f s.
Hypothesis f_clock : forall n s, f (set_clock_reads n s) = f s.
Hypothesis f_disk : forall d s, f (set_disk d s) = f s.
Hypothesis f_io : forall l s, f (set_io_log l s) = f s.

Lemma keeps_get_line (i : nat) : keeps f (get_line i).
Proof.
  intros s a s' H. unfold get_line in H.
  destruct (nth_error (cache s) i); inversion H; reflexivity.
Qed.

Lemma keeps_upd_line (i : nat) (g : cache_block -> cache_block) :
  keeps f (upd_line i g).
Proof.
  intros s a s' H. unfold upd_line in H.
  destruct (nth_error (cache s) i); inversion H; apply f_cache.
Qed.

Lemma keeps_timer_ticks : keeps f timer_ticks.
Proof. intros s a s' [= _ <-]. apply f_clock. Qed.

Lemma keeps_block_read (dev sec : Z) : keeps f (block_read dev sec).
Proof. intros s a s' [= _ <-]. apply f_io. Qed.

Lemma keeps_block_write (dev sec : Z) (buf : list byte) :
  keeps f (block_write dev sec buf).
Proof.
  intros s a s' H. unfold block_write in H. cbv zeta in H.
  injection H as _ <-. rewrite f_io. apply f_disk.
Qed.

Hint Resolve keeps_get_line keeps_upd_line keeps_timer_ticks
  keeps_block_read keeps_block_write : keeps.

Lemma keeps_sema_down (i : nat) : keeps f (sema_down i).
Proof. unfold sema_down. keeps_auto. Qed.

Lemma keeps_sema_up (i : nat) : keeps f (sema_up i).
Proof. unfold sema_up. keeps_auto. Qed.

Hint Resolve keeps_sema_down keeps_sema_up : keeps.

Lemma keeps_sema_up_opt (e : option nat) : keeps f (sema_up_opt e).
Proof. unfold sema_up_opt. keeps_auto. Qed.

Hint Resolve keeps_sema_up_opt : keeps.

Lemma keeps_find_cacheline_from (k i : nat) (dev sec : Z) :
  keeps f (find_cacheline_from k i dev sec).
Proof. revert i. induction k; intros i; simpl; keeps_auto. Qed.

Lemma keeps_find_cacheline (dev sec : Z) : keeps f (find_cacheline dev sec).
Proof. apply keeps_find_cacheline_from. Qed.

Lemma keeps_choose_evict_from (k i : nat) (e : option nat) (t : Z) :
  keeps f (choose_evict_from k i e t).
Proof. revert i e t. induction k; intros i e t; simpl; keeps_auto. Qed.

Hint Resolve keeps_find_cacheline keeps_choose_evict_from : keeps.

Lemma keeps_choose_evict : keeps f choose_evict.
Proof. unfold choose_evict. keeps_auto. Qed.

Hint Resolve keeps_choose_evict : keeps.

Lemma keeps_load_line (dev sec : Z) : keeps f (load_line dev sec).
Proof. unfold load_line. keeps_auto. Qed.

Hint Resolve keeps_load_line : keeps.

Lemma keeps_cache_write (dev sec : Z) (buf : list byte) :
  keeps f (cache_write dev sec buf).
Proof. unfold cache_write. keeps_auto. Qed.

Lemma keeps_read_ahead_fetch (e : read_head_elem) :
  keeps f (read_ahead_fetch e).
Proof. unfold read_ahead_fetch, block_size. keeps_auto. Qed.

Lemma keeps_flush_cache_from (k i : nat) : keeps f (flush_cache_from k i).
Proof. revert i. induction k; intros i; simpl; keeps_auto. Qed.

Lemma keeps_flush_cache : keeps f flush_cache.
Proof. apply keeps_flush_cache_from. Qed.

End CacheFrame.

(** ** The read-ahead buffer *)

Lemma bind_done {A B : Type} (m : M A) (k : A -> M B) (s s' : state) (b : B) :
  bind m k s = Done b s' ->
  exists a s1, m s = Done a s1 /\ k a s1 = Done b s'.
Proof.
  unfold bind. destruct (m s) as [a s1| | |]; try discriminate. eauto.
Qed.

Lemma preserves_bind {A B : Type} (P : state -> Prop) (m : M A)
    (k : A -> M B) :
  preserves P m -> (forall a, preserves P (k a)) -> preserves P (bind m k).
Proof.
  intros Hm Hk s b s' HP H.
  destruct (bind_done _ _ _ _ _ H) as [a [s1 [H1 H2]]].
  exact (Hk a _ _ _ (Hm _ _ _ HP H1) H2).
Qed.

Lemma preserves_keeps {X A : Type} (f : state -> X) (Q : X -> Prop)
    (m : M A) :
  keeps f m -> preserves (fun s => Q (f s)) m.
Proof. intros Hk s a s' HQ H. rewrite (Hk _ _ _ H). exact HQ. Qed.

Lemma preserves_buffer_keeps {A : Type} (m : M A) :
  keeps buffer_of m -> preserves buffer_ok m.
Proof.
  intros Hk s a s' HQ H. specialize (Hk _ _ _ H).
  unfold buffer_of in Hk. injection Hk as Hb Hn.
  unfold buffer_ok in *. rewrite Hb, Hn. exact HQ.
Qed.

Lemma firstn_set_nth_snoc {A : Type} (n : nat) (v : A) (l : list A) :
  (n < List.length l)%nat ->
  firstn (S n) (set_nth n v l) = firstn n l ++ [v].
Proof.
  revert n; induction l as [|h t IH]; intros [|n] H; simpl in *; try lia.
  - reflexivity.
  - f_equal. apply IH. lia.
Qed.

Lemma firstn_snoc_inv {A : Type} (n : nat) (l p : list A) (e : A) :
  (n <= List.length l)%nat -> firstn n l = p ++ [e] ->
  n = S (List.length p) /\ nth_error l (List.length p) = Some e /\
  firstn (List.length p) l = p.
Proof.
  intros Hn H.
  assert (Hlen : n = S (List.length p)).
  { apply (f_equal (@List.length A)) in H.
    rewrite length_firstn, length_app in H. simpl in H. lia. }
  split; [exact Hlen|]. subst n. split.
  - assert (E : nth_error (firstn (S (List.length p)) l) (List.length p)
                 = Some e).
    { rewrite H, nth_error_app2, Nat.sub_diag by lia. reflexivity. }
    rewrite nth_error_firstn in E.
    destruct (Nat.ltb_spec (List.length p) (S (List.length p))); [|lia].
    exact E.
  - assert (E : firstn (List.length p) (firstn (S (List.length p)) l) = p).
    { rewrite H, firstn_app, Nat.sub_diag, firstn_all. simpl.
      apply app_nil_r. }
    rewrite firstn_firstn in E.
    rewrite Nat.min_l in E by lia. exact E.
Qed.

Lemma put_read_ahead_buffer_full (dev sec : Z) (s : state) :
  read_head_buffer_n s = READ_AHEAD_BUFFER_SIZE ->
  put_read_ahead_buffer dev sec s = Blocked.
Proof.
  intros H. unfold put_read_ahead_buffer, bind, get. rewrite H. reflexivity.
Qed.

Lemma put_read_ahead_buffer_room (dev sec : Z) (s : state) :
  buffer_ok s -> read_head_buffer_n s < READ_AHEAD_BUFFER_SIZE ->
  exists s',
    put_read_ahead_buffer dev sec s = Done tt s' /\
    buffer_ok s' /\
    pending s' = pending s ++ [mk_read_head_elem sec dev].
Proof.
  intros [Hlen Hn] Hroom. unfold READ_AHEAD_BUFFER_SIZE in *.
  unfold put_read_ahead_buffer, bind, get, modify.
  destruct (Z.eqb_spec (read_head_buffer_n s) READ_AHEAD_BUFFER_SIZE) as [E|_];
    [unfold READ_AHEAD_BUFFER_SIZE in E; lia|].
  eexists. split; [reflexivity|].
  assert (Hu : u32 (read_head_buffer_n s + 1) = read_head_buffer_n s + 1).
  { unfold u32. apply Z.mod_small. lia. }
  split.
  - unfold buffer_ok, READ_AHEAD_BUFFER_SIZE. simpl.
    rewrite set_nth_length, Hu. split; [exact Hlen | lia].
  - unfold pending. simpl. rewrite Hu.
    replace (Z.to_nat (read_head_buffer_n s + 1))
      with (S (Z.to_nat (read_head_buffer_n s))) by lia.
    apply firstn_set_nth_snoc. lia.
Qed.

Lemma preserves_put_read_ahead_buffer (dev sec : Z) :
  preserves buffer_ok (put_read_ahead_buffer dev sec).
Proof.
  intros s a s' Hok H.
  destruct (Z.eq_dec (read_head_buffer_n s) READ_AHEAD_BUFFER_SIZE) as [E|E].
  - rewrite (put_read_ahead_buffer_full _ _ _ E) in H. discriminate.
  - destruct (put_read_ahead_buffer_room dev sec s Hok) as [s1 [H1 [Hok1 _]]].
    + destruct Hok. lia.
    + rewrite H1 in H. injection H as _ <-. exact Hok1.
Qed.

Lemma read_ahead_pop_last (s : state) (p : list read_head_elem)
    (e : read_head_elem) :
  buffer_ok s -> pending s = p ++ [e] ->
  exists s1,
    read_ahead_pop s = Done e s1 /\ buffer_ok s1 /\ pending s1 = p.
Proof.
  intros [Hlen Hn] Hp. unfold READ_AHEAD_BUFFER_SIZE in *. unfold pending in Hp.
  assert (Hle : (Z.to_nat (read_head_buffer_n s)
                 <= List.length (read_head_buffer s))%nat) by lia.
  destruct (firstn_snoc_inv _ _ _ _ Hle Hp) as [Hnp [He Hfirst]].
  assert (Hu : u32 (read_head_buffer_n s - 1) = read_head_buffer_n s - 1).
  { unfold u32. apply Z.mod_small. lia. }
  assert (Hidx : Z.to_nat (read_head_buffer_n s - 1) = List.length p) by lia.
  unfold read_ahead_pop, bind, get, modify.
  destruct (Z.eqb_spec (read_head_buffer_n s) 0) as [E|_]; [lia|].
  simpl. rewrite Hu, Hidx, He.
  eexists. split; [reflexivity|]. split.
  - unfold buffer_ok, READ_AHEAD_BUFFER_SIZE. simpl. split; [exact Hlen|lia].
  - unfold pending. simpl. rewrite Hidx. exact Hfirst.
Qed.

Lemma preserves_read_ahead_pop : preserves buffer_ok read_ahead_pop.
Proof.
  intros s a s' [Hlen Hn] H. unfold READ_AHEAD_BUFFER_SIZE in *.
  unfold read_ahead_pop, bind, get, modify in H.
  destruct (Z.eqb_spec (read_head_buffer_n s) 0) as [E|E]; [discriminate|].
  simpl in H.
  destruct (nth_error _ _); [|discriminate].
  injection H as _ <-.
  unfold buffer_ok, READ_AHEAD_BUFFER_SIZE, u32. simpl.
  rewrite Z.mod_small by lia. split; [exact Hlen | lia].
Qed.

Lemma keeps_buffer_cache : forall c s, buffer_of (set_cache c s) = buffer_of s.
Proof. reflexivity. Qed.
Lemma keeps_buffer_clock :
  forall n s, buffer_of (set_clock_reads n s) = buffer_of s.
Proof. reflexivity. Qed.
Lemma keeps_buffer_disk : forall d s, buffer_of (set_disk d s) = buffer_of s.
Proof. reflexivity. Qed.
Lemma keeps_buffer_io : forall l s, buffer_of (set_io_log l s) = buffer_of s.
Proof. reflexivity. Qed.

Lemma preserves_ret {A : Type} (P : state -> Prop) (a : A) :
  preserves P (ret a).
Proof. intros s b s' HP [= _ <-]. exact HP. Qed.

Lemma preserves_cache_read (dev sec : Z) :
  preserves buffer_ok (cache_read dev sec).
Proof.
  pose proof keeps_buffer_cache. pose proof keeps_buffer_clock.
  pose proof keeps_buffer_disk. pose proof keeps_buffer_io.
  unfold cache_read.
  apply preserves_bind;
    [apply preserves_buffer_keeps, keeps_find_cacheline; auto | intros found].
  apply preserves_bind; [apply preserves_buffer_keeps | intros i].
  { destruct found; [apply keeps_ret | apply keeps_load_line; auto]. }
  apply preserves_bind;
    [apply preserves_buffer_keeps, keeps_get_line | intros l].
  apply preserves_bind;
    [apply preserves_buffer_keeps, keeps_timer_ticks; auto | intros t].
  apply preserves_bind;
    [apply preserves_buffer_keeps, keeps_upd_line; auto | intros _].
  apply preserves_bind;
    [apply preserves_buffer_keeps, keeps_sema_up; auto | intros _].
  apply preserves_bind;
    [apply preserves_put_read_ahead_buffer | intros _].
  apply preserves_ret.
Qed.

Lemma cache_step_buffer_ok (s s' : state) :
  buffer_ok s -> cache_step s s' -> buffer_ok s'.
Proof.
  intros Hok Hstep. destruct Hstep as [dev sec d s s' H | dev sec buf s s' H
    | dev sec s s' H | s s' H | s s' H].
  - exact (preserves_cache_read dev sec _ _ _ Hok H).
  - revert H. apply preserves_buffer_keeps; [|exact Hok].
    apply keeps_cache_write; auto using keeps_buffer_cache,
      keeps_buffer_clock, keeps_buffer_disk, keeps_buffer_io.
  - exact (preserves_put_read_ahead_buffer dev sec _ _ _ Hok H).
  - unfold read_ahead in H. revert H. apply preserves_bind; [| |exact Hok].
    + apply preserves_read_ahead_pop.
    + intros e. apply preserves_buffer_keeps.
      apply keeps_read_ahead_fetch; auto using keeps_buffer_cache,
        keeps_buffer_clock, keeps_buffer_disk, keeps_buffer_io.
  - revert H. apply preserves_buffer_keeps; [|exact Hok].
    apply keeps_flush_cache; auto using keeps_buffer_cache,
      keeps_buffer_clock, keeps_buffer_disk, keeps_buffer_io.
Qed.

Lemma cache_reachable_buffer_ok (s : state) : cache_reachable s -> buffer_ok s.
Proof.
  induction 1 as [s | s s' _ IH Hstep].
  - unfold buffer_ok, cache_init, READ_AHEAD_BUFFER_SIZE. simpl. split; [reflexivity | lia].
  - exact (cache_step_buffer_ok _ _ IH Hstep).
Qed.

(** C8.  In every state the cache and its threads can reach, the buffer
    holds between 0 and [READ_AHEAD_BUFFER_SIZE] = 64 pending requests;
    [put_read_ahead_buffer] waits while it holds 64 and otherwise appends
    its request behind the pending ones; and the consumer removes the
    request that was appended last, which is the one it then fetches. *)
Theorem read_ahead_buffer_is_bounded_stack (s : state) :
  cache_reachable s ->
  (READ_AHEAD_BUFFER_SIZE = 64 /\
   0 <= read_head_buffer_n s <= READ_AHEAD_BUFFER_SIZE /\
   Z.of_nat (List.length (pending s)) = read_head_buffer_n s) /\
  (forall dev sec,
      read_head_buffer_n s = READ_AHEAD_BUFFER_SIZE ->
      put_read_ahead_buffer dev sec s = Blocked) /\
  (forall dev sec,
      read_head_buffer_n s < READ_AHEAD_BUFFER_SIZE ->
      exists s',
        put_read_ahead_buffer dev sec s = Done tt s' /\
        pending s' = pending s ++ [mk_read_head_elem sec dev]) /\
  (forall p e,
      pending s = p ++ [e] ->
      exists s1,
        read_ahead_pop s = Done e s1 /\ pending s1 = p /\
        read_ahead s = read_ahead_fetch e s1).
Proof.
  intros Hr. pose proof (cache_reachable_buffer_ok s Hr) as Hok.
  split; [|split; [|split]].
  - destruct Hok as [Hlen Hn]. split; [reflexivity|]. split; [exact Hn|].
    unfold pending. rewrite length_firstn, Hlen.
    unfold READ_AHEAD_BUFFER_SIZE in *. lia.
  - intros dev sec. apply put_read_ahead_buffer_full.
  - intros dev sec Hroom.
    destruct (put_read_ahead_buffer_room dev sec s Hok Hroom)
      as [s' [H1 [_ H2]]]. eauto.
  - intros p e Hp.
    destruct (read_ahead_pop_last s p e Hok Hp) as [s1 [H1 [_ H2]]].
    exists s1. repeat split; auto.
    unfold read_ahead, bind. rewrite H1. reflexivity.
Qed.

(** ** The byte-to-sector mapping *)

Lemma index_at {A : Type} (a : list A) (i : Z) (x : A) (s : state) :
  0 <= i -> nth_error a (Z.to_nat i) = Some x -> index a i s = Done x s.
Proof.
  intros Hi Hx. unfold index.
  destruct (Z.ltb_spec i 0); [lia|]. rewrite Hx. reflexivity.
Qed.

Lemma index_nth (a : list Z) (i : Z) (s : state) :
  0 <= i < Z.of_nat (List.length a) ->
  index a i s = Done (nth (Z.to_nat i) a 0) s.
Proof.
  intros Hi. apply index_at; [lia|].
  apply nth_error_nth'. lia.
Qed.

Lemma index_words (d : list byte) (i : Z) (s : state) :
  0 <= i < 128 ->
  index (words_of d 128) i s = Done (word_at d (Z.to_nat i)) s.
Proof.
  intros Hi. apply index_at; [lia|]. unfold words_of.
  rewrite nth_error_map, nth_error_nth' with (d := O)
    by (rewrite length_seq; lia).
  rewrite seq_nth by lia. reflexivity.
Qed.

Lemma s32_small (x : Z) : - 2 ^ 31 <= x < 2 ^ 31 -> s32 x = x.
Proof. intros H. unfold s32. rewrite Z.mod_small; lia. Qed.

Lemma u32_small (x : Z) : 0 <= x < 2 ^ 32 -> u32 x = x.
Proof. intros H. unfold u32. apply Z.mod_small; lia. Qed.

Lemma byte_to_sector_past_end (s : state) (ino : inode) (p : Z) :
  length (data ino) <= p -> byte_to_sector ino p s = Done (u32 (-1)) s.
Proof.
  intros H. unfold byte_to_sector.
  destruct (Z.ltb_spec p (length (data ino))); [lia | reflexivity].
Qed.

(** C1.  For an offset [p] inside the file, [byte_to_sector] returns the
    sector the design document names: [blocks[p/S]] for [p < 10·S]; the
    entry [(p − 10·S)/S] of the single-indirect block at [blocks[10]] for
    [10·S <= p < (10+128)·S]; otherwise, with [q = p − (10+128)·S], the
    entry [(q mod 128·S)/S] of the level-2 block found at entry [q/(128·S)]
    of the level-1 block at [blocks[11]]; the index blocks are read from
    the device.  For [p] at or past the file's length it returns -1 (as a
    sector number) and reads nothing. *)
Theorem byte_to_sector_maps (s : state) (ino : inode) (p : Z) :
  List.length (blocks (data ino)) = 12%nat ->
  0 <= p < MAX_FILE_BYTES ->
  (p < length (data ino) ->
   byte_to_sector ino p s =
   Done (sector_of_byte s (data ino) p)
        (set_io_log (index_reads s (data ino) p ++ io_log s) s)) /\
  (length (data ino) <= p ->
   byte_to_sector ino p s = Done (u32 (-1)) s /\ u32 (-1) = 4294967295).
Proof.
  intros Hb Hp. unfold MAX_FILE_BYTES in Hp. split.
  2:{ intros H. split; [apply byte_to_sector_past_end, H | reflexivity]. }
  intros Hlen. unfold byte_to_sector, sector_of_byte, index_reads.
  unfold BLOCK_SECTOR_SIZE in *.
  destruct (Z.ltb_spec p (length (data ino))); [|lia].
  change (10 * 512) with 5120. change ((10 + 128) * 512) with 70656.
  change (128 * 512) with 65536.
  destruct (Z.ltb_spec p 5120) as [Hd|Hd].
  - rewrite Z.quot_div_nonneg by lia.
    assert (0 <= p / 512 < 10) by (split; [apply Z.div_pos | apply Z.div_lt_upper_bound]; lia).
    rewrite index_nth by lia. destruct s; reflexivity.
  - destruct (Z.ltb_spec (p - 5120) 65536) as [Hi|Hi];
      destruct (Z.ltb_spec p 70656); try lia.
    + rewrite Z.quot_div_nonneg by lia.
      assert (0 <= (p - 5120) / 512 < 128) by (split; [apply Z.div_pos | apply Z.div_lt_upper_bound]; lia).
      unfold bind, read_index_block, bind, block_read.
      rewrite index_nth by lia. cbn [ret].
      rewrite index_words by lia. reflexivity.
    + rewrite Z.rem_mod_nonneg by lia.
      rewrite !Z.quot_div_nonneg
        by (try lia; apply Z.mod_pos_bound; lia).
      assert (0 <= (p - 70656) / 65536 < 128) by (split; [apply Z.div_pos | apply Z.div_lt_upper_bound]; lia).
      assert (0 <= (p - 70656) mod 65536 < 65536) by (apply Z.mod_pos_bound; lia).
      assert (0 <= (p - 70656) mod 65536 / 512 < 128) by (split; [apply Z.div_pos | apply Z.div_lt_upper_bound]; lia).
      unfold bind, read_index_block, bind, block_read.
      rewrite index_nth by lia. cbn [ret].
      rewrite index_words by lia. cbn [ret disk set_io_log].
      rewrite index_words by lia. reflexivity.
Qed.

(** ** Reading at or past the end of a file *)

(** C9.  On an open inode whose length is a file size (not negative),
    [inode_read_at] with [offset] at or past the length, or with
    [size <= 0], returns 0 having copied nothing, and leaves the whole
    machine as it was: no cache line is touched, no tick is read, no
    read-ahead request is queued and the device log gains no transfer.  In
    the first case with [size > 0] the loop is entered and [byte_to_sector]
    does report -1 before the bounds check ends the loop. *)
Theorem inode_read_at_past_end (s : state) (p : Z) (ino : inode)
    (size offset : Z) :
  heap s p = Some ino ->
  0 <= inode_length ino ->
  offset < 2 ^ 31 ->
  inode_length ino <= offset \/ size <= 0 ->
  inode_read_at p size offset s = Done (0, []) s /\
  (inode_length ino <= offset ->
   byte_to_sector ino offset s = Done (u32 (-1)) s).
Proof.
  intros Hp Hlen Hoff Hcase. split.
  2:{ apply byte_to_sector_past_end. }
  unfold inode_read_at.
  destruct (Z_le_gt_dec size 0) as [Hs|Hs].
  - destruct (Z.to_nat size); simpl;
      destruct (Z.gtb_spec size 0); try lia; reflexivity.
  - destruct Hcase as [Hpast|]; [|lia].
    destruct (Z.to_nat size) as [|fuel] eqn:Hf; [lia|].
    cbn [read_loop].
    destruct (Z.gtb_spec size 0); [|lia].
    unfold bind at 1. unfold deref. rewrite Hp.
    unfold bind at 1. unfold inode_length in *.
    rewrite (byte_to_sector_past_end s ino offset Hpast).
    cbv zeta. unfold BLOCK_SECTOR_SIZE.
    rewrite s32_small by lia.
    assert (Hr : 0 <= Z.rem offset 512 < 512).
    { rewrite Z.rem_mod_nonneg by lia. apply Z.mod_pos_bound. lia. }
    destruct (Z.ltb_spec (length (data ino) - offset) (512 - Z.rem offset 512));
      [|lia].
    destruct (Z.ltb_spec size (length (data ino) - offset)); [lia|].
    destruct (Z.leb_spec (length (data ino) - offset) 0); [|lia].
    reflexivity.
Qed.

(** ** Running out of free sectors *)

(** [inode_create] has one way to return [false]: its [calloc] failing. *)
Lemma inode_create_true (s s' : state) (sec len : Z) (isdir r : bool) :
  inode_create sec len isdir s = Done r s' ->
  malloc_fails s (malloc_calls s) = false -> r = true.
Proof.
  unfold inode_create. intros H Hm.
  destruct (len <? 0); [discriminate|].
  apply bind_done in H. destruct H as [m [s1 [H1 H2]]].
  unfold malloc in H1. rewrite Hm in H1. injection H1 as <- <-.
  apply bind_done in H2. destruct H2 as [g [s2 [_ H2]]].
  apply bind_done in H2. destruct H2 as [u [s3 [_ H2]]].
  injection H2 as <- _. reflexivity.
Qed.

(** C3 (the code at the failing input).  With sector 2 the only free
    sector, creating a file of two sectors returns [true]; sector 2 has been
    taken and is not given back, and the second "allocated" sector is the
    untouched array entry 0, the sector of the free-map file, which is
    overwritten with zeros. *)
Theorem inode_create_exhausted :
  exists s',
    inode_create 3 1024 false tight = Done true s' /\
    first_clear (free_map tight) 0 = Some 2 /\
    first_clear (free_map s') 0 = None /\
    io_log s' = [IoWrite fs_device 0 zeros; IoWrite fs_device 2 zeros].
Proof.
  eexists. split; [vm_compute; reflexivity|].
  split; [reflexivity|]. split; reflexivity.
Qed.

(** ** Writing and reading back *)

(** On a machine with free sectors and a cold cache the round trip works. *)
Example round_trip_two_sectors :
  exists a s1 s2,
    create_and_open booted = Done a s1 /\
    write_then_read a two_sectors 1024 s1 = Done (1024, (1024, two_sectors)) s2.
Proof.
  eexists. eexists. eexists.
  split; [vm_compute; reflexivity | vm_compute; reflexivity].
Qed.

(** C2 (the code at two failing inputs).  First: every line of the cache
    has been used within the current tick; the write of one sector to a
    fresh file misses the cache, finds no line to evict, and dereferences
    a null pointer instead of returning.  Second: the free map is
    exhausted; the write of two differing sectors reports 1024 bytes
    written, and reading them back yields the second sector twice. *)
Theorem round_trip_fails :
  (exists a s1 s2,
      create_and_open frozen = Done a s1 /\
      write_sectors 63 10 s1 = Done tt s2 /\
      deny_write_cnt_of s2 a = Some 0 /\
      inode_write_at a (repeat x01 512) 512 0 s2 = Fault) /\
  (exists a s1 s2 out,
      create_and_open full = Done a s1 /\
      deny_write_cnt_of s1 a = Some 0 /\
      write_then_read a two_sectors 1024 s1 = Done (1024, (1024, out)) s2 /\
      out = repeat x02 1024 /\ out <> two_sectors).
Proof.
  split.
  - eexists. eexists. eexists.
    split; [vm_compute; reflexivity|].
    split; [vm_compute; reflexivity|].
    split; vm_compute; reflexivity.
  - eexists. eexists. eexists. eexists.
    split; [vm_compute; reflexivity|].
    split; [vm_compute; reflexivity|].
    split; [vm_compute; reflexivity|].
    split; [reflexivity | discriminate].
Qed.

(** ** Code that leaves the in-memory inodes alone *)

Lemma table_le_refl (s : state) : table_le s s.
Proof. repeat split; auto. Qed.

Lemma table_le_trans (s1 s2 s3 : state) :
  table_le s1 s2 -> table_le s2 s3 -> table_le s1 s3.
Proof.
  intros [H1 [H2 H3]] [H4 [H5 H6]]. repeat split; try congruence. lia.
Qed.

Lemma quiet_ret {A : Type} (a : A) : quiet (ret a).
Proof. intros s r s' [= _ <-]. apply table_le_refl. Qed.

Lemma quiet_bind {A B : Type} (m : M A) (k : A -> M B) :
  quiet m -> (forall a, quiet (k a)) -> quiet (bind m k).
Proof.
  intros Hm Hk s r s' H.
  destruct (bind_done _ _ _ _ _ H) as [a [s1 [H1 H2]]].
  exact (table_le_trans _ _ _ (Hm _ _ _ H1) (Hk _ _ _ _ H2)).
Qed.

Lemma quiet_fault {A : Type} : quiet (@fault A).
Proof. intros s r s' H. discriminate. Qed.

Lemma quiet_blocked {A : Type} : quiet (@blocked A).
Proof. intros s r s' H. discriminate. Qed.

Lemma quiet_diverge {A : Type} : quiet (@diverge A).
Proof. intros s r s' H. discriminate. Qed.

Lemma quiet_get {A : Type} (g : state -> A) : quiet (get g).
Proof. intros s r s' [= _ <-]. apply table_le_refl. Qed.

Lemma quiet_when (b : bool) (m : M unit) : quiet m -> quiet (when b m).
Proof. destruct b; simpl; auto using quiet_ret. Qed.

Lemma quiet_keeps {A : Type} (m : M A) : keeps table_of m -> quiet m.
Proof.
  intros Hk s r s' H. specialize (Hk _ _ _ H). unfold table_of in Hk.
  injection Hk as H1 H2 H3. unfold table_le. rewrite H1, H2, H3. auto.
Qed.

Lemma quiet_malloc : quiet malloc.
Proof.
  intros s r s' H. unfold malloc in H. injection H as _ <-.
  repeat split. simpl. lia.
Qed.

Lemma quiet_deref (a : Z) : quiet (deref a).
Proof.
  intros s r s' H. unfold deref in H.
  destruct (heap s a); inversion H. apply table_le_refl.
Qed.

Lemma quiet_index {A : Type} (a : list A) (i : Z) : quiet (index a i).
Proof.
  unfold index. destruct (i <? 0); [apply quiet_fault|].
  destruct (nth_error a (Z.to_nat i)); [apply quiet_ret | apply quiet_fault].
Qed.

Lemma table_cache : forall c s, table_of (set_cache c s) = table_of s.
Proof. reflexivity. Qed.
Lemma table_clock : forall n s, table_of (set_clock_reads n s) = table_of s.
Proof. reflexivity. Qed.
Lemma table_disk : forall d s, table_of (set_disk d s) = table_of s.
Proof. reflexivity. Qed.
Lemma table_io : forall l s, table_of (set_io_log l s) = table_of s.
Proof. reflexivity. Qed.

Lemma quiet_block_read (dev sec : Z) : quiet (block_read dev sec).
Proof. apply quiet_keeps, keeps_block_read, table_io. Qed.

Lemma quiet_block_write (dev sec : Z) (buf : list byte) :
  quiet (block_write dev sec buf).
Proof. apply quiet_keeps, keeps_block_write; auto using table_io, table_disk. Qed.

Lemma quiet_cache_write (dev sec : Z) (buf : list byte) :
  quiet (cache_write dev sec buf).
Proof.
  apply quiet_keeps, keeps_cache_write;
    auto using table_cache, table_clock, table_io, table_disk.
Qed.

Lemma quiet_put_read_ahead_buffer (dev sec : Z) :
  quiet (put_read_ahead_buffer dev sec).
Proof.
  intros s r s' H. unfold put_read_ahead_buffer, bind, get, modify in H.
  destruct (_ =? _); [discriminate|]. injection H as _ <-.
  unfold table_le; simpl; auto.
Qed.

Lemma quiet_find_cacheline (dev sec : Z) : quiet (find_cacheline dev sec).
Proof. apply quiet_keeps, keeps_find_cacheline, table_cache. Qed.

Lemma quiet_load_line (dev sec : Z) : quiet (load_line dev sec).
Proof.
  apply quiet_keeps, keeps_load_line;
    auto using table_cache, table_clock, table_io, table_disk.
Qed.

Lemma quiet_get_line (i : nat) : quiet (get_line i).
Proof. apply quiet_keeps, keeps_get_line. Qed.

Lemma quiet_upd_line (i : nat) (f : cache_block -> cache_block) :
  quiet (upd_line i f).
Proof. apply quiet_keeps, keeps_upd_line, table_cache. Qed.

Lemma quiet_sema_up (i : nat) : quiet (sema_up i).
Proof. apply quiet_keeps, keeps_sema_up, table_cache. Qed.

Lemma quiet_timer_ticks : quiet timer_ticks.
Proof. apply quiet_keeps, keeps_timer_ticks, table_clock. Qed.

Lemma quiet_cache_read (dev sec : Z) : quiet (cache_read dev sec).
Proof.
  unfold cache_read.
  apply quiet_bind; [apply quiet_find_cacheline | intros found].
  apply quiet_bind;
    [destruct found; [apply quiet_ret | apply quiet_load_line] | intros i].
  apply quiet_bind; [apply quiet_get_line | intros l].
  apply quiet_bind; [apply quiet_timer_ticks | intros t].
  apply quiet_bind; [apply quiet_upd_line | intros _].
  apply quiet_bind; [apply quiet_sema_up | intros _].
  apply quiet_bind; [apply quiet_put_read_ahead_buffer | intros _].
  apply quiet_ret.
Qed.

Lemma quiet_read_ahead : quiet read_ahead.
Proof.
  unfold read_ahead. apply quiet_bind.
  - intros s r s' H. unfold read_ahead_pop, bind, get, modify in H.
    destruct (_ =? _); [discriminate|]. simpl in H.
    destruct (nth_error _ _); [|discriminate]. injection H as _ <-.
    unfold table_le; simpl; auto.
  - intros e. apply quiet_keeps, keeps_read_ahead_fetch;
      auto using table_cache, table_clock, table_io, table_disk.
Qed.

Lemma quiet_flush_cache : quiet flush_cache.
Proof.
  apply quiet_keeps, keeps_flush_cache;
    auto using table_cache, table_clock, table_io, table_disk.
Qed.

Lemma quiet_free_map_allocate : quiet free_map_allocate.
Proof.
  intros s r s' H. unfold free_map_allocate in H.
  destruct (first_clear _ _); injection H as _ <-; unfold table_le; simpl; auto.
Qed.

Lemma quiet_free_map_release (sec : Z) : quiet (free_map_release sec).
Proof. intros s r s' [= _ <-]. unfold table_le; simpl; auto. Qed.

Create HintDb quiet.
#[export] Hint Resolve quiet_ret quiet_fault quiet_blocked quiet_diverge
  quiet_get quiet_when quiet_malloc quiet_deref quiet_index quiet_block_read
  quiet_block_write quiet_cache_write quiet_cache_read quiet_read_ahead
  quiet_flush_cache quiet_put_read_ahead_buffer quiet_free_map_allocate
  quiet_free_map_release : quiet.

Ltac quiet_step :=
  match goal with
  | |- quiet (bind _ _) => apply quiet_bind; [|intros ?]
  | |- quiet (let '(_, _) := ?x in _) => destruct x
  | |- quiet (match ?x with _ => _ end) => destruct x
  | |- quiet (if ?x then _ else _) => destruct x
  | |- quiet (when _ _) => apply quiet_when
  | |- quiet _ => solve [auto with quiet]
  end.
Ltac quiet_auto := repeat quiet_step.

Lemma quiet_allocate_into (old : Z) : quiet (allocate_into old).
Proof. unfold allocate_into. quiet_auto. Qed.

Lemma quiet_stack_array : quiet stack_array.
Proof. apply quiet_get. Qed.

Lemma quiet_read_index_block (sec : Z) : quiet (read_index_block sec).
Proof. unfold read_index_block. quiet_auto. Qed.

#[export] Hint Resolve quiet_allocate_into quiet_stack_array
  quiet_read_index_block : quiet.

Lemma quiet_byte_to_sector (ino : inode) (pos : Z) :
  quiet (byte_to_sector ino pos).
Proof. unfold byte_to_sector. quiet_auto. Qed.

Lemma quiet_grow_indirect (k : nat) :
  forall i arr d remain, quiet (grow_indirect k i arr d remain).
Proof. induction k; intros; cbn [grow_indirect]; quiet_auto. Qed.

Lemma quiet_grow_l2 (k : nat) :
  forall j arr d remain, quiet (grow_l2 k j arr d remain).
Proof. induction k; intros; cbn [grow_l2]; quiet_auto. Qed.

#[export] Hint Resolve quiet_byte_to_sector quiet_grow_indirect quiet_grow_l2
  : quiet.

Lemma quiet_grow_l1 (k : nat) :
  forall i l1 d remain, quiet (grow_l1 k i l1 d remain).
Proof. induction k; intros; cbn [grow_l1]; quiet_auto. Qed.

#[export] Hint Resolve quiet_grow_l1 : quiet.

Lemma quiet_grow_loop (fuel : nat) :
  forall d remain, quiet (grow_loop fuel d remain).
Proof.
  induction fuel; intros; cbn [grow_loop].
  - quiet_auto.
  - destruct (remain >? 0); [|apply quiet_ret].
    destruct (direct_usage d <? 10); [quiet_auto|].
    destruct (indirect_block_usage d <? 128); quiet_auto.
Qed.

#[export] Hint Resolve quiet_grow_loop : quiet.

Lemma quiet_inode_disk_grow (d : inode_disk) : quiet (inode_disk_grow d).
Proof. unfold inode_disk_grow. quiet_auto. Qed.

#[export] Hint Resolve quiet_inode_disk_grow : quiet.

Lemma quiet_inode_create (sec len : Z) (isdir : bool) :
  quiet (inode_create sec len isdir).
Proof. unfold inode_create. quiet_auto. Qed.

Lemma quiet_need_bounce (b : bool) : quiet (need_bounce b).
Proof. unfold need_bounce. quiet_auto. Qed.

#[export] Hint Resolve quiet_need_bounce : quiet.

Lemma quiet_read_loop (fuel : nat) :
  forall p size offset bytes_read buffer bounce,
    quiet (read_loop fuel p size offset bytes_read buffer bounce).
Proof.
  induction fuel; intros; cbn [read_loop].
  - quiet_auto.
  - destruct (size >? 0); [|apply quiet_ret]. quiet_auto.
Qed.

Lemma quiet_inode_read_at (p size offset : Z) :
  quiet (inode_read_at p size offset).
Proof. apply quiet_read_loop. Qed.

Lemma quiet_write_loop (fuel : nat) :
  forall p size offset bytes_written source bounce,
    quiet (write_loop fuel p size offset bytes_written source bounce).
Proof.
  induction fuel; intros; cbn [write_loop].
  - quiet_auto.
  - destruct (size >? 0); [|apply quiet_ret]. quiet_auto.
Qed.

Lemma quiet_free_entries (k : nat) :
  forall i bound arr remain, quiet (free_entries k i bound arr remain).
Proof. induction k; intros; cbn [free_entries]; quiet_auto. Qed.

#[export] Hint Resolve quiet_free_entries : quiet.

Lemma quiet_free_l1 (k : nat) :
  forall i bound l1 remain, quiet (free_l1 k i bound l1 remain).
Proof. induction k; intros; cbn [free_l1]; quiet_auto. Qed.

#[export] Hint Resolve quiet_free_l1 : quiet.

Lemma quiet_free_loop (fuel : nat) :
  forall d remain, quiet (free_loop fuel d remain).
Proof.
  induction fuel; intros; cbn [free_loop].
  - quiet_auto.
  - destruct (remain >? 0); [|apply quiet_ret].
    destruct (direct_usage d >? 0); [quiet_auto|].
    destruct (indirect_used d =? 1); [quiet_auto|].
    destruct (double_used d =? 1); quiet_auto.
Qed.

Lemma quiet_cache_step (s s' : state) : cache_step s s' -> table_le s s'.
Proof.
  intros [dev sec d s0 s1 H | dev sec buf s0 s1 H | dev sec s0 s1 H
         | s0 s1 H | s0 s1 H].
  - exact (quiet_cache_read _ _ _ _ _ H).
  - exact (quiet_cache_write _ _ _ _ _ _ H).
  - exact (quiet_put_read_ahead_buffer _ _ _ _ _ H).
  - exact (quiet_read_ahead _ _ _ H).
  - exact (quiet_flush_cache _ _ _ H).
Qed.

(** ** Code that updates an in-memory inode in place *)

Lemma sectors_le_refl (s : state) : sectors_le s s.
Proof. repeat split; auto. Qed.

Lemma sectors_le_trans (s1 s2 s3 : state) :
  sectors_le s1 s2 -> sectors_le s2 s3 -> sectors_le s1 s3.
Proof.
  intros [H1 [H2 H3]] [H4 [H5 H6]]. split; [congruence|]. split; [|lia].
  intros a. rewrite H5. apply H2.
Qed.

Lemma table_le_sectors_le (s s' : state) : table_le s s' -> sectors_le s s'.
Proof.
  intros [H1 [H2 H3]]. repeat split; auto.
  intros a. unfold sector_at. rewrite H1. reflexivity.
Qed.

Lemma tame_at_quiet {A : Type} (p : option (Z * Z)) (m : M A) :
  quiet m -> tame_at p m.
Proof. intros H s r s' _ Hm. apply table_le_sectors_le, (H _ _ _ Hm). Qed.

Lemma tame_at_ret {A : Type} (p : option (Z * Z)) (a : A) :
  tame_at p (ret a).
Proof. apply tame_at_quiet, quiet_ret. Qed.

Lemma tame_at_bind {A B : Type} (p : option (Z * Z)) (m : M A)
    (k : A -> M B) :
  tame_at p m -> (forall a, tame_at p (k a)) -> tame_at p (bind m k).
Proof.
  intros Hm Hk s r s' Hp H.
  destruct (bind_done _ _ _ _ _ H) as [a [s1 [H1 H2]]].
  pose proof (Hm _ _ _ Hp H1) as Hle.
  apply (sectors_le_trans _ _ _ Hle).
  apply (Hk a s1 r s'); [|exact H2].
  intros b sec E. destruct Hle as [_ [Hsec _]]. rewrite Hsec. auto.
Qed.

Lemma tame_at_store (a : Z) (x : inode) :
  tame_at (Some (a, sector x)) (store a x).
Proof.
  intros s r s' Hp H. unfold store, modify in H. injection H as _ <-.
  repeat split; auto. intros b. unfold sector_at. simpl.
  destruct (Z.eqb_spec b a) as [->|]; [|reflexivity].
  specialize (Hp a (sector x) eq_refl). unfold sector_at in Hp.
  rewrite Hp. reflexivity.
Qed.

Lemma tame_at_store_same (a sec : Z) (x : inode) :
  sector x = sec -> tame_at (Some (a, sec)) (store a x).
Proof. intros <-. apply tame_at_store. Qed.

(** Reading the inode at [a] tells which sector it is for. *)
Lemma tame_at_deref {A : Type} (p : option (Z * Z)) (a : Z)
    (k : inode -> M A) :
  (forall i, tame_at (Some (a, sector i)) (k i)) ->
  tame_at p (bind (deref a) k).
Proof.
  intros Hk s r s' _ H. unfold bind, deref in H.
  destruct (heap s a) as [i|] eqn:E; [|discriminate].
  apply (Hk i s r s'); [|exact H].
  intros b sec [= <- <-]. unfold sector_at. rewrite E. reflexivity.
Qed.

Ltac tame_step :=
  match goal with
  | |- tame_at _ (bind (deref _) _) => apply tame_at_deref; intros ?
  | |- tame_at _ (bind _ _) => apply tame_at_bind; [|intros ?]
  | |- tame_at _ (store _ _) => apply tame_at_store_same; reflexivity
  | |- tame_at _ (let '(_, _) := ?x in _) => destruct x
  | |- tame_at _ (if ?x then _ else _) => destruct x
  | |- tame_at _ (match ?x with _ => _ end) => destruct x
  | |- tame_at _ _ => solve [apply tame_at_quiet; auto with quiet]
  end.
Ltac tame_auto := repeat tame_step.

Lemma tame_inode_reopen (p : option Z) : tame_at None (inode_reopen p).
Proof. unfold inode_reopen. tame_auto. Qed.

Lemma tame_inode_remove (p : Z) : tame_at None (inode_remove p).
Proof. unfold inode_remove. tame_auto. Qed.

Lemma tame_inode_deny_write (p : Z) : tame_at None (inode_deny_write p).
Proof. unfold inode_deny_write. tame_auto. Qed.

Lemma tame_inode_allow_write (p : Z) : tame_at None (inode_allow_write p).
Proof. unfold inode_allow_write. tame_auto. Qed.

Lemma tame_inode_write_at (p : Z) (buf : list byte) (size offset : Z) :
  tame_at None (inode_write_at p buf size offset).
Proof.
  unfold inode_write_at. tame_auto.
  apply tame_at_quiet, quiet_write_loop.
Qed.

Lemma tame_free_inode (p : Z) : tame_at None (free_inode p).
Proof.
  unfold free_inode. tame_auto.
  apply tame_at_quiet, quiet_free_loop.
Qed.

(** ** The single-instance invariant *)

Lemma sector_at_heap (s : state) (a : Z) :
  heap s a <> None <-> sector_at s a <> None.
Proof. unfold sector_at. destruct (heap s a); simpl; split; congruence. Qed.

Lemma single_instance_sectors_le (s s' : state) :
  single_instance s -> sectors_le s s' -> single_instance s'.
Proof.
  intros [Hnd [Hdom [Huniq Hbound]]] [Hl [Hsec Hm]].
  unfold single_instance. rewrite Hl. repeat split.
  - exact Hnd.
  - intros H. rewrite sector_at_heap, Hsec, <- sector_at_heap. apply Hdom, H.
  - intros H. rewrite sector_at_heap, Hsec, <- sector_at_heap in H.
    apply Hdom, H.
  - intros a b sec. rewrite !Hsec. apply Huniq.
  - intros a Ha. specialize (Hbound a Ha). lia.
Qed.

Lemma preserves_tame {A : Type} (m : M A) :
  tame_at None m -> preserves single_instance m.
Proof.
  intros Ht s r s' Hs H.
  apply (single_instance_sectors_le s); [exact Hs|].
  apply (Ht s r s'); [discriminate | exact H].
Qed.

Lemma find_open_done (l : list Z) (sec : Z) (s s' : state) (r : option Z) :
  find_open l sec s = Done r s' ->
  s' = s /\
  match r with
  | Some a => In a l /\ sector_at s a = Some sec
  | None => forall b, In b l -> sector_at s b <> Some sec
  end.
Proof.
  revert r. induction l as [|a t IH]; intros r H; simpl in H.
  - injection H as <- <-. split; [reflexivity|]. intros b [].
  - unfold bind, deref in H. destruct (heap s a) as [i|] eqn:E; [|discriminate].
    destruct (Z.eqb_spec (sector i) sec) as [Hs|Hs].
    + injection H as <- <-. split; [reflexivity|]. split; [left; auto|].
      unfold sector_at. rewrite E. simpl. congruence.
    + destruct (IH _ H) as [-> Hr]. split; [reflexivity|].
      destruct r as [b|].
      * destruct Hr. split; [right|]; auto.
      * intros b [<-|Hb]; [|auto].
        unfold sector_at. rewrite E. simpl. congruence.
Qed.

Lemma find_open_total (l : list Z) (sec : Z) (s : state) :
  (forall a, In a l -> heap s a <> None) ->
  exists r, find_open l sec s = Done r s.
Proof.
  induction l as [|a t IH]; intros Hl; simpl.
  - eexists. reflexivity.
  - unfold bind, deref. destruct (heap s a) as [i|] eqn:E.
    + destruct (sector i =? sec); [eexists; reflexivity|].
      apply IH. intros b Hb. apply Hl. right. exact Hb.
    + exfalso. apply (Hl a); [left; reflexivity | exact E].
Qed.

(** Opening a sector that is open: the object that is there, with one more
    opener. *)
Lemma inode_open_again (s : state) (sec a : Z) (i : inode) :
  single_instance s -> heap s a = Some i -> sector i = sec ->
  inode_open sec s =
  Done (Some a) (stored a (with_open_cnt (s32 (open_cnt i + 1)) i) s).
Proof.
  intros Hs Ha Hsec. pose proof Hs as [Hnd [Hdom [Huniq Hbound]]].
  unfold inode_open, bind at 1, get. unfold bind at 1.
  destruct (find_open_total (open_inodes s) sec s) as [r Hr].
  { intros b Hb. apply Hdom, Hb. }
  rewrite Hr. destruct (find_open_done _ _ _ _ _ Hr) as [_ Hfound].
  assert (Hsa : sector_at s a = Some sec).
  { unfold sector_at. rewrite Ha. simpl. congruence. }
  destruct r as [b|].
  - destruct Hfound as [_ Hb]. rewrite (Huniq b a sec Hb Hsa).
    unfold inode_reopen, bind, deref. rewrite Ha. reflexivity.
  - exfalso. apply (Hfound a); [|exact Hsa].
    apply Hdom. congruence.
Qed.

(** Opening a sector that is not open: nothing but a failed allocation, or
    one new object at the front of the list. *)
Lemma inode_open_fresh (s s' : state) (sec : Z) (r : option Z) :
  single_instance s ->
  (forall b, sector_at s b <> Some sec) ->
  inode_open sec s = Done r s' ->
  match r with
  | None =>
      malloc_fails s (malloc_calls s) = true /\
      open_inodes s' = open_inodes s /\ heap s' = heap s
  | Some a =>
      malloc_fails s (malloc_calls s) = false /\
      ~ In a (open_inodes s) /\
      open_inodes s' = a :: open_inodes s /\
      (exists d, heap s' a = Some (mk_inode sec 1 false 0 (inode_disk_of_sector d))) /\
      (forall b, b <> a -> heap s' b = heap s b)
  end /\ single_instance s'.
Proof.
  intros Hs Hnew H. pose proof Hs as [Hnd [Hdom [Huniq Hbound]]].
  unfold inode_open, bind at 1, get in H.
  apply bind_done in H. destruct H as [found [s0 [Hf H]]].
  destruct (find_open_done _ _ _ _ _ Hf) as [-> Hfound].
  destruct found as [b|].
  { exfalso. destruct Hfound as [_ Hb]. exact (Hnew b Hb). }
  apply bind_done in H. destruct H as [m [s1 [Hm H]]].
  unfold malloc in Hm. injection Hm as <- <-.
  destruct (malloc_fails s (malloc_calls s)) eqn:Hfail.
  { injection H as <- <-. split; [repeat split; auto|].
    apply (single_instance_sectors_le s); [exact Hs|].
    repeat split; auto. simpl. lia. }
  apply bind_done in H. destruct H as [u [s2 [Hmod H]]].
  unfold modify in Hmod. injection Hmod as _ <-.
  apply bind_done in H. destruct H as [d [s3 [Hread H]]].
  apply quiet_cache_read in Hread. destruct Hread as [Hh [Hl Hc]].
  simpl in Hh, Hl, Hc.
  apply bind_done in H. destruct H as [u2 [s4 [Hst H]]].
  unfold store, modify in Hst. injection Hst as _ <-.
  injection H as <- <-.
  set (a := Z.of_nat (malloc_calls s) + 1) in *.
  assert (Hnotin : ~ In a (open_inodes s)).
  { intros Hin. specialize (Hbound a Hin). subst a. lia. }
  assert (Hnone : heap s a = None).
  { destruct (heap s a) eqn:E; [|reflexivity].
    exfalso. apply Hnotin, Hdom. congruence. }
  split.
  - split; [reflexivity|]. split; [exact Hnotin|]. simpl.
    split; [exact Hl|]. split.
    + exists d. rewrite Z.eqb_refl. reflexivity.
    + intros b Hb. destruct (Z.eqb_spec b a); [contradiction|].
      rewrite Hh. reflexivity.
  - unfold single_instance. simpl. rewrite Hl, Hh.
    split; [constructor; assumption|]. split; [|split].
    + intros b. destruct (Z.eqb_spec b a) as [->|Hb].
      * split; [discriminate | left; reflexivity].
      * rewrite <- Hdom. split; [intros [E|Hin]; [congruence|exact Hin]|].
        intros Hin. right. exact Hin.
    + intros b c sec0. unfold sector_at. simpl.
      destruct (Z.eqb_spec b a) as [->|Hb];
        destruct (Z.eqb_spec c a) as [->|Hc']; simpl; auto.
      * intros [= <-] Hcs. exfalso. exact (Hnew c Hcs).
      * intros Hbs [= <-]. exfalso. exact (Hnew b Hbs).
      * apply Huniq.
    + intros b [<-|Hin]; [subst a; lia|].
      specialize (Hbound b Hin). lia.
Qed.

Lemma list_remove_in (a b : Z) (l : list Z) :
  NoDup l -> (In b (list_remove a l) <-> In b l /\ b <> a).
Proof.
  induction 1 as [|x t Hx Hnd IH]; simpl.
  - tauto.
  - destruct (Z.eqb_spec x a) as [->|Hxa].
    + split.
      * intros Hb. split; [right; exact Hb|]. intros ->. contradiction.
      * intros [[->|Hb] Hne]; [contradiction | exact Hb].
    + simpl. rewrite IH. split.
      * intros [->|[Hb Hne]]; auto.
      * intros [[->|Hb] Hne]; auto.
Qed.

Lemma list_remove_nodup (a : Z) (l : list Z) :
  NoDup l -> NoDup (list_remove a l).
Proof.
  induction 1 as [|x t Hx Hnd IH]; simpl.
  - constructor.
  - destruct (x =? a); [exact Hnd|].
    constructor; [|exact IH].
    intros Hin. apply list_remove_in in Hin; [|exact Hnd]. tauto.
Qed.

Lemma list_remove_absent (a : Z) (l : list Z) :
  ~ In a l -> list_remove a l = l.
Proof.
  induction l as [|x t IH]; simpl; intros H; [reflexivity|].
  destruct (Z.eqb_spec x a) as [->|]; [tauto|].
  f_equal. apply IH. tauto.
Qed.

(** What [inode_close] does to the table. *)
Lemma inode_close_done (s s' : state) (a : Z) (i : inode) :
  single_instance s -> heap s a = Some i ->
  inode_close (Some a) s = Done tt s' ->
  (if s32 (open_cnt i - 1) =? 0
   then open_inodes s' = list_remove a (open_inodes s) /\
        ~ In a (open_inodes s') /\ heap s' a = None
   else open_inodes s' = open_inodes s /\
        heap s' a = Some (with_open_cnt (s32 (open_cnt i - 1)) i)) /\
  (forall b, b <> a -> sector_at s' b = sector_at s b) /\
  single_instance s'.
Proof.
  intros Hs Ha H. pose proof Hs as [Hnd [Hdom [Huniq Hbound]]].
  unfold inode_close in H. unfold bind at 1, deref in H. rewrite Ha in H.
  cbv zeta in H.
  apply bind_done in H. destruct H as [u [s1 [Hst H]]].
  assert (Hle1 : sectors_le s s1).
  { apply (tame_at_store a (with_open_cnt (s32 (open_cnt i - 1)) i) s u s1);
      [|exact Hst].
    intros b sec [= <- <-]. unfold sector_at. rewrite Ha. reflexivity. }
  unfold store, modify in Hst. injection Hst as _ <-.
  change (open_cnt (with_open_cnt (s32 (open_cnt i - 1)) i))
    with (s32 (open_cnt i - 1)) in H.
  destruct (s32 (open_cnt i - 1) =? 0).
  - apply bind_done in H. destruct H as [u1 [s2 [Hmod H]]].
    unfold modify in Hmod. injection Hmod as _ <-.
    apply bind_done in H. destruct H as [u2 [s3 [Hw H]]].
    apply quiet_cache_write, table_le_sectors_le in Hw.
    apply bind_done in H. destruct H as [u3 [s4 [Hrel H]]].
    assert (Hle4 : sectors_le s3 s4).
    { destruct (removed _); simpl in Hrel.
      - assert (Ht : tame_at None
                       (free_map_release (sector i) ;; free_inode a)).
        { apply tame_at_bind;
            [apply tame_at_quiet, quiet_free_map_release
            | intros _; apply tame_free_inode]. }
        apply (Ht s3 u3 s4); [discriminate | exact Hrel].
      - injection Hrel as _ <-. apply sectors_le_refl. }
    unfold free, modify in H. injection H as <-.
    pose proof (sectors_le_trans _ _ _ Hw Hle4) as [Hl [Hsec Hm]].
    simpl in Hl, Hsec, Hm.
    assert (Hsec' : forall b, sector_at s4 b = sector_at s b).
    { intros b. rewrite Hsec. destruct Hle1 as [_ [Hs1 _]].
      rewrite <- Hs1. reflexivity. }
    assert (Hrm : forall b, In b (list_remove a (open_inodes s)) <->
                            In b (open_inodes s) /\ b <> a).
    { intros b. apply list_remove_in, Hnd. }
    split; [|split].
    + simpl. rewrite Hl, Z.eqb_refl. repeat split; auto.
      rewrite Hrm. tauto.
    + intros b Hb. unfold sector_at at 1. simpl.
      destruct (Z.eqb_spec b a); [contradiction|]. apply Hsec'.
    + unfold single_instance. simpl. rewrite Hl.
      split; [apply list_remove_nodup, Hnd|]. split; [|split].
      * intros b. rewrite Hrm. destruct (Z.eqb_spec b a) as [->|Hb].
        -- split; [tauto | congruence].
        -- rewrite sector_at_heap, Hsec', <- sector_at_heap, <- Hdom. tauto.
      * intros b c sec. unfold sector_at. simpl.
        destruct (Z.eqb_spec b a); [discriminate|].
        destruct (Z.eqb_spec c a); [discriminate|].
        fold (sector_at s4 b). fold (sector_at s4 c). rewrite !Hsec'.
        apply Huniq.
      * intros b Hb. apply Hrm in Hb. destruct Hb as [Hb _].
        specialize (Hbound b Hb). lia.
  - injection H as <-. split; [|split].
    + simpl. rewrite Z.eqb_refl. auto.
    + intros b Hb. destruct Hle1 as [_ [Hs1 _]]. apply Hs1.
    + apply (single_instance_sectors_le s); assumption.
Qed.

Lemma preserves_inode_open (sec : Z) :
  preserves single_instance (inode_open sec).
Proof.
  intros s r s' Hs H.
  destruct (find_open_total (open_inodes s) sec s) as [f Hf].
  { intros b Hb. destruct Hs as [_ [Hdom _]]. apply Hdom, Hb. }
  destruct (find_open_done _ _ _ _ _ Hf) as [_ Hfound].
  destruct f as [a|].
  - destruct Hfound as [_ Ha]. unfold sector_at in Ha.
    destruct (heap s a) as [i|] eqn:E; [|discriminate].
    simpl in Ha. injection Ha as Ha.
    rewrite (inode_open_again s sec a i Hs E Ha) in H. injection H as _ <-.
    apply (single_instance_sectors_le s); [exact Hs|].
    apply (tame_at_store a (with_open_cnt (s32 (open_cnt i + 1)) i) s tt);
      [|reflexivity].
    intros b sec0 [= <- <-]. unfold sector_at. rewrite E. reflexivity.
  - apply (inode_open_fresh s s' sec r Hs); [|exact H].
    intros b Hb. apply (Hfound b); [|exact Hb].
    destruct Hs as [_ [Hdom _]]. apply Hdom, sector_at_heap. congruence.
Qed.

Lemma preserves_inode_close (p : option Z) :
  preserves single_instance (inode_close p).
Proof.
  intros s r s' Hs H. destruct p as [a|].
  - destruct (heap s a) as [i|] eqn:E.
    + destruct r. apply (inode_close_done s s' a i Hs E H).
    + unfold inode_close, bind, deref in H. rewrite E in H. discriminate.
  - injection H as _ <-. exact Hs.
Qed.

Lemma preserves_inode_set_parent (parent_sec child : Z) :
  preserves single_instance (inode_set_parent parent_sec child).
Proof.
  unfold inode_set_parent.
  apply preserves_bind; [apply preserves_inode_open | intros [a|]].
  - intros s r s' Hs H.
    apply bind_done in H. destruct H as [i [s1 [Hd H]]].
    unfold deref in Hd. destruct (heap s a) as [i0|] eqn:E; [|discriminate].
    injection Hd as <- <-.
    apply bind_done in H. destruct H as [u [s2 [Hst H]]].
    assert (Hs2 : single_instance s2).
    { apply (single_instance_sectors_le s); [exact Hs|].
      apply (tame_at_store_same a (sector i0)
               (with_inode_data (with_parent parent_sec (data i0)) i0)
               eq_refl s u s2); [|exact Hst].
      intros b sec [= <- <-]. unfold sector_at. rewrite E. reflexivity. }
    revert H. apply preserves_bind; [apply preserves_inode_close | |exact Hs2].
    intros _. apply preserves_ret.
  - apply preserves_ret.
Qed.

Lemma inode_step_single_instance (s s' : state) :
  single_instance s -> inode_step s s' -> single_instance s'.
Proof.
  intros Hs Hstep. destruct Hstep.
  - apply (single_instance_sectors_le s); [exact Hs|].
    apply table_le_sectors_le, quiet_cache_step. assumption.
  - eapply (preserves_tame _ (tame_at_quiet None _ (quiet_inode_create _ _ _)));
      eauto.
  - eapply preserves_inode_open; eauto.
  - eapply (preserves_tame _ (tame_inode_reopen _)); eauto.
  - eapply preserves_inode_close; eauto.
  - eapply (preserves_tame _ (tame_inode_remove _)); eauto.
  - eapply (preserves_tame _ (tame_at_quiet None _ (quiet_inode_read_at _ _ _)));
      eauto.
  - eapply (preserves_tame _ (tame_inode_write_at _ _ _ _)); eauto.
  - eapply (preserves_tame _ (tame_inode_deny_write _)); eauto.
  - eapply (preserves_tame _ (tame_inode_allow_write _)); eauto.
  - eapply preserves_inode_set_parent; eauto.
Qed.

Lemma inode_reachable_single_instance (s : state) :
  inode_reachable s -> single_instance s.
Proof.
  induction 1 as [s Hempty | s s' _ IH Hstep].
  - unfold single_instance, inode_init, cache_init. simpl.
    split; [constructor|]. split; [|split].
    + intros a. rewrite Hempty. split; [intros [] | congruence].
    + intros a b sec. unfold sector_at. simpl. rewrite Hempty. discriminate.
    + intros a [].
  - exact (inode_step_single_instance _ _ IH Hstep).
Qed.

(** ** A read through the cache that is ready for it *)

Lemma scan_find_some (ls : list cache_block) (dev sec : Z) :
  forall (b i : nat),
    scan_find ls b dev sec = Some i ->
    exists l, (b <= i)%nat /\ nth_error ls (i - b) = Some l /\
              matches dev sec l = true.
Proof.
  induction ls as [|h t IH]; intros b i H; simpl in H; [discriminate|].
  destruct (matches dev sec h) eqn:E.
  - injection H as <-. exists h. rewrite Nat.sub_diag. auto.
  - destruct (IH _ _ H) as [l [Hb [Hn Hm]]]. exists l.
    split; [lia|]. split; [|exact Hm].
    replace (i - b)%nat with (S (i - S b)) by lia. exact Hn.
Qed.

Lemma scan_find_none (ls : list cache_block) (dev sec : Z) :
  forall (b : nat),
    scan_find ls b dev sec = None ->
    Forall (fun l => matches dev sec l = false) ls.
Proof.
  induction ls as [|h t IH]; intros b H; simpl in H; [constructor|].
  destruct (matches dev sec h) eqn:E; [discriminate|].
  constructor; eauto.
Qed.

Lemma scan_evict_range (ls : list cache_block) :
  forall (b : nat) (ev : option nat) (t : Z),
    match scan_evict ls b ev t with
    | inl j =>
        exists l, (b <= j)%nat /\ nth_error ls (j - b) = Some l /\
                  valid l = false
    | inr (Some e) =>
        ev = Some e \/
        exists l, (b <= e)%nat /\ nth_error ls (e - b) = Some l /\
                  valid l = true
    | inr None =>
        ev = None /\ Forall (fun l => valid l = true /\ t <= time l) ls
    end.
Proof.
  induction ls as [|h tl IH]; intros b ev t; simpl.
  - destruct ev; auto.
  - destruct (valid h) eqn:Hv; simpl.
    + destruct (Z.ltb_spec (time h) t) as [Hlt|Hge].
      * specialize (IH (S b) (Some b) (time h)).
        destruct (scan_evict tl (S b) (Some b) (time h)) as [j|[e|]].
        -- destruct IH as [l [Hb [Hn Hinv]]]. exists l. split; [lia|].
           replace (j - b)%nat with (S (j - S b)) by lia. auto.
        -- right. destruct IH as [[= <-] | [l [Hb [Hn Hvl]]]].
           ++ exists h. rewrite Nat.sub_diag. auto.
           ++ exists l. split; [lia|].
              replace (e - b)%nat with (S (e - S b)) by lia. auto.
        -- destruct IH as [IH _]. discriminate.
      * specialize (IH (S b) ev t).
        destruct (scan_evict tl (S b) ev t) as [j|[e|]].
        -- destruct IH as [l [Hb [Hn Hinv]]]. exists l. split; [lia|].
           replace (j - b)%nat with (S (j - S b)) by lia. auto.
        -- destruct IH as [IH | [l [Hb [Hn Hvl]]]]; [left; exact IH|].
           right. exists l. split; [lia|].
           replace (e - b)%nat with (S (e - S b)) by lia. auto.
        -- destruct IH as [IH1 IH2]. split; [exact IH1|].
           constructor; auto.
    + exists h. rewrite Nat.sub_diag. auto.
Qed.

(** The end of [cache_read], from the line it has in hand. *)
Lemma cache_read_tail (s : state) (i : nat) (l : cache_block) (dev sec : Z) :
  nth_error (cache s) i = Some l ->
  buffer_ok s -> read_head_buffer_n s < READ_AHEAD_BUFFER_SIZE ->
  exists s',
    (l0 <- get_line i ;;
     t <- timer_ticks ;;
     upd_line i (with_time t) ;;
     sema_up i ;;
     put_read_ahead_buffer dev sec ;;
     ret (disk_data l0)) s = Done (disk_data l) s'.
Proof.
  intros Hl Hok Hroom.
  unfold bind at 1. rewrite (get_line_at _ _ _ Hl).
  unfold bind at 1. unfold timer_ticks.
  unfold bind at 1. rewrite (upd_line_at _ _ l) by exact Hl.
  unfold bind at 1. rewrite (sema_up_at _ (with_time (clock s (clock_reads s)) l))
    by (simpl; apply (nth_error_set_nth_eq _ _ _ _ Hl)).
  match goal with
  | |- exists s', bind _ _ ?s1 = _ =>
      destruct (put_read_ahead_buffer_room dev sec s1) as [s2 [Hput _]];
        [exact Hok | exact Hroom |]
  end.
  unfold bind. rewrite Hput. eexists. reflexivity.
Qed.

(** A call of [choose_evict] that finds a line. *)
Lemma choose_evict_done (s : state) :
  List.length (cache s) = CACHE_SIZE ->
  Forall (fun l => sema l = 1%nat) (cache s) ->
  evictable s ->
  exists i l s',
    choose_evict s = Done i s' /\
    nth_error (cache s) i = Some l /\
    cache s' = hold (Some i) (cache s) /\
    buffer_of s' = buffer_of s /\
    (forall dev sec,
        disk s' dev sec = disk s dev sec \/
        (valid l = true /\ dev = block l /\ sec = disk_sector l)).
Proof.
  intros Hlen Hfree Hev.
  pose proof (all_free_nonzero _ Hfree) as Hnz.
  unfold choose_evict. unfold bind at 1. unfold timer_ticks.
  unfold bind at 1.
  rewrite (choose_evict_from_run (cache s) Hnz);
    [| simpl; lia | discriminate | reflexivity].
  change (skipn 0 (cache s)) with (cache s).
  pose proof (scan_evict_range (cache s) O None (clock s (clock_reads s)))
    as Hrange.
  destruct (scan_evict (cache s) 0 None (clock s (clock_reads s)))
    as [j|[e|]]; cbn [selected].
  - destruct Hrange as [l [_ [Hl _]]]. rewrite Nat.sub_0_r in Hl.
    exists j, l. eexists. split; [reflexivity|]. cbn.
    repeat split; auto.
  - destruct Hrange as [Hx | [l [_ [Hl Hvl]]]]; [discriminate|].
    rewrite Nat.sub_0_r in Hl.
    unfold bind at 1.
    rewrite (get_line_at e (with_sema (pred (sema l)) l))
      by (simpl; apply nth_error_hold_self, Hl).
    change (dirty (with_sema (pred (sema l)) l)) with (dirty l).
    exists e, l.
    destruct (dirty l); eexists; (split; [reflexivity|]); cbn;
      repeat split; auto.
    intros dev sec.
    destruct (Z.eqb_spec dev (block l)); cbn; auto.
    destruct (Z.eqb_spec sec (disk_sector l)); cbn; auto.
  - exfalso. destruct Hrange as [_ Hall].
    unfold evictable in Hev. rewrite Exists_exists in Hev.
    destruct Hev as [l [Hin [Hinv | Hold]]];
      rewrite Forall_forall in Hall; destruct (Hall l Hin) as [Hv Ht].
    + congruence.
    + lia.
Qed.

(** The miss path: afterwards the chosen line holds the device's copy of
    the sector. *)
Lemma load_line_done (s : state) (dev sec : Z) :
  List.length (cache s) = CACHE_SIZE ->
  Forall (fun l => sema l = 1%nat) (cache s) ->
  evictable s ->
  Forall (fun l => matches dev sec l = false) (cache s) ->
  exists i l s',
    load_line dev sec s = Done i s' /\
    nth_error (cache s') i = Some l /\
    disk_data l = sector_of (disk s dev sec) /\
    buffer_of s' = buffer_of s.
Proof.
  intros Hlen Hfree Hev Hnomatch.
  destruct (choose_evict_done s Hlen Hfree Hev)
    as [i [l [s1 [Hrun [Hl [Hc [Hb Hdisk]]]]]]].
  assert (Hd : disk s1 dev sec = disk s dev sec).
  { destruct (Hdisk dev sec) as [E | [Hv [-> ->]]]; [exact E|].
    exfalso. rewrite Forall_forall in Hnomatch.
    specialize (Hnomatch l (nth_error_In _ _ Hl)).
    unfold matches in Hnomatch. rewrite Hv, !Z.eqb_refl in Hnomatch.
    discriminate. }
  assert (Hl1 : nth_error (cache s1) i = Some (with_sema (pred (sema l)) l)).
  { rewrite Hc. apply nth_error_hold_self, Hl. }
  unfold load_line. unfold bind at 1. rewrite Hrun.
  unfold bind at 1. rewrite (upd_line_at _ _ _ _ Hl1).
  unfold bind at 1. unfold block_read.
  unfold bind at 1.
  match goal with
  | |- context [upd_line i ?f ?st] =>
      rewrite (upd_line_at i f
                 (with_identity false dev sec (with_sema (pred (sema l)) l)) st)
        by (cbn; apply (nth_error_set_nth_eq _ _ _ _ Hl1))
  end.
  eexists i, _, _. split; [reflexivity|]. cbn.
  split; [eapply nth_error_set_nth_eq;
          apply (nth_error_set_nth_eq _ _ _ _ Hl1)|].
  cbn. rewrite Hd. split; [reflexivity|].
  unfold buffer_of in *. exact Hb.
Qed.

Lemma cache_read_run (s : state) (dev sec : Z) :
  cache_ready s dev sec ->
  exists s', cache_read dev sec s = Done (sector_view s dev sec) s'.
Proof.
  intros [Hlen [Hfree [Hserve [Hok Hroom]]]].
  pose proof (all_free_nonzero _ Hfree) as Hnz.
  unfold cache_read. unfold bind at 1. unfold find_cacheline.
  rewrite (find_cacheline_from_run (cache s) dev sec Hnz);
    [| simpl; lia | reflexivity].
  change (skipn 0 (cache s)) with (cache s).
  unfold sector_view, cached in *.
  destruct (scan_find (cache s) 0 dev sec) as [i|] eqn:Hfind.
  - (* hit *)
    destruct (scan_find_some _ _ _ _ _ Hfind) as [l [_ [Hl _]]].
    rewrite Nat.sub_0_r in Hl.
    unfold bind at 1. cbn [ret].
    rewrite (nth_error_nth _ _ empty_line Hl).
    apply (cache_read_tail _ i (with_sema (pred (sema l)) l)); auto.
    simpl. apply nth_error_hold_self, Hl.
  - (* miss *)
    destruct Hserve as [Hc | Hev]; [congruence|].
    pose proof (scan_find_none _ _ _ _ Hfind) as Hnomatch.
    unfold bind at 1.
    destruct (load_line_done (set_cache (hold None (cache s)) s) dev sec)
      as [i [l [s1 [Hrun [Hl [Hdata Hb]]]]]]; auto.
    rewrite Hrun.
    change (disk (set_cache (hold None (cache s)) s) dev sec)
      with (disk s dev sec) in Hdata.
    rewrite <- Hdata.
    apply cache_read_tail; auto.
    + unfold buffer_of in Hb. injection Hb as Hb1 Hb2.
      unfold buffer_ok. rewrite Hb1, Hb2. exact Hok.
    + unfold buffer_of in Hb. injection Hb as Hb1 Hb2. rewrite Hb2.
      exact Hroom.
Qed.

(** ** Opening and closing inodes *)


Lemma opened_reachable : inode_reachable opened.
Proof.
  apply (reach_inode_step created).
  - apply (reach_inode_step booted).
    + exact (reach_boot machine0 (fun _ => eq_refl)).
    + apply (step_inode_create 3 0 false true). vm_compute. reflexivity.
  - apply (step_inode_open 3 (Some 2)). vm_compute. reflexivity.
Defined.


(** ** Opening a sector that holds no inode *)

Lemma booted_single_instance : single_instance booted.
Proof.
  apply inode_reachable_single_instance.
  exact (reach_boot machine0 (fun _ => eq_refl)).
Qed.

Lemma booted_cache_ready (sec : Z) : cache_ready booted fs_device sec.
Proof.
  split; [reflexivity|]. split; [exact booted_all_free|].
  split; [|split; [split; [reflexivity | vm_compute; split; discriminate]
                  | reflexivity]].
  right. unfold evictable. apply Exists_cons_hd. left. reflexivity.
Qed.

(** ** The claims on concrete machines *)

(** Offset 6000 lies in the single-indirect range, offset 100000 is the
    end of the file. *)
Lemma byte_to_sector_maps_witness :
  byte_to_sector big_inode 6000 indexed =
    Done 41 (set_io_log [IoRead fs_device 30] indexed) /\
  byte_to_sector big_inode 100000 indexed = Done 4294967295 indexed.
Proof.
  split.
  - destruct (byte_to_sector_maps indexed big_inode 6000) as [H _];
      [reflexivity | unfold MAX_FILE_BYTES, BLOCK_SECTOR_SIZE; lia |].
    rewrite H by (simpl; lia). reflexivity.
  - destruct (byte_to_sector_maps indexed big_inode 100000) as [_ H];
      [reflexivity | unfold MAX_FILE_BYTES, BLOCK_SECTOR_SIZE; lia |].
    destruct H as [H _]; [simpl; lia|]. rewrite H. reflexivity.
Defined.

(** The empty file of sector 3, read at offset 0. *)
Lemma inode_read_at_past_end_witness :
  inode_read_at 2 100 0 opened = Done (0, []) opened.
Proof.
  destruct (heap opened 2) as [i|] eqn:E; [|vm_compute in E; discriminate].
  assert (Hlen : inode_length i = 0).
  { vm_compute in E. injection E as <-. reflexivity. }
  destruct (inode_read_at_past_end opened 2 i 100 0 E) as [H _];
    [rewrite Hlen; lia | lia | left; rewrite Hlen; lia | exact H].
Defined.

Lemma queued_reachable : cache_reachable queued.
Proof.
  apply (reach_step queued1).
  - apply (reach_step booted).
    + exact (reach_init machine0).
    + apply (step_put fs_device 5). reflexivity.
  - apply (step_put fs_device 9). reflexivity.
Defined.

(** Of the requests for sectors 5 and 9, queued in this order, the
    consumer takes the one for sector 9. *)
Lemma read_ahead_buffer_witness :
  pending queued = [mk_read_head_elem 5 fs_device; mk_read_head_elem 9 fs_device] /\
  exists s1,
    read_ahead_pop queued = Done (mk_read_head_elem 9 fs_device) s1 /\
    pending s1 = [mk_read_head_elem 5 fs_device].
Proof.
  split; [reflexivity|].
  destruct (read_ahead_buffer_is_bounded_stack queued queued_reachable)
    as [_ [_ [_ H]]].
  destruct (H [mk_read_head_elem 5 fs_device] (mk_read_head_elem 9 fs_device))
    as [s1 [H1 [H2 _]]]; [reflexivity|].
  exists s1. split; assumption.
Defined.

(** ** Tokens of a path *)

Lemma string_append_nil_r (s : string) : (s ++ "")%string = s.
Proof. induction s; simpl; congruence. Qed.

Lemma string_append_assoc (a b c : string) :
  ((a ++ b) ++ c)%string = (a ++ (b ++ c))%string.
Proof. induction a; simpl; congruence. Qed.

Lemma components_skip_delim (s : string) :
  components_from "" (skip_delim s) = components_from "" s.
Proof.
  induction s as [|c r IH]; simpl; [reflexivity|].
  destruct (Ascii.eqb c slash) eqn:E; [exact IH|].
  simpl. rewrite E. reflexivity.
Qed.

Lemma components_take_token (s : string) :
  forall cur,
    components_from cur s =
    match (cur ++ fst (take_token s))%string with
    | EmptyString => components_from "" (snd (take_token s))
    | w => w :: components_from "" (snd (take_token s))
    end.
Proof.
  induction s as [|c r IH]; intros cur; simpl.
  - rewrite string_append_nil_r. destruct cur; reflexivity.
  - destruct (Ascii.eqb c slash) eqn:E; simpl.
    + rewrite string_append_nil_r. destruct cur; reflexivity.
    + rewrite IH. destruct (take_token r) as [tok rest]. simpl.
      rewrite string_append_assoc. reflexivity.
Qed.

Lemma skip_delim_length (s : string) :
  (String.length (skip_delim s) <= String.length s)%nat.
Proof.
  induction s as [|c r IH]; simpl; [lia|].
  destruct (Ascii.eqb c slash); simpl; lia.
Qed.

Lemma take_token_length (s : string) :
  (String.length (snd (take_token s)) <= String.length s)%nat.
Proof.
  induction s as [|c r IH]; simpl; [lia|].
  destruct (Ascii.eqb c slash); simpl; [lia|].
  destruct (take_token r); simpl in *. lia.
Qed.

(** [strtok_r], called until it returns a null pointer, yields the
    components of the string. *)
Lemma tokens_components (fuel : nat) :
  forall s, (String.length s < fuel)%nat -> tokens fuel s = components s.
Proof.
  induction fuel as [|fuel IH]; intros s Hlen; [lia|].
  unfold components. rewrite <- components_skip_delim.
  simpl. unfold strtok_r.
  pose proof (skip_delim_length s) as Hskip.
  destruct (skip_delim s) as [|c r] eqn:E; [reflexivity|].
  assert (Hc : Ascii.eqb c slash = false).
  { clear -E. induction s as [|c' r' IH]; simpl in E; [discriminate|].
    destruct (Ascii.eqb c' slash) eqn:E'; [auto|].
    injection E as <- _. exact E'. }
  rewrite (components_take_token (String c r) "").
  pose proof (take_token_length r) as Htok.
  simpl in *. rewrite Hc in *.
  destruct (take_token r) as [tok rest]. simpl in *.
  f_equal. apply IH. lia.
Qed.

Lemma components_collapse (s : string) :
  forall prev cur,
    (prev = true -> cur = EmptyString) ->
    components_from cur (collapse_from prev s) = components_from cur s.
Proof.
  induction s as [|c r IH]; intros prev cur Hp; simpl; [reflexivity|].
  destruct (Ascii.eqb c slash) eqn:E.
  - destruct prev.
    + rewrite (Hp eq_refl). apply IH. auto.
    + simpl. rewrite E. rewrite (IH true EmptyString) by auto.
      destruct cur; reflexivity.
  - simpl. rewrite E. apply IH. discriminate.
Qed.

Lemma collapse_length (s : string) :
  forall prev,
    (String.length (collapse_from prev s) <= String.length s)%nat.
Proof.
  induction s as [|c r IH]; intros prev; simpl; [lia|].
  pose proof (IH true). pose proof (IH false).
  destruct (Ascii.eqb c slash); [destruct prev|]; simpl; lia.
Qed.

(** The tokens [find_dir] walks over are the components of the first
    [PATH_MAX] characters of the path. *)
Lemma find_dir_tokens (path : string) :
  let nm := collapse (strlcpy path (PATH_MAX + 1)) in
  tokens (S (String.length nm)) nm = components (substring 0 PATH_MAX path).
Proof.
  cbv zeta. rewrite tokens_components by lia.
  unfold components, collapse. rewrite components_collapse by discriminate.
  unfold strlcpy. rewrite Nat.add_sub. reflexivity.
Qed.

Lemma collapse_head (s : string) :
  match collapse s with
  | String c _ => if Ascii.eqb c slash then ROOT_DIR_SECTOR else 0
  | EmptyString => 0
  end =
  match s with
  | String c _ => if Ascii.eqb c slash then ROOT_DIR_SECTOR else 0
  | EmptyString => 0
  end.
Proof.
  destruct s as [|c r]; [reflexivity|]. unfold collapse. simpl.
  destruct (Ascii.eqb c slash) eqn:E; simpl; rewrite E; reflexivity.
Qed.

Lemma collapse_start (th : thread) (s : string) :
  match collapse s with
  | String c _ => if Ascii.eqb c slash then ROOT_DIR_SECTOR else cur_dir th
  | EmptyString => cur_dir th
  end = start_dir th s.
Proof.
  destruct s as [|c r]; [reflexivity|]. unfold collapse. simpl.
  destruct (Ascii.eqb c slash) eqn:E; simpl; rewrite E; reflexivity.
Qed.

(** ** The walk of [find_dir] *)

Lemma substring_fits (n : nat) (s : string) :
  (String.length s <= n)%nat -> substring 0 n s = s.
Proof.
  revert n. induction s as [|c r IH]; intros [|n] H; simpl in *;
    try reflexivity; try lia.
  f_equal. apply IH. lia.
Qed.

(** A component that is too long stops the walk with failure, wherever it
    stands. *)
Lemma find_dir_loop_too_long (t : tree) (toks : list string) :
  forall dir inode last nf,
    (dir = None -> nf = true) ->
    Exists too_long toks ->
    find_dir_loop t toks dir inode last nf = FindFalse.
Proof.
  induction toks as [|tok rest IH]; intros dir inode last nf Hinv Hex.
  - inversion Hex.
  - simpl. destruct nf; [reflexivity|]. simpl.
    destruct (Nat.ltb_spec NAME_MAX (String.length tok)) as [Hl|Hl];
      [reflexivity|].
    inversion Hex as [? ? Hhd | ? ? Htl]; subst;
      [unfold too_long in Hhd; lia|].
    destruct dir as [d|]; [|specialize (Hinv eq_refl); discriminate].
    destruct (dir_lookup t d tok); apply IH; auto; discriminate.
Qed.

(** A missing component that another component follows stops the walk
    with failure. *)
Lemma find_dir_loop_missing (t : tree) (pre : list string) :
  forall d0 d c post inode last,
    descend t d0 pre = Some d -> dir_lookup t d c = None -> post <> [] ->
    find_dir_loop t (pre ++ c :: post) (Some d0) inode last false = FindFalse.
Proof.
  induction pre as [|p pre IH]; intros d0 d c post inode last Hd Hc Hpost.
  - simpl in Hd. injection Hd as <-. simpl.
    destruct (NAME_MAX <? String.length c)%nat; [reflexivity|].
    rewrite Hc. destruct post as [|q post]; [congruence|]. reflexivity.
  - simpl in Hd. simpl.
    destruct (NAME_MAX <? String.length p)%nat; [reflexivity|].
    destruct (dir_lookup t d0 p) as [next|]; [|discriminate].
    apply (IH next d); assumption.
Qed.

(** When every component fits and all but the last are found, the walk
    ends with the directory of the last component and that component,
    whether or not the last component is found. *)
Lemma find_dir_loop_resolves (t : tree) (pre : list string) :
  forall d0 d c inode last,
    Forall (fun x => ~ too_long x) (pre ++ [c]) ->
    descend t d0 pre = Some d ->
    find_dir_loop t (pre ++ [c]) (Some d0) inode last false = FindTrue d c.
Proof.
  induction pre as [|p pre IH]; intros d0 d c inode last Hfit Hd.
  - simpl in Hd. injection Hd as <-. simpl.
    inversion Hfit as [|? ? Hc _]; subst. unfold too_long in Hc.
    destruct (Nat.ltb_spec NAME_MAX (String.length c)); [lia|].
    unfold strlcpy. change (NAME_MAX + 1 - 1)%nat with NAME_MAX.
    rewrite substring_fits by (unfold NAME_MAX in *; lia).
    destruct (dir_lookup t d0 c); reflexivity.
  - simpl in Hd. simpl.
    inversion Hfit as [|? ? Hp Hrest]; subst. unfold too_long in Hp.
    destruct (Nat.ltb_spec NAME_MAX (String.length p)); [lia|].
    destruct (dir_lookup t d0 p) as [next|]; [|discriminate].
    apply IH; assumption.
Qed.

Lemma find_dir_unfold (t : tree) (th : thread) (path last0 : string) :
  find_dir t th path last0 =
  match find_dir_loop t (components (substring 0 PATH_MAX path))
          (Some (start_dir th (substring 0 PATH_MAX path)))
          (start_dir th (substring 0 PATH_MAX path)) last0 false with
  | FindTrue inode last_name =>
      match last_char path with
      | None => FindFault
      | Some c =>
          if Ascii.eqb c slash then FindTrue inode "."
          else FindTrue inode last_name
      end
  | r => r
  end.
Proof.
  unfold find_dir. cbv zeta. rewrite find_dir_tokens, collapse_start.
  unfold strlcpy at 1 2. rewrite Nat.add_sub. reflexivity.
Qed.

(** What [find_dir] does with the first [PATH_MAX] = 256 characters of a
    path, which is all it reads: it walks their components, from the root
    for a leading '/' and from the working directory otherwise.  It
    returns failure if one of these components exceeds [NAME_MAX] = 14
    characters, and if one that another follows is missing from its
    directory.  When every component fits and all but the last are found,
    it succeeds, whether or not the last one is found, with the directory
    of the last component as the parent; the name is the last component,
    or "." if the path as given ends in '/'. *)
Lemma find_dir_resolves (t : tree) (th : thread) (path last0 : string) :
  path <> EmptyString ->
  let pre_path := substring 0 PATH_MAX path in
  let comps := components pre_path in
  let start := start_dir th pre_path in
  (Exists too_long comps -> find_dir t th path last0 = FindFalse) /\
  (forall pre c post d,
      comps = pre ++ c :: post -> post <> [] ->
      descend t start pre = Some d -> dir_lookup t d c = None ->
      find_dir t th path last0 = FindFalse) /\
  (forall pre c d,
      comps = pre ++ [c] ->
      Forall (fun x => ~ too_long x) comps ->
      descend t start pre = Some d ->
      find_dir t th path last0 =
      FindTrue d (if ends_in_slash path then "."%string else c)) /\
  (forall inode last,
      find_dir t th path last0 = FindTrue inode last ->
      ends_in_slash path = true -> last = "."%string).
Proof.
  intros Hne pre_path comps start. subst pre_path comps start.
  rewrite find_dir_unfold.
  assert (Hlast : exists c, last_char path = Some c).
  { destruct path as [|a r]; [congruence|]. clear Hne.
    revert a. induction r as [|b r IH]; intros a; simpl; eauto. }
  destruct Hlast as [lc Hlc].
  split; [|split; [|split]].
  - intros Hex. rewrite find_dir_loop_too_long; auto. discriminate.
  - intros pre c post d Hc Hpost Hd Hmiss. rewrite Hc.
    rewrite (find_dir_loop_missing t pre _ d); auto.
  - intros pre c d Hc Hfit Hd. rewrite Hc in *.
    rewrite (find_dir_loop_resolves t pre _ d); auto.
    unfold ends_in_slash. rewrite Hlc.
    destruct (Ascii.eqb lc slash); reflexivity.
  - intros inode last H Hend. unfold ends_in_slash in Hend.
    rewrite Hlc in *. rewrite Hend in H.
    destruct (find_dir_loop _ _ _ _ _ _); try discriminate.
    injection H as _ <-. reflexivity.
Qed.

(** C6 (the code at a path longer than [PATH_MAX]).  [long_path] has 263
    characters and one component, of 20 characters, more than [NAME_MAX].
    [find_dir] neither rejects the path nor the component: it succeeds,
    with the root as the parent and the first 13 characters of the
    component as the name, which is what is left of the component in the
    256 characters that [strlcpy] copies.  The same component in a path
    that fits is refused. *)
Theorem find_dir_cut_component :
  String.length long_path = 263%nat /\
  components long_path = ["bbbbbbbbbbbbbbbbbbbb"%string] /\
  Exists too_long (components long_path) /\
  find_dir tree1 holder long_path "" = FindTrue 1 "bbbbbbbbbbbbb" /\
  find_dir tree1 holder "/bbbbbbbbbbbbbbbbbbbb" "" = FindFalse.
Proof.
  split; [vm_compute; reflexivity|].
  split; [vm_compute; reflexivity|].
  split; [apply Exists_cons_hd; unfold too_long; vm_compute; lia|].
  split; vm_compute; reflexivity.
Qed.

(** ** Removing a directory that is in use *)

(** C7 (the code at three inputs).  A process that holds "/d" open
    removes it: [filesys_remove] returns [true] and the entry is gone.  A
    process whose working directory is "/d" removes it likewise.  A
    process that holds its own working directory, the root, open is
    refused the removal of "/d", which nobody uses. *)
Theorem filesys_remove_in_use :
  (exists t',
      filesys_remove tree1 holder "/d" "" = Some (true, t') /\
      dir_lookup tree1 1 "d" = Some 5 /\ dir_lookup t' 1 "d" = None /\
      removed_inodes t' = [5]) /\
  (exists t',
      filesys_remove tree1 dweller "/d" "" = Some (true, t') /\
      dir_lookup t' 1 "d" = None) /\
  filesys_remove tree1 self_holder "/d" "" = Some (false, tree1).
Proof.
  split; [|split].
  - eexists. split; [vm_compute; reflexivity|]. repeat split.
  - eexists. split; [vm_compute; reflexivity|]. reflexivity.
  - reflexivity.
Qed.

(** ** What the cache shows, and how its operations change it *)

Lemma sector_of_length (buf : list byte) :
  List.length (sector_of buf) = Z.to_nat BLOCK_SECTOR_SIZE.
Proof.
  unfold sector_of. rewrite length_firstn, length_app. unfold zeros.
  rewrite repeat_length. lia.
Qed.

Lemma sector_of_idem (d : list byte) :
  List.length d = Z.to_nat BLOCK_SECTOR_SIZE -> sector_of d = d.
Proof.
  intros H. unfold sector_of. rewrite firstn_app, H, Nat.sub_diag.
  rewrite <- H, firstn_all. simpl. apply app_nil_r.
Qed.

Lemma matches_spec (dev sec : Z) (l : cache_block) :
  matches dev sec l = true <->
  valid l = true /\ block l = dev /\ disk_sector l = sec.
Proof.
  unfold matches. rewrite !andb_true_iff, !Z.eqb_eq. tauto.
Qed.

Lemma scan_find_none_all (ls : list cache_block) (dev sec : Z) :
  forall b,
    Forall (fun l => matches dev sec l = false) ls ->
    scan_find ls b dev sec = None.
Proof.
  induction ls as [|h t IH]; intros b H; simpl; [reflexivity|].
  inversion H; subst. rewrite H2. auto.
Qed.

Lemma scan_find_unique (c : list cache_block) (k : nat) (l : cache_block)
    (dev sec : Z) :
  nth_error c k = Some l -> matches dev sec l = true ->
  (forall j lj, nth_error c j = Some lj -> matches dev sec lj = true -> j = k) ->
  scan_find c O dev sec = Some k.
Proof.
  intros Hk Hm Huniq.
  destruct (scan_find c O dev sec) as [k'|] eqn:E.
  - destruct (scan_find_some _ _ _ _ _ E) as [l' [_ [Hl' Hm']]].
    rewrite Nat.sub_0_r in Hl'. f_equal. exact (Huniq _ _ Hl' Hm').
  - pose proof (scan_find_none _ _ _ _ E) as Hnone.
    rewrite Forall_forall in Hnone.
    rewrite (Hnone l (nth_error_In _ _ Hk)) in Hm. discriminate.
Qed.

Lemma view_hit (s : state) (k : nat) (l : cache_block) (dev sec : Z) :
  nth_error (cache s) k = Some l -> matches dev sec l = true ->
  (forall j lj, nth_error (cache s) j = Some lj ->
                matches dev sec lj = true -> j = k) ->
  sector_view s dev sec = disk_data l.
Proof.
  intros Hk Hm Huniq. unfold sector_view, cached.
  rewrite (scan_find_unique _ _ _ _ _ Hk Hm Huniq).
  rewrite (nth_error_nth _ _ empty_line Hk). reflexivity.
Qed.

Lemma view_miss (s : state) (dev sec : Z) :
  (forall j lj, nth_error (cache s) j = Some lj -> matches dev sec lj = false) ->
  sector_view s dev sec = sector_of (disk s dev sec).
Proof.
  intros H. unfold sector_view, cached. rewrite scan_find_none_all; auto.
  apply Forall_forall. intros l Hin.
  destruct (In_nth_error _ _ Hin) as [j Hj]. eauto.
Qed.

Lemma cache_inv_unique_match (s : state) (k : nat) (l : cache_block)
    (dev sec : Z) :
  cache_inv s -> nth_error (cache s) k = Some l -> matches dev sec l = true ->
  forall j lj, nth_error (cache s) j = Some lj ->
               matches dev sec lj = true -> j = k.
Proof.
  intros [_ [_ [_ [_ [Huniq _]]]]] Hk Hm j lj Hj Hmj.
  apply matches_spec in Hm. apply matches_spec in Hmj.
  destruct Hm as [? [? ?]], Hmj as [? [? ?]].
  apply (Huniq j k lj l); congruence.
Qed.

(** Line [i] is given the contents [n], a valid line for ([dev], [sec]),
    where no other line is for that sector; the line [l] that was there
    is written back first ([wb]) if it was a dirty line for another
    sector.  The cache is at rest again, it shows [n]'s data for
    ([dev], [sec]) and for every other sector what it showed before. *)
Lemma replace_line (s s' : state) (i : nat) (l n : cache_block)
    (dev sec : Z) (wb : bool) :
  cache_inv s ->
  nth_error (cache s) i = Some l ->
  (forall j lj, nth_error (cache s) j = Some lj -> j <> i ->
                matches dev sec lj = false) ->
  matches dev sec n = true -> sema n = 1%nat ->
  List.length (disk_data n) = Z.to_nat BLOCK_SECTOR_SIZE ->
  (wb = true -> valid l = true /\ dirty l = true) ->
  (valid l = true -> dirty l = true -> matches dev sec l = false ->
   wb = true) ->
  cache s' = set_nth i n (cache s) ->
  disk s' = (if wb then written l (disk s) else disk s) ->
  (dirty n = false -> disk_data n = sector_of (disk s' dev sec)) ->
  cache_inv s' /\
  forall dev' sec',
    sector_view s' dev' sec' =
    if (dev' =? dev) && (sec' =? sec) then disk_data n
    else sector_view s dev' sec'.
Proof.
  intros Hinv Hl Hother Hn Hsema Hdata Hwb1 Hwb2 Hc Hd Hclean.
  pose proof Hinv as [Hlen [Hfree [H512 [Hinvalid [Huniq Hagree]]]]].
  pose proof (proj1 (matches_spec _ _ _) Hn) as [Hnv [Hnb Hns]].
  assert (Hnth : forall j,
             nth_error (cache s') j =
             if Nat.eqb i j then Some n else nth_error (cache s) j).
  { intros j. rewrite Hc, nth_error_set_nth.
    destruct (Nat.eqb_spec i j) as [<-|]; [rewrite Hl|]; reflexivity. }
  assert (Hin : forall x, In x (cache s') -> x = n \/ In x (cache s)).
  { intros x Hx. destruct (In_nth_error _ _ Hx) as [j Hj].
    rewrite Hnth in Hj. destruct (Nat.eqb i j).
    - left. congruence.
    - right. eapply nth_error_In; eauto. }
  (* where the device differs afterwards, [l] was a valid line for it *)
  assert (Hdisk : forall dv sc,
             disk s' dv sc = disk s dv sc \/
             (wb = true /\ matches dv sc l = true /\
              disk s' dv sc = sector_of (disk_data l))).
  { intros dv sc. rewrite Hd. destruct wb; [|left; reflexivity].
    unfold written.
    destruct (Z.eqb_spec dv (block l)) as [->|]; [|left; reflexivity].
    destruct (Z.eqb_spec sc (disk_sector l)) as [->|]; [|left; reflexivity].
    right. destruct (Hwb1 eq_refl) as [Hv _].
    repeat split. apply matches_spec. auto. }
  assert (Hkeep : forall j lj, j <> i -> nth_error (cache s) j = Some lj ->
             valid lj = true ->
             disk s' (block lj) (disk_sector lj)
             = disk s (block lj) (disk_sector lj)).
  { intros j lj Hj Hlj Hv.
    destruct (Hdisk (block lj) (disk_sector lj)) as [E | [Hw [Hm _]]];
      [exact E|].
    exfalso. apply Hj.
    apply (cache_inv_unique_match s i l (block lj) (disk_sector lj) Hinv Hl Hm
             j lj Hlj).
    apply matches_spec. auto. }
  split.
  - unfold cache_inv. rewrite Hc, set_nth_length. rewrite <- Hc.
    split; [exact Hlen|].
    split; [|split; [|split; [|split]]].
    + apply Forall_forall. intros x Hx. destruct (Hin x Hx) as [->|Hx'];
        [exact Hsema|]. rewrite Forall_forall in Hfree. auto.
    + apply Forall_forall. intros x Hx. destruct (Hin x Hx) as [->|Hx'];
        [exact Hdata|]. rewrite Forall_forall in H512. auto.
    + apply Forall_forall. intros x Hx. destruct (Hin x Hx) as [->|Hx'];
        [congruence|]. rewrite Forall_forall in Hinvalid. auto.
    + intros a b la lb Ha Hb Hva Hvb Hblk Hsec. rewrite Hnth in Ha, Hb.
      destruct (Nat.eqb_spec i a) as [<-|Hia];
        destruct (Nat.eqb_spec i b) as [<-|Hib]; auto.
      * injection Ha as <-. exfalso.
        assert (Hm : matches dev sec lb = true)
          by (apply matches_spec; repeat split; congruence).
        rewrite (Hother b lb Hb) in Hm; [discriminate | congruence].
      * injection Hb as <-. exfalso.
        assert (Hm : matches dev sec la = true)
          by (apply matches_spec; repeat split; congruence).
        rewrite (Hother a la Ha) in Hm; [discriminate | congruence].
      * apply (Huniq a b la lb); auto.
    + apply Forall_forall. intros x Hx Hv Hdirty.
      destruct (In_nth_error _ _ Hx) as [j Hj]. rewrite Hnth in Hj.
      destruct (Nat.eqb_spec i j) as [Heq|Hij].
      * injection Hj as <-. rewrite Hnb, Hns. auto.
      * rewrite (Hkeep j x) by auto.
        rewrite Forall_forall in Hagree.
        apply Hagree; auto. eapply nth_error_In; eauto.
  - intros dev' sec'.
    destruct ((dev' =? dev) && (sec' =? sec)) eqn:Esame.
    + apply andb_true_iff in Esame. rewrite !Z.eqb_eq in Esame.
      destruct Esame as [-> ->].
      apply (view_hit s' i n); [rewrite Hnth, Nat.eqb_refl; reflexivity
                               | exact Hn |].
      intros j lj Hj Hm. rewrite Hnth in Hj.
      destruct (Nat.eqb_spec i j) as [<-|Hij]; [reflexivity|].
      rewrite (Hother j lj Hj) in Hm; [discriminate | congruence].
    + assert (Hnm : matches dev' sec' n = false).
      { destruct (matches dev' sec' n) eqn:E; [|reflexivity].
        apply matches_spec in E. destruct E as [_ [E1 E2]].
        rewrite <- E1, <- E2, Hnb, Hns, !Z.eqb_refl in Esame. discriminate. }
      unfold sector_view at 2. unfold cached.
      destruct (scan_find (cache s) 0 dev' sec') as [k|] eqn:Efind.
      * destruct (scan_find_some _ _ _ _ _ Efind) as [lk [_ [Hk Hmk]]].
        rewrite Nat.sub_0_r in Hk.
        rewrite (nth_error_nth _ _ empty_line Hk).
        pose proof (cache_inv_unique_match s k lk dev' sec' Hinv Hk Hmk)
          as Honly.
        destruct (Nat.eq_dec k i) as [->|Hki].
        -- (* the line that was replaced *)
           rewrite Hl in Hk. injection Hk as <-.
           rewrite view_miss.
           2:{ intros j lj Hj. rewrite Hnth in Hj.
               destruct (Nat.eqb_spec i j) as [<-|Hij];
                 [injection Hj as <-; exact Hnm|].
               destruct (matches dev' sec' lj) eqn:E; [|reflexivity].
               exfalso. apply Hij. symmetry. exact (Honly j lj Hj E). }
           pose proof (proj1 (matches_spec _ _ _) Hmk) as [Hv [Hb Hs]].
           assert (Hlm : matches dev sec l = false).
           { destruct (matches dev sec l) eqn:E; [|reflexivity].
             apply matches_spec in E. destruct E as [_ [E1 E2]].
             rewrite <- Hb, <- Hs, E1, E2, !Z.eqb_refl in Esame.
             discriminate. }
           destruct (dirty l) eqn:Hdl.
           ++ rewrite (Hwb2 Hv eq_refl Hlm) in Hd. rewrite Hd. unfold written.
              rewrite Hb, Hs, !Z.eqb_refl. simpl.
              rewrite Forall_forall in H512.
              rewrite !(sector_of_idem (disk_data l)); auto;
                apply H512; eapply nth_error_In; eauto.
           ++ assert (wb = false).
              { destruct wb; [|reflexivity].
                destruct (Hwb1 eq_refl); congruence. }
              subst wb. rewrite Hd.
              rewrite Forall_forall in Hagree.
              rewrite (Hagree l (nth_error_In _ _ Hl) Hv Hdl), Hb, Hs.
              reflexivity.
        -- apply (view_hit s' k lk);
             [rewrite Hnth; destruct (Nat.eqb_spec i k); [congruence|exact Hk]
             | exact Hmk |].
           intros j lj Hj Hm. rewrite Hnth in Hj.
           destruct (Nat.eqb_spec i j) as [<-|Hij];
             [injection Hj as <-; congruence|].
           exact (Honly j lj Hj Hm).
      * pose proof (scan_find_none _ _ _ _ Efind) as Hnone.
        rewrite Forall_forall in Hnone.
        rewrite view_miss.
        2:{ intros j lj Hj. rewrite Hnth in Hj.
            destruct (Nat.eqb_spec i j) as [<-|Hij];
              [injection Hj as <-; exact Hnm|].
            apply Hnone. eapply nth_error_In; eauto. }
        destruct (Hdisk dev' sec') as [E | [_ [Hm _]]]; [rewrite E; auto|].
        rewrite (Hnone l (nth_error_In _ _ Hl)) in Hm. discriminate.
Qed.

(** *** The operations, step by step, on a line that is held *)

Lemma set_nth_set_nth {A : Type} (i : nat) (a b : A) (l : list A) :
  set_nth i a (set_nth i b l) = set_nth i a l.
Proof.
  revert i; induction l as [|h t IH]; intros [|i]; simpl; auto.
  f_equal. apply IH.
Qed.

Lemma hold_set_nth (c : list cache_block) (i : nat) (l : cache_block) :
  nth_error c i = Some l ->
  hold (Some i) c = set_nth i (with_sema (pred (sema l)) l) c.
Proof. intros H. unfold hold. rewrite H. reflexivity. Qed.

Lemma get_line_held (s : state) (i : nat) (x l0 : cache_block)
    (c0 : list cache_block) :
  cache s = set_nth i x c0 -> nth_error c0 i = Some l0 ->
  get_line i s = Done x s.
Proof.
  intros Hc Hl. apply get_line_at. rewrite Hc.
  apply (nth_error_set_nth_eq _ _ _ _ Hl).
Qed.

Lemma upd_line_held (s : state) (i : nat) (x l0 : cache_block)
    (c0 : list cache_block) (f : cache_block -> cache_block) :
  cache s = set_nth i x c0 -> nth_error c0 i = Some l0 ->
  upd_line i f s = Done tt (set_cache (set_nth i (f x) c0) s).
Proof.
  intros Hc Hl. rewrite (upd_line_at i f x).
  - rewrite Hc, set_nth_set_nth. reflexivity.
  - rewrite Hc. apply (nth_error_set_nth_eq _ _ _ _ Hl).
Qed.

Lemma sema_up_held (s : state) (i : nat) (x l0 : cache_block)
    (c0 : list cache_block) :
  cache s = set_nth i x c0 -> nth_error c0 i = Some l0 ->
  sema_up i s =
  Done tt (set_cache (set_nth i (with_sema (S (sema x)) x) c0) s).
Proof.
  intros Hc Hl. unfold sema_up.
  apply (upd_line_held s i x l0 c0 (fun l => with_sema (S (sema l)) l));
    auto.
Qed.

(** [choose_evict], with the device afterwards. *)
Lemma choose_evict_exact (s : state) :
  List.length (cache s) = CACHE_SIZE ->
  Forall (fun l => sema l = 1%nat) (cache s) ->
  evictable s ->
  exists i l s',
    choose_evict s = Done i s' /\
    nth_error (cache s) i = Some l /\
    cache s' = set_nth i (with_sema O l) (cache s) /\
    disk s' = (if valid l && dirty l then written l (disk s) else disk s) /\
    clock s' = clock s /\ clock_reads s' = S (clock_reads s) /\
    buffer_of s' = buffer_of s.
Proof.
  intros Hlen Hfree Hev.
  pose proof (all_free_nonzero _ Hfree) as Hnz.
  assert (Hone : forall i l, nth_error (cache s) i = Some l ->
                             with_sema (pred (sema l)) l = with_sema O l).
  { intros i l Hl. rewrite Forall_forall in Hfree.
    rewrite (Hfree l (nth_error_In _ _ Hl)). reflexivity. }
  unfold choose_evict. unfold bind at 1. unfold timer_ticks.
  unfold bind at 1.
  rewrite (choose_evict_from_run (cache s) Hnz);
    [| simpl; lia | discriminate | reflexivity].
  change (skipn 0 (cache s)) with (cache s).
  pose proof (scan_evict_range (cache s) O None (clock s (clock_reads s)))
    as Hrange.
  destruct (scan_evict (cache s) 0 None (clock s (clock_reads s)))
    as [j|[e|]]; cbn [selected].
  - destruct Hrange as [l [_ [Hl Hv]]]. rewrite Nat.sub_0_r in Hl.
    exists j, l. eexists. split; [reflexivity|].
    split; [exact Hl|]. cbn.
    rewrite (hold_set_nth _ _ _ Hl), (Hone _ _ Hl).
    rewrite Hv. repeat split; auto.
  - destruct Hrange as [Hx | [l [_ [Hl Hvl]]]]; [discriminate|].
    rewrite Nat.sub_0_r in Hl.
    unfold bind at 1.
    rewrite (get_line_at e (with_sema (pred (sema l)) l))
      by (simpl; apply nth_error_hold_self, Hl).
    change (dirty (with_sema (pred (sema l)) l)) with (dirty l).
    exists e, l. rewrite Hvl. cbn [andb].
    destruct (dirty l); eexists; (split; [reflexivity|]);
      (split; [exact Hl|]); cbn;
      rewrite (hold_set_nth _ _ _ Hl), (Hone _ _ Hl); repeat split; auto.
  - exfalso. destruct Hrange as [_ Hall].
    unfold evictable in Hev. rewrite Exists_exists in Hev.
    destruct Hev as [l [Hin [Hinv | Hold]]];
      rewrite Forall_forall in Hall; destruct (Hall l Hin) as [Hv Ht].
    + congruence.
    + lia.
Qed.

Lemma bind_Done {A B : Type} (m : M A) (k : A -> M B) (s s' : state)
    (a : A) :
  m s = Done a s' -> bind m k s = k a s'.
Proof. intros H. unfold bind. rewrite H. reflexivity. Qed.

Lemma bind_assoc {A B C : Type} (m : M A) (f : A -> M B) (k : B -> M C)
    (s : state) :
  bind (bind m f) k s = bind m (fun a => bind (f a) k) s.
Proof. unfold bind. destruct (m s); reflexivity. Qed.

(** One step of a sequence of operations on line [i], held, of a cache
    that is [c0] but for that line. *)
Ltac held_step c0 Hl :=
  lazymatch goal with
  | |- context [bind (ret ?a) ?k ?st] =>
      rewrite (bind_Done (ret a) k st st a eq_refl)
  | |- context [bind timer_ticks ?k ?st] =>
      rewrite (bind_Done timer_ticks k st _ _ eq_refl)
  | |- context [bind (block_read ?dv ?sc) ?k ?st] =>
      rewrite (bind_Done (block_read dv sc) k st _ _ eq_refl)
  | |- context [bind (get_line ?i) ?k ?st] =>
      erewrite (bind_Done (get_line i) k st);
      [|eapply (get_line_held st i _ _ c0); [reflexivity | exact Hl]]
  | |- context [bind (upd_line ?i ?f) ?k ?st] =>
      erewrite (bind_Done (upd_line i f) k st);
      [|eapply (upd_line_held st i _ _ c0 f); [reflexivity | exact Hl]]
  | |- context [bind (sema_up ?i) ?k ?st] =>
      erewrite (bind_Done (sema_up i) k st);
      [|eapply (sema_up_held st i _ _ c0); [reflexivity | exact Hl]]
  end; cbv beta.

Lemma free_line (s : state) (i : nat) (l : cache_block) :
  Forall (fun x => sema x = 1%nat) (cache s) ->
  nth_error (cache s) i = Some l -> sema l = 1%nat.
Proof.
  intros Hfree Hl. rewrite Forall_forall in Hfree.
  apply Hfree. eapply nth_error_In; eauto.
Qed.

(** [cache_write], with the cache and the device afterwards. *)
Lemma cache_write_exact (s : state) (dev sec : Z) (buf : list byte) :
  List.length (cache s) = CACHE_SIZE ->
  Forall (fun l => sema l = 1%nat) (cache s) ->
  cached s dev sec <> None \/ evictable s ->
  exists i l t s',
    cache_write dev sec buf s = Done tt s' /\
    nth_error (cache s) i = Some l /\
    match cached s dev sec with Some k => k = i | None => True end /\
    cache s' =
      set_nth i (mk_cache_block true true sec t 1 dev (sector_of buf))
        (cache s) /\
    disk s' =
      (if match cached s dev sec with Some _ => false | None => true end
          && valid l && dirty l
       then written l (disk s) else disk s) /\
    buffer_of s' = buffer_of s /\
    (cached s dev sec <> None -> io_log s' = io_log s).
Proof.
  intros Hlen Hfree Hserve.
  pose proof (all_free_nonzero _ Hfree) as Hnz.
  unfold cache_write. unfold bind at 1. unfold find_cacheline.
  rewrite (find_cacheline_from_run (cache s) dev sec Hnz);
    [| simpl; lia | reflexivity].
  change (skipn 0 (cache s)) with (cache s).
  unfold cached in *.
  destruct (scan_find (cache s) 0 dev sec) as [i|] eqn:Hfind.
  - destruct (scan_find_some _ _ _ _ _ Hfind) as [l [_ [Hl Hm]]].
    rewrite Nat.sub_0_r in Hl.
    apply matches_spec in Hm. destruct Hm as [Hv [Hb Hs]].
    rewrite (hold_set_nth _ _ _ Hl), (free_line s i l Hfree Hl).
    cbn [pred].
    repeat held_step (cache s) Hl.
    erewrite (sema_up_held _ _ _ _ (cache s))
      by (first [exact Hl | reflexivity]).
    exists i, l. eexists. eexists. split; [reflexivity|].
    split; [exact Hl|]. split; [reflexivity|].
    split; [|split; [|split]; reflexivity].
    unfold with_sema, with_dirty, with_time, with_data. cbn.
    rewrite Hv, Hb, Hs. reflexivity.
  - destruct Hserve as [Hc | Hev]; [congruence|].
    destruct (choose_evict_exact (set_cache (hold None (cache s)) s))
      as [i [l [s1 [Hrun [Hl [Hc1 [Hd1 [Hk1 [Hr1 Hb1]]]]]]]]]; auto.
    cbn [cache set_cache] in Hl, Hc1. unfold hold in Hl, Hc1.
    cbv beta iota. rewrite bind_assoc, (bind_Done _ _ _ _ _ Hrun).
    rewrite bind_assoc.
    erewrite (bind_Done (upd_line i _));
      [|eapply (upd_line_held s1 i _ _ (cache s)); [exact Hc1 | exact Hl]].
    repeat held_step (cache s) Hl.
    erewrite (sema_up_held _ _ _ _ (cache s))
      by (first [exact Hl | reflexivity]).
    exists i, l. eexists. eexists. split; [reflexivity|].
    split; [exact Hl|]. split; [exact I|].
    split; [|split; [exact Hd1 | split; [exact Hb1 | congruence]]].
    unfold with_sema, with_dirty, with_time, with_data, with_identity. cbn.
    reflexivity.
Qed.

Lemma put_read_ahead_buffer_exact (dev sec : Z) (s : state) :
  read_head_buffer_n s <> READ_AHEAD_BUFFER_SIZE ->
  put_read_ahead_buffer dev sec s =
  Done tt
    (set_read_head
       (set_nth (Z.to_nat (read_head_buffer_n s)) (mk_read_head_elem sec dev)
          (read_head_buffer s))
       (u32 (read_head_buffer_n s + 1)) s).
Proof.
  intros H. unfold put_read_ahead_buffer, bind, get, modify.
  destruct (Z.eqb_spec (read_head_buffer_n s) READ_AHEAD_BUFFER_SIZE);
    [contradiction | reflexivity].
Qed.

(** [cache_read] up to its last call, the one that queues the
    read-ahead request: the cache and the device at that point. *)
Lemma cache_read_exact (s : state) (dev sec : Z) :
  List.length (cache s) = CACHE_SIZE ->
  Forall (fun l => sema l = 1%nat) (cache s) ->
  cached s dev sec <> None \/ evictable s ->
  exists i l t s1,
    cache_read dev sec s =
      (put_read_ahead_buffer dev (u32 (sec + 1)) ;;
       ret (sector_view s dev sec)) s1 /\
    nth_error (cache s) i = Some l /\
    match cached s dev sec with Some k => k = i | None => True end /\
    cache s1 =
      set_nth i
        (line_read (match cached s dev sec with Some _ => true | None => false end)
           l t dev sec (disk s dev sec))
        (cache s) /\
    disk s1 =
      (if match cached s dev sec with Some _ => false | None => true end
          && valid l && dirty l
       then written l (disk s) else disk s) /\
    disk s1 dev sec = disk s dev sec /\
    buffer_of s1 = buffer_of s /\
    (cached s dev sec <> None -> io_log s1 = io_log s).
Proof.
  intros Hlen Hfree Hserve.
  pose proof (all_free_nonzero _ Hfree) as Hnz.
  unfold cache_read. unfold bind at 1. unfold find_cacheline.
  rewrite (find_cacheline_from_run (cache s) dev sec Hnz);
    [| simpl; lia | reflexivity].
  change (skipn 0 (cache s)) with (cache s).
  unfold sector_view, cached in *.
  destruct (scan_find (cache s) 0 dev sec) as [i|] eqn:Hfind.
  - destruct (scan_find_some _ _ _ _ _ Hfind) as [l [_ [Hl Hm]]].
    rewrite Nat.sub_0_r in Hl.
    rewrite (hold_set_nth _ _ _ Hl), (free_line s i l Hfree Hl).
    cbn [pred].
    repeat held_step (cache s) Hl.
    exists i, l. eexists. eexists. split.
    { rewrite (nth_error_nth _ _ empty_line Hl). reflexivity. }
    split; [exact Hl|]. split; [reflexivity|].
    split; [|split; [|split; [|split]]; reflexivity].
    unfold line_read, with_sema, with_time. cbn.
    rewrite (free_line s i l Hfree Hl). destruct l; reflexivity.
  - destruct Hserve as [Hc | Hev]; [congruence|].
    pose proof (scan_find_none _ _ _ _ Hfind) as Hnomatch.
    destruct (choose_evict_exact (set_cache (hold None (cache s)) s))
      as [i [l [s1 [Hrun [Hl [Hc1 [Hd1 [Hk1 [Hr1 Hb1]]]]]]]]]; auto.
    cbn [cache set_cache disk] in Hl, Hc1, Hd1. unfold hold in Hl, Hc1.
    assert (Hd : disk s1 dev sec = disk s dev sec).
    { rewrite Hd1. destruct (valid l) eqn:Hv; [|reflexivity].
      destruct (dirty l); [|reflexivity]. cbn. unfold written.
      rewrite Forall_forall in Hnomatch.
      specialize (Hnomatch l (nth_error_In _ _ Hl)).
      unfold matches in Hnomatch. rewrite Hv in Hnomatch.
      cbn [andb] in Hnomatch.
      rewrite (Z.eqb_sym dev), (Z.eqb_sym sec), Hnomatch. reflexivity. }
    cbv beta iota. unfold load_line.
    rewrite !bind_assoc, (bind_Done _ _ _ _ _ Hrun).
    rewrite !bind_assoc.
    erewrite (bind_Done (upd_line i _));
      [|eapply (upd_line_held s1 i _ _ (cache s)); [exact Hc1 | exact Hl]].
    repeat (rewrite ?bind_assoc; held_step (cache s) Hl).
    exists i, l. eexists. eexists. split.
    { cbn. rewrite Hd. reflexivity. }
    split; [exact Hl|]. split; [exact I|].
    split; [|split; [exact Hd1 | split; [exact Hd | split; [exact Hb1 | congruence]]]].
    unfold line_read, with_sema, with_time, with_data, with_identity. cbn.
    reflexivity.
Qed.

(** ** The cache is transparent: reads, writes, read-ahead and flushing *)

Lemma cache_inv_ext (s s' : state) :
  cache s' = cache s -> disk s' = disk s -> cache_inv s -> cache_inv s'.
Proof.
  unfold cache_inv. intros -> ->. tauto.
Qed.

Lemma sector_view_ext (s s' : state) (dev sec : Z) :
  cache s' = cache s -> disk s' = disk s ->
  sector_view s' dev sec = sector_view s dev sec.
Proof.
  unfold sector_view, cached. intros -> ->. reflexivity.
Qed.

Lemma cached_line (s : state) (dev sec : Z) (k : nat) :
  cached s dev sec = Some k ->
  exists l, nth_error (cache s) k = Some l /\ matches dev sec l = true.
Proof.
  unfold cached. intros H.
  destruct (scan_find_some _ _ _ _ _ H) as [l [_ [Hl Hm]]].
  rewrite Nat.sub_0_r in Hl. eauto.
Qed.

Lemma not_cached (s : state) (dev sec : Z) :
  cached s dev sec = None ->
  forall j lj, nth_error (cache s) j = Some lj -> matches dev sec lj = false.
Proof.
  unfold cached. intros H j lj Hj.
  pose proof (scan_find_none _ _ _ _ H) as Hn.
  rewrite Forall_forall in Hn. apply Hn. eapply nth_error_In; eauto.
Qed.

Lemma cached_some (s : state) (dev sec : Z) (i : nat) (l : cache_block) :
  nth_error (cache s) i = Some l -> matches dev sec l = true ->
  cached s dev sec <> None.
Proof.
  intros Hl Hm Hnone. rewrite (not_cached _ _ _ Hnone _ _ Hl) in Hm.
  discriminate.
Qed.

(** [cache_write] returns, leaves the cache at rest, and changes what
    the cache shows for its sector and for no other. *)
Lemma cache_write_view (s : state) (dev sec : Z) (buf : list byte) :
  cache_inv s ->
  cached s dev sec <> None \/ evictable s ->
  exists s',
    cache_write dev sec buf s = Done tt s' /\
    cache_inv s' /\
    buffer_of s' = buffer_of s /\
    (cached s dev sec <> None -> io_log s' = io_log s) /\
    cached s' dev sec <> None /\
    forall dev' sec',
      sector_view s' dev' sec' =
      if (dev' =? dev) && (sec' =? sec) then sector_of buf
      else sector_view s dev' sec'.
Proof.
  intros Hinv Hserve.
  pose proof Hinv as [Hlen [Hfree _]].
  destruct (cache_write_exact s dev sec buf Hlen Hfree Hserve)
    as [i [l [t [s' [Hrun [Hl [Hi [Hc [Hd [Hb Hio]]]]]]]]]].
  exists s'. split; [exact Hrun|].
  assert (Hrep :
    cache_inv s' /\
    forall dev' sec',
      sector_view s' dev' sec' =
      if (dev' =? dev) && (sec' =? sec)
      then disk_data (mk_cache_block true true sec t 1 dev (sector_of buf))
      else sector_view s dev' sec').
  { destruct (cached s dev sec) as [k|] eqn:Hfind.
    - subst k. destruct (cached_line _ _ _ _ Hfind) as [l' [Hl' Hm]].
      assert (l' = l) by congruence. subst l'.
      apply (replace_line s s' i l _ dev sec false); auto.
      + intros j lj Hj Hne.
        destruct (matches dev sec lj) eqn:E; [|reflexivity].
        elim Hne. eapply cache_inv_unique_match; eauto.
      + unfold matches. cbn. rewrite !Z.eqb_refl. reflexivity.
      + apply sector_of_length.
      + discriminate.
      + congruence.
      + cbn. discriminate.
    - apply (replace_line s s' i l _ dev sec (valid l && dirty l)); auto.
      + intros j lj Hj _. eapply not_cached; eauto.
      + unfold matches. cbn. rewrite !Z.eqb_refl. reflexivity.
      + apply sector_of_length.
      + intros H. apply andb_true_iff in H. exact H.
      + intros -> -> _. reflexivity.
      + cbn. discriminate. }
  destruct Hrep as [Hinv' Hview].
  split; [exact Hinv'|]. split; [exact Hb|]. split; [exact Hio|].
  split; [|exact Hview].
  apply (cached_some s' dev sec i (mk_cache_block true true sec t 1 dev (sector_of buf))).
  - rewrite Hc. apply (nth_error_set_nth_eq _ _ _ _ Hl).
  - unfold matches. cbn. rewrite !Z.eqb_refl. reflexivity.
Qed.

(** [cache_read] up to its last call returns what the cache showed for
    the sector, leaves the cache at rest, and changes what the cache
    shows for no sector. *)
Lemma cache_read_view (s : state) (dev sec : Z) :
  cache_inv s ->
  cached s dev sec <> None \/ evictable s ->
  exists s1,
    cache_read dev sec s =
      (put_read_ahead_buffer dev (u32 (sec + 1)) ;;
       ret (sector_view s dev sec)) s1 /\
    cache_inv s1 /\
    buffer_of s1 = buffer_of s /\
    (cached s dev sec <> None -> io_log s1 = io_log s) /\
    cached s1 dev sec <> None /\
    forall dev' sec', sector_view s1 dev' sec' = sector_view s dev' sec'.
Proof.
  intros Hinv Hserve.
  pose proof Hinv as [Hlen [Hfree [H512 [_ [_ Hagree]]]]].
  destruct (cache_read_exact s dev sec Hlen Hfree Hserve)
    as [i [l [t [s1 [Hrun [Hl [Hi [Hc [Hd [Hsame [Hb Hio]]]]]]]]]]].
  exists s1. split; [exact Hrun|].
  assert (Hrep :
    cache_inv s1 /\
    forall dev' sec',
      sector_view s1 dev' sec' =
      if (dev' =? dev) && (sec' =? sec) then sector_view s dev sec
      else sector_view s dev' sec').
  { destruct (cached s dev sec) as [k|] eqn:Hfind.
    - subst k. destruct (cached_line _ _ _ _ Hfind) as [l' [Hl' Hm]].
      assert (l' = l) by congruence. subst l'.
      assert (Hview : sector_view s dev sec = disk_data l).
      { eapply view_hit; eauto. eapply cache_inv_unique_match; eauto. }
      rewrite Hview.
      pose proof (proj1 (matches_spec _ _ _) Hm) as [Hv [Hbl Hsc]].
      rewrite Forall_forall in H512, Hagree.
      pose proof (nth_error_In _ _ Hl) as Hin.
      change (disk_data l) with (disk_data (line_read true l t dev sec (disk s dev sec))).
      apply (replace_line s s1 i l _ dev sec false); auto.
      + intros j lj Hj Hne.
        destruct (matches dev sec lj) eqn:E; [|reflexivity].
        elim Hne. eapply cache_inv_unique_match; eauto.
      + unfold line_read, with_time. cbn. rewrite Forall_forall in Hfree.
        apply Hfree; auto.
      + cbn. auto.
      + discriminate.
      + congruence.
      + cbn. intros Hdirty. rewrite Hd. cbn.
        rewrite (Hagree l Hin Hv Hdirty), Hbl, Hsc. reflexivity.
    - assert (Hview : sector_view s dev sec = sector_of (disk s dev sec)).
      { apply view_miss. eapply not_cached; eauto. }
      rewrite Hview.
      change (sector_of (disk s dev sec))
        with (disk_data (line_read false l t dev sec (disk s dev sec))).
      apply (replace_line s s1 i l _ dev sec (valid l && dirty l)); auto.
      + intros j lj Hj _. eapply not_cached; eauto.
      + unfold matches. cbn. rewrite !Z.eqb_refl. reflexivity.
      + apply sector_of_length.
      + intros H. apply andb_true_iff in H. exact H.
      + intros -> -> _. reflexivity.
      + cbn. intros _. rewrite Hsame. reflexivity. }
  destruct Hrep as [Hinv' Hview].
  split; [exact Hinv'|]. split; [exact Hb|]. split; [exact Hio|].
  split.
  - assert (Hm : matches dev sec
                   (line_read (match cached s dev sec with
                               | Some _ => true | None => false end)
                      l t dev sec (disk s dev sec)) = true).
    { destruct (cached s dev sec) as [k|] eqn:Hfind.
      - subst k. destruct (cached_line _ _ _ _ Hfind) as [l' [Hl' Hm]].
        assert (l' = l) by congruence. subst l'.
        destruct l; exact Hm.
      - unfold matches. cbn. rewrite !Z.eqb_refl. reflexivity. }
    eapply (cached_some s1 dev sec i); [|exact Hm].
    rewrite Hc. apply (nth_error_set_nth_eq _ _ _ _ Hl).
  - intros dev' sec'. rewrite Hview.
    destruct (Z.eqb_spec dev' dev); [|reflexivity].
    destruct (Z.eqb_spec sec' sec); [|reflexivity].
    subst. reflexivity.
Qed.

Lemma set_nth_same {A : Type} (i : nat) (x : A) (l : list A) :
  nth_error l i = Some x -> set_nth i x l = l.
Proof.
  revert i; induction l as [|h t IH]; intros [|i] H; simpl in *;
    try discriminate.
  - congruence.
  - f_equal. apply IH, H.
Qed.

(** The consumer's work on one request: it returns, leaves the cache at
    rest and changes what the cache shows for no sector. *)
Lemma read_ahead_fetch_view (s : state) (e : read_head_elem) :
  cache_inv s ->
  (rh_sector e < dev_size s (rh_block e) ->
   cached s (rh_block e) (rh_sector e) <> None \/ evictable s) ->
  exists s',
    read_ahead_fetch e s = Done tt s' /\
    cache_inv s' /\
    buffer_of s' = buffer_of s /\
    (dev_size s (rh_block e) <= rh_sector e -> s' = s) /\
    forall dev' sec', sector_view s' dev' sec' = sector_view s dev' sec'.
Proof.
  intros Hinv Hserve.
  pose proof Hinv as [Hlen [Hfree [H512 [_ [_ Hagree]]]]].
  pose proof (all_free_nonzero _ Hfree) as Hnz.
  unfold read_ahead_fetch, block_size. unfold bind at 1. unfold get.
  destruct (Z.ltb_spec (rh_sector e) (dev_size s (rh_block e))) as [Hin|Hout].
  2:{ exists s. split; [reflexivity|]. split; [exact Hinv|].
      split; [|split]; reflexivity. }
  specialize (Hserve Hin).
  set (dev := rh_block e) in *. set (sec := rh_sector e) in *.
  unfold bind at 1. unfold find_cacheline.
  rewrite (find_cacheline_from_run (cache s) dev sec Hnz);
    [| simpl; lia | reflexivity].
  change (skipn 0 (cache s)) with (cache s).
  pose proof (cached_line s dev sec) as Hcl.
  pose proof (not_cached s dev sec) as Hnc.
  unfold cached in *.
  destruct (scan_find (cache s) 0 dev sec) as [i|] eqn:Hfind.
  - destruct (Hcl i eq_refl) as [l [Hl Hm]].
    rewrite (hold_set_nth _ _ _ Hl), (free_line s i l Hfree Hl).
    cbn [pred].
    repeat held_step (cache s) Hl.
    erewrite (sema_up_held _ _ _ _ (cache s))
      by (first [exact Hl | reflexivity]).
    eexists. split; [reflexivity|].
    assert (Hsame : set_nth i (with_sema (S (sema (with_sema 0 l))) (with_sema 0 l))
                      (cache s) = cache s).
    { apply set_nth_same. rewrite Hl. f_equal.
      pose proof (free_line s i l Hfree Hl). destruct l; cbn in *.
      subst. reflexivity. }
    split; [|split; [reflexivity|split; [lia|]]].
    + apply (cache_inv_ext s); auto.
    + intros dev' sec'. apply sector_view_ext; auto.
  - destruct Hserve as [Hc | Hev]; [congruence|].
    destruct (choose_evict_exact (set_cache (hold None (cache s)) s))
      as [i [l [s1 [Hrun [Hl [Hc1 [Hd1 [Hk1 [Hr1 Hb1]]]]]]]]]; auto.
    cbn [cache set_cache disk] in Hl, Hc1, Hd1. unfold hold in Hl, Hc1.
    assert (Hd : disk s1 dev sec = disk s dev sec).
    { rewrite Hd1. destruct (valid l) eqn:Hv; [|reflexivity].
      destruct (dirty l); [|reflexivity]. cbn. unfold written.
      pose proof (Hnc eq_refl i l Hl) as Hno.
      unfold matches in Hno. rewrite Hv in Hno. cbn [andb] in Hno.
      rewrite (Z.eqb_sym dev), (Z.eqb_sym sec), Hno. reflexivity. }
    cbv beta iota. unfold load_line.
    rewrite !bind_assoc, (bind_Done _ _ _ _ _ Hrun).
    rewrite !bind_assoc.
    erewrite (bind_Done (upd_line i _));
      [|eapply (upd_line_held s1 i _ _ (cache s)); [exact Hc1 | exact Hl]].
    repeat (rewrite ?bind_assoc; held_step (cache s) Hl).
    erewrite (sema_up_held _ _ _ _ (cache s))
      by (first [exact Hl | reflexivity]).
    eexists. split; [reflexivity|].
    match goal with
    | |- cache_inv ?s2 /\ _ =>
        destruct (replace_line s s2 i l
                    (mk_cache_block false true sec (time l) 1 dev
                       (sector_of (disk s dev sec)))
                    dev sec (valid l && dirty l)) as [Hinv' Hview]; auto
    end.
    + intros j lj Hj _. eapply Hnc; eauto.
    + unfold matches. cbn. rewrite !Z.eqb_refl. reflexivity.
    + apply sector_of_length.
    + intros H. apply andb_true_iff in H. exact H.
    + intros -> -> _. reflexivity.
    + cbn. rewrite Hd. reflexivity.
    + cbn. intros _. rewrite Hd. reflexivity.
    + split; [exact Hinv'|]. split; [exact Hb1|]. split; [lia|].
      intros dev' sec'. rewrite Hview. cbn [disk_data].
      destruct (Z.eqb_spec dev' dev); [|reflexivity].
      destruct (Z.eqb_spec sec' sec); [|reflexivity].
      subst dev' sec'. cbn [andb].
      symmetry. apply view_miss. intros j lj Hj. eapply Hnc; eauto.
Qed.

(** *** [flush_cache] *)

Lemma Forall_set_nth {A : Type} (P : A -> Prop) (i : nat) (x : A)
    (l : list A) :
  Forall P l -> P x -> Forall P (set_nth i x l).
Proof.
  intros Hl Hx. revert i.
  induction Hl as [|h t Hh Ht IH]; intros [|i]; simpl; auto.
Qed.

Lemma skipn_set_nth {A : Type} (i : nat) (x : A) (l : list A) :
  skipn (S i) (set_nth i x l) = skipn (S i) l.
Proof.
  revert i; induction l as [|h t IH]; intros [|i]; simpl; auto.
  apply IH.
Qed.

Lemma with_dirty_clean (l : cache_block) :
  dirty l = false -> with_dirty false l = l.
Proof. destruct l; cbn. intros ->. reflexivity. Qed.

(** The loop of [flush_cache] from line [i] on, on a cache at rest. *)
Lemma flush_cache_from_run :
  forall (k i : nat) (s : state),
    (i + k = List.length (cache s))%nat ->
    Forall (fun l => sema l = 1%nat) (cache s) ->
    exists s',
      flush_cache_from k i s = Done tt s' /\
      (forall j, nth_error (cache s') j =
                 if (j <? i)%nat then nth_error (cache s) j
                 else option_map (with_dirty false) (nth_error (cache s) j)) /\
      disk s' = flushed (skipn i (cache s)) (disk s) /\
      buffer_of s' = buffer_of s.
Proof.
  induction k as [|k IH]; intros i s Hik Hfree.
  - exists s. split; [reflexivity|]. split; [|split; [|reflexivity]].
    + intros j. destruct (Nat.ltb_spec j i); [reflexivity|].
      assert (E : nth_error (cache s) j = None) by (apply nth_error_None; lia).
      rewrite E. reflexivity.
    + replace i with (List.length (cache s)) by lia.
      rewrite skipn_all_nil. reflexivity.
  - assert (Hl : exists l, nth_error (cache s) i = Some l).
    { destruct (nth_error (cache s) i) eqn:E; eauto.
      apply nth_error_None in E. lia. }
    destruct Hl as [l Hl].
    pose proof (free_line s i l Hfree Hl) as Hs.
    set (s1 := set_disk (if dirty l then written l (disk s) else disk s)
                 (set_io_log
                    (if dirty l
                     then IoWrite (block l) (disk_sector l)
                            (sector_of (disk_data l)) :: io_log s
                     else io_log s)
                    (set_cache (set_nth i (with_dirty false l) (cache s)) s))).
    assert (Hstep :
      flush_cache_from (S k) i s = flush_cache_from k (S i) s1).
    { cbn [flush_cache_from].
      rewrite (bind_Done _ _ _ _ _ (sema_down_at i 0 l s Hl Hs)).
      repeat held_step (cache s) Hl.
      unfold when. cbn [dirty with_sema].
      destruct (dirty l) eqn:Hd.
      - rewrite !bind_assoc. unfold bind at 1. unfold block_write.
        cbn [block disk_sector disk_data with_sema].
        erewrite (bind_Done (upd_line i _));
          [|eapply (upd_line_held _ i _ _ (cache s)); [reflexivity | exact Hl]].
        erewrite (bind_Done (sema_up i));
          [|eapply (sema_up_held _ i _ _ (cache s)); [reflexivity | exact Hl]].
        f_equal. subst s1. unfold with_dirty, with_sema. cbn.
        rewrite Hd. destruct l; cbn in *. subst. destruct s; reflexivity.
      - repeat held_step (cache s) Hl.
        f_equal. subst s1. unfold with_dirty, with_sema. cbn.
        rewrite Hd. destruct l; cbn in *. subst. destruct s; reflexivity. }
    assert (Hc1 : cache s1 = set_nth i (with_dirty false l) (cache s)).
    { subst s1. destruct s; reflexivity. }
    assert (Hd1 : disk s1 = if dirty l then written l (disk s) else disk s).
    { subst s1. destruct s; reflexivity. }
    assert (Hb1 : buffer_of s1 = buffer_of s).
    { subst s1. destruct s; reflexivity. }
    destruct (IH (S i) s1) as [s' [Hrun [Hnth [Hdisk Hbuf]]]].
    + rewrite Hc1, set_nth_length. lia.
    + rewrite Hc1. apply Forall_set_nth; auto.
    + exists s'. split; [rewrite Hstep; exact Hrun|].
      split; [|split].
      * intros j. rewrite Hnth, Hc1, nth_error_set_nth.
        destruct (Nat.eqb_spec i j) as [Heq|Hne].
        -- subst j. rewrite Hl.
           destruct (Nat.ltb_spec i (S i)); [|lia].
           destruct (Nat.ltb_spec i i); [lia|]. reflexivity.
        -- destruct (Nat.ltb_spec j (S i)), (Nat.ltb_spec j i);
             try reflexivity; lia.
      * rewrite Hdisk, Hc1, Hd1, skipn_set_nth.
        rewrite (skipn_nth_error _ _ _ Hl). reflexivity.
      * congruence.
Qed.

Lemma flushed_other (ls : list cache_block) (dev sec : Z) :
  forall d,
    (forall x, In x ls -> dirty x = true ->
               (dev =? block x) && (sec =? disk_sector x) = false) ->
    flushed ls d dev sec = d dev sec.
Proof.
  induction ls as [|h t IH]; intros d H; [reflexivity|].
  unfold flushed in *. cbn [fold_left]. rewrite IH.
  - destruct (dirty h) eqn:Hd; [|reflexivity].
    unfold written. rewrite (H h); auto. left. reflexivity.
  - intros x Hx. apply H. right. exact Hx.
Qed.

Lemma flushed_at (l1 l2 : list cache_block) (l : cache_block)
    (d : Z -> Z -> list byte) :
  dirty l = true ->
  (forall x, In x l2 -> dirty x = true ->
             (block l =? block x) && (disk_sector l =? disk_sector x) = false) ->
  flushed (l1 ++ l :: l2) d (block l) (disk_sector l) = sector_of (disk_data l).
Proof.
  intros Hd H. unfold flushed. rewrite fold_left_app. cbn [fold_left].
  rewrite Hd.
  change (flushed l2 (written l (fold_left
            (fun d0 x => if dirty x then written x d0 else d0) l1 d))
            (block l) (disk_sector l) = sector_of (disk_data l)).
  rewrite flushed_other by exact H.
  unfold written. rewrite !Z.eqb_refl. reflexivity.
Qed.

Lemma with_dirty_matches (dev sec : Z) (b : bool) (l : cache_block) :
  matches dev sec (with_dirty b l) = matches dev sec l.
Proof. destruct l; reflexivity. Qed.

Lemma dirty_line_valid (s : state) (x : cache_block) :
  cache_inv s -> In x (cache s) -> dirty x = true -> valid x = true.
Proof.
  intros [_ [_ [_ [Hinvalid _]]]] Hin Hd.
  rewrite Forall_forall in Hinvalid. specialize (Hinvalid x Hin).
  destruct (valid x); [reflexivity|]. rewrite Hinvalid in Hd by reflexivity.
  discriminate.
Qed.

Lemma same_place_matches (x : cache_block) (dev sec : Z) :
  valid x = true ->
  (dev =? block x) && (sec =? disk_sector x) = matches dev sec x.
Proof.
  intros Hv. unfold matches. rewrite Hv. cbn [andb].
  rewrite (Z.eqb_sym dev), (Z.eqb_sym sec). reflexivity.
Qed.

(** What [flush_cache] leaves on the device is what the cache showed. *)
Lemma flushed_view (s : state) (dev sec : Z) :
  cache_inv s ->
  sector_of (flushed (cache s) (disk s) dev sec) = sector_view s dev sec.
Proof.
  intros Hinv.
  pose proof Hinv as [Hlen [Hfree [H512 [Hinvalid [Huniq Hagree]]]]].
  rewrite Forall_forall in H512, Hagree.
  destruct (cached s dev sec) as [i|] eqn:Hfind.
  - destruct (cached_line _ _ _ _ Hfind) as [l [Hl Hm]].
    pose proof (cache_inv_unique_match s i l dev sec Hinv Hl Hm) as Hone.
    rewrite (view_hit s i l dev sec Hl Hm Hone).
    pose proof (proj1 (matches_spec _ _ _) Hm) as [Hv [Hb Hsc]].
    pose proof (nth_error_In _ _ Hl) as Hin.
    destruct (dirty l) eqn:Hd.
    + destruct (nth_error_split _ _ Hl) as [l1 [l2 [Hsplit Hn]]].
      rewrite Hsplit, <- Hb, <- Hsc, flushed_at; auto.
      * rewrite sector_of_idem by apply sector_of_length.
        apply sector_of_idem. auto.
      * intros x Hx Hdx.
        destruct (In_nth_error _ _ Hx) as [k Hk].
        assert (Hat : nth_error (cache s) (List.length l1 + S k) = Some x).
        { rewrite Hsplit, nth_error_app2 by lia.
          replace (List.length l1 + S k - List.length l1)%nat with (S k) by lia.
          exact Hk. }
        pose proof (nth_error_In _ _ Hat) as Hinx.
        rewrite same_place_matches
          by (eapply dirty_line_valid; eauto).
        destruct (matches (block l) (disk_sector l) x) eqn:E; [|reflexivity].
        rewrite Hb, Hsc in E. pose proof (Hone _ _ Hat E). lia.
    + rewrite flushed_other.
      * rewrite (Hagree l Hin Hv Hd), Hb, Hsc. reflexivity.
      * intros x Hx Hdx. destruct (In_nth_error _ _ Hx) as [k Hk].
        rewrite same_place_matches by (eapply dirty_line_valid; eauto).
        destruct (matches dev sec x) eqn:E; [|reflexivity].
        pose proof (Hone _ _ Hk E). subst k. congruence.
  - pose proof (not_cached _ _ _ Hfind) as Hnone.
    rewrite (view_miss s dev sec Hnone), flushed_other; [reflexivity|].
    intros x Hx Hdx. destruct (In_nth_error _ _ Hx) as [k Hk].
    rewrite same_place_matches by (eapply dirty_line_valid; eauto).
    eapply Hnone; eauto.
Qed.

(** [flush_cache] returns, leaves no line dirty, has the device hold
    what the cache showed, and changes what the cache shows for no
    sector. *)
Lemma flush_cache_view (s : state) :
  cache_inv s ->
  exists s',
    flush_cache s = Done tt s' /\
    cache_inv s' /\
    cache s' = map (with_dirty false) (cache s) /\
    buffer_of s' = buffer_of s /\
    (forall dev sec, sector_of (disk s' dev sec) = sector_view s dev sec) /\
    (forall dev sec, sector_view s' dev sec = sector_view s dev sec).
Proof.
  intros Hinv.
  pose proof Hinv as [Hlen [Hfree [H512 [Hinvalid [Huniq Hagree]]]]].
  destruct (flush_cache_from_run CACHE_SIZE 0 s) as [s' [Hrun [Hnth [Hd Hb]]]];
    [simpl; lia | exact Hfree |].
  change (skipn 0 (cache s)) with (cache s) in Hd.
  assert (Hc : cache s' = map (with_dirty false) (cache s)).
  { apply nth_error_ext. intros j. rewrite Hnth, nth_error_map. reflexivity. }
  assert (Hdev : forall dev sec,
             sector_of (disk s' dev sec) = sector_view s dev sec).
  { intros dev sec. rewrite Hd. apply flushed_view, Hinv. }
  assert (Hline : forall j x, nth_error (cache s') j = Some x ->
             exists l, nth_error (cache s) j = Some l /\ x = with_dirty false l).
  { intros j x Hj. rewrite Hc, nth_error_map in Hj.
    destruct (nth_error (cache s) j) as [l|]; [|discriminate].
    exists l. cbn in Hj. split; congruence. }
  assert (Hinv' : cache_inv s').
  { unfold cache_inv. rewrite Hc.
    split; [rewrite length_map; exact Hlen|].
    split; [apply Forall_map; eapply Forall_impl; [|exact Hfree];
            intros l Hl; destruct l; exact Hl|].
    split; [apply Forall_map; eapply Forall_impl; [|exact H512];
            intros l Hl; destruct l; exact Hl|].
    split; [apply Forall_map, Forall_forall; intros l _ _;
            destruct l; reflexivity|].
    split.
    - intros i j li lj Hi Hj Hvi Hvj Hbb Hss.
      rewrite <- Hc in Hi, Hj.
      destruct (Hline _ _ Hi) as [li' [Hi' ->]].
      destruct (Hline _ _ Hj) as [lj' [Hj' ->]].
      apply (Huniq i j li' lj'); auto; destruct li', lj'; assumption.
    - apply Forall_map, Forall_forall. intros l Hl Hv _.
      destruct (In_nth_error _ _ Hl) as [j Hj].
      assert (Hm : matches (block l) (disk_sector l) l = true).
      { apply matches_spec. destruct l; cbn in *. auto. }
      replace (disk_data (with_dirty false l)) with (disk_data l)
        by (destruct l; reflexivity).
      replace (block (with_dirty false l)) with (block l)
        by (destruct l; reflexivity).
      replace (disk_sector (with_dirty false l)) with (disk_sector l)
        by (destruct l; reflexivity).
      rewrite Hdev. symmetry. eapply view_hit; eauto.
      eapply cache_inv_unique_match; eauto. }
  exists s'. split; [exact Hrun|]. split; [exact Hinv'|].
  split; [exact Hc|]. split; [exact Hb|]. split; [exact Hdev|].
  intros dev sec.
  destruct (cached s dev sec) as [i|] eqn:Hfind.
  - destruct (cached_line _ _ _ _ Hfind) as [l [Hl Hm]].
    rewrite (view_hit s i l dev sec Hl Hm
               (cache_inv_unique_match s i l dev sec Hinv Hl Hm)).
    assert (Hl' : nth_error (cache s') i = Some (with_dirty false l)).
    { rewrite Hc, nth_error_map, Hl. reflexivity. }
    assert (Hm' : matches dev sec (with_dirty false l) = true).
    { rewrite with_dirty_matches. exact Hm. }
    rewrite (view_hit s' i _ dev sec Hl' Hm'
               (cache_inv_unique_match s' i _ dev sec Hinv' Hl' Hm')).
    destruct l; reflexivity.
  - pose proof (not_cached _ _ _ Hfind) as Hnone.
    rewrite view_miss.
    + rewrite Hdev. reflexivity.
    + intros j x Hj. destruct (Hline _ _ Hj) as [l [Hl ->]].
      rewrite with_dirty_matches. eauto.
Qed.

(** *** A miss that cannot be served *)

Lemma evictable_dec (s : state) : {evictable s} + {~ evictable s}.
Proof.
  unfold evictable. apply Exists_dec. intros x.
  destruct (bool_dec (valid x) false) as [Hv|Hv]; [left; left; exact Hv|].
  destruct (Z_lt_dec (time x) (clock s (clock_reads s))) as [Ht|Ht].
  - left. right. exact Ht.
  - right. intros [H|H]; contradiction.
Defined.

Lemma bind_Fault {A B : Type} (m : M A) (k : A -> M B) (s : state) :
  m s = Fault -> bind m k s = Fault.
Proof. intros H. unfold bind. rewrite H. reflexivity. Qed.

Lemma bind_Blocked_intro {A B : Type} (m : M A) (k : A -> M B) (s : state) :
  m s = Blocked -> bind m k s = Blocked.
Proof. intros H. unfold bind. rewrite H. reflexivity. Qed.

Lemma choose_evict_stuck (s : state) :
  List.length (cache s) = CACHE_SIZE ->
  Forall (fun l => sema l = 1%nat) (cache s) ->
  ~ evictable s ->
  choose_evict (set_cache (hold None (cache s)) s) = Fault.
Proof.
  intros Hlen Hfree Hne.
  apply Forall_Exists_neg in Hne. rewrite Forall_forall in Hne.
  apply choose_evict_no_candidate; cbn [cache set_cache]; unfold hold; auto.
  - apply Forall_forall. intros x Hx. specialize (Hne x Hx).
    destruct (valid x); [reflexivity|]. elim Hne. left. reflexivity.
  - apply Forall_forall. intros x Hx. specialize (Hne x Hx).
    cbn. destruct (Z_lt_dec (time x) (clock s (clock_reads s))); [|lia].
    elim Hne. right. assumption.
Qed.

Lemma cache_write_stuck (s : state) (dev sec : Z) (buf : list byte) :
  List.length (cache s) = CACHE_SIZE ->
  Forall (fun l => sema l = 1%nat) (cache s) ->
  cached s dev sec = None -> ~ evictable s ->
  cache_write dev sec buf s = Fault.
Proof.
  intros Hlen Hfree Hmiss Hne.
  pose proof (all_free_nonzero _ Hfree) as Hnz.
  unfold cache_write. unfold bind at 1. unfold find_cacheline.
  rewrite (find_cacheline_from_run (cache s) dev sec Hnz);
    [| simpl; lia | reflexivity].
  change (skipn 0 (cache s)) with (cache s).
  unfold cached in Hmiss. rewrite Hmiss.
  rewrite !bind_assoc. apply bind_Fault, choose_evict_stuck; auto.
Qed.

Lemma cache_read_stuck (s : state) (dev sec : Z) :
  List.length (cache s) = CACHE_SIZE ->
  Forall (fun l => sema l = 1%nat) (cache s) ->
  cached s dev sec = None -> ~ evictable s ->
  cache_read dev sec s = Fault.
Proof.
  intros Hlen Hfree Hmiss Hne.
  pose proof (all_free_nonzero _ Hfree) as Hnz.
  unfold cache_read. unfold bind at 1. unfold find_cacheline.
  rewrite (find_cacheline_from_run (cache s) dev sec Hnz);
    [| simpl; lia | reflexivity].
  change (skipn 0 (cache s)) with (cache s).
  unfold cached in Hmiss. rewrite Hmiss. unfold load_line.
  rewrite !bind_assoc. apply bind_Fault, choose_evict_stuck; auto.
Qed.

Lemma read_ahead_fetch_stuck (s : state) (e : read_head_elem) :
  List.length (cache s) = CACHE_SIZE ->
  Forall (fun l => sema l = 1%nat) (cache s) ->
  rh_sector e < dev_size s (rh_block e) ->
  cached s (rh_block e) (rh_sector e) = None -> ~ evictable s ->
  read_ahead_fetch e s = Fault.
Proof.
  intros Hlen Hfree Hin Hmiss Hne.
  pose proof (all_free_nonzero _ Hfree) as Hnz.
  unfold read_ahead_fetch, block_size. unfold bind at 1. unfold get.
  destruct (Z.ltb_spec (rh_sector e) (dev_size s (rh_block e))); [|lia].
  unfold bind at 1. unfold find_cacheline.
  rewrite (find_cacheline_from_run (cache s) _ _ Hnz);
    [| simpl; lia | reflexivity].
  change (skipn 0 (cache s)) with (cache s).
  unfold cached in Hmiss. rewrite Hmiss. unfold load_line.
  rewrite !bind_assoc. apply bind_Fault, choose_evict_stuck; auto.
Qed.

Lemma served (s : state) (dev sec : Z) :
  (cached s dev sec <> None \/ evictable s) \/
  (cached s dev sec = None /\ ~ evictable s).
Proof.
  destruct (cached s dev sec); [left; left; discriminate|].
  destruct (evictable_dec s); [left; right; assumption | right; auto].
Qed.

(** *** The steps of the cache keep it coherent *)

Lemma put_read_ahead_buffer_done (dev sec : Z) (s s' : state) (u : unit) :
  put_read_ahead_buffer dev sec s = Done u s' ->
  cache s' = cache s /\ disk s' = disk s /\ io_log s' = io_log s.
Proof.
  unfold put_read_ahead_buffer, bind, get, modify, blocked.
  destruct (read_head_buffer_n s =? READ_AHEAD_BUFFER_SIZE); [discriminate|].
  intros H. injection H as _ <-. destruct s; auto.
Qed.



Lemma cache_read_keeps_inv (dev sec : Z) :
  preserves cache_inv (cache_read dev sec).
Proof.
  intros s d s' Hinv Hrun. pose proof Hinv as [Hlen [Hfree _]].
  destruct (served s dev sec) as [Hserve | [Hmiss Hne]].
  - destruct (cache_read_view s dev sec Hinv Hserve)
      as [s1 [Hrun1 [Hinv1 _]]].
    rewrite Hrun1 in Hrun. apply bind_done in Hrun.
    destruct Hrun as [u [s2 [Hput Hret]]].
    unfold ret in Hret. injection Hret as _ <-.
    destruct (put_read_ahead_buffer_done _ _ _ _ _ Hput) as [Hc [Hd _]].
    apply (cache_inv_ext s1); auto.
  - rewrite cache_read_stuck in Hrun by auto. discriminate.
Qed.




Lemma cache_init_inv (s : state) : cache_inv (cache_init s).
Proof.
  unfold cache_inv, cache_init. cbn [cache set_read_head set_cache].
  assert (Hall : forall x, In x (repeat empty_line CACHE_SIZE) -> x = empty_line).
  { intros x Hx. apply repeat_spec in Hx. exact Hx. }
  replace (cache (set_read_head
             (repeat (mk_read_head_elem 0 0) (Z.to_nat READ_AHEAD_BUFFER_SIZE)) 0
             (set_cache (repeat empty_line CACHE_SIZE) s)))
    with (repeat empty_line CACHE_SIZE) by (destruct s; reflexivity).
  split; [apply repeat_length|].
  split; [apply Forall_forall; intros x Hx; rewrite (Hall x Hx); reflexivity|].
  split; [apply Forall_forall; intros x Hx; rewrite (Hall x Hx); reflexivity|].
  split; [apply Forall_forall; intros x Hx; rewrite (Hall x Hx); reflexivity|].
  split.
  - intros i j li lj Hi _ Hv. apply nth_error_In, Hall in Hi. subst li.
    discriminate.
  - apply Forall_forall. intros x Hx. rewrite (Hall x Hx). discriminate.
Qed.


(** ** The cache as its callers see it *)

Lemma booted_inv : cache_inv booted.
Proof. exact (cache_init_inv machine0). Qed.

Lemma booted_evictable : evictable booted.
Proof. unfold evictable. apply Exists_cons_hd. left. reflexivity. Qed.

Lemma queued_inv : cache_inv queued.
Proof.
  apply (cache_inv_ext booted); [reflexivity | reflexivity | exact booted_inv].
Qed.



(** X2.  On a coherent cache in which the sector is cached or a line can
    be evicted, [cache_write] returns, leaves the cache coherent, and
    afterwards the cache shows the written data (padded or cut to one
    sector) for the sector written and, for every other sector of every
    device, exactly what it showed before.  The read-ahead buffer is
    not touched, and a write to a cached sector reaches no device. *)
Theorem cache_write_shows_data (s : state) (dev sec : Z) (buf : list byte) :
  cache_inv s ->
  cached s dev sec <> None \/ evictable s ->
  exists s',
    cache_write dev sec buf s = Done tt s' /\
    cache_inv s' /\
    buffer_of s' = buffer_of s /\
    (cached s dev sec <> None -> io_log s' = io_log s) /\
    forall dev' sec',
      sector_view s' dev' sec' =
      if (dev' =? dev) && (sec' =? sec) then sector_of buf
      else sector_view s dev' sec'.
Proof.
  intros Hinv Hserve.
  destruct (cache_write_view s dev sec buf Hinv Hserve)
    as [s' [Hrun [Hinv' [Hb [Hio [_ Hview]]]]]].
  exists s'. auto.
Qed.

Lemma cache_write_shows_data_witness :
  exists s',
    cache_write fs_device 7 [x01; x02] booted = Done tt s' /\
    cache_inv s' /\
    buffer_of s' = buffer_of booted /\
    (cached booted fs_device 7 <> None -> io_log s' = io_log booted) /\
    forall dev' sec',
      sector_view s' dev' sec' =
      if (dev' =? fs_device) && (sec' =? 7) then sector_of [x01; x02]
      else sector_view booted dev' sec'.
Proof.
  apply cache_write_shows_data;
    [exact booted_inv | right; exact booted_evictable].
Defined.

(** X3.  On a coherent cache in which the sector is cached or a line can
    be evicted, and with room in the read-ahead buffer, [cache_read]
    returns what the cache showed for the sector, leaves the cache
    coherent with the sector cached, changes what the cache shows for
    no sector of any device, and queues one request, for the next
    sector.  A read of a cached sector reaches no device. *)
Theorem cache_read_shows_view (s : state) (dev sec : Z) :
  cache_inv s ->
  cached s dev sec <> None \/ evictable s ->
  read_head_buffer_n s <> READ_AHEAD_BUFFER_SIZE ->
  exists s',
    cache_read dev sec s = Done (sector_view s dev sec) s' /\
    cache_inv s' /\
    cached s' dev sec <> None /\
    (forall dev' sec', sector_view s' dev' sec' = sector_view s dev' sec') /\
    read_head_buffer_n s' = u32 (read_head_buffer_n s + 1) /\
    nth_error (read_head_buffer s') (Z.to_nat (read_head_buffer_n s)) =
      match nth_error (read_head_buffer s) (Z.to_nat (read_head_buffer_n s)) with
      | Some _ => Some (mk_read_head_elem (u32 (sec + 1)) dev)
      | None => None
      end /\
    (cached s dev sec <> None -> io_log s' = io_log s).
Proof.
  intros Hinv Hserve Hroom.
  destruct (cache_read_view s dev sec Hinv Hserve)
    as [s1 [Hrun [Hinv1 [Hb [Hio [Hc Hview]]]]]].
  unfold buffer_of in Hb. injection Hb as Hb1 Hb2.
  rewrite Hrun.
  rewrite (bind_Done _ _ _ _ _
             (put_read_ahead_buffer_exact dev (u32 (sec + 1)) s1
                ltac:(rewrite Hb2; exact Hroom))).
  eexists. split; [reflexivity|].
  split; [apply (cache_inv_ext s1); auto|].
  split; [exact Hc|].
  split; [intros dev' sec'; rewrite <- Hview; apply sector_view_ext; reflexivity|].
  split; [cbn; rewrite Hb2; reflexivity|].
  split; [|exact Hio].
  cbn. rewrite Hb1, Hb2, nth_error_set_nth, Nat.eqb_refl. reflexivity.
Qed.

Lemma cache_read_shows_view_witness :
  exists s',
    cache_read fs_device 7 booted = Done (sector_view booted fs_device 7) s' /\
    cache_inv s' /\
    cached s' fs_device 7 <> None /\
    (forall dev' sec', sector_view s' dev' sec' = sector_view booted dev' sec') /\
    read_head_buffer_n s' = u32 (read_head_buffer_n booted + 1) /\
    nth_error (read_head_buffer s') (Z.to_nat (read_head_buffer_n booted)) =
      match nth_error (read_head_buffer booted)
              (Z.to_nat (read_head_buffer_n booted)) with
      | Some _ => Some (mk_read_head_elem (u32 (7 + 1)) fs_device)
      | None => None
      end /\
    (cached booted fs_device 7 <> None -> io_log s' = io_log booted).
Proof.
  apply cache_read_shows_view;
    [exact booted_inv | right; exact booted_evictable | discriminate].
Defined.

(** X4.  What [cache_write] stores, [cache_read] of the same sector
    returns, without any access to the device for the read. *)
Theorem cache_write_read_round_trip (s : state) (dev sec : Z)
    (buf : list byte) :
  cache_inv s ->
  cached s dev sec <> None \/ evictable s ->
  read_head_buffer_n s <> READ_AHEAD_BUFFER_SIZE ->
  exists s1 s2,
    cache_write dev sec buf s = Done tt s1 /\
    cache_read dev sec s1 = Done (sector_of buf) s2 /\
    io_log s2 = io_log s1.
Proof.
  intros Hinv Hserve Hroom.
  destruct (cache_write_view s dev sec buf Hinv Hserve)
    as [s1 [Hrun [Hinv1 [Hb [_ [Hc Hview]]]]]].
  unfold buffer_of in Hb. injection Hb as Hb1 Hb2.
  destruct (cache_read_view s1 dev sec Hinv1 (or_introl Hc))
    as [s2 [Hrun2 [_ [Hb' [Hio _]]]]].
  unfold buffer_of in Hb'. injection Hb' as Hb1' Hb2'.
  exists s1. eexists. split; [exact Hrun|].
  rewrite Hrun2.
  rewrite (bind_Done _ _ _ _ _
             (put_read_ahead_buffer_exact dev (u32 (sec + 1)) s2
                ltac:(rewrite Hb2', Hb2; exact Hroom))).
  split.
  - unfold ret. rewrite Hview, !Z.eqb_refl. reflexivity.
  - cbn. exact (Hio Hc).
Qed.

Lemma cache_write_read_round_trip_witness :
  exists s1 s2,
    cache_write fs_device 7 [x01; x02] booted = Done tt s1 /\
    cache_read fs_device 7 s1 = Done (sector_of [x01; x02]) s2 /\
    io_log s2 = io_log s1.
Proof.
  apply cache_write_read_round_trip;
    [exact booted_inv | right; exact booted_evictable | discriminate].
Defined.

(** X5.  On a coherent cache [flush_cache] returns; afterwards no line
    is dirty, the device holds for every sector what the cache showed
    for it, and the cache shows for every sector what it showed
    before. *)
Theorem flush_cache_writes_back (s : state) :
  cache_inv s ->
  exists s',
    flush_cache s = Done tt s' /\
    cache_inv s' /\
    Forall (fun l => dirty l = false) (cache s') /\
    (forall dev sec, sector_of (disk s' dev sec) = sector_view s dev sec) /\
    (forall dev sec, sector_view s' dev sec = sector_view s dev sec).
Proof.
  intros Hinv.
  destruct (flush_cache_view s Hinv)
    as [s' [Hrun [Hinv' [Hc [_ [Hdev Hview]]]]]].
  exists s'. split; [exact Hrun|]. split; [exact Hinv'|].
  split; [|split; assumption].
  rewrite Hc. apply Forall_map, Forall_forall. intros l _.
  destruct l; reflexivity.
Qed.

Lemma flush_cache_writes_back_witness :
  exists s',
    flush_cache queued = Done tt s' /\
    cache_inv s' /\
    Forall (fun l => dirty l = false) (cache s') /\
    (forall dev sec, sector_of (disk s' dev sec) = sector_view queued dev sec) /\
    (forall dev sec, sector_view s' dev sec = sector_view queued dev sec).
Proof. apply flush_cache_writes_back. exact queued_inv. Defined.

(** X6.  One round of the read-ahead thread on a coherent cache with a
    queued request, the topmost of which is for a sector that is cached,
    can be given a line, or lies past the end of its device: the round
    returns, takes that request off the buffer, leaves the cache
    coherent and changes what the cache shows for no sector; for a
    sector past the end of the device it touches neither the cache nor
    the device. *)
Theorem read_ahead_transparent (s : state) (e : read_head_elem) :
  cache_inv s ->
  0 < read_head_buffer_n s <= READ_AHEAD_BUFFER_SIZE ->
  nth_error (read_head_buffer s) (Z.to_nat (read_head_buffer_n s - 1)) = Some e ->
  (rh_sector e < dev_size s (rh_block e) ->
   cached s (rh_block e) (rh_sector e) <> None \/ evictable s) ->
  exists s',
    read_ahead s = Done tt s' /\
    cache_inv s' /\
    read_head_buffer_n s' = read_head_buffer_n s - 1 /\
    (forall dev sec, sector_view s' dev sec = sector_view s dev sec) /\
    (dev_size s (rh_block e) <= rh_sector e ->
     cache s' = cache s /\ io_log s' = io_log s).
Proof.
  intros Hinv Hn He Hserve.
  assert (Hu : u32 (read_head_buffer_n s - 1) = read_head_buffer_n s - 1).
  { apply u32_small. unfold READ_AHEAD_BUFFER_SIZE in Hn. lia. }
  set (s1 := set_read_head (read_head_buffer s) (read_head_buffer_n s - 1) s).
  assert (Hpop : read_ahead_pop s = Done e s1).
  { unfold read_ahead_pop, bind, get, modify.
    destruct (Z.eqb_spec (read_head_buffer_n s) 0) as [E|_]; [lia|].
    cbn. rewrite Hu, He. reflexivity. }
  assert (Hinv1 : cache_inv s1) by (apply (cache_inv_ext s); auto).
  destruct (read_ahead_fetch_view s1 e Hinv1)
    as [s' [Hrun [Hinv' [Hb [Hout Hview]]]]].
  { intros Hin. destruct (Hserve Hin) as [H|H]; [left; exact H | right; exact H]. }
  exists s'. split.
  { unfold read_ahead. rewrite (bind_Done _ _ _ _ _ Hpop). exact Hrun. }
  split; [exact Hinv'|].
  split; [unfold buffer_of in Hb; injection Hb as _ Hb; exact Hb|].
  split.
  - intros dev sec. rewrite Hview. apply sector_view_ext; reflexivity.
  - intros Hpast. rewrite (Hout Hpast). split; reflexivity.
Qed.

Lemma read_ahead_transparent_witness :
  exists s',
    read_ahead queued = Done tt s' /\
    cache_inv s' /\
    read_head_buffer_n s' = read_head_buffer_n queued - 1 /\
    (forall dev sec, sector_view s' dev sec = sector_view queued dev sec) /\
    (dev_size queued (rh_block (mk_read_head_elem 9 fs_device))
       <= rh_sector (mk_read_head_elem 9 fs_device) ->
     cache s' = cache queued /\ io_log s' = io_log queued).
Proof.
  apply (read_ahead_transparent queued (mk_read_head_elem 9 fs_device)).
  - exact queued_inv.
  - vm_compute. split; [reflexivity | discriminate].
  - reflexivity.
  - intros _. right. unfold evictable. apply Exists_cons_hd. left. reflexivity.
Defined.

(** X7.  A miss on a cache at rest in which every line is valid and none
    was last used before the tick the clock shows next: [choose_evict]
    hands back its NULL and both [cache_read] and [cache_write] fault on
    it, as does a read-ahead round for a sector in range. *)
Theorem cache_miss_without_victim_faults (s : state) (dev sec : Z)
    (buf : list byte) :
  List.length (cache s) = CACHE_SIZE ->
  Forall (fun l => sema l = 1%nat) (cache s) ->
  cached s dev sec = None ->
  ~ evictable s ->
  cache_read dev sec s = Fault /\
  cache_write dev sec buf s = Fault /\
  (sec < dev_size s dev ->
   read_ahead_fetch (mk_read_head_elem sec dev) s = Fault).
Proof.
  intros Hlen Hfree Hmiss Hne.
  split; [apply cache_read_stuck; auto|].
  split; [apply cache_write_stuck; auto|].
  intros Hin. apply read_ahead_fetch_stuck; auto.
Qed.

Lemma hot_not_evictable : ~ evictable hot.
Proof.
  unfold evictable. apply Forall_Exists_neg, Forall_forall.
  intros x Hx. change (cache hot) with (map hot_line (seq 0 CACHE_SIZE)) in Hx.
  apply in_map_iff in Hx. destruct Hx as [i [<- _]].
  cbn. intros [H|H]; [discriminate|]. vm_compute in H. discriminate.
Qed.

Lemma hot_all_free : Forall (fun l => sema l = 1%nat) (cache hot).
Proof.
  apply Forall_forall. intros x Hx.
  change (cache hot) with (map hot_line (seq 0 CACHE_SIZE)) in Hx.
  apply in_map_iff in Hx. destruct Hx as [i [<- _]]. reflexivity.
Qed.

Lemma cache_miss_without_victim_faults_witness :
  cache_read fs_device 100 hot = Fault /\
  cache_write fs_device 100 [x01] hot = Fault /\
  (100 < dev_size hot fs_device ->
   read_ahead_fetch (mk_read_head_elem 100 fs_device) hot = Fault).
Proof.
  apply cache_miss_without_victim_faults.
  - reflexivity.
  - exact hot_all_free.
  - vm_compute. reflexivity.
  - exact hot_not_evictable.
Defined.

Lemma scan_find_first (ls : list cache_block) (dev sec : Z) :
  forall (b i : nat),
    scan_find ls b dev sec = Some i ->
    forall j lj, (j < i - b)%nat -> nth_error ls j = Some lj ->
                 matches dev sec lj = false.
Proof.
  induction ls as [|h t IH]; intros b i H j lj Hj Hlj; simpl in H;
    [discriminate|].
  destruct (matches dev sec h) eqn:E.
  - injection H as <-. lia.
  - destruct j as [|j]; simpl in Hlj.
    + congruence.
    + apply (IH _ _ H j lj); [lia | exact Hlj].
Qed.

(** X8.  On a cache at rest [find_cacheline] returns the first valid
    line for the sector with that line's semaphore taken and every other
    semaphore as it was, or NULL with the cache as it was when no valid
    line is for the sector; it reaches no device. *)
Theorem find_cacheline_finds (s : state) (dev sec : Z) :
  List.length (cache s) = CACHE_SIZE ->
  Forall (fun l => sema l = 1%nat) (cache s) ->
  exists r s',
    find_cacheline dev sec s = Done r s' /\
    io_log s' = io_log s /\ disk s' = disk s /\
    match r with
    | Some i =>
        exists l,
          nth_error (cache s) i = Some l /\
          valid l = true /\ block l = dev /\ disk_sector l = sec /\
          (forall j lj, (j < i)%nat -> nth_error (cache s) j = Some lj ->
                        matches dev sec lj = false) /\
          cache s' = set_nth i (with_sema 0 l) (cache s)
    | None =>
        cache s' = cache s /\
        Forall (fun l => matches dev sec l = false) (cache s)
    end.
Proof.
  intros Hlen Hfree.
  pose proof (all_free_nonzero _ Hfree) as Hnz.
  unfold find_cacheline.
  rewrite (find_cacheline_from_run (cache s) dev sec Hnz CACHE_SIZE 0 s);
    [| simpl; lia | reflexivity].
  change (skipn 0 (cache s)) with (cache s).
  eexists. eexists. split; [reflexivity|].
  split; [reflexivity|]. split; [reflexivity|].
  destruct (scan_find (cache s) 0 dev sec) as [i|] eqn:Hfind.
  - destruct (scan_find_some _ _ _ _ _ Hfind) as [l [_ [Hl Hm]]].
    rewrite Nat.sub_0_r in Hl.
    pose proof (proj1 (matches_spec _ _ _) Hm) as [Hv [Hb Hs]].
    exists l. repeat (split; [assumption|]). split.
    + intros j lj Hj Hlj. apply (scan_find_first _ _ _ _ _ Hfind j lj); [lia|auto].
    + cbn [cache set_cache]. rewrite (hold_set_nth _ _ _ Hl).
      rewrite (free_line s i l Hfree Hl). reflexivity.
  - split; [reflexivity|]. exact (scan_find_none _ _ _ _ Hfind).
Qed.

Lemma find_cacheline_finds_witness :
  exists r s',
    find_cacheline fs_device 7 booted = Done r s' /\
    io_log s' = io_log booted /\ disk s' = disk booted /\
    match r with
    | Some i =>
        exists l,
          nth_error (cache booted) i = Some l /\
          valid l = true /\ block l = fs_device /\ disk_sector l = 7 /\
          (forall j lj, (j < i)%nat -> nth_error (cache booted) j = Some lj ->
                        matches fs_device 7 lj = false) /\
          cache s' = set_nth i (with_sema 0 l) (cache booted)
    | None =>
        cache s' = cache booted /\
        Forall (fun l => matches fs_device 7 l = false) (cache booted)
    end.
Proof.
  apply find_cacheline_finds; [reflexivity | exact booted_all_free].
Defined.

Lemma find_cacheline_from_waits (c : list cache_block) (dev sec : Z)
    (j : nat) (l : cache_block) :
  nth_error c j = Some l -> sema l = O ->
  (forall k lk, (k < j)%nat -> nth_error c k = Some lk ->
                sema lk <> O /\ matches dev sec lk = false) ->
  forall (k i : nat) (s : state),
    cache s = c -> (i <= j < i + k)%nat ->
    find_cacheline_from k i dev sec s = Blocked.
Proof.
  intros Hl Hs Hbefore. induction k as [|k IH]; intros i s Hc Hij; [lia|].
  cbn [find_cacheline_from].
  destruct (Nat.eq_dec i j) as [->|Hne].
  - apply bind_Blocked_intro. apply (sema_down_held j l); congruence.
  - assert (Hi : exists li, nth_error c i = Some li).
    { destruct (nth_error c i) eqn:E; eauto.
      apply nth_error_None in E.
      assert (nth_error c j <> None) by congruence.
      apply nth_error_Some in H. lia. }
    destruct Hi as [li Hi].
    destruct (Hbefore i li ltac:(lia) Hi) as [Hnz Hnm].
    destruct (sema li) as [|n] eqn:Hn; [congruence|].
    rewrite <- Hc in Hi.
    rewrite (bind_Done _ _ _ _ _ (sema_down_at i n li s Hi Hn)).
    erewrite (bind_Done (get_line i));
      [|eapply (get_line_held _ i _ _ (cache s)); [reflexivity | exact Hi]].
    replace (valid (with_sema n li) && (block (with_sema n li) =? dev)
             && (disk_sector (with_sema n li) =? sec))
      with (matches dev sec li) by (destruct li; reflexivity).
    rewrite Hnm.
    erewrite (bind_Done (sema_up i));
      [|eapply (sema_up_held _ i _ _ (cache s)); [reflexivity | exact Hi]].
    apply IH; [|lia].
    cbn [cache set_cache]. rewrite <- Hc. apply set_nth_same.
    rewrite Hi. f_equal. destruct li; cbn in *. subst. reflexivity.
Qed.

(** X9.  [find_cacheline] takes the semaphore of every line it looks at:
    when a line is held and no line before it is held or is a valid line
    for the sector, the caller waits on that line, whether or not a
    later line caches the sector. *)
Theorem find_cacheline_waits (s : state) (dev sec : Z) (j : nat)
    (l : cache_block) :
  List.length (cache s) = CACHE_SIZE ->
  nth_error (cache s) j = Some l -> sema l = O ->
  (forall k lk, (k < j)%nat -> nth_error (cache s) k = Some lk ->
                sema lk <> O /\ matches dev sec lk = false) ->
  find_cacheline dev sec s = Blocked.
Proof.
  intros Hlen Hl Hs Hbefore. unfold find_cacheline.
  apply (find_cacheline_from_waits (cache s) dev sec j l Hl Hs Hbefore);
    [reflexivity|].
  assert (nth_error (cache s) j <> None) by congruence.
  apply nth_error_Some in H. lia.
Qed.

Lemma find_cacheline_waits_witness :
  find_cacheline fs_device 7
    (set_cache (set_nth 1 (with_sema 0 empty_line) (cache booted)) booted)
  = Blocked.
Proof.
  apply (find_cacheline_waits _ fs_device 7 1%nat (with_sema 0 empty_line)).
  - reflexivity.
  - reflexivity.
  - reflexivity.
  - intros k lk Hk Hlk. assert (k = O) by lia. subst k.
    cbn in Hlk. injection Hlk as <-. split; [discriminate | reflexivity].
Defined.

(** ** The layout of an on-disk inode in its sector *)

Lemma byte_val_range (b : byte) : 0 <= byte_val b < 256.
Proof.
  unfold byte_val. pose proof (Byte.to_N_bounded b). lia.
Qed.

Lemma byte_val_of_Z (z : Z) : byte_val (byte_of_Z z) = z mod 256.
Proof.
  unfold byte_val, byte_of_Z.
  pose proof (Z.mod_pos_bound z 256 ltac:(lia)) as Hr.
  destruct (Byte.of_N (Z.to_N (z mod 256))) as [b|] eqn:E.
  - apply Byte.to_of_N in E. rewrite E. lia.
  - apply Byte.of_N_None_iff in E. lia.
Qed.

Lemma byte_of_Z_val (b : byte) : byte_of_Z (byte_val b) = b.
Proof.
  unfold byte_of_Z. pose proof (byte_val_range b) as Hr.
  rewrite Z.mod_small by exact Hr. unfold byte_val.
  rewrite N2Z.id, Byte.of_to_N. reflexivity.
Qed.

Lemma u32_bytes (w : Z) :
  w mod 256 + 2 ^ 8 * ((w / 2 ^ 8) mod 256) + 2 ^ 16 * ((w / 2 ^ 16) mod 256)
  + 2 ^ 24 * ((w / 2 ^ 24) mod 256) = u32 w.
Proof.
  unfold u32.
  change (2 ^ 32) with (256 * (256 * (256 * 256))).
  rewrite (Z.rem_mul_r w 256 (256 * (256 * 256))) by lia.
  rewrite (Z.rem_mul_r (w / 256) 256 (256 * 256)) by lia.
  rewrite (Z.rem_mul_r (w / 256 / 256) 256 256) by lia.
  rewrite !Z.div_div by lia.
  change (2 ^ 8) with 256. change (2 ^ 16) with (256 * 256).
  change (2 ^ 24) with (256 * 256 * 256). lia.
Qed.

Lemma nth_words_bytes (ws : list Z) :
  forall i r, (i < List.length ws)%nat -> (r < 4)%nat ->
    nth (4 * i + r) (words_bytes ws) x00 = nth r (word_bytes (nth i ws 0)) x00.
Proof.
  induction ws as [|w t IH]; intros i r Hi Hr; simpl in Hi; [lia|].
  unfold words_bytes. cbn [flat_map]. fold (words_bytes t).
  destruct i as [|i].
  - cbn [nth Nat.mul Nat.add]. rewrite app_nth1; [reflexivity|].
    cbn. lia.
  - rewrite app_nth2 by (cbn; lia).
    replace (4 * S i + r - List.length (word_bytes w))%nat with (4 * i + r)%nat
      by (cbn; lia).
    cbn [nth]. apply IH; lia.
Qed.

Lemma words_bytes_length (ws : list Z) :
  List.length (words_bytes ws) = (4 * List.length ws)%nat.
Proof.
  unfold words_bytes.
  rewrite (flat_map_constant_length (c := 4)); [lia|]. reflexivity.
Qed.

Lemma word_at_words_bytes (ws : list Z) (i : nat) :
  (i < List.length ws)%nat -> word_at (words_bytes ws) i = u32 (nth i ws 0).
Proof.
  intros Hi. unfold word_at.
  replace (4 * i)%nat with (4 * i + 0)%nat at 1 by lia.
  rewrite !nth_words_bytes by lia.
  cbn [word_bytes nth]. rewrite !byte_val_of_Z. apply u32_bytes.
Qed.

Lemma word_at_range (d : list byte) (i : nat) : is_word (word_at d i).
Proof.
  unfold is_word, word_at.
  pose proof (byte_val_range (nth (4 * i) d x00)).
  pose proof (byte_val_range (nth (4 * i + 1) d x00)).
  pose proof (byte_val_range (nth (4 * i + 2) d x00)).
  pose proof (byte_val_range (nth (4 * i + 3) d x00)).
  lia.
Qed.

Lemma word_bytes_word_at (d : list byte) (i r : nat) :
  (r < 4)%nat ->
  nth r (word_bytes (word_at d i)) x00 = nth (4 * i + r) d x00.
Proof.
  intros Hr. unfold word_at.
  pose proof (byte_val_range (nth (4 * i) d x00)) as H0.
  pose proof (byte_val_range (nth (4 * i + 1) d x00)) as H1.
  pose proof (byte_val_range (nth (4 * i + 2) d x00)) as H2.
  pose proof (byte_val_range (nth (4 * i + 3) d x00)) as H3.
  set (b0 := byte_val (nth (4 * i) d x00)) in *.
  set (b1 := byte_val (nth (4 * i + 1) d x00)) in *.
  set (b2 := byte_val (nth (4 * i + 2) d x00)) in *.
  set (b3 := byte_val (nth (4 * i + 3) d x00)) in *.
  set (w := b0 + 2 ^ 8 * b1 + 2 ^ 16 * b2 + 2 ^ 24 * b3).
  assert (E0 : w mod 256 = b0).
  { subst w. change (2 ^ 8) with 256. change (2 ^ 16) with (256 * 256).
    change (2 ^ 24) with (256 * 256 * 256).
    replace (b0 + 256 * b1 + 256 * 256 * b2 + 256 * 256 * 256 * b3)
      with (b0 + (b1 + 256 * b2 + 256 * 256 * b3) * 256) by lia.
    rewrite Z.mod_add by lia. apply Z.mod_small. lia. }
  assert (E1 : (w / 2 ^ 8) mod 256 = b1).
  { subst w. change (2 ^ 8) with 256. change (2 ^ 16) with (256 * 256).
    change (2 ^ 24) with (256 * 256 * 256).
    replace (b0 + 256 * b1 + 256 * 256 * b2 + 256 * 256 * 256 * b3)
      with (b0 + (b1 + (b2 + 256 * b3) * 256) * 256) by lia.
    rewrite Z.div_add by lia. rewrite (Z.div_small b0) by lia.
    rewrite Z.add_0_l, Z.mod_add by lia. apply Z.mod_small. lia. }
  assert (E2 : (w / 2 ^ 16) mod 256 = b2).
  { subst w. change (2 ^ 8) with 256. change (2 ^ 16) with (256 * 256).
    change (2 ^ 24) with (256 * 256 * 256).
    replace (b0 + 256 * b1 + 256 * 256 * b2 + 256 * 256 * 256 * b3)
      with (b0 + 256 * b1 + (b2 + b3 * 256) * (256 * 256)) by lia.
    rewrite Z.div_add by lia. rewrite (Z.div_small (b0 + 256 * b1)) by lia.
    rewrite Z.add_0_l, Z.mod_add by lia. apply Z.mod_small. lia. }
  assert (E3 : (w / 2 ^ 24) mod 256 = b3).
  { subst w. change (2 ^ 8) with 256. change (2 ^ 16) with (256 * 256).
    change (2 ^ 24) with (256 * 256 * 256).
    replace (b0 + 256 * b1 + 256 * 256 * b2 + 256 * 256 * 256 * b3)
      with (b0 + 256 * b1 + 256 * 256 * b2 + b3 * (256 * 256 * 256)) by lia.
    rewrite Z.div_add by lia.
    rewrite (Z.div_small (b0 + 256 * b1 + 256 * 256 * b2)) by lia.
    rewrite Z.add_0_l. apply Z.mod_small. lia. }
  unfold word_bytes.
  assert (Hb : forall z b, z mod 256 = byte_val b -> byte_of_Z z = b).
  { intros z b Hz. rewrite <- (byte_of_Z_val b). unfold byte_of_Z.
    rewrite Hz. rewrite Z.mod_small by apply byte_val_range. reflexivity. }
  destruct r as [|[|[|[|r]]]]; [| | | |lia]; cbn [nth].
  - rewrite Nat.add_0_r. apply Hb. exact E0.
  - apply Hb. exact E1.
  - apply Hb. exact E2.
  - apply Hb. exact E3.
Qed.

(** The words of a buffer of [4 * n] bytes, laid out again, are the
    buffer. *)
Lemma words_bytes_words_of (d : list byte) (n : nat) :
  List.length d = (4 * n)%nat -> words_bytes (words_of d n) = d.
Proof.
  intros Hlen. apply (nth_ext _ _ x00 x00).
  - rewrite words_bytes_length. unfold words_of.
    rewrite length_map, length_seq. lia.
  - intros k Hk. rewrite words_bytes_length in Hk. unfold words_of in *.
    rewrite length_map, length_seq in Hk.
    assert (Hq : (k = 4 * (k / 4) + k mod 4)%nat) by (apply Nat.div_mod_eq).
    assert (Hr : (k mod 4 < 4)%nat) by (apply Nat.mod_upper_bound; lia).
    assert (Hi : (k / 4 < n)%nat) by (apply Nat.Div0.div_lt_upper_bound; lia).
    rewrite Hq at 1. rewrite nth_words_bytes;
      [|rewrite length_map, length_seq; exact Hi | exact Hr].
    rewrite (nth_indep _ 0 (word_at d 0))
      by (rewrite length_map, length_seq; exact Hi).
    rewrite (map_nth (word_at d) (seq 0 n) O), seq_nth by exact Hi.
    cbn [Nat.add]. rewrite word_bytes_word_at by exact Hr.
    rewrite <- Hq. reflexivity.
Qed.

(** The words of a laid-out list of 32-bit values are the list. *)
Lemma words_of_words_bytes (ws : list Z) :
  Forall is_word ws ->
  map (word_at (words_bytes ws)) (seq 0 (List.length ws)) = ws.
Proof.
  intros Hw. apply (nth_ext _ _ 0 0).
  - rewrite length_map, length_seq. reflexivity.
  - intros k Hk. rewrite length_map, length_seq in Hk.
    rewrite (nth_indep _ 0 (word_at (words_bytes ws) 0))
      by (rewrite length_map, length_seq; exact Hk).
    rewrite (map_nth (word_at (words_bytes ws)) (seq 0 (List.length ws)) O).
    rewrite seq_nth by exact Hk. cbn [Nat.add].
    rewrite word_at_words_bytes by exact Hk.
    apply u32_small. rewrite Forall_forall in Hw. apply Hw, nth_In, Hk.
Qed.

Lemma s32_u32 (x : Z) : - 2 ^ 31 <= x < 2 ^ 31 -> s32 (u32 x) = x.
Proof.
  intros H. unfold s32, u32.
  change (2 ^ 32) with 4294967296 in *. change (2 ^ 31) with 2147483648 in *.
  Z.div_mod_to_equations. lia.
Qed.

Lemma u32_s32 (w : Z) : is_word w -> u32 (s32 w) = w.
Proof.
  unfold is_word. intros H. unfold s32, u32.
  change (2 ^ 32) with 4294967296 in *. change (2 ^ 31) with 2147483648 in *.
  Z.div_mod_to_equations. lia.
Qed.

Lemma app_eq_length {A : Type} (l1 l1' l2 l2' : list A) :
  List.length l1 = List.length l1' -> l1 ++ l2 = l1' ++ l2' ->
  l1 = l1' /\ l2 = l2'.
Proof.
  revert l1'. induction l1 as [|a l1 IH]; intros [|b l1'] Hlen H;
    simpl in *; try discriminate; auto.
  injection H as -> H. destruct (IH l1' ltac:(lia) H) as [-> ->]. auto.
Qed.

Lemma inode_disk_words_length (d : inode_disk) :
  List.length (blocks d) = 12%nat -> List.length (unused d) = 105%nat ->
  List.length (inode_disk_words d) = 128%nat.
Proof.
  intros Hb Hu. unfold inode_disk_words. rewrite !length_app, Hb, Hu.
  reflexivity.
Qed.

Lemma sector_of_inode_disk_length (d : inode_disk) :
  List.length (sector_of_inode_disk d) = Z.to_nat BLOCK_SECTOR_SIZE.
Proof. apply sector_of_length. Qed.

(** An on-disk inode that fits its sector is read back from the sector
    it is written to. *)
Lemma inode_disk_decode_encode (d : inode_disk) :
  inode_disk_ok d -> inode_disk_of_sector (sector_of_inode_disk d) = d.
Proof.
  intros [Hbl [Hbw [H1 [H2 [H3 [H4 [H5 [H6 [H7 [Hlen [H8 [H9 [H10 [Hul Huw]]]]]]]]]]]]]].
  pose proof (inode_disk_words_length d Hbl Hul) as HW.
  assert (Hwords : Forall is_word (inode_disk_words d)).
  { unfold inode_disk_words. apply Forall_app. split; [exact Hbw|].
    apply Forall_app. split; [|exact Huw].
    repeat (apply Forall_cons; [try assumption|]); [|constructor].
    unfold is_word, u32. apply Z.mod_pos_bound. lia. }
  unfold sector_of_inode_disk.
  rewrite sector_of_idem
    by (rewrite words_bytes_length, HW; reflexivity).
  pose proof (words_of_words_bytes _ Hwords) as E. rewrite HW in E.
  set (B := words_bytes (inode_disk_words d)) in *.
  change (seq 0 128) with (seq 0 12 ++ seq 12 11 ++ seq 23 105) in E.
  rewrite !map_app in E. unfold inode_disk_words in E.
  apply app_eq_length in E; [|rewrite length_map, length_seq; auto].
  destruct E as [Eb E].
  apply app_eq_length in E; [|reflexivity].
  destruct E as [Em Eu].
  cbn [map seq] in Em.
  injection Em as E12 E13 E14 E15 E16 E17 E18 E19 E20 E21 E22.
  unfold inode_disk_of_sector, words_of.
  rewrite Eb, Eu, E12, E13, E14, E15, E16, E17, E18, E19, E20, E21, E22.
  rewrite s32_u32 by exact Hlen. destruct d; reflexivity.
Qed.

(** A sector read as an on-disk inode and written back is the sector. *)
Lemma inode_disk_encode_decode (B : list byte) :
  List.length B = Z.to_nat BLOCK_SECTOR_SIZE ->
  sector_of_inode_disk (inode_disk_of_sector B) = B.
Proof.
  intros Hlen. unfold sector_of_inode_disk.
  assert (E : inode_disk_words (inode_disk_of_sector B) = words_of B 128).
  { unfold inode_disk_words, inode_disk_of_sector, words_of.
    cbn [blocks direct_usage indirect_used indirect_block_usage double_used
         double_l1_usage double_l2_usage sector_usage length magic is_dir
         parent unused].
    rewrite u32_s32 by apply word_at_range.
    change (seq 0 128) with (seq 0 12 ++ seq 12 11 ++ seq 23 105).
    rewrite !map_app. reflexivity. }
  rewrite E, words_bytes_words_of by (rewrite Hlen; reflexivity).
  apply sector_of_idem, Hlen.
Qed.

Lemma inode_disk_of_sector_ok (B : list byte) :
  inode_disk_ok (inode_disk_of_sector B).
Proof.
  unfold inode_disk_ok, inode_disk_of_sector, words_of.
  cbn [blocks direct_usage indirect_used indirect_block_usage double_used
       double_l1_usage double_l2_usage sector_usage length magic is_dir
       parent unused].
  assert (Hall : forall l, Forall is_word (map (word_at B) l)).
  { intros l. apply Forall_map, Forall_forall. intros i _. apply word_at_range. }
  repeat split; try apply word_at_range; try apply Hall;
    try (rewrite length_map, length_seq; reflexivity).
  - unfold s32. change (2 ^ 32) with 4294967296. change (2 ^ 31) with 2147483648.
    Z.div_mod_to_equations. lia.
  - unfold s32. change (2 ^ 32) with 4294967296. change (2 ^ 31) with 2147483648.
    Z.div_mod_to_equations. lia.
Qed.


(** ** What [inode_open] makes of a sector *)
(** C10.  [inode_open] does not look at the magic number.  For any sector
    that is not open, when the allocation succeeds and the cache is ready
    to serve the read, it returns a new in-memory inode, open once, not
    removed and with writes allowed, whose data are the sector's bytes as
    the cache presents them, whatever they are: word [k] of the sector,
    its bytes [4k .. 4k+3] in little-endian order, is the field at that
    place of [struct inode_disk] (the twelve block pointers, the seven
    counters, the length as a signed number, the magic number from the
    bytes 80 to 83, the directory flag, the parent and the 105 unused
    words), so that the data, written out again as a sector, are the
    bytes that were read. *)
Theorem inode_open_ignores_magic (s : state) (sec : Z) :
  single_instance s ->
  (forall b, sector_at s b <> Some sec) ->
  malloc_fails s (malloc_calls s) = false ->
  cache_ready s fs_device sec ->
  exists a s' d,
    inode_open sec s = Done (Some a) s' /\
    heap s' a = Some (mk_inode sec 1 false 0 d) /\
    open_inodes s' = a :: open_inodes s /\
    d = inode_disk_of_sector (sector_view s fs_device sec) /\
    blocks d = map (word_at (sector_view s fs_device sec)) (seq 0 12) /\
    [direct_usage d; indirect_used d; indirect_block_usage d; double_used d;
     double_l1_usage d; double_l2_usage d; sector_usage d] =
      map (word_at (sector_view s fs_device sec)) (seq 12 7) /\
    length d = s32 (word_at (sector_view s fs_device sec) 19) /\
    magic d =
      byte_val (nth 80 (sector_view s fs_device sec) x00)
      + 2 ^ 8 * byte_val (nth 81 (sector_view s fs_device sec) x00)
      + 2 ^ 16 * byte_val (nth 82 (sector_view s fs_device sec) x00)
      + 2 ^ 24 * byte_val (nth 83 (sector_view s fs_device sec) x00) /\
    is_dir d = word_at (sector_view s fs_device sec) 21 /\
    parent d = word_at (sector_view s fs_device sec) 22 /\
    unused d = map (word_at (sector_view s fs_device sec)) (seq 23 105) /\
    (List.length (sector_view s fs_device sec) = Z.to_nat BLOCK_SECTOR_SIZE ->
     sector_of_inode_disk d = sector_view s fs_device sec).
Proof.
  intros Hs Hnew Hm Hready. pose proof Hs as [Hnd [Hdom _]].
  unfold inode_open. unfold bind at 1. unfold get. unfold bind at 1.
  destruct (find_open_total (open_inodes s) sec s) as [r Hr].
  { intros b Hb. apply Hdom, Hb. }
  rewrite Hr. destruct (find_open_done _ _ _ _ _ Hr) as [_ Hfound].
  destruct r as [b|].
  { exfalso. destruct Hfound as [_ Hb]. exact (Hnew b Hb). }
  unfold bind at 1. unfold malloc. rewrite Hm.
  unfold bind at 1. unfold modify.
  match goal with
  | |- exists a s' d, bind (cache_read _ _) _ ?st = _ /\ _ =>
      destruct (cache_read_run st fs_device sec Hready) as [s1 Hread];
        pose proof (quiet_cache_read _ _ _ _ _ Hread) as [Hh [Hl _]]
  end.
  unfold bind at 1. rewrite Hread.
  eexists. eexists. eexists. split; [reflexivity|]. cbn [heap set_heap].
  rewrite Z.eqb_refl. split; [reflexivity|]. split; [exact Hl|].
  split; [reflexivity|].
  repeat (split; [reflexivity|]).
  apply inode_disk_encode_decode.
Qed.

Lemma scribbled_single_instance : single_instance scribbled.
Proof.
  exact booted_single_instance.
Qed.

Lemma scribbled_cache_ready : cache_ready scribbled fs_device 7.
Proof.
  split; [reflexivity|]. split; [exact booted_all_free|].
  split; [|split; [split; [reflexivity | vm_compute; split; discriminate]
                  | reflexivity]].
  right. unfold evictable. apply Exists_cons_hd. left. reflexivity.
Qed.

(** Sector 7 of [scribbled] holds the bytes 0, 1, 2, ... and so no inode:
    its magic number would be 0x53525150.  It is opened all the same, as
    a file of 0x4f4e4d4c bytes. *)
Lemma inode_open_ignores_magic_witness :
  magic (inode_disk_of_sector (sector_view scribbled fs_device 7))
    = 0x53525150 /\
  0x53525150 <> INODE_MAGIC /\
  length (inode_disk_of_sector (sector_view scribbled fs_device 7))
    = 0x4f4e4d4c /\
  exists a s' d,
    inode_open 7 scribbled = Done (Some a) s' /\
    heap s' a = Some (mk_inode 7 1 false 0 d) /\
    open_inodes s' = a :: open_inodes scribbled /\
    d = inode_disk_of_sector (sector_view scribbled fs_device 7) /\
    blocks d = map (word_at (sector_view scribbled fs_device 7)) (seq 0 12) /\
    [direct_usage d; indirect_used d; indirect_block_usage d; double_used d;
     double_l1_usage d; double_l2_usage d; sector_usage d] =
      map (word_at (sector_view scribbled fs_device 7)) (seq 12 7) /\
    length d = s32 (word_at (sector_view scribbled fs_device 7) 19) /\
    magic d =
      byte_val (nth 80 (sector_view scribbled fs_device 7) x00)
      + 2 ^ 8 * byte_val (nth 81 (sector_view scribbled fs_device 7) x00)
      + 2 ^ 16 * byte_val (nth 82 (sector_view scribbled fs_device 7) x00)
      + 2 ^ 24 * byte_val (nth 83 (sector_view scribbled fs_device 7) x00) /\
    is_dir d = word_at (sector_view scribbled fs_device 7) 21 /\
    parent d = word_at (sector_view scribbled fs_device 7) 22 /\
    unused d = map (word_at (sector_view scribbled fs_device 7)) (seq 23 105) /\
    (List.length (sector_view scribbled fs_device 7)
       = Z.to_nat BLOCK_SECTOR_SIZE ->
     sector_of_inode_disk d = sector_view scribbled fs_device 7).
Proof.
  split; [vm_compute; reflexivity|]. split; [discriminate|].
  split; [vm_compute; reflexivity|].
  apply (inode_open_ignores_magic scribbled 7).
  - exact scribbled_single_instance.
  - intros b. discriminate.
  - reflexivity.
  - exact scribbled_cache_ready.
Defined.

(** ** The inode layer over a coherent cache *)

Lemma keeps_rest_cache_write (dev sec : Z) (buf : list byte) :
  keeps rest_of (cache_write dev sec buf).
Proof. apply keeps_cache_write; reflexivity. Qed.

Lemma keeps_rest_cache_read (dev sec : Z) : keeps rest_of (cache_read dev sec).
Proof.
  unfold cache_read.
  apply keeps_bind; [apply keeps_find_cacheline; reflexivity | intros found].
  apply keeps_bind;
    [destruct found; [apply keeps_ret | apply keeps_load_line; reflexivity]
    | intros i].
  apply keeps_bind; [apply keeps_get_line | intros l].
  apply keeps_bind; [apply keeps_timer_ticks; reflexivity | intros t].
  apply keeps_bind; [apply keeps_upd_line; reflexivity | intros _].
  apply keeps_bind; [apply keeps_sema_up; reflexivity | intros _].
  apply keeps_bind; [|intros _; apply keeps_ret].
  intros s r s' H. unfold put_read_ahead_buffer, bind, get, modify in H.
  destruct (_ =? _); [discriminate|]. injection H as _ <-. reflexivity.
Qed.

(** [cache_write] in full: it returns, and what it leaves behind. *)
Lemma cache_write_total (s : state) (dev sec : Z) (buf : list byte) :
  cache_inv s ->
  cached s dev sec <> None \/ evictable s ->
  exists s',
    cache_write dev sec buf s = Done tt s' /\
    cache_inv s' /\
    buffer_of s' = buffer_of s /\
    rest_of s' = rest_of s /\
    cached s' dev sec <> None /\
    forall dev' sec',
      sector_view s' dev' sec' =
      if (dev' =? dev) && (sec' =? sec) then sector_of buf
      else sector_view s dev' sec'.
Proof.
  intros Hinv Hserve.
  destruct (cache_write_view s dev sec buf Hinv Hserve)
    as [s' [Hrun [Hinv' [Hb [_ [Hc Hview]]]]]].
  exists s'. split; [exact Hrun|]. split; [exact Hinv'|].
  split; [exact Hb|]. split; [|split; assumption].
  exact (keeps_rest_cache_write dev sec buf s tt s' Hrun).
Qed.

(** [cache_read] in full. *)
Lemma cache_read_total (s : state) (dev sec : Z) :
  cache_inv s ->
  cached s dev sec <> None \/ evictable s ->
  read_head_buffer_n s <> READ_AHEAD_BUFFER_SIZE ->
  exists s',
    cache_read dev sec s = Done (sector_view s dev sec) s' /\
    cache_inv s' /\
    read_head_buffer_n s' = u32 (read_head_buffer_n s + 1) /\
    rest_of s' = rest_of s /\
    cached s' dev sec <> None /\
    forall dev' sec', sector_view s' dev' sec' = sector_view s dev' sec'.
Proof.
  intros Hinv Hserve Hroom.
  destruct (cache_read_view s dev sec Hinv Hserve)
    as [s1 [Hrun [Hinv1 [Hb [Hio [Hc Hview]]]]]].
  unfold buffer_of in Hb. injection Hb as Hb1 Hb2.
  assert (Hput := put_read_ahead_buffer_exact dev (u32 (sec + 1)) s1
                    ltac:(rewrite Hb2; exact Hroom)).
  pose proof Hrun as Hrun'.
  rewrite (bind_Done _ _ _ _ _ Hput) in Hrun'. unfold ret in Hrun'.
  eexists. split; [exact Hrun'|].
  split; [apply (cache_inv_ext s1); auto|].
  split; [cbn; rewrite Hb2; reflexivity|].
  split; [exact (keeps_rest_cache_read dev sec s _ _ Hrun')|].
  split; [exact Hc|].
  intros dev' sec'. rewrite <- Hview. apply sector_view_ext; reflexivity.
Qed.

Lemma sector_view_length (s : state) (dev sec : Z) :
  cache_inv s ->
  List.length (sector_view s dev sec) = Z.to_nat BLOCK_SECTOR_SIZE.
Proof.
  intros Hinv. pose proof Hinv as [_ [_ [H512 _]]].
  unfold sector_view. destruct (cached s dev sec) as [i|] eqn:E.
  - destruct (cached_line _ _ _ _ E) as [l [Hl _]].
    rewrite (nth_error_nth _ _ empty_line Hl).
    rewrite Forall_forall in H512. apply H512. eapply nth_error_In; eauto.
  - apply sector_of_length.
Qed.

Lemma empty_inode_disk_ok (isdir : bool) : inode_disk_ok (empty_inode_disk isdir).
Proof.
  unfold inode_disk_ok, empty_inode_disk, is_word.
  cbn [blocks direct_usage indirect_used indirect_block_usage double_used
       double_l1_usage double_l2_usage sector_usage length magic is_dir
       parent unused].
  assert (Hz : forall n, Forall (fun w => 0 <= w < 2 ^ 32) (repeat 0 n)).
  { intros n. apply Forall_forall. intros x Hx. apply repeat_spec in Hx.
    subst. lia. }
  repeat split; try apply Hz; try apply repeat_length; try lia;
    try (destruct isdir; lia);
    try (unfold INODE_MAGIC; lia); try (unfold ROOT_DIR_SECTOR; lia).
Qed.

Lemma find_open_fresh (s : state) (sec : Z) :
  single_instance s -> (forall b, sector_at s b <> Some sec) ->
  find_open (open_inodes s) sec s = Done None s.
Proof.
  intros [_ [Hdom _]] Hnew.
  destruct (find_open_total (open_inodes s) sec s) as [r Hr].
  { intros b Hb. apply Hdom, Hb. }
  destruct (find_open_done _ _ _ _ _ Hr) as [_ Hfound].
  destruct r as [b|]; [|exact Hr].
  exfalso. destruct Hfound as [_ Hb]. exact (Hnew b Hb).
Qed.

Lemma rest_of_eq (s s' : state) :
  rest_of s' = rest_of s ->
  free_map s' = free_map s /\ malloc_fails s' = malloc_fails s /\
  malloc_calls s' = malloc_calls s /\ heap s' = heap s /\
  open_inodes s' = open_inodes s /\ junk s' = junk s /\
  dev_size s' = dev_size s.
Proof. unfold rest_of. intros H. injection H as -> -> -> -> -> -> ->. auto 10. Qed.

Lemma evictable_ext (s s' : state) :
  cache s' = cache s -> clock s' = clock s -> clock_reads s' = clock_reads s ->
  evictable s -> evictable s'.
Proof. unfold evictable. intros -> -> ->. auto. Qed.

Lemma cached_ext (s s' : state) (dev sec : Z) :
  cache s' = cache s -> cached s' dev sec = cached s dev sec.
Proof. unfold cached. intros ->. reflexivity. Qed.

Lemma single_instance_ext (s s' : state) :
  heap s' = heap s -> open_inodes s' = open_inodes s ->
  (malloc_calls s <= malloc_calls s')%nat ->
  single_instance s -> single_instance s'.
Proof.
  intros Hh Ho Hm [Hnd [Hdom [Huniq Hbound]]]. unfold single_instance, sector_at.
  rewrite Hh, Ho. repeat split; auto; try apply Hdom.
  intros a Ha. specialize (Hbound a Ha). lia.
Qed.

(** X10.  An empty file or directory created in a sector that is not
    open, and then opened: both calls succeed when the allocator does,
    and the inode opened is the one created, of length 0, with the
    directory flag asked for, the root directory as its parent and the
    magic number; no sector is taken from the free map. *)
Theorem inode_create_then_open (s : state) (sec : Z) (isdir : bool) :
  cache_inv s -> single_instance s ->
  (forall b, sector_at s b <> Some sec) ->
  malloc_fails s (malloc_calls s) = false ->
  malloc_fails s (S (malloc_calls s)) = false ->
  cached s fs_device sec <> None \/ evictable s ->
  read_head_buffer_n s <> READ_AHEAD_BUFFER_SIZE ->
  exists a s1 s2,
    inode_create sec 0 isdir s = Done true s1 /\
    inode_open sec s1 = Done (Some a) s2 /\
    heap s2 a = Some (mk_inode sec 1 false 0 (empty_inode_disk isdir)) /\
    (forall b, b <> a -> heap s2 b = heap s b) /\
    open_inodes s2 = a :: open_inodes s /\
    free_map s2 = free_map s /\
    sector_view s2 fs_device sec = sector_of_inode_disk (empty_inode_disk isdir).
Proof.
  intros Hinv Hsingle Hnew Hm1 Hm2 Hserve Hroom.
  (* inode_create *)
  set (sm := set_malloc_calls (S (malloc_calls s)) s).
  assert (Hinvm : cache_inv sm) by (apply (cache_inv_ext s); auto).
  assert (Hservem : cached sm fs_device sec <> None \/ evictable sm).
  { destruct Hserve as [H|H]; [left; exact H | right; exact H]. }
  destruct (cache_write_total sm fs_device sec
              (sector_of_inode_disk (empty_inode_disk isdir)) Hinvm Hservem)
    as [s1 [Hw [Hinv1 [Hb1 [Hr1 [Hc1 Hv1]]]]]].
  apply rest_of_eq in Hr1.
  destruct Hr1 as [Hfm1 [Hmf1 [Hmc1 [Hh1 [Ho1 [_ _]]]]]].
  cbn in Hfm1, Hmf1, Hmc1, Hh1, Ho1.
  assert (Hcreate : inode_create sec 0 isdir s = Done true s1).
  { unfold inode_create. cbn [Z.ltb Z.compare].
    unfold bind at 1. unfold malloc. rewrite Hm1. fold sm.
    unfold bind at 1.
    change (inode_disk_grow _ sm) with (Done (empty_inode_disk isdir) sm).
    unfold bind at 1. rewrite Hw. reflexivity. }
  (* inode_open *)
  assert (Hsingle1 : single_instance s1).
  { apply (single_instance_ext s); auto. rewrite Hmc1. lia. }
  assert (Hnew1 : forall b, sector_at s1 b <> Some sec).
  { intros b. unfold sector_at. rewrite Hh1. apply Hnew. }
  set (a := Z.of_nat (malloc_calls s1) + 1).
  set (so := set_open_inodes (a :: open_inodes s1)
               (set_malloc_calls (S (malloc_calls s1)) s1)).
  assert (Hinvo : cache_inv so) by (apply (cache_inv_ext s1); auto).
  assert (Hroomo : read_head_buffer_n so <> READ_AHEAD_BUFFER_SIZE).
  { unfold buffer_of in Hb1. injection Hb1 as _ Hn. cbn. rewrite Hn. exact Hroom. }
  destruct (cache_read_total so fs_device sec Hinvo (or_introl Hc1) Hroomo)
    as [s2 [Hrd [Hinv2 [Hn2 [Hr2 [Hc2 Hv2]]]]]].
  apply rest_of_eq in Hr2.
  destruct Hr2 as [Hfm2 [Hmf2 [Hmc2 [Hh2 [Ho2 [_ _]]]]]].
  cbn in Hfm2, Hmf2, Hmc2, Hh2, Ho2.
  assert (Hview : sector_view so fs_device sec =
                  sector_of_inode_disk (empty_inode_disk isdir)).
  { rewrite (sector_view_ext s1 so) by reflexivity.
    rewrite Hv1, !Z.eqb_refl. cbn [andb].
    apply sector_of_idem, sector_of_inode_disk_length. }
  exists a, s1. eexists. split; [exact Hcreate|]. split.
  { unfold inode_open. unfold bind at 1, get.
    rewrite (bind_Done _ _ _ _ _ (find_open_fresh s1 sec Hsingle1 Hnew1)).
    assert (Hm2' : malloc_fails s1 (malloc_calls s1) = false)
      by (rewrite Hmf1, Hmc1; exact Hm2).
    unfold bind at 1. unfold malloc. rewrite Hm2'.
    unfold bind at 1, modify.
    change (set_open_inodes _ _) with so.
    rewrite (bind_Done _ _ _ _ _ Hrd).
    unfold bind, store, modify, ret. rewrite Hview.
    rewrite inode_disk_decode_encode by apply empty_inode_disk_ok.
    reflexivity. }
  cbn. fold a. rewrite Z.eqb_refl. split; [reflexivity|].
  split.
  { intros b Hb. destruct (Z.eqb_spec b a); [contradiction|].
    rewrite Hh2, Hh1. reflexivity. }
  split; [rewrite Ho2, Ho1; reflexivity|].
  split; [rewrite Hfm2, Hfm1; reflexivity|].
  rewrite (sector_view_ext s2) by reflexivity. rewrite Hv2. exact Hview.
Qed.

Lemma inode_create_then_open_witness :
  exists a s1 s2,
    inode_create 3 0 true booted = Done true s1 /\
    inode_open 3 s1 = Done (Some a) s2 /\
    heap s2 a = Some (mk_inode 3 1 false 0 (empty_inode_disk true)) /\
    (forall b, b <> a -> heap s2 b = heap booted b) /\
    open_inodes s2 = a :: open_inodes booted /\
    free_map s2 = free_map booted /\
    sector_view s2 fs_device 3 = sector_of_inode_disk (empty_inode_disk true).
Proof.
  apply inode_create_then_open.
  - exact booted_inv.
  - exact booted_single_instance.
  - intros b. discriminate.
  - reflexivity.
  - reflexivity.
  - right. exact booted_evictable.
  - discriminate.
Defined.

Lemma fresh_address (s : state) :
  single_instance s -> heap s (Z.of_nat (malloc_calls s) + 1) = None.
Proof.
  intros [_ [Hdom [_ Hbound]]].
  destruct (heap s (Z.of_nat (malloc_calls s) + 1)) eqn:E; [|reflexivity].
  assert (Hin : In (Z.of_nat (malloc_calls s) + 1) (open_inodes s))
    by (apply Hdom; congruence).
  specialize (Hbound _ Hin). lia.
Qed.

Lemma with_parent_ok (p : Z) (d : inode_disk) :
  is_word p -> inode_disk_ok d -> inode_disk_ok (with_parent p d).
Proof.
  unfold inode_disk_ok, with_parent.
  cbn [blocks direct_usage indirect_used indirect_block_usage double_used
       double_l1_usage double_l2_usage sector_usage length magic is_dir
       parent unused].
  intros Hp H. repeat split; try apply H. all: apply Hp.
Qed.

(** X11.  [inode_set_parent] on a child that is not open, with a
    coherent cache that can serve the child's sector: it returns true;
    the inode it opened is closed and freed again, so the open inodes
    and the heap are as before and no sector is allocated or released;
    the child's sector now holds the inode it held with the parent field
    replaced, and every other sector shows what it showed. *)
Theorem inode_set_parent_updates_sector (s : state) (parent_sec child : Z) :
  cache_inv s -> single_instance s ->
  (forall b, sector_at s b <> Some child) ->
  malloc_fails s (malloc_calls s) = false ->
  cached s fs_device child <> None \/ evictable s ->
  read_head_buffer_n s <> READ_AHEAD_BUFFER_SIZE ->
  is_word parent_sec ->
  exists s',
    inode_set_parent parent_sec child s = Done true s' /\
    cache_inv s' /\
    open_inodes s' = open_inodes s /\
    (forall a, heap s' a = heap s a) /\
    free_map s' = free_map s /\
    inode_disk_of_sector (sector_view s' fs_device child) =
      with_parent parent_sec
        (inode_disk_of_sector (sector_view s fs_device child)) /\
    (forall dev sec, (dev =? fs_device) && (sec =? child) = false ->
                     sector_view s' dev sec = sector_view s dev sec).
Proof.
  intros Hinv Hsingle Hnew Hm Hserve Hroom Hp.
  set (a := Z.of_nat (malloc_calls s) + 1).
  set (so := set_open_inodes (a :: open_inodes s)
               (set_malloc_calls (S (malloc_calls s)) s)).
  assert (Hinvo : cache_inv so) by (apply (cache_inv_ext s); auto).
  assert (Hserveo : cached so fs_device child <> None \/ evictable so).
  { destruct Hserve as [H|H]; [left; exact H | right; exact H]. }
  destruct (cache_read_total so fs_device child Hinvo Hserveo Hroom)
    as [s2 [Hrd [Hinv2 [Hn2 [Hr2 [Hc2 Hv2]]]]]].
  apply rest_of_eq in Hr2.
  destruct Hr2 as [Hfm2 [Hmf2 [Hmc2 [Hh2 [Ho2 [_ _]]]]]].
  change (free_map so) with (free_map s) in Hfm2.
  change (heap so) with (heap s) in Hh2.
  change (open_inodes so) with (a :: open_inodes s) in Ho2.
  set (d := inode_disk_of_sector (sector_view s fs_device child)).
  assert (Hd : inode_disk_of_sector (sector_view so fs_device child) = d)
    by reflexivity.
  set (i1 := mk_inode child 0 false 0 (with_parent parent_sec d)).
  (* the state in which the inode is written back *)
  set (h6 := fun q => if q =? a then Some i1
                      else if q =? a then
                        Some (mk_inode child 1 false 0 (with_parent parent_sec d))
                      else if q =? a then Some (mk_inode child 1 false 0 d)
                      else heap s2 q).
  set (s6 := set_open_inodes (open_inodes s) (set_heap h6 s2)).
  assert (Hinv6 : cache_inv s6) by (apply (cache_inv_ext s2); auto).
  assert (Hc6 : cached s6 fs_device child <> None) by exact Hc2.
  destruct (cache_write_total s6 fs_device child
              (sector_of_inode_disk (with_parent parent_sec d)) Hinv6
              (or_introl Hc6))
    as [s7 [Hw [Hinv7 [Hb7 [Hr7 [Hc7 Hv7]]]]]].
  apply rest_of_eq in Hr7.
  destruct Hr7 as [Hfm7 [Hmf7 [Hmc7 [Hh7 [Ho7 [_ _]]]]]].
  change (free_map s6) with (free_map s2) in Hfm7.
  change (heap s6) with h6 in Hh7.
  change (open_inodes s6) with (open_inodes s) in Ho7.
  eexists. split.
  { unfold inode_set_parent, inode_open.
    rewrite !bind_assoc. unfold bind at 1, get.
    rewrite !bind_assoc.
    rewrite (bind_Done _ _ _ _ _ (find_open_fresh s child Hsingle Hnew)).
    rewrite !bind_assoc. unfold bind at 1. unfold malloc. rewrite Hm.
    rewrite !bind_assoc. unfold bind at 1. unfold modify.
    change (set_open_inodes _ _) with so.
    rewrite !bind_assoc.
    rewrite (bind_Done _ _ _ _ _ Hrd). rewrite Hd.
    rewrite !bind_assoc. unfold bind at 1. unfold store, modify.
    rewrite ?bind_assoc. unfold bind at 1. unfold ret.
    rewrite ?bind_assoc. unfold bind at 1. unfold deref.
    cbn [heap set_heap]. rewrite Z.eqb_refl.
    rewrite ?bind_assoc. unfold bind at 1. unfold store, modify.
    unfold inode_close. rewrite ?bind_assoc.
    unfold bind at 1. unfold deref. cbn [heap set_heap]. rewrite Z.eqb_refl.
    cbv zeta. rewrite ?bind_assoc. unfold bind at 1. unfold store, modify.
    cbn [with_open_cnt with_inode_data open_cnt sector removed deny_write_cnt data].
    change (s32 (1 - 1)) with 0. change (0 =? 0) with true. cbv iota.
    rewrite ?bind_assoc. unfold bind at 1. unfold modify.
    cbn [open_inodes set_heap set_open_inodes]. rewrite Ho2.
    cbn [list_remove]. rewrite Z.eqb_refl.
    rewrite ?bind_assoc.
    match goal with
    | |- bind (cache_write _ _ _) _ ?st = _ =>
        change st with s6
    end.
    rewrite (bind_Done _ _ _ _ _ Hw).
    unfold when. rewrite ?bind_assoc. unfold bind at 1, ret.
    unfold bind at 1. unfold free, modify. reflexivity. }
  split; [apply (cache_inv_ext s7); auto|].
  split; [cbn; exact Ho7|].
  split.
  { intros q. cbn [heap set_heap]. fold a. rewrite Hh7. unfold h6.
    destruct (Z.eqb_spec q a) as [->|Hq].
    - symmetry. apply fresh_address, Hsingle.
    - rewrite Hh2. reflexivity. }
  split; [cbn; rewrite Hfm7, Hfm2; reflexivity|].
  split.
  - rewrite (sector_view_ext s7) by reflexivity.
    rewrite Hv7, !Z.eqb_refl. cbn [andb].
    rewrite sector_of_idem by apply sector_of_inode_disk_length.
    apply inode_disk_decode_encode, with_parent_ok; [exact Hp|].
    apply inode_disk_of_sector_ok.
  - intros dev sec Hother.
    rewrite (sector_view_ext s7) by reflexivity.
    rewrite Hv7, Hother.
    rewrite (sector_view_ext s2 s6) by reflexivity.
    rewrite Hv2. apply sector_view_ext; reflexivity.
Qed.

Lemma inode_set_parent_updates_sector_witness :
  exists s',
    inode_set_parent 1 7 booted = Done true s' /\
    cache_inv s' /\
    open_inodes s' = open_inodes booted /\
    (forall a, heap s' a = heap booted a) /\
    free_map s' = free_map booted /\
    inode_disk_of_sector (sector_view s' fs_device 7) =
      with_parent 1 (inode_disk_of_sector (sector_view booted fs_device 7)) /\
    (forall dev sec, (dev =? fs_device) && (sec =? 7) = false ->
                     sector_view s' dev sec = sector_view booted dev sec).
Proof.
  apply inode_set_parent_updates_sector.
  - exact booted_inv.
  - exact booted_single_instance.
  - intros b. discriminate.
  - reflexivity.
  - right. exact booted_evictable.
  - discriminate.
  - unfold is_word. lia.
Defined.

(** *** [free_inode] *)

Lemma bind_Diverge_intro {A B : Type} (m : M A) (k : A -> M B) (s : state) :
  m s = Diverge -> bind m k s = Diverge.
Proof. intros H. unfold bind. rewrite H. reflexivity. Qed.

Lemma words_of_length (d : list byte) (n : nat) :
  List.length (words_of d n) = n.
Proof. unfold words_of. rewrite length_map, length_seq. reflexivity. Qed.

Lemma index_in_range {A : Type} (a : list A) (i : Z) (s : state) :
  0 <= i < Z.of_nat (List.length a) ->
  exists x, index a i s = Done x s.
Proof.
  intros Hi. unfold index.
  destruct (Z.ltb_spec i 0); [lia|].
  destruct (nth_error a (Z.to_nat i)) eqn:E.
  - eexists. reflexivity.
  - apply nth_error_None in E. lia.
Qed.

(** The loop over the entries of one index block frees its [bound - i]
    entries when that many sectors remain. *)
Lemma free_entries_run (arr : list Z) (bound : Z) :
  bound <= Z.of_nat (List.length arr) ->
  forall (k : nat) (i remain : Z) (s : state),
    0 <= i <= bound -> k = Z.to_nat (bound - i) -> bound - i <= remain ->
    exists s', free_entries k i bound arr remain s
               = Done (remain - (bound - i)) s'.
Proof.
  intros Hb. induction k as [|k IH]; intros i remain s Hi Hk Hr.
  - exists s. cbn [free_entries]. unfold ret. f_equal. lia.
  - cbn [free_entries].
    destruct (Z.ltb_spec i bound); [|lia].
    destruct (Z.gtb_spec remain 0); [|lia]. cbn [andb].
    destruct (index_in_range arr i s ltac:(lia)) as [b Hidx].
    rewrite (bind_Done _ _ _ _ _ Hidx).
    unfold bind at 1. unfold free_map_release, modify.
    destruct (IH (i + 1) (remain - 1)
                (set_free_map
                   (if b <? 0 then free_map s
                    else set_nth (Z.to_nat b) false (free_map s)) s))
      as [s' Hs']; try lia.
    exists s'. rewrite Hs'. f_equal. lia.
Qed.

(** The loop over the level-1 entries frees 128 sectors for each. *)
Lemma free_l1_run (l1 : list Z) (bound : Z) :
  bound <= Z.of_nat (List.length l1) ->
  forall (k : nat) (i remain : Z) (s : state),
    0 <= i <= bound -> k = Z.to_nat (bound - i) ->
    128 * (bound - i) <= remain ->
    exists s', free_l1 k i bound l1 remain s
               = Done (remain - 128 * (bound - i)) s'.
Proof.
  intros Hb. induction k as [|k IH]; intros i remain s Hi Hk Hr.
  - exists s. cbn [free_l1]. unfold ret. f_equal. lia.
  - cbn [free_l1].
    destruct (Z.ltb_spec i bound); [|lia].
    destruct (Z.gtb_spec remain 0); [|lia]. cbn [andb].
    destruct (index_in_range l1 i s ltac:(lia)) as [b Hidx].
    rewrite (bind_Done _ _ _ _ _ Hidx).
    unfold bind at 1. unfold read_index_block, bind, block_read, ret.
    match goal with
    | |- context [free_entries 128 0 128 ?arr remain ?st] =>
        destruct (free_entries_run arr 128
                    ltac:(rewrite words_of_length; lia)
                    128%nat 0 remain st ltac:(lia) ltac:(reflexivity)
                    ltac:(lia)) as [s1 Hs1];
        rewrite Hs1
    end.
    unfold free_map_release, modify.
    match goal with
    | |- context [free_l1 k (i + 1) bound l1 ?rm ?st] =>
        destruct (IH (i + 1) rm st) as [s' Hs']; try lia
    end.
    exists s'. rewrite Hs'. f_equal. lia.
Qed.

(** One round of the [while] loop of [free_inode]. *)
Lemma free_loop_round (fuel : nat) (d : inode_disk) (remain : Z) :
  free_loop (S fuel) d remain =
  if remain >? 0 then
    if direct_usage d >? 0 then
      b <- index (blocks d) (direct_usage d - 1) ;;
      free_map_release b ;;
      free_loop fuel (with_direct_usage (u32 (direct_usage d - 1)) d)
        (remain - 1)
    else if indirect_used d =? 1 then
      b10 <- index (blocks d) 10 ;;
      arr <- read_index_block b10 ;;
      remain' <- free_entries (Z.to_nat (indirect_block_usage d))
                   0 (indirect_block_usage d) arr remain ;;
      free_map_release b10 ;;
      free_loop fuel (with_indirect_used 0 d) remain'
    else if double_used d =? 1 then
      b11 <- index (blocks d) 11 ;;
      l1 <- read_index_block b11 ;;
      remain' <- free_l1 (Z.to_nat (double_l1_usage d))
                   0 (double_l1_usage d) l1 remain ;;
      free_map_release b11 ;;
      free_loop fuel (with_double_used 0 d) remain'
    else diverge
  else ret d.
Proof. reflexivity. Qed.

(** The rounds of [free_inode] that release the direct blocks. *)
Lemma free_loop_direct (n : nat) :
  forall (fuel : nat) (d : inode_disk) (remain : Z) (s : state),
    direct_usage d = Z.of_nat n -> (n <= List.length (blocks d))%nat ->
    Z.of_nat n <= remain -> Z.of_nat n < 2 ^ 32 ->
    exists s',
      free_loop (n + fuel) d remain s =
      free_loop fuel (with_direct_usage 0 d) (remain - Z.of_nat n) s'.
Proof.
  induction n as [|n IH]; intros fuel d remain s Hd Hlen Hr Hw.
  - exists s. cbn [Nat.add]. rewrite Z.sub_0_r.
    replace (with_direct_usage 0 d) with d; [reflexivity|].
    destruct d; cbn in *. subst. reflexivity.
  - cbn [Nat.add]. rewrite free_loop_round.
    destruct (Z.gtb_spec remain 0); [|lia].
    destruct (Z.gtb_spec (direct_usage d) 0); [|lia].
    destruct (index_in_range (blocks d) (direct_usage d - 1) s ltac:(lia))
      as [b Hidx].
    rewrite (bind_Done _ _ _ _ _ Hidx).
    unfold bind at 1. unfold free_map_release, modify.
    match goal with
    | |- context [free_loop (n + fuel) ?d1 ?rm ?st] =>
        destruct (IH fuel d1 rm st) as [s' Hs']
    end.
    + cbn. rewrite Hd. rewrite u32_small by lia. lia.
    + cbn. lia.
    + lia.
    + lia.
    + exists s'. rewrite Hs'. f_equal. lia.
Qed.

(** X12.  [free_inode] on a file whose last level-2 index block is only
    partly filled never returns.  With the ten direct blocks, the full
    indirect block and [k] full level-2 blocks released, [r] sectors
    remain to be freed; the doubly-indirect branch visits only the [k]
    full blocks, clears [double_used], and the loop then goes round with
    no branch left to take. *)
Theorem free_inode_spins (s : state) (p : Z) (i : inode) (k r : Z) :
  heap s p = Some i ->
  List.length (blocks (data i)) = 12%nat ->
  direct_usage (data i) = 10 ->
  indirect_used (data i) = 1 ->
  indirect_block_usage (data i) = 128 ->
  double_used (data i) = 1 ->
  double_l1_usage (data i) = k ->
  0 <= k <= 127 -> 0 < r < 128 ->
  s32 (bytes_to_sectors (length (data i))) = 10 + 128 + 128 * k + r ->
  free_inode p s = Diverge.
Proof.
  intros Hp Hbl Hdu Hiu Hibu Hdbl Hl1 Hk Hr Hrem.
  unfold free_inode. unfold bind at 1, deref. rewrite Hp. cbv zeta.
  rewrite Hrem.
  destruct (Z.eqb_spec (10 + 128 + 128 * k + r) 0); [lia|].
  set (remain := 10 + 128 + 128 * k + r) in *.
  replace (Z.to_nat remain + 2)%nat
    with (10 + S (S (S (Z.to_nat remain - 11))))%nat by lia.
  apply bind_Diverge_intro.
  destruct (free_loop_direct 10 (S (S (S (Z.to_nat remain - 11)))) (data i)
              remain s) as [s1 Hs1]; try lia.
  rewrite Hs1. clear Hs1.
  (* the indirect block *)
  rewrite free_loop_round.
  destruct (Z.gtb_spec (remain - Z.of_nat 10) 0); [|lia].
  cbn [direct_usage with_direct_usage indirect_used indirect_block_usage
       blocks double_used double_l1_usage].
  change (0 >? 0) with false. cbv iota. rewrite Hiu. change (1 =? 1) with true.
  cbv iota.
  destruct (index_in_range (blocks (data i)) 10 s1 ltac:(lia)) as [b10 Hb10].
  rewrite (bind_Done _ _ _ _ _ Hb10).
  unfold bind at 1. unfold read_index_block, bind at 1, block_read, ret.
  rewrite Hibu.
  match goal with
  | |- bind (free_entries _ 0 128 ?arr ?rm) _ ?st = _ =>
      destruct (free_entries_run arr 128
                  ltac:(rewrite words_of_length; lia)
                  (Z.to_nat 128) 0 rm st ltac:(lia) ltac:(reflexivity)
                  ltac:(lia)) as [s2 Hs2]
  end.
  rewrite (bind_Done _ _ _ _ _ Hs2). clear Hs2.
  unfold bind at 1. unfold free_map_release, modify.
  (* the doubly-indirect blocks *)
  rewrite free_loop_round.
  destruct (Z.gtb_spec (remain - Z.of_nat 10 - (128 - 0)) 0); [|lia].
  cbn [direct_usage with_direct_usage with_indirect_used indirect_used
       indirect_block_usage blocks double_used double_l1_usage].
  change (0 >? 0) with false. change (0 =? 1) with false. cbv iota.
  rewrite Hdbl. change (1 =? 1) with true. cbv iota.
  match goal with
  | |- bind (index (blocks (data i)) 11) _ ?st = _ =>
      destruct (index_in_range (blocks (data i)) 11 st ltac:(lia))
        as [b11 Hb11]
  end.
  rewrite (bind_Done _ _ _ _ _ Hb11).
  unfold bind at 1. unfold read_index_block, bind at 1, block_read, ret.
  rewrite Hl1.
  match goal with
  | |- bind (free_l1 _ 0 k ?l1 ?rm) _ ?st = _ =>
      destruct (free_l1_run l1 k
                  ltac:(rewrite words_of_length; lia)
                  (Z.to_nat k) 0 rm st ltac:(lia) ltac:(f_equal; lia)
                  ltac:(lia)) as [s3 Hs3]
  end.
  rewrite (bind_Done _ _ _ _ _ Hs3). clear Hs3.
  unfold bind at 1. unfold free_map_release, modify.
  (* no branch left *)
  rewrite free_loop_round.
  destruct (Z.gtb_spec (remain - Z.of_nat 10 - (128 - 0) - 128 * (k - 0)) 0);
    [|lia].
  cbn [direct_usage with_direct_usage with_indirect_used with_double_used
       indirect_used indirect_block_usage blocks double_used double_l1_usage].
  reflexivity.
Qed.

Lemma free_inode_spins_witness : free_inode 9 lopsided = Diverge.
Proof.
  apply (free_inode_spins lopsided 9 lopsided_inode 0 1);
    try reflexivity; try lia.
Defined.

(** *** Denying writes *)

(** X13.  Between [inode_deny_write] and the matching
    [inode_allow_write] every [inode_write_at] returns 0 and changes
    nothing, whatever it is asked to write; after [inode_allow_write]
    the inode is as it was before the two calls. *)
Theorem inode_deny_write_blocks_writes (s : state) (p : Z) (i : inode) :
  heap s p = Some i ->
  0 <= deny_write_cnt i < open_cnt i -> open_cnt i < 2 ^ 31 ->
  exists s1 s2,
    inode_deny_write p s = Done tt s1 /\
    (forall buf size offset, inode_write_at p buf size offset s1 = Done 0 s1) /\
    inode_allow_write p s1 = Done tt s2 /\
    heap s2 p = Some i /\
    (forall q, q <> p -> heap s2 q = heap s q) /\
    free_map s2 = free_map s /\ cache s2 = cache s /\ disk s2 = disk s.
Proof.
  intros Hp Hd Ho.
  assert (Hs : s32 (deny_write_cnt i + 1) = deny_write_cnt i + 1)
    by (apply s32_small; lia).
  eexists. eexists. split; [|split; [|split]].
  - unfold inode_deny_write. unfold bind at 1, deref. rewrite Hp. cbv zeta.
    unfold bind, store, modify.
    cbn [deny_write_cnt open_cnt with_deny_write_cnt]. rewrite Hs.
    destruct (Z.leb_spec (deny_write_cnt i + 1) (open_cnt i)); [|lia].
    reflexivity.
  - intros buf size offset. unfold inode_write_at.
    unfold bind at 1, deref. cbn [heap set_heap]. rewrite Z.eqb_refl.
    cbn [deny_write_cnt with_deny_write_cnt]. rewrite ?Hs.
    destruct (Z.eqb_spec (deny_write_cnt i + 1) 0); [lia|]. reflexivity.
  - unfold inode_allow_write. unfold bind at 1, deref.
    cbn [heap set_heap]. rewrite Z.eqb_refl.
    cbn [deny_write_cnt open_cnt with_deny_write_cnt]. rewrite ?Hs.
    destruct (Z.gtb_spec (deny_write_cnt i + 1) 0); [|lia].
    destruct (Z.leb_spec (deny_write_cnt i + 1) (open_cnt i)); [|lia].
    cbn [andb]. reflexivity.
  - cbn [heap set_heap store modify]. split; [|split; [|repeat split]].
    + unfold store, modify. cbn [heap set_heap]. rewrite Z.eqb_refl.
      f_equal. unfold with_deny_write_cnt. cbn.
      rewrite ?Hs. replace (deny_write_cnt i + 1 - 1) with (deny_write_cnt i) by lia.
      rewrite s32_small by lia. destruct i; reflexivity.
    + intros q Hq. unfold store, modify. cbn [heap set_heap].
      destruct (Z.eqb_spec q p); [contradiction | reflexivity].
Qed.

Lemma inode_deny_write_blocks_writes_witness :
  exists s1 s2,
    inode_deny_write 9 lopsided = Done tt s1 /\
    (forall buf size offset, inode_write_at 9 buf size offset s1 = Done 0 s1) /\
    inode_allow_write 9 s1 = Done tt s2 /\
    heap s2 9 = Some lopsided_inode /\
    (forall q, q <> 9 -> heap s2 q = heap lopsided q) /\
    free_map s2 = free_map lopsided /\ cache s2 = cache lopsided /\
    disk s2 = disk lopsided.
Proof.
  apply inode_deny_write_blocks_writes.
  - reflexivity.
  - cbn. lia.
  - cbn. lia.
Defined.

(** *** Reading and writing inside one sector *)

(** One round of the loop of [inode_write_at]. *)
Lemma write_loop_round (fuel : nat) (p size offset bytes_written : Z)
    (source : list byte) (bounce : bool) :
  write_loop (S fuel) p size offset bytes_written source bounce =
  if size >? 0 then
    ino <- deref p ;;
    sector_idx <- byte_to_sector ino offset ;;
    let sector_ofs := Z.rem offset BLOCK_SECTOR_SIZE in
    let inode_left := s32 (inode_length ino - offset) in
    let sector_left := BLOCK_SECTOR_SIZE - sector_ofs in
    let min_left :=
      if inode_left <? sector_left then inode_left else sector_left in
    let chunk_size := if size <? min_left then size else min_left in
    if chunk_size <=? 0 then ret bytes_written
    else if (sector_ofs =? 0) && (chunk_size =? BLOCK_SECTOR_SIZE) then
      cache_write fs_device sector_idx source ;;
      write_loop fuel p (size - chunk_size) (offset + chunk_size)
        (bytes_written + chunk_size)
        (skipn (Z.to_nat chunk_size) source) bounce
    else
      ok <- need_bounce bounce ;;
      if ok then
        old <- (if (sector_ofs >? 0) || (chunk_size <? sector_left)
                then cache_read fs_device sector_idx
                else ret zeros) ;;
        cache_write fs_device sector_idx
          (patch old sector_ofs (firstn (Z.to_nat chunk_size) source)) ;;
        write_loop fuel p (size - chunk_size) (offset + chunk_size)
          (bytes_written + chunk_size)
          (skipn (Z.to_nat chunk_size) source) true
      else ret bytes_written
  else ret bytes_written.
Proof. reflexivity. Qed.

(** One round of the loop of [inode_read_at]. *)
Lemma read_loop_round (fuel : nat) (p size offset bytes_read : Z)
    (buffer : list byte) (bounce : bool) :
  read_loop (S fuel) p size offset bytes_read buffer bounce =
  if size >? 0 then
    ino <- deref p ;;
    sector_idx <- byte_to_sector ino offset ;;
    let sector_ofs := Z.rem offset BLOCK_SECTOR_SIZE in
    let inode_left := s32 (inode_length ino - offset) in
    let sector_left := BLOCK_SECTOR_SIZE - sector_ofs in
    let min_left :=
      if inode_left <? sector_left then inode_left else sector_left in
    let chunk_size := if size <? min_left then size else min_left in
    if chunk_size <=? 0 then ret (bytes_read, buffer)
    else if (sector_ofs =? 0) && (chunk_size =? BLOCK_SECTOR_SIZE) then
      d <- cache_read fs_device sector_idx ;;
      read_loop fuel p (size - chunk_size) (offset + chunk_size)
        (bytes_read + chunk_size) (buffer ++ d) bounce
    else
      ok <- need_bounce bounce ;;
      if ok then
        d <- cache_read fs_device sector_idx ;;
        read_loop fuel p (size - chunk_size) (offset + chunk_size)
          (bytes_read + chunk_size)
          (buffer ++ firstn (Z.to_nat chunk_size)
                       (skipn (Z.to_nat sector_ofs) d))
          true
      else ret (bytes_read, buffer)
  else ret (bytes_read, buffer).
Proof. reflexivity. Qed.

Lemma write_loop_done (fuel : nat) (p offset n : Z) (src : list byte)
    (bounce : bool) (s : state) :
  write_loop fuel p 0 offset n src bounce s = Done n s.
Proof. destruct fuel; reflexivity. Qed.

Lemma read_loop_done (fuel : nat) (p offset n : Z) (buf : list byte)
    (bounce : bool) (s : state) :
  read_loop fuel p 0 offset n buf bounce s = Done (n, buf) s.
Proof. destruct fuel; reflexivity. Qed.

(** A position in the direct blocks is mapped without reading. *)
Lemma byte_to_sector_direct (ino : inode) (pos b : Z) (s : state) :
  0 <= pos < length (data ino) -> pos < 10 * BLOCK_SECTOR_SIZE ->
  nth_error (blocks (data ino)) (Z.to_nat (pos / BLOCK_SECTOR_SIZE)) = Some b ->
  byte_to_sector ino pos s = Done b s.
Proof.
  intros Hp Hd Hb. unfold byte_to_sector.
  destruct (Z.ltb_spec pos (length (data ino))); [|lia].
  destruct (Z.ltb_spec pos (10 * BLOCK_SECTOR_SIZE)); [|lia].
  rewrite Z.quot_div_nonneg by (unfold BLOCK_SECTOR_SIZE; lia).
  apply index_at; [|exact Hb].
  apply Z.div_pos; unfold BLOCK_SECTOR_SIZE; lia.
Qed.

(** The size of the piece the loops move when the request fits into the
    file and into the sector. *)
Lemma chunk_is_size (len size offset : Z) :
  0 <= offset -> 0 < size -> offset + size <= len -> len < 2 ^ 31 ->
  Z.rem offset BLOCK_SECTOR_SIZE + size <= BLOCK_SECTOR_SIZE ->
  let sector_ofs := Z.rem offset BLOCK_SECTOR_SIZE in
  let inode_left := s32 (len - offset) in
  let sector_left := BLOCK_SECTOR_SIZE - sector_ofs in
  let min_left :=
    if inode_left <? sector_left then inode_left else sector_left in
  (if size <? min_left then size else min_left) = size.
Proof.
  intros Ho Hs Hlen Hmax Hfit. cbv zeta.
  rewrite s32_small by lia.
  destruct (Z.ltb_spec (len - offset)
              (BLOCK_SECTOR_SIZE - Z.rem offset BLOCK_SECTOR_SIZE));
    match goal with
    | |- (if ?a <? ?b then _ else _) = _ => destruct (Z.ltb_spec a b)
    end; lia.
Qed.

Lemma patch_length (old chunk : list byte) (ofs : Z) :
  0 <= ofs ->
  (Z.to_nat ofs + List.length chunk <= List.length old)%nat ->
  List.length (patch old ofs chunk) = List.length old.
Proof.
  intros Ho Hfit. unfold patch.
  rewrite !length_app, length_firstn, length_skipn. lia.
Qed.

Lemma patch_read (old chunk : list byte) (ofs : Z) :
  0 <= ofs ->
  (Z.to_nat ofs + List.length chunk <= List.length old)%nat ->
  firstn (List.length chunk) (skipn (Z.to_nat ofs) (patch old ofs chunk))
  = chunk.
Proof.
  intros Ho Hfit. unfold patch.
  rewrite skipn_app, length_firstn.
  replace (Z.to_nat ofs - Nat.min (Z.to_nat ofs) (List.length old))%nat
    with O by lia.
  rewrite skipn_all2 by (rewrite length_firstn; lia).
  cbn [skipn app]. rewrite firstn_app, Nat.sub_diag, firstn_all.
  cbn [firstn]. apply app_nil_r.
Qed.

Section OneChunk.
Variables (p : Z) (ino : inode) (size offset b : Z).
Hypothesis Hdeny : deny_write_cnt ino = 0.
Hypothesis Hoff : 0 <= offset.
Hypothesis Hsize : 0 < size.
Hypothesis Hlen : offset + size <= length (data ino).
Hypothesis Hmax : length (data ino) < 2 ^ 31.
Hypothesis Hdirect : offset < 10 * BLOCK_SECTOR_SIZE.
Hypothesis Hfit : Z.rem offset BLOCK_SECTOR_SIZE + size <= BLOCK_SECTOR_SIZE.
Hypothesis Hb :
  nth_error (blocks (data ino)) (Z.to_nat (offset / BLOCK_SECTOR_SIZE)) = Some b.

Lemma sector_ofs_range : 0 <= Z.rem offset BLOCK_SECTOR_SIZE < BLOCK_SECTOR_SIZE.
Proof. apply Z.rem_bound_pos; unfold BLOCK_SECTOR_SIZE; lia. Qed.

(** The loop of [inode_read_at] for a request inside one sector of the
    direct blocks: one round, which hands out the piece of what the
    cache shows for the sector. *)
Lemma read_loop_one_chunk (fuel : nat) (s : state) :
  cache_inv s -> heap s p = Some ino ->
  cached s fs_device b <> None \/ evictable s ->
  read_head_buffer_n s <> READ_AHEAD_BUFFER_SIZE ->
  malloc_fails s (malloc_calls s) = false ->
  exists s',
    read_loop (S fuel) p size offset 0 [] false s =
    Done (size,
          firstn (Z.to_nat size)
            (skipn (Z.to_nat (Z.rem offset BLOCK_SECTOR_SIZE))
               (sector_view s fs_device b))) s' /\
    cache_inv s' /\ heap s' = heap s /\ free_map s' = free_map s /\
    forall dev sec, sector_view s' dev sec = sector_view s dev sec.
Proof.
  intros Hinv Hp Hserve Hroom Hm.
  pose proof sector_ofs_range as Ho.
  rewrite read_loop_round.
  destruct (Z.gtb_spec size 0); [|lia].
  unfold bind at 1, deref. rewrite Hp.
  rewrite (bind_Done _ _ _ _ _
             (byte_to_sector_direct ino offset b s ltac:(lia) Hdirect Hb)).
  cbv zeta. unfold inode_length.
  rewrite (chunk_is_size (length (data ino)) size offset Hoff Hsize Hlen Hmax Hfit).
  destruct (Z.leb_spec size 0); [lia|].
  destruct ((Z.rem offset BLOCK_SECTOR_SIZE =? 0) && (size =? BLOCK_SECTOR_SIZE))
    eqn:Hfull.
  - apply andb_true_iff in Hfull. destruct Hfull as [Ho0 Hs512].
    apply Z.eqb_eq in Ho0, Hs512.
    destruct (cache_read_total s fs_device b Hinv Hserve Hroom)
      as [s' [Hrd [Hinv' [_ [Hrest [_ Hview]]]]]].
    apply rest_of_eq in Hrest. destruct Hrest as [Hfm [_ [_ [Hh _]]]].
    rewrite (bind_Done _ _ _ _ _ Hrd).
    replace (size - size) with 0 by lia. rewrite read_loop_done.
    exists s'. split; [|auto].
    rewrite Z.add_0_l. cbn [app]. rewrite Ho0. cbn [Z.to_nat skipn].
    rewrite Hs512, <- (sector_view_length s fs_device b Hinv), firstn_all.
    reflexivity.
  - unfold need_bounce. rewrite !bind_assoc. unfold bind at 1. unfold malloc.
    rewrite Hm. unfold bind at 1, ret.
    set (sm := set_malloc_calls (S (malloc_calls s)) s).
    assert (Hinvm : cache_inv sm) by (apply (cache_inv_ext s); auto).
    assert (Hservem : cached sm fs_device b <> None \/ evictable sm).
    { destruct Hserve as [H1|H1]; [left; exact H1 | right; exact H1]. }
    destruct (cache_read_total sm fs_device b Hinvm Hservem Hroom)
      as [s' [Hrd [Hinv' [_ [Hrest [_ Hview]]]]]].
    apply rest_of_eq in Hrest. destruct Hrest as [Hfm [_ [_ [Hh _]]]].
    rewrite (bind_Done _ _ _ _ _ Hrd).
    replace (size - size) with 0 by lia. rewrite read_loop_done.
    exists s'. split; [|split; [exact Hinv' | split; [exact Hh | split; [exact Hfm|]]]].
    + rewrite Z.add_0_l. reflexivity.
    + intros dev sec. rewrite Hview. apply sector_view_ext; reflexivity.
Qed.

(** The loop of [inode_write_at] for such a request: one round, after
    which the cache shows the sector with the piece replaced. *)
Lemma write_loop_one_chunk (fuel : nat) (s : state) (buf : list byte) :
  cache_inv s -> heap s p = Some ino ->
  cached s fs_device b <> None \/ evictable s ->
  read_head_buffer_n s <> READ_AHEAD_BUFFER_SIZE ->
  malloc_fails s (malloc_calls s) = false ->
  List.length buf = Z.to_nat size ->
  exists s',
    write_loop (S fuel) p size offset 0 buf false s = Done size s' /\
    cache_inv s' /\ heap s' = heap s /\ free_map s' = free_map s /\
    cached s' fs_device b <> None /\
    malloc_fails s' = malloc_fails s /\
    (malloc_calls s' = malloc_calls s \/ malloc_calls s' = S (malloc_calls s)) /\
    (read_head_buffer_n s' = read_head_buffer_n s \/
     read_head_buffer_n s' = u32 (read_head_buffer_n s + 1)) /\
    sector_view s' fs_device b =
      patch (sector_view s fs_device b) (Z.rem offset BLOCK_SECTOR_SIZE) buf /\
    forall dev sec, (dev =? fs_device) && (sec =? b) = false ->
                    sector_view s' dev sec = sector_view s dev sec.
Proof.
  intros Hinv Hp Hserve Hroom Hm Hbuf.
  pose proof sector_ofs_range as Ho.
  pose proof (sector_view_length s fs_device b Hinv) as Hold.
  assert (Hpl : List.length (patch (sector_view s fs_device b)
                               (Z.rem offset BLOCK_SECTOR_SIZE) buf)
                = Z.to_nat BLOCK_SECTOR_SIZE).
  { rewrite patch_length; [exact Hold | lia |]. rewrite Hold, Hbuf. lia. }
  rewrite write_loop_round.
  destruct (Z.gtb_spec size 0); [|lia].
  unfold bind at 1, deref. rewrite Hp.
  rewrite (bind_Done _ _ _ _ _
             (byte_to_sector_direct ino offset b s ltac:(lia) Hdirect Hb)).
  cbv zeta. unfold inode_length.
  rewrite (chunk_is_size (length (data ino)) size offset Hoff Hsize Hlen Hmax Hfit).
  destruct (Z.leb_spec size 0); [lia|].
  destruct ((Z.rem offset BLOCK_SECTOR_SIZE =? 0) && (size =? BLOCK_SECTOR_SIZE))
    eqn:Hfull.
  - apply andb_true_iff in Hfull. destruct Hfull as [Ho0 Hs512].
    apply Z.eqb_eq in Ho0, Hs512.
    destruct (cache_write_total s fs_device b buf Hinv Hserve)
      as [s' [Hw [Hinv' [Hbuf' [Hrest [Hc Hview]]]]]].
    apply rest_of_eq in Hrest.
    destruct Hrest as [Hfm [Hmf [Hmc [Hh _]]]].
    rewrite (bind_Done _ _ _ _ _ Hw).
    replace (size - size) with 0 by lia. rewrite write_loop_done.
    exists s'. split; [rewrite Z.add_0_l; reflexivity|].
    split; [exact Hinv'|]. split; [exact Hh|]. split; [exact Hfm|].
    split; [exact Hc|]. split; [exact Hmf|]. split; [left; exact Hmc|].
    split; [left; unfold buffer_of in Hbuf'; congruence|].
    split.
    + rewrite Hview, !Z.eqb_refl. cbn [andb].
      rewrite sector_of_idem by (rewrite Hbuf, Hs512; reflexivity).
      unfold patch. rewrite Ho0. cbn [Z.to_nat firstn app Nat.add].
      rewrite skipn_all2 by (rewrite Hold, Hbuf, Hs512; reflexivity).
      symmetry. apply app_nil_r.
    + intros dev sec Hother. rewrite Hview, Hother. reflexivity.
  - unfold need_bounce. rewrite !bind_assoc. unfold bind at 1. unfold malloc.
    rewrite Hm. unfold bind at 1, ret.
    set (sm := set_malloc_calls (S (malloc_calls s)) s).
    assert (Hinvm : cache_inv sm) by (apply (cache_inv_ext s); auto).
    assert (Hservem : cached sm fs_device b <> None \/ evictable sm).
    { destruct Hserve as [H1|H1]; [left; exact H1 | right; exact H1]. }
    assert (Hread : (Z.rem offset BLOCK_SECTOR_SIZE >? 0)
                    || (size <? BLOCK_SECTOR_SIZE - Z.rem offset BLOCK_SECTOR_SIZE)
                    = true).
    { apply andb_false_iff in Hfull. apply orb_true_iff.
      destruct Hfull as [H1|H1]; apply Z.eqb_neq in H1.
      - left. apply Z.gtb_lt. lia.
      - destruct (Z.eq_dec (Z.rem offset BLOCK_SECTOR_SIZE) 0) as [E|E].
        + right. apply Z.ltb_lt. lia.
        + left. apply Z.gtb_lt. lia. }
    rewrite Hread.
    destruct (cache_read_total sm fs_device b Hinvm Hservem Hroom)
      as [sr [Hrd [Hinvr [Hnr [Hrestr [Hcr Hviewr]]]]]].
    apply rest_of_eq in Hrestr.
    destruct Hrestr as [Hfmr [Hmfr [Hmcr [Hhr _]]]].
    rewrite (bind_Done _ _ _ _ _ Hrd).
    rewrite firstn_all2 by lia.
    destruct (cache_write_total sr fs_device b
                (patch (sector_view sm fs_device b)
                   (Z.rem offset BLOCK_SECTOR_SIZE) buf)
                Hinvr (or_introl Hcr))
      as [s' [Hw [Hinv' [Hbuf' [Hrest [Hc Hview]]]]]].
    apply rest_of_eq in Hrest.
    destruct Hrest as [Hfm [Hmf [Hmc [Hh _]]]].
    rewrite (bind_Done _ _ _ _ _ Hw).
    replace (size - size) with 0 by lia. rewrite write_loop_done.
    exists s'. split; [rewrite Z.add_0_l; reflexivity|].
    split; [exact Hinv'|]. split; [rewrite Hh, Hhr; reflexivity|].
    split; [rewrite Hfm, Hfmr; reflexivity|].
    split; [exact Hc|]. split; [rewrite Hmf, Hmfr; reflexivity|].
    split; [right; rewrite Hmc, Hmcr; reflexivity|].
    split; [right; unfold buffer_of in Hbuf'; injection Hbuf' as _ Hn';
            rewrite Hn', Hnr; reflexivity|].
    split.
    + rewrite Hview, !Z.eqb_refl. cbn [andb].
      rewrite (sector_view_ext s sm) by reflexivity.
      apply sector_of_idem, Hpl.
    + intros dev sec Hother. rewrite Hview, Hother, Hviewr.
      apply sector_view_ext; reflexivity.
Qed.

End OneChunk.

Lemma filed_inv : cache_inv filed.
Proof.
  apply (cache_inv_ext booted); [reflexivity | reflexivity | exact booted_inv].
Qed.

Lemma filed_evictable : evictable filed.
Proof. unfold evictable. apply Exists_cons_hd. left. reflexivity. Qed.

(** X14.  [inode_read_at] for a request that lies inside the file and
    inside one sector of its direct blocks, on a coherent cache that can
    serve that sector: it returns the full size asked for and the bytes
    the cache shows for the sector at the request's place in it; it
    changes no inode, allocates no sector and leaves what the cache
    shows as it is. *)
Theorem inode_read_at_within_sector (s : state) (p : Z) (ino : inode)
    (size offset b : Z) :
  cache_inv s -> heap s p = Some ino ->
  0 <= offset -> 0 < size ->
  offset + size <= length (data ino) -> length (data ino) < 2 ^ 31 ->
  offset < 10 * BLOCK_SECTOR_SIZE ->
  Z.rem offset BLOCK_SECTOR_SIZE + size <= BLOCK_SECTOR_SIZE ->
  nth_error (blocks (data ino)) (Z.to_nat (offset / BLOCK_SECTOR_SIZE)) = Some b ->
  cached s fs_device b <> None \/ evictable s ->
  read_head_buffer_n s <> READ_AHEAD_BUFFER_SIZE ->
  malloc_fails s (malloc_calls s) = false ->
  exists s',
    inode_read_at p size offset s =
    Done (size,
          firstn (Z.to_nat size)
            (skipn (Z.to_nat (Z.rem offset BLOCK_SECTOR_SIZE))
               (sector_view s fs_device b))) s' /\
    cache_inv s' /\ heap s' = heap s /\ free_map s' = free_map s /\
    forall dev sec, sector_view s' dev sec = sector_view s dev sec.
Proof.
  intros Hinv Hp Hoff Hsize Hlen Hmax Hdirect Hfit Hb Hserve Hroom Hm.
  unfold inode_read_at.
  pose proof (read_loop_one_chunk p ino size offset b Hoff Hsize Hlen Hmax
                Hdirect Hfit Hb (Z.to_nat size - 1) s Hinv Hp Hserve Hroom Hm)
    as H.
  replace (S (Z.to_nat size - 1)) with (Z.to_nat size) in H by lia.
  exact H.
Qed.

Lemma inode_read_at_within_sector_witness :
  exists s',
    inode_read_at 9 100 600 filed =
    Done (100,
          firstn (Z.to_nat 100)
            (skipn (Z.to_nat (Z.rem 600 BLOCK_SECTOR_SIZE))
               (sector_view filed fs_device 21))) s' /\
    cache_inv s' /\ heap s' = heap filed /\ free_map s' = free_map filed /\
    forall dev sec, sector_view s' dev sec = sector_view filed dev sec.
Proof.
  apply (inode_read_at_within_sector filed 9 small_inode 100 600 21).
  - exact filed_inv.
  - reflexivity.
  - lia.
  - lia.
  - cbn. lia.
  - cbn. lia.
  - unfold BLOCK_SECTOR_SIZE. lia.
  - unfold BLOCK_SECTOR_SIZE. cbn. lia.
  - reflexivity.
  - right. exact filed_evictable.
  - discriminate.
  - reflexivity.
Defined.

(** X15.  Bytes written with [inode_write_at] inside the file and inside
    one sector of its direct blocks are what [inode_read_at] returns for
    the same place: both calls move the full size, the write changes no
    inode, allocates no sector and changes what the cache shows for no
    other sector. *)
Theorem inode_write_then_read (s : state) (p : Z) (ino : inode)
    (size offset b : Z) (buf : list byte) :
  cache_inv s -> heap s p = Some ino -> deny_write_cnt ino = 0 ->
  0 <= offset -> 0 < size ->
  offset + size <= length (data ino) -> length (data ino) < 2 ^ 31 ->
  offset < 10 * BLOCK_SECTOR_SIZE ->
  Z.rem offset BLOCK_SECTOR_SIZE + size <= BLOCK_SECTOR_SIZE ->
  nth_error (blocks (data ino)) (Z.to_nat (offset / BLOCK_SECTOR_SIZE)) = Some b ->
  cached s fs_device b <> None \/ evictable s ->
  0 <= read_head_buffer_n s < READ_AHEAD_BUFFER_SIZE - 1 ->
  malloc_fails s (malloc_calls s) = false ->
  malloc_fails s (S (malloc_calls s)) = false ->
  List.length buf = Z.to_nat size ->
  exists s1 s2,
    inode_write_at p buf size offset s = Done size s1 /\
    inode_read_at p size offset s1 = Done (size, buf) s2 /\
    heap s1 = heap s /\ free_map s1 = free_map s /\
    (forall dev sec, (dev =? fs_device) && (sec =? b) = false ->
                     sector_view s1 dev sec = sector_view s dev sec).
Proof.
  intros Hinv Hp Hdeny Hoff Hsize Hlen Hmax Hdirect Hfit Hb Hserve Hn Hm1 Hm2
    Hbuf.
  pose proof (sector_ofs_range offset Hoff) as Ho.
  pose proof (write_loop_one_chunk p ino size offset b Hoff Hsize Hlen Hmax
                Hdirect Hfit Hb (Z.to_nat size - 1) s buf Hinv Hp Hserve
                ltac:(unfold READ_AHEAD_BUFFER_SIZE in *; lia) Hm1 Hbuf)
    as Hwrite.
  replace (S (Z.to_nat size - 1)) with (Z.to_nat size) in Hwrite by lia.
  destruct Hwrite
    as [s1 [Hw [Hinv1 [Hh1 [Hfm1 [Hc1 [Hmf1 [Hmc1 [Hn1 [Hv1 Hother]]]]]]]]]].
  assert (Hroom1 : read_head_buffer_n s1 <> READ_AHEAD_BUFFER_SIZE).
  { unfold READ_AHEAD_BUFFER_SIZE in *.
    destruct Hn1 as [E|E]; rewrite E; [lia|].
    rewrite u32_small by lia. lia. }
  assert (Hm' : malloc_fails s1 (malloc_calls s1) = false).
  { rewrite Hmf1. destruct Hmc1 as [E|E]; rewrite E; assumption. }
  pose proof (read_loop_one_chunk p ino size offset b Hoff Hsize Hlen Hmax
                Hdirect Hfit Hb (Z.to_nat size - 1) s1 Hinv1
                ltac:(rewrite Hh1; exact Hp) (or_introl Hc1) Hroom1 Hm')
    as Hread.
  replace (S (Z.to_nat size - 1)) with (Z.to_nat size) in Hread by lia.
  destruct Hread as [s2 [Hr _]].
  exists s1, s2. split.
  { unfold inode_write_at. unfold bind at 1, deref. rewrite Hp, Hdeny.
    cbn [Z.eqb negb]. unfold inode_length.
    rewrite s32_small by lia.
    destruct (Z.gtb_spec (offset + size) (length (data ino))); [lia|].
    unfold bind at 1, ret. exact Hw. }
  split.
  { unfold inode_read_at.
    rewrite Hr. f_equal. f_equal. rewrite Hv1, <- Hbuf.
    apply patch_read; [lia|].
    rewrite (sector_view_length s fs_device b Hinv), Hbuf.
    unfold BLOCK_SECTOR_SIZE in *. lia. }
  auto.
Qed.

Lemma inode_write_then_read_witness :
  exists s1 s2,
    inode_write_at 9 [x01; x02; x03] 3 600 filed = Done 3 s1 /\
    inode_read_at 9 3 600 s1 = Done (3, [x01; x02; x03]) s2 /\
    heap s1 = heap filed /\ free_map s1 = free_map filed /\
    (forall dev sec, (dev =? fs_device) && (sec =? 21) = false ->
                     sector_view s1 dev sec = sector_view filed dev sec).
Proof.
  apply (inode_write_then_read filed 9 small_inode 3 600 21).
  - exact filed_inv.
  - reflexivity.
  - reflexivity.
  - lia.
  - lia.
  - cbn. lia.
  - cbn. lia.
  - unfold BLOCK_SECTOR_SIZE. lia.
  - unfold BLOCK_SECTOR_SIZE. cbn. lia.
  - reflexivity.
  - right. exact filed_evictable.
  - cbn. unfold READ_AHEAD_BUFFER_SIZE. lia.
  - reflexivity.
  - reflexivity.
  - reflexivity.
Defined.

(** *** Growing a file over a cached sector *)








(** *** Counting openers *)

(** X17.  [inode_open] of a sector that is open returns the in-memory
    inode that is there, with one opener more and without any access to
    the cache or the device; [inode_close] of it takes the opener off
    again and leaves the inode open, exactly as it was. *)
Theorem inode_reopen_close_balance (s : state) (sec a : Z) (i : inode) :
  single_instance s -> heap s a = Some i -> sector i = sec ->
  1 <= open_cnt i < 2 ^ 31 - 1 ->
  exists s1 s2,
    inode_open sec s = Done (Some a) s1 /\
    heap s1 a = Some (with_open_cnt (open_cnt i + 1) i) /\
    inode_close (Some a) s1 = Done tt s2 /\
    heap s2 a = Some i /\
    (forall b, b <> a -> heap s2 b = heap s b) /\
    open_inodes s2 = open_inodes s /\
    cache s2 = cache s /\ disk s2 = disk s /\ io_log s2 = io_log s /\
    free_map s2 = free_map s.
Proof.
  intros Hs Ha Hsec Hcnt.
  pose proof (inode_open_again s sec a i Hs Ha Hsec) as Hopen.
  rewrite s32_small in Hopen by lia.
  eexists. eexists. split; [exact Hopen|].
  split; [unfold stored; cbn [heap set_heap]; rewrite Z.eqb_refl; reflexivity|].
  split.
  { unfold inode_close. unfold bind at 1, deref.
    unfold stored. cbn [heap set_heap]. rewrite Z.eqb_refl. cbv zeta.
    unfold bind at 1. unfold store, modify.
    cbn [open_cnt with_open_cnt].
    replace (open_cnt i + 1 - 1) with (open_cnt i) by lia.
    rewrite s32_small by lia.
    destruct (Z.eqb_spec (open_cnt i) 0); [lia|]. reflexivity. }
  cbn [heap set_heap open_inodes cache disk io_log free_map].
  rewrite Z.eqb_refl.
  split; [destruct i; reflexivity|].
  split.
  { intros b Hb. destruct (Z.eqb_spec b a); [contradiction | reflexivity]. }
  repeat split; reflexivity.
Qed.

Lemma opened_single_instance : single_instance opened.
Proof. apply inode_reachable_single_instance. exact opened_reachable. Qed.

Lemma opened_heap :
  heap opened 2 = Some (mk_inode 3 1 false 0 (empty_inode_disk false)).
Proof. vm_compute. reflexivity. Qed.

Lemma inode_reopen_close_balance_witness :
  exists s1 s2,
    inode_open 3 opened = Done (Some 2) s1 /\
    heap s1 2 =
      Some (with_open_cnt
              (open_cnt (mk_inode 3 1 false 0 (empty_inode_disk false)) + 1)
              (mk_inode 3 1 false 0 (empty_inode_disk false))) /\
    inode_close (Some 2) s1 = Done tt s2 /\
    heap s2 2 = Some (mk_inode 3 1 false 0 (empty_inode_disk false)) /\
    (forall b, b <> 2 -> heap s2 b = heap opened b) /\
    open_inodes s2 = open_inodes opened /\
    cache s2 = cache opened /\ disk s2 = disk opened /\
    io_log s2 = io_log opened /\ free_map s2 = free_map opened.
Proof.
  apply (inode_reopen_close_balance opened 3 2
           (mk_inode 3 1 false 0 (empty_inode_disk false))).
  - exact opened_single_instance.
  - exact opened_heap.
  - reflexivity.
  - cbn. lia.
Defined.

(** *** Closing a removed file *)

Lemma free_loop_zero (fuel : nat) (d : inode_disk) (s : state) :
  free_loop fuel d 0 s = Done d s.
Proof. destruct fuel; reflexivity. Qed.

Lemma firstn_S_rev {A : Type} (n : nat) (l : list A) (x : A) :
  nth_error l n = Some x -> rev (firstn (S n) l) = x :: rev (firstn n l).
Proof.
  intros H. destruct (nth_error_split _ _ H) as [l1 [l2 [-> Hlen]]].
  subst n. replace (S (List.length l1)) with (List.length l1 + 1)%nat by lia.
  rewrite firstn_app_2. cbn [firstn]. rewrite rev_app_distr. cbn [rev app].
  rewrite firstn_app, Nat.sub_diag, firstn_all. cbn [firstn].
  rewrite app_nil_r. reflexivity.
Qed.

(** The rounds of [free_inode] that release the direct blocks, last
    block first. *)
Lemma free_loop_direct_map (n : nat) :
  forall (fuel : nat) (d : inode_disk) (remain : Z) (s : state),
    direct_usage d = Z.of_nat n -> (n <= List.length (blocks d))%nat ->
    Z.of_nat n <= remain -> Z.of_nat n < 2 ^ 32 ->
    free_loop (n + fuel) d remain s =
    free_loop fuel (with_direct_usage 0 d) (remain - Z.of_nat n)
      (set_free_map (release_all (rev (firstn n (blocks d))) (free_map s)) s).
Proof.
  induction n as [|n IH]; intros fuel d remain s Hd Hlen Hr Hw.
  - cbn [Nat.add firstn rev release_all fold_left]. rewrite Z.sub_0_r.
    replace (with_direct_usage 0 d) with d
      by (destruct d; cbn in *; subst; reflexivity).
    replace (set_free_map (free_map s) s) with s by (destruct s; reflexivity).
    reflexivity.
  - cbn [Nat.add]. rewrite free_loop_round.
    destruct (Z.gtb_spec remain 0); [|lia].
    destruct (Z.gtb_spec (direct_usage d) 0); [|lia].
    assert (Hx : exists x, nth_error (blocks d) n = Some x).
    { destruct (nth_error (blocks d) n) eqn:E; eauto.
      apply nth_error_None in E. lia. }
    destruct Hx as [x Hx].
    rewrite (bind_Done _ _ _ _ _
               (index_at (blocks d) (direct_usage d - 1) x s ltac:(lia)
                  ltac:(rewrite Hd;
                        replace (Z.to_nat (Z.of_nat (S n) - 1)) with n by lia;
                        exact Hx))).
    unfold bind at 1. unfold free_map_release, modify.
    rewrite IH.
    + cbn [blocks with_direct_usage free_map set_free_map].
      rewrite (firstn_S_rev n (blocks d) x Hx).
      cbn [release_all fold_left]. fold (release x (free_map s)).
      replace (remain - 1 - Z.of_nat n) with (remain - Z.of_nat (S n)) by lia.
      reflexivity.
    + cbn. rewrite Hd, u32_small by lia. lia.
    + cbn. lia.
    + lia.
    + lia.
Qed.

Lemma release_length (b : Z) (m : list bool) :
  List.length (release b m) = List.length m.
Proof. unfold release. destruct (b <? 0); [reflexivity | apply set_nth_length]. Qed.

Lemma nth_release (b : Z) (m : list bool) (k : nat) :
  nth k (release b m) false =
  if (0 <=? b) && Nat.eqb (Z.to_nat b) k then false else nth k m false.
Proof.
  unfold release. destruct (Z.ltb_spec b 0), (Z.leb_spec 0 b); try lia;
    cbn [andb]; [reflexivity|].
  destruct (Nat.eqb_spec (Z.to_nat b) k) as [Heq|Hne].
  - subst k. destruct (nth_error m (Z.to_nat b)) eqn:E.
    + apply nth_error_nth. apply (nth_error_set_nth_eq _ _ _ _ E).
    + apply nth_overflow. rewrite set_nth_length.
      apply nth_error_None, E.
  - destruct (nth_error m k) eqn:E.
    + rewrite (nth_error_nth _ _ _ E). apply nth_error_nth.
      rewrite nth_error_set_nth_neq by exact Hne. exact E.
    + rewrite !nth_overflow; [reflexivity | apply nth_error_None, E |].
      rewrite set_nth_length. apply nth_error_None, E.
Qed.

Lemma nth_release_all (bs : list Z) :
  forall (m : list bool) (k : nat),
    nth k (release_all bs m) false =
    if existsb (fun b => (0 <=? b) && Nat.eqb (Z.to_nat b) k) bs
    then false else nth k m false.
Proof.
  induction bs as [|b bs IH]; intros m k; [reflexivity|].
  cbn [release_all fold_left existsb]. fold (release_all bs (release b m)).
  rewrite IH, nth_release.
  destruct ((0 <=? b) && Nat.eqb (Z.to_nat b) k);
    destruct (existsb _ bs); reflexivity.
Qed.

Lemma existsb_rev {A : Type} (f : A -> bool) (l : list A) :
  existsb f (rev l) = existsb f l.
Proof.
  induction l as [|x l IH]; [reflexivity|].
  cbn [rev existsb]. rewrite existsb_app, IH. cbn [existsb].
  rewrite orb_false_r. apply orb_comm.
Qed.

(** X18.  The last [inode_close] of a removed file whose sectors are all
    direct blocks returns, takes the inode off the list of open inodes,
    frees its memory and releases in the free map the inode's own sector
    and the direct blocks in use, and no other sector. *)
Theorem inode_close_releases_blocks (s : state) (a : Z) (i : inode)
    (n : nat) :
  cache_inv s ->
  cached s fs_device (sector i) <> None \/ evictable s ->
  heap s a = Some i -> open_cnt i = 1 -> removed i = true ->
  direct_usage (data i) = Z.of_nat n ->
  (n <= List.length (blocks (data i)))%nat -> Z.of_nat n < 2 ^ 31 ->
  s32 (bytes_to_sectors (length (data i))) = Z.of_nat n ->
  exists s',
    inode_close (Some a) s = Done tt s' /\
    heap s' a = None /\
    (forall b, b <> a -> heap s' b = heap s b) /\
    open_inodes s' = list_remove a (open_inodes s) /\
    List.length (free_map s') = List.length (free_map s) /\
    forall k,
      nth k (free_map s') false =
      if existsb (fun b => (0 <=? b) && Nat.eqb (Z.to_nat b) k)
           (sector i :: firstn n (blocks (data i)))
      then false else nth k (free_map s) false.
Proof.
  intros Hinv Hroom Ha Hcnt Hrem Hd Hlen Hn Hsz.
  unfold inode_close. unfold bind at 1, deref. rewrite Ha. cbv zeta.
  unfold bind at 1. unfold store, modify.
  cbn [open_cnt with_open_cnt sector removed data].
  rewrite Hcnt. change (s32 (1 - 1)) with 0. cbn [Z.eqb].
  unfold bind at 1.
  set (i1 := with_open_cnt 0 i).
  set (s1 := set_open_inodes _ _).
  destruct (cache_write_total s1 fs_device (sector i)
              (sector_of_inode_disk (data i)))
    as [s2 [Hcw [_ [_ [Hrest _]]]]].
  { apply (cache_inv_ext s); [reflexivity | reflexivity | exact Hinv]. }
  { destruct Hroom as [Hc|He].
    - left. rewrite (cached_ext s) by reflexivity. exact Hc.
    - right. apply (evictable_ext s); [reflexivity.. | exact He]. }
  rewrite (bind_Done _ _ _ _ _ Hcw). rewrite Hrem. cbn [when].
  apply rest_of_eq in Hrest.
  destruct Hrest as [Hfm [_ [_ [Hheap [Hopen _]]]]].
  rewrite !bind_assoc. unfold bind at 1. unfold free_map_release, modify.
  fold (release (sector i) (free_map s2)).
  unfold free_inode. rewrite !bind_assoc. unfold bind at 1, deref.
  cbn [heap set_free_map]. rewrite Hheap. subst s1. cbn [heap set_heap set_open_inodes].
  rewrite Z.eqb_refl. cbv zeta. subst i1. cbn [data with_open_cnt].
  rewrite Hsz.
  cbn [free_map heap open_inodes set_heap set_open_inodes] in Hfm, Hheap, Hopen.
  set (st := set_free_map (release (sector i) (free_map s2)) s2).
  assert (Hrun : exists s3,
             (if Z.of_nat n =? 0 then ret tt
              else d <- free_loop (Z.to_nat (Z.of_nat n) + 2) (data i)
                          (Z.of_nat n) ;;
                   store a (with_inode_data d (with_open_cnt 0 i))) st
             = Done tt s3 /\
             free_map s3 =
               release_all (rev (firstn n (blocks (data i))))
                 (release (sector i) (free_map s2)) /\
             open_inodes s3 = open_inodes s2 /\
             forall b, b <> a -> heap s3 b = heap s2 b).
  { destruct (Z.eqb_spec (Z.of_nat n) 0) as [Hz|Hz].
    - exists st. replace n with O by lia.
      repeat split; reflexivity.
    - rewrite Nat2Z.id.
      erewrite bind_Done.
      2:{ rewrite free_loop_direct_map by (auto; lia).
          rewrite Z.sub_diag. apply free_loop_zero. }
      eexists. split; [reflexivity|].
      cbn [free_map heap open_inodes set_heap set_free_map].
      split; [reflexivity|]. split; [reflexivity|].
      intros b Hb. destruct (Z.eqb_spec b a); [contradiction | reflexivity]. }
  destruct Hrun as [s3 [Hrun [Hfm3 [Hopen3 Hheap3]]]].
  rewrite (bind_Done _ _ _ _ _ Hrun).
  eexists. split; [reflexivity|].
  cbn [free_map heap open_inodes set_heap].
  split; [rewrite Z.eqb_refl; reflexivity|].
  split.
  { intros b Hb. destruct (Z.eqb_spec b a); [contradiction|].
    rewrite Hheap3, Hheap by exact Hb.
    destruct (Z.eqb_spec b a); [contradiction | reflexivity]. }
  split; [rewrite Hopen3, Hopen; reflexivity|].
  rewrite Hfm3, Hfm.
  change (release_all (rev (firstn n (blocks (data i))))
            (release (sector i) (free_map s)))
    with (release_all (sector i :: rev (firstn n (blocks (data i))))
            (free_map s)).
  split.
  { generalize (sector i :: rev (firstn n (blocks (data i)))) (free_map s).
    intros bs. induction bs as [|b bs IH]; intros m; [reflexivity|].
    cbn [release_all fold_left]. fold (release_all bs (release b m)).
    rewrite IH. apply release_length. }
  intros k. rewrite nth_release_all. cbn [existsb]. rewrite existsb_rev.
  reflexivity.
Qed.

Lemma condemned_inv : cache_inv condemned.
Proof.
  apply (cache_inv_ext booted); [reflexivity | reflexivity | exact booted_inv].
Qed.

Lemma inode_close_releases_blocks_witness :
  exists s',
    inode_close (Some 9) condemned = Done tt s' /\
    heap s' 9 = None /\
    (forall b, b <> 9 -> heap s' b = heap condemned b) /\
    open_inodes s' = list_remove 9 (open_inodes condemned) /\
    List.length (free_map s') = List.length (free_map condemned) /\
    forall k,
      nth k (free_map s') false =
      if existsb (fun b => (0 <=? b) && Nat.eqb (Z.to_nat b) k)
           (sector (with_removed true small_inode)
              :: firstn 2 (blocks (data (with_removed true small_inode))))
      then false else nth k (free_map condemned) false.
Proof.
  apply (inode_close_releases_blocks condemned 9
           (with_removed true small_inode) 2).
  - exact condemned_inv.
  - right. unfold evictable. apply Exists_cons_hd. left. reflexivity.
  - reflexivity.
  - reflexivity.
  - reflexivity.
  - reflexivity.
  - cbn. lia.
  - lia.
  - reflexivity.
Defined.

(** *** How much [inode_read_at] reads *)

(** What [cache_read] returns when it returns. *)
Lemma cache_read_returns (s s' : state) (dev sec : Z) (d : list byte) :
  cache_inv s -> cache_read dev sec s = Done d s' ->
  d = sector_view s dev sec /\ cache_inv s'.
Proof.
  intros Hinv Hrun. split; [|exact (cache_read_keeps_inv _ _ _ _ _ Hinv Hrun)].
  pose proof Hinv as [Hlen [Hfree _]].
  destruct (served s dev sec) as [Hserve | [Hmiss Hne]].
  - destruct (cache_read_view s dev sec Hinv Hserve) as [s1 [Hrun1 _]].
    rewrite Hrun1 in Hrun. apply bind_done in Hrun.
    destruct Hrun as [u [s2 [_ Hret]]].
    unfold ret in Hret. injection Hret as <- _. reflexivity.
  - rewrite cache_read_stuck in Hrun by auto. discriminate.
Qed.

Section IndexFrame.
Context {X : Type} (f : state -> X).
Hypothesis f_io : forall l s, f (set_io_log l s) = f s.

Lemma keeps_index {A : Type} (a : list A) (i : Z) : keeps f (index a i).
Proof.
  unfold index. destruct (i <? 0); [apply keeps_fault|].
  destruct (nth_error a (Z.to_nat i)); [apply keeps_ret | apply keeps_fault].
Qed.

Lemma keeps_read_index_block (sec : Z) : keeps f (read_index_block sec).
Proof.
  unfold read_index_block. apply keeps_bind; [|intros d; apply keeps_ret].
  intros s a s' [= _ <-]. apply f_io.
Qed.

Lemma keeps_byte_to_sector (ino : inode) (pos : Z) :
  keeps f (byte_to_sector ino pos).
Proof.
  unfold byte_to_sector.
  repeat first
    [ apply keeps_index | apply keeps_read_index_block | apply keeps_ret
    | apply keeps_bind; [|intros ?]
    | match goal with |- keeps _ (if ?x then _ else _) => destruct x end
    | progress cbv zeta ].
Qed.

End IndexFrame.

Lemma byte_to_sector_keeps_inv (ino : inode) (pos : Z) :
  preserves cache_inv (byte_to_sector ino pos).
Proof.
  intros s b s' Hinv Hrun.
  apply (cache_inv_ext s); [| |exact Hinv].
  - exact (keeps_byte_to_sector cache (fun _ _ => eq_refl) ino pos _ _ _ Hrun).
  - exact (keeps_byte_to_sector disk (fun _ _ => eq_refl) ino pos _ _ _ Hrun).
Qed.

Lemma need_bounce_keeps_inv (bounce : bool) :
  preserves cache_inv (need_bounce bounce).
Proof.
  intros s b s' Hinv Hrun. unfold need_bounce in Hrun.
  destruct bounce; [injection Hrun as _ <-; exact Hinv|].
  unfold bind, malloc, ret in Hrun. injection Hrun as _ <-.
  apply (cache_inv_ext s); [reflexivity | reflexivity | exact Hinv].
Qed.

(** The loop of [inode_read_at]: the count grows by at most what was asked
    for and by at most what the file holds from [offset] on, and the
    buffer by as many bytes. *)
Lemma read_loop_bounded (fuel : nat) :
  forall (p size offset br : Z) (buffer : list byte) (bounce : bool)
         (s s' : state) (n : Z) (buf : list byte) (i : inode),
    cache_inv s -> heap s p = Some i ->
    0 <= length (data i) < 2 ^ 31 -> 0 <= offset < 2 ^ 31 ->
    read_loop fuel p size offset br buffer bounce s = Done (n, buf) s' ->
    br <= n <= br + Z.max 0 size /\
    n - br <= Z.max 0 (length (data i) - offset) /\
    List.length buf = (List.length buffer + Z.to_nat (n - br))%nat.
Proof.
  induction fuel as [|fuel IH];
    intros p size offset br buffer bounce s s' n buf i Hinv Hp Hl Ho Hrun.
  - cbn [read_loop] in Hrun. destruct (Z.gtb_spec size 0); [discriminate|].
    injection Hrun as <- <- _. rewrite Z.sub_diag. cbn. lia.
  - rewrite read_loop_round in Hrun.
    destruct (Z.gtb_spec size 0) as [Hs|Hs].
    2:{ injection Hrun as <- <- _. rewrite Z.sub_diag. cbn. lia. }
    apply bind_done in Hrun. destruct Hrun as [ino [s1 [Hd Hrun]]].
    unfold deref in Hd. rewrite Hp in Hd. injection Hd as <- <-.
    apply bind_done in Hrun. destruct Hrun as [b [s2 [Hb Hrun]]].
    pose proof (byte_to_sector_keeps_inv _ _ _ _ _ Hinv Hb) as Hinv2.
    pose proof (quiet_byte_to_sector _ _ _ _ _ Hb) as [Hh2 _].
    cbv zeta in Hrun. unfold inode_length in Hrun.
    rewrite s32_small in Hrun by lia.
    pose proof (Z.rem_bound_pos offset BLOCK_SECTOR_SIZE ltac:(lia)
                  ltac:(unfold BLOCK_SECTOR_SIZE; lia)) as Hrem.
    set (sector_ofs := Z.rem offset BLOCK_SECTOR_SIZE) in *.
    set (inode_left := length (data i) - offset) in *.
    set (sector_left := BLOCK_SECTOR_SIZE - sector_ofs) in *.
    set (min_left := if inode_left <? sector_left then inode_left
                     else sector_left) in *.
    set (chunk_size := if size <? min_left then size else min_left) in *.
    assert (Hc : chunk_size <= size /\ chunk_size <= inode_left /\
                 chunk_size <= sector_left).
    { subst chunk_size min_left.
      destruct (Z.ltb_spec inode_left sector_left);
        destruct (Z.ltb_spec size inode_left);
        destruct (Z.ltb_spec size sector_left); lia. }
    destruct (Z.leb_spec chunk_size 0) as [Hz|Hz].
    { injection Hrun as <- <- _. rewrite Z.sub_diag. cbn. lia. }
    assert (Hstep : forall bounce' s3 d,
               cache_read fs_device b s2 = Done d s3 ->
               read_loop fuel p (size - chunk_size) (offset + chunk_size)
                 (br + chunk_size)
                 (buffer ++ firstn (Z.to_nat chunk_size)
                              (skipn (Z.to_nat sector_ofs) d))
                 bounce' s3 = Done (n, buf) s' ->
               br <= n <= br + Z.max 0 size /\
               n - br <= Z.max 0 (length (data i) - offset) /\
               List.length buf =
                 (List.length buffer + Z.to_nat (n - br))%nat).
    { intros bounce' s3 d Hcr Hrest.
      destruct (cache_read_returns _ _ _ _ _ Hinv2 Hcr) as [Hdv Hinv3].
      pose proof (quiet_cache_read _ _ _ _ _ Hcr) as [Hh3 _].
      assert (Hd512 : List.length d = Z.to_nat BLOCK_SECTOR_SIZE)
        by (rewrite Hdv; apply sector_view_length; exact Hinv2).
      apply (IH _ _ _ _ _ _ _ _ _ _ i Hinv3) in Hrest;
        [| rewrite Hh3, Hh2; exact Hp | exact Hl | subst inode_left; lia].
      destruct Hrest as [Hn [Hm Hlen]].
      rewrite length_app, length_firstn, length_skipn in Hlen.
      subst inode_left sector_left. unfold BLOCK_SECTOR_SIZE in *. lia. }
    destruct ((sector_ofs =? 0) && (chunk_size =? BLOCK_SECTOR_SIZE)) eqn:Ew.
    + apply andb_prop in Ew. destruct Ew as [E0 E512].
      apply Z.eqb_eq in E0, E512.
      apply bind_done in Hrun. destruct Hrun as [d [s3 [Hcr Hrest]]].
      apply (Hstep bounce s3 d Hcr).
      destruct (cache_read_returns _ _ _ _ _ Hinv2 Hcr) as [Hdv _].
      replace (firstn (Z.to_nat chunk_size) (skipn (Z.to_nat sector_ofs) d))
        with d; [exact Hrest|].
      rewrite E0, E512. cbn [Z.to_nat skipn].
      rewrite firstn_all2; [reflexivity|].
      rewrite Hdv, sector_view_length by exact Hinv2. lia.
    + apply bind_done in Hrun. destruct Hrun as [ok [s3 [Hnb Hrun]]].
      destruct ok.
      2:{ injection Hrun as <- <- _. rewrite Z.sub_diag. cbn. lia. }
      apply bind_done in Hrun. destruct Hrun as [d [s4 [Hcr Hrest]]].
      pose proof (need_bounce_keeps_inv _ _ _ _ Hinv2 Hnb) as Hinv3.
      pose proof (quiet_need_bounce _ _ _ _ Hnb) as [Hh3 _].
      destruct (cache_read_returns _ _ _ _ _ Hinv3 Hcr) as [Hdv Hinv4].
      pose proof (quiet_cache_read _ _ _ _ _ Hcr) as [Hh4 _].
      assert (Hd512 : List.length d = Z.to_nat BLOCK_SECTOR_SIZE)
        by (rewrite Hdv; apply sector_view_length; exact Hinv3).
      apply (IH _ _ _ _ _ _ _ _ _ _ i Hinv4) in Hrest;
        [| rewrite Hh4, Hh3, Hh2; exact Hp | exact Hl | subst inode_left; lia].
      destruct Hrest as [Hn [Hm Hlen]].
      rewrite length_app, length_firstn, length_skipn in Hlen.
      subst inode_left sector_left. unfold BLOCK_SECTOR_SIZE in *. lia.
Qed.

(** X19.  [inode_read_at], when it returns, reports no more bytes than
    were asked for and no more than the file holds from [offset] on,
    nothing for a request at or past the end of the file, and exactly as
    many bytes as it put into the buffer; the in-memory inodes are as
    they were. *)
Theorem inode_read_at_bounded (s s' : state) (p size offset n : Z)
    (buf : list byte) (i : inode) :
  cache_inv s -> heap s p = Some i ->
  0 <= length (data i) < 2 ^ 31 -> 0 <= offset < 2 ^ 31 ->
  inode_read_at p size offset s = Done (n, buf) s' ->
  0 <= n <= Z.max 0 size /\
  n <= Z.max 0 (length (data i) - offset) /\
  List.length buf = Z.to_nat n /\
  heap s' = heap s /\ open_inodes s' = open_inodes s.
Proof.
  intros Hinv Hp Hl Ho Hrun.
  pose proof (quiet_read_loop _ _ _ _ _ _ _ _ _ _ Hrun) as [Hh [Hopen _]].
  apply (read_loop_bounded _ _ _ _ _ _ _ _ _ _ _ i Hinv Hp Hl Ho) in Hrun.
  destruct Hrun as [Hn [Hm Hlen]]. cbn [List.length Nat.add] in Hlen.
  rewrite Z.sub_0_r in Hm, Hlen.
  repeat split; try lia; assumption.
Qed.

Lemma inode_read_at_bounded_witness :
  0 <= 3 <= Z.max 0 3 /\
  3 <= Z.max 0 (length (data small_inode) - 600) /\
  List.length [x00; x00; x00] = Z.to_nat 3 /\
  heap read_back = heap filed /\ open_inodes read_back = open_inodes filed.
Proof.
  apply (inode_read_at_bounded filed read_back 9 3 600 3 [x00; x00; x00]
           small_inode).
  - exact filed_inv.
  - reflexivity.
  - cbn. lia.
  - lia.
  - vm_compute. reflexivity.
Defined.

(** ** Directories over the inode layer *)

(** *** Reading one entry *)

Lemma dir_read_refl (b : Z) (s : state) : cache_inv s -> dir_read b 0 s s.
Proof.
  intros Hinv. unfold dir_read. rewrite Nat.add_0_r, Z.add_0_r.
  repeat (split; [reflexivity || assumption|]).
  split; [intros H; lia | reflexivity].
Qed.

Lemma dir_read_trans (b : Z) (m n : nat) (s1 s2 s3 : state) :
  dir_read b m s1 s2 -> dir_read b n s2 s3 -> dir_read b (m + n) s1 s3.
Proof.
  intros [Hi1 [Hh1 [Hf1 [Ho1 [Hj1 [Hm1 [Hc1 [Hn1 [Hz1 [Hk1 Hv1]]]]]]]]]]
         [Hi2 [Hh2 [Hf2 [Ho2 [Hj2 [Hm2 [Hc2 [Hn2 [Hz2 [Hk2 Hv2]]]]]]]]]].
  unfold dir_read.
  split; [exact Hi2|]. split; [congruence|]. split; [congruence|].
  split; [congruence|]. split; [congruence|]. split; [congruence|].
  split; [lia|]. split; [lia|].
  split.
  { intros H. rewrite Hz2, Hz1 by lia. reflexivity. }
  split.
  { intros H. destruct (Nat.eq_dec n 0) as [->|Hn].
    - rewrite Hz2 by reflexivity. apply Hk1. lia.
    - apply Hk2. lia. }
  intros dev sec. rewrite Hv2. apply Hv1.
Qed.

Lemma dir_ready_less (p : Z) (ino : inode) (b : Z) (m n : nat) (s : state) :
  (n <= m)%nat -> dir_ready p ino b m s -> dir_ready p ino b n s.
Proof.
  intros Hle [Hinv [Hp [Hs [Hn0 [Hn Hm]]]]]. unfold dir_ready.
  split; [exact Hinv|]. split; [exact Hp|]. split; [exact Hs|].
  split; [exact Hn0|]. split; [lia|].
  intros j Hj. apply Hm. lia.
Qed.

Lemma dir_ready_after (p : Z) (ino : inode) (b : Z) (m n : nat)
    (s s' : state) :
  dir_ready p ino b (m + n) s -> dir_read b m s s' ->
  dir_ready p ino b n s'.
Proof.
  intros [Hinv [Hp [Hs [Hn0 [Hn Hm]]]]]
         [Hi [Hh [Hf [Ho [Hj [Hmf [Hmc [Hrn [Hz [Hk Hv]]]]]]]]]].
  unfold dir_ready.
  split; [exact Hi|]. split; [rewrite Hh; exact Hp|].
  split.
  { destruct (Nat.eq_dec m 0) as [->|Hm0].
    - rewrite Hz by reflexivity. exact Hs.
    - left. apply Hk. lia. }
  split; [lia|]. split; [lia|].
  intros j Hlt. rewrite Hmf, Hmc.
  replace (malloc_calls s + m + j)%nat with (malloc_calls s + (m + j))%nat
    by lia.
  apply Hm. lia.
Qed.

Lemma entry_at_length (bytes : list byte) (j : nat) :
  (20 * j + 20 <= List.length bytes)%nat ->
  List.length (entry_at bytes j) = 20%nat.
Proof.
  intros H. unfold entry_at. rewrite length_firstn, length_skipn. lia.
Qed.

(** *** Names *)

Lemma c_chars_no_nul (l : list byte) :
  Forall (fun c => Byte.eqb c x00 = false) (OnDisk.c_chars l).
Proof.
  induction l as [|c r IH]; cbn [OnDisk.c_chars]; [constructor|].
  destruct (Byte.eqb c x00) eqn:E; constructor; assumption.
Qed.

(** [strcmp] against a name field says "equal" exactly when the field
    holds the characters of the string and a terminator behind them. *)
Lemma str_eq_c_chars (a : list byte) :
  forall (buf : list byte) (n : nat),
    Forall (fun c => Byte.eqb c x00 = false) a ->
    (List.length a < n)%nat -> (n <= List.length buf)%nat ->
    (OnDisk.str_eq a buf = Some true <-> OnDisk.c_chars (firstn n buf) = a).
Proof.
  induction a as [|x a IH]; intros buf n Hnn Hlen Hbuf;
    (destruct buf as [|c r]; [simpl in Hbuf; lia|]);
    (destruct n as [|n]; [lia|]);
    cbn [OnDisk.str_eq firstn OnDisk.c_chars].
  - destruct (Byte.eqb c x00); split; intros H; congruence.
  - inversion Hnn as [|? ? Hx Ha]; subst.
    destruct (Byte.eqb x c) eqn:Exc.
    + apply Byte.byte_dec_bl in Exc. subst c. rewrite Hx. rewrite (IH r n Ha); [|simpl in Hlen; lia|simpl in Hbuf; lia].
      split; intros H; congruence.
    + assert (Hne : x <> c) by (apply Byte.eqb_false; exact Exc).
      destruct (Byte.eqb c x00); split; intros H; congruence.
Qed.

Lemma names_spec (nm : string) (e : list byte) :
  (List.length (OnDisk.chars nm) <= NAME_MAX)%nat ->
  List.length e = 20%nat ->
  (names nm e = true <-> entry_named nm e).
Proof.
  intros Hnm He. unfold names, entry_named, OnDisk.entry_name.
  pose proof (str_eq_c_chars (OnDisk.chars nm) (skipn 4 e) 15
                (c_chars_no_nul _)
                ltac:(unfold NAME_MAX in Hnm; lia)
                ltac:(rewrite length_skipn; lia)) as Hs.
  destruct (OnDisk.entry_in_use e); cbn [andb].
  - destruct (OnDisk.str_eq (OnDisk.chars nm) (skipn 4 e)) as [[|]|].
    + split; [intros _; split; [reflexivity | apply Hs; reflexivity]
             | reflexivity].
    + split; [discriminate|]. intros [_ H]. apply Hs in H. discriminate.
    + split; [discriminate|]. intros [_ H]. apply Hs in H. discriminate.
  - split; [discriminate | intros [H _]; discriminate].
Qed.

(** What [find_entry] finds: the first entry of the name. *)
Lemma find_entry_spec (nm : string) (f : nat -> list byte) (n : nat) :
  forall j,
    match find_entry nm (map f (seq j n)) j with
    | Some (e, ofs) =>
        exists i, (j <= i < j + n)%nat /\ ofs = 20 * Z.of_nat i /\
                  e = f i /\ names nm (f i) = true /\
                  (forall i', (j <= i' < i)%nat -> names nm (f i') = false) /\
                  reads_to nm (map f (seq j n)) = S (i - j)
    | None =>
        (forall i, (j <= i < j + n)%nat -> names nm (f i) = false) /\
        reads_to nm (map f (seq j n)) = n
    end.
Proof.
  induction n as [|n IH]; intros j; cbn [seq map find_entry reads_to].
  - split; [intros i Hi; lia | reflexivity].
  - destruct (names nm (f j)) eqn:E.
    + exists j. split; [lia|]. split; [reflexivity|]. split; [reflexivity|].
      split; [exact E|]. split; [intros i' Hi'; lia | lia].
    + specialize (IH (S j)).
      destruct (find_entry nm (map f (seq (S j) n)) (S j)) as [[e ofs]|].
      * destruct IH as [i [Hi [Hofs [He [Hn [Hfirst Hr]]]]]].
        exists i. split; [lia|]. split; [exact Hofs|]. split; [exact He|].
        split; [exact Hn|]. split; [|lia].
        intros i' Hi'. destruct (Nat.eq_dec i' j) as [->|Hne]; [exact E|].
        apply Hfirst. lia.
      * destruct IH as [Hall Hr]. split; [|lia].
        intros i Hi. destruct (Nat.eq_dec i j) as [->|Hne]; [exact E|].
        apply Hall. lia.
Qed.

(** *** Entries in a patched sector *)

Lemma nth_patch (v c : list byte) (ofs : Z) (n : nat) :
  0 <= ofs -> (Z.to_nat ofs + List.length c <= List.length v)%nat ->
  nth n (patch v ofs c) x00 =
  if (Z.to_nat ofs <=? n)%nat && (n <? Z.to_nat ofs + List.length c)%nat
  then nth (n - Z.to_nat ofs) c x00 else nth n v x00.
Proof.
  intros Ho Hfit. unfold patch.
  destruct (Nat.leb_spec (Z.to_nat ofs) n) as [Hle|Hlt]; cbn [andb].
  - rewrite app_nth2 by (rewrite length_firstn; lia).
    rewrite length_firstn.
    replace (Nat.min (Z.to_nat ofs) (List.length v)) with (Z.to_nat ofs)
      by lia.
    destruct (Nat.ltb_spec n (Z.to_nat ofs + List.length c)) as [Hin|Hout].
    + rewrite app_nth1 by lia. reflexivity.
    + rewrite app_nth2 by lia. rewrite nth_skipn. f_equal. lia.
  - rewrite app_nth1 by (rewrite length_firstn; lia).
    rewrite nth_firstn.
    destruct (Nat.ltb_spec n (Z.to_nat ofs)); [reflexivity | lia].
Qed.

Lemma nth_entry_at (v : list byte) (i n : nat) :
  (n < 20)%nat -> nth n (entry_at v i) x00 = nth (20 * i + n) v x00.
Proof.
  intros Hn. unfold entry_at. rewrite nth_firstn.
  destruct (Nat.ltb_spec n 20); [|lia]. apply nth_skipn.
Qed.

(** Patching entry [j] of a sector changes that entry and no other. *)
Lemma entry_at_patch (v e : list byte) (j i : nat) :
  List.length e = 20%nat ->
  (20 * j + 20 <= List.length v)%nat -> (20 * i + 20 <= List.length v)%nat ->
  entry_at (patch v (20 * Z.of_nat j) e) i =
  if Nat.eqb i j then e else entry_at v i.
Proof.
  intros He Hj Hi.
  assert (Hpl : List.length (patch v (20 * Z.of_nat j) e) = List.length v)
    by (apply patch_length; lia).
  apply (nth_ext _ _ x00 x00).
  - rewrite entry_at_length by lia.
    destruct (Nat.eqb i j); [lia | rewrite entry_at_length; lia].
  - intros n Hn. rewrite entry_at_length in Hn by lia.
    rewrite nth_entry_at by exact Hn.
    rewrite nth_patch by lia.
    replace (Z.to_nat (20 * Z.of_nat j)) with (20 * j)%nat by lia.
    rewrite He.
    destruct (Nat.eqb_spec i j) as [->|Hne].
    + destruct (Nat.leb_spec (20 * j) (20 * j + n)); [|lia].
      destruct (Nat.ltb_spec (20 * j + n) (20 * j + 20)); [|lia].
      cbn [andb]. f_equal. lia.
    + rewrite nth_entry_at by exact Hn.
      destruct (Nat.leb_spec (20 * j) (20 * i + n));
        destruct (Nat.ltb_spec (20 * i + n) (20 * j + 20));
        cbn [andb]; try reflexivity.
      exfalso. lia.
Qed.

(** *** The entry [dir_add] writes *)

Lemma chars_length_le (l : list byte) :
  (List.length (OnDisk.c_chars l) <= List.length l)%nat.
Proof.
  induction l as [|c r IH]; cbn [OnDisk.c_chars List.length]; [lia|].
  destruct (Byte.eqb c x00); cbn [List.length]; lia.
Qed.

Lemma c_chars_stop (a r : list byte) :
  Forall (fun c => Byte.eqb c x00 = false) a ->
  OnDisk.c_chars (a ++ x00 :: r) = a.
Proof.
  induction a as [|x a IH]; intros H; [reflexivity|].
  inversion H as [|? ? Hx Ha]; subst. cbn [app OnDisk.c_chars].
  rewrite Hx, IH by exact Ha. reflexivity.
Qed.

(** The entry [dir_add] builds in [e]: the sector number, the name with
    its terminator and what the name field held behind it, and the
    flag. *)
Lemma new_entry_form (nm : string) (sec : Z) (e : list byte) :
  (List.length (OnDisk.chars nm) <= NAME_MAX)%nat ->
  List.length e = 20%nat ->
  exists tail,
    List.length (OnDisk.chars nm ++ x00 :: tail) = 15%nat /\
    OnDisk.set_entry_sector sec
      (OnDisk.set_entry_name nm (OnDisk.set_entry_in_use true e))
    = word_bytes sec ++ (OnDisk.chars nm ++ x00 :: tail) ++ [x01].
Proof.
  intros Hnm He.
  set (c := OnDisk.chars nm) in *.
  set (U := OnDisk.set_entry_in_use true e).
  assert (Hu : List.length U = 20%nat).
  { unfold U, OnDisk.set_entry_in_use.
    rewrite length_app, length_firstn. cbn [List.length]. lia. }
  exists (skipn (List.length c + 1) (OnDisk.entry_name U)).
  assert (Hname : List.length
                    (c ++ x00 :: skipn (List.length c + 1)
                                   (OnDisk.entry_name U)) = 15%nat).
  { rewrite length_app. cbn [List.length]. rewrite length_skipn.
    unfold OnDisk.entry_name.
    rewrite length_firstn, length_skipn, Hu.
    unfold NAME_MAX in Hnm. lia. }
  split; [exact Hname|].
  unfold OnDisk.set_entry_sector, OnDisk.set_entry_name. fold c.
  rewrite (firstn_all2 (n := NAME_MAX) c) by exact Hnm.
  f_equal.
  rewrite skipn_app, length_firstn, Hu.
  replace (Nat.min 4 20) with 4%nat by reflexivity.
  rewrite skipn_all2 by (rewrite length_firstn; lia).
  change (4 - 4)%nat with 0%nat. rewrite skipn_O. cbn [app]. f_equal.
  unfold U, OnDisk.set_entry_in_use.
  rewrite skipn_app, length_firstn, He.
  replace (Nat.min 19 20) with 19%nat by reflexivity.
  rewrite skipn_all2 by (rewrite length_firstn; lia).
  reflexivity.
Qed.

Lemma new_entry (nm : string) (sec : Z) (e : list byte) :
  (List.length (OnDisk.chars nm) <= NAME_MAX)%nat ->
  List.length e = 20%nat ->
  let e' := OnDisk.set_entry_sector sec
              (OnDisk.set_entry_name nm (OnDisk.set_entry_in_use true e)) in
  List.length e' = 20%nat /\ OnDisk.entry_sector e' = u32 sec /\
  entry_named nm e'.
Proof.
  intros Hnm He. cbv zeta.
  destruct (new_entry_form nm sec e Hnm He) as [tail [Hl ->]].
  set (N := OnDisk.chars nm ++ x00 :: tail) in *.
  assert (Hw : List.length (word_bytes sec) = 4%nat) by reflexivity.
  split; [|split; [|split]].
  - rewrite !length_app, Hl, Hw. reflexivity.
  - unfold OnDisk.entry_sector, word_at. cbn [Nat.mul Nat.add].
    rewrite !app_nth1 by (rewrite Hw; lia).
    exact (word_at_words_bytes [sec] 0 ltac:(cbn; lia)).
  - unfold OnDisk.entry_in_use.
    rewrite app_nth2 by (rewrite Hw; lia).
    rewrite app_nth2 by (rewrite Hw, Hl; lia).
    rewrite Hw, Hl. reflexivity.
  - unfold OnDisk.entry_name.
    rewrite skipn_app, Hw. change (4 - 4)%nat with 0%nat.
    rewrite skipn_O, skipn_all2 by (rewrite Hw; lia). cbn [app].
    rewrite firstn_app, Hl. change (15 - 15)%nat with 0%nat.
    rewrite firstn_O, app_nil_r, firstn_all2 by lia.
    unfold N. apply c_chars_stop, c_chars_no_nul.
Qed.


Lemma stack_entry_run (s : state) :
  exists e, OnDisk.stack_entry s = Done e s /\ List.length e = 20%nat.
Proof.
  eexists. split; [reflexivity|].
  rewrite length_firstn, length_app, repeat_length. lia.
Qed.

Lemma str_eq_some (a buf : list byte) :
  (List.length a < List.length buf)%nat -> OnDisk.str_eq a buf <> None.
Proof.
  revert a. induction buf as [|c r IH]; intros a H; [simpl in H; lia|].
  destruct a as [|x a]; cbn [OnDisk.str_eq]; [discriminate|].
  destruct (Byte.eqb x c); [|discriminate].
  apply IH. simpl in H. lia.
Qed.

Lemma reads_to_le (nm : string) (es : list (list byte)) :
  (reads_to nm es <= List.length es)%nat.
Proof.
  induction es as [|e t IH]; cbn [reads_to List.length]; [lia|].
  destruct (names nm e); lia.
Qed.

Lemma reads_free_le (es : list (list byte)) :
  (reads_free es <= List.length es)%nat.
Proof.
  induction es as [|e t IH]; cbn [reads_free List.length]; [lia|].
  destruct (OnDisk.entry_in_use e); lia.
Qed.

(** *** Names read back *)

Lemma strlen_in_prefix (buf : list byte) :
  forall n len,
    OnDisk.strlen_in (firstn n buf) = Some len ->
    OnDisk.strlen_in buf = Some len /\ (len < n)%nat /\
    OnDisk.c_chars (firstn n buf) = firstn len buf.
Proof.
  induction buf as [|c r IH]; intros n len H.
  - rewrite firstn_nil in H. discriminate.
  - destruct n as [|n]; [discriminate|].
    cbn [firstn OnDisk.strlen_in OnDisk.c_chars] in *.
    destruct (Byte.eqb c x00).
    + injection H as <-. split; [reflexivity|]. split; [lia | reflexivity].
    + destruct (OnDisk.strlen_in (firstn n r)) as [l|] eqn:E; [|discriminate].
      injection H as <-. destruct (IH n l E) as [H1 [H2 H3]].
      rewrite H1, H3. split; [reflexivity|]. split; [lia | reflexivity].
Qed.

(** What [strlcpy (name, e.name, NAME_MAX + 1)] stores for an entry
    whose name has its terminator. *)
Lemma name_read_back (e : list byte) :
  terminated e ->
  exists len,
    OnDisk.strlen_in (skipn 4 e) = Some len /\
    firstn (Nat.min len NAME_MAX) (skipn 4 e)
    = OnDisk.c_chars (OnDisk.entry_name e).
Proof.
  unfold terminated, OnDisk.entry_name. intros Ht.
  destruct (OnDisk.strlen_in (firstn 15 (skipn 4 e))) as [len|] eqn:E;
    [|congruence].
  destruct (strlen_in_prefix _ _ _ E) as [H1 [H2 H3]].
  exists len. split; [exact H1|]. rewrite H3. f_equal.
  unfold NAME_MAX. lia.
Qed.

Lemma reads_used_le (es : list (list byte)) :
  (reads_used es <= List.length es)%nat.
Proof.
  induction es as [|e t IH]; cbn [reads_used List.length]; [lia|].
  destruct (OnDisk.entry_in_use e); lia.
Qed.

Lemma reads_foreign_le (es : list (list byte)) :
  (reads_foreign es <= List.length es)%nat.
Proof.
  induction es as [|e t IH]; cbn [reads_foreign List.length]; [lia|].
  destruct (foreign e); lia.
Qed.

Section OneSector.
Variables (p : Z) (ino : inode) (b : Z) (k : nat).
Hypothesis Hlen : length (data ino) = 20 * Z.of_nat k.
Hypothesis Hk : (k <= 25)%nat.
Hypothesis Hb : nth_error (blocks (data ino)) 0 = Some b.

(** Reading an entry that lies in the file: one allocation for the
    bounce buffer, one read through the cache. *)
Lemma read_entry_inside (s : state) (e : list byte) (j : nat) :
  (j < k)%nat -> List.length e = 20%nat -> dir_ready p ino b 1 s ->
  exists s',
    OnDisk.read_entry p e (20 * Z.of_nat j) s =
      Done (20, entry_at (sector_view s fs_device b) j) s' /\
    dir_read b 1 s s'.
Proof.
  intros Hj He [Hinv [Hp [Hserve [Hn0 [Hn Hm]]]]].
  specialize (Hm O ltac:(lia)). rewrite Nat.add_0_r in Hm.
  assert (Hrem : Z.rem (20 * Z.of_nat j) BLOCK_SECTOR_SIZE = 20 * Z.of_nat j)
    by (apply Z.rem_small; unfold BLOCK_SECTOR_SIZE; lia).
  unfold OnDisk.read_entry, inode_read_at.
  change (Z.to_nat OnDisk.ENTRY_SIZE) with (S 19).
  unfold OnDisk.ENTRY_SIZE.
  rewrite read_loop_round. cbn [Z.gtb Z.compare].
  rewrite !bind_assoc. unfold bind at 1, deref. rewrite Hp.
  rewrite !bind_assoc.
  rewrite (bind_Done _ _ _ _ _
             (byte_to_sector_direct ino (20 * Z.of_nat j) b s
                ltac:(lia) ltac:(unfold BLOCK_SECTOR_SIZE; lia)
                ltac:(rewrite Z.div_small by (unfold BLOCK_SECTOR_SIZE; lia);
                      exact Hb))).
  cbv zeta. unfold inode_length.
  rewrite (chunk_is_size (length (data ino)) 20 (20 * Z.of_nat j))
    by (rewrite ?Hrem; unfold BLOCK_SECTOR_SIZE; lia).
  cbn [Z.leb Z.compare].
  replace ((Z.rem (20 * Z.of_nat j) BLOCK_SECTOR_SIZE =? 0)
           && (20 =? BLOCK_SECTOR_SIZE)) with false
    by (rewrite andb_comm; reflexivity).
  unfold need_bounce. rewrite !bind_assoc. unfold bind at 1. unfold malloc.
  rewrite Hm. unfold bind at 1, ret.
  set (sm := set_malloc_calls (S (malloc_calls s)) s).
  assert (Hinvm : cache_inv sm) by (apply (cache_inv_ext s); auto).
  assert (Hservem : cached sm fs_device b <> None \/ evictable sm).
  { destruct Hserve as [H1|H1]; [left; exact H1 | right; exact H1]. }
  destruct (cache_read_total sm fs_device b Hinvm Hservem
              ltac:(unfold READ_AHEAD_BUFFER_SIZE in *;
                    change (read_head_buffer_n sm) with (read_head_buffer_n s);
                    lia))
    as [s' [Hrd [Hinv' [Hnb [Hrest [Hc Hview]]]]]].
  apply rest_of_eq in Hrest.
  destruct Hrest as [Hfm [Hmf [Hmc [Hh [Hoi [Hjk _]]]]]].
  rewrite !bind_assoc. rewrite (bind_Done _ _ _ _ _ Hrd).
  change (20 - 20) with 0. rewrite (bind_Done _ _ _ _ _ (read_loop_done _ _ _ _ _ _ _)).
  cbn [fst snd app]. rewrite Hrem.
  assert (Hv512 : List.length (sector_view s fs_device b) = 512%nat)
    by (apply (sector_view_length s fs_device b Hinv)).
  assert (Hea : firstn (Z.to_nat 20)
                  (skipn (Z.to_nat (20 * Z.of_nat j))
                     (sector_view sm fs_device b))
                = entry_at (sector_view s fs_device b) j).
  { unfold entry_at. rewrite (sector_view_ext s sm) by reflexivity.
    replace (Z.to_nat (20 * Z.of_nat j)) with (20 * j)%nat by lia.
    reflexivity. }
  rewrite Hea, entry_at_length by lia.
  rewrite skipn_all2 by lia. rewrite app_nil_r.
  exists s'. split; [reflexivity|].
  unfold dir_read.
  split; [exact Hinv'|]. split; [rewrite Hh; reflexivity|].
  split; [rewrite Hfm; reflexivity|]. split; [rewrite Hoi; reflexivity|].
  split; [rewrite Hjk; reflexivity|]. split; [rewrite Hmf; reflexivity|].
  split; [rewrite Hmc; cbn; lia|].
  split.
  { rewrite Hnb. change (read_head_buffer_n sm) with (read_head_buffer_n s).
    rewrite u32_small by (unfold READ_AHEAD_BUFFER_SIZE in *; lia). lia. }
  split; [intros H; discriminate|]. split; [intros _; exact Hc|].
  intros dev sec. rewrite Hview. apply sector_view_ext; reflexivity.
Qed.

(** Reading at the end of the file: nothing is read and nothing
    changes. *)
Lemma read_entry_at_end (s : state) (e : list byte) :
  heap s p = Some ino ->
  OnDisk.read_entry p e (20 * Z.of_nat k) s = Done (0, e) s.
Proof.
  intros Hp. unfold OnDisk.read_entry, inode_read_at.
  change (Z.to_nat OnDisk.ENTRY_SIZE) with (S 19).
  unfold OnDisk.ENTRY_SIZE.
  rewrite read_loop_round. cbn [Z.gtb Z.compare].
  rewrite !bind_assoc. unfold bind at 1, deref. rewrite Hp.
  rewrite !bind_assoc.
  rewrite (bind_Done _ _ _ _ _
             (byte_to_sector_past_end s ino (20 * Z.of_nat k) ltac:(lia))).
  cbv zeta. unfold inode_length. rewrite Hlen, Z.sub_diag.
  change (s32 0) with 0.
  assert (Hr : 0 <= Z.rem (20 * Z.of_nat k) BLOCK_SECTOR_SIZE
               < BLOCK_SECTOR_SIZE)
    by (apply Z.rem_bound_pos; unfold BLOCK_SECTOR_SIZE; lia).
  destruct (Z.ltb_spec 0
              (BLOCK_SECTOR_SIZE - Z.rem (20 * Z.of_nat k) BLOCK_SECTOR_SIZE));
    [|lia].
  cbn [Z.ltb Z.leb Z.compare]. reflexivity.
Qed.

(** *** The loop of [lookup] *)

Lemma lookup_from_run (d : OnDisk.dir) (nm : string) (n : nat) :
  forall (j fuel : nat) (e : list byte) (s : state),
    OnDisk.dir_inode d = p -> (j + n = k)%nat -> (n < fuel)%nat ->
    (List.length (OnDisk.chars nm) <= 15)%nat ->
    List.length e = 20%nat ->
    let es := map (entry_at (sector_view s fs_device b)) (seq j n) in
    dir_ready p ino b (reads_to nm es) s ->
    exists s',
      OnDisk.lookup_from fuel d nm e (20 * Z.of_nat j) s =
        Done (find_entry nm es j) s' /\
      dir_read b (reads_to nm es) s s'.
Proof.
  induction n as [|n IH]; intros j fuel e s Hd Hjn Hfuel Hnm He es Hready;
    subst es; (destruct fuel as [|fuel]; [lia|]); cbn [OnDisk.lookup_from].
  - cbn [seq map find_entry reads_to] in *.
    pose proof Hready as [Hinv [Hp _]].
    rewrite Hd, s32_small by lia.
    replace j with k by lia.
    rewrite (bind_Done _ _ _ _ _ (read_entry_at_end s e Hp)).
    cbn [fst]. exists s. split; [reflexivity | apply dir_read_refl, Hinv].
  - cbn [seq map find_entry reads_to] in *.
    rewrite Hd, s32_small by lia.
    assert (Hready1 : dir_ready p ino b 1 s).
    { apply (dir_ready_less p ino b
               (if names nm (entry_at (sector_view s fs_device b) j)
                then 1%nat
                else S (reads_to nm
                          (map (entry_at (sector_view s fs_device b))
                             (seq (S j) n))))); [|exact Hready].
      destruct (names _ _); lia. }
    destruct (read_entry_inside s e j ltac:(lia) He Hready1)
      as [s1 [Hrd Hstep]].
    rewrite (bind_Done _ _ _ _ _ Hrd). cbn [fst snd].
    change (20 =? OnDisk.ENTRY_SIZE) with true. cbv iota.
    pose proof Hready as [Hinv _].
    assert (Hl20 : List.length (entry_at (sector_view s fs_device b) j)
                   = 20%nat).
    { apply entry_at_length.
      rewrite (sector_view_length s fs_device b Hinv).
      change (Z.to_nat BLOCK_SECTOR_SIZE) with 512%nat. lia. }
    assert (Hnext : names nm (entry_at (sector_view s fs_device b) j) = false ->
              exists s',
                OnDisk.lookup_from fuel d nm
                  (entry_at (sector_view s fs_device b) j)
                  (u32 (20 * Z.of_nat j + OnDisk.ENTRY_SIZE)) s1 =
                Done (find_entry nm
                        (map (entry_at (sector_view s fs_device b))
                           (seq (S j) n)) (S j)) s' /\
                dir_read b
                  (S (reads_to nm
                        (map (entry_at (sector_view s fs_device b))
                           (seq (S j) n)))) s s').
    { intros Hno. rewrite Hno in Hready.
      assert (Hv : map (entry_at (sector_view s1 fs_device b)) (seq (S j) n)
                   = map (entry_at (sector_view s fs_device b)) (seq (S j) n)).
      { destruct Hstep as [_ [_ [_ [_ [_ [_ [_ [_ [_ [_ Hv]]]]]]]]]].
        rewrite Hv. reflexivity. }
      destruct (IH (S j) fuel (entry_at (sector_view s fs_device b) j) s1
                  Hd ltac:(lia) ltac:(lia) Hnm Hl20) as [s' [Hrun Hrd']].
      { rewrite Hv. apply (dir_ready_after p ino b 1 _ s); assumption. }
      rewrite Hv in Hrun, Hrd'.
      exists s'. split.
      - unfold OnDisk.ENTRY_SIZE. rewrite u32_small by lia.
        replace (20 * Z.of_nat j + 20) with (20 * Z.of_nat (S j)) by lia.
        exact Hrun.
      - exact (dir_read_trans b 1 _ s s1 s' Hstep Hrd'). }
    unfold names in *.
    destruct (OnDisk.entry_in_use (entry_at (sector_view s fs_device b) j))
      eqn:Euse; cbn [andb] in *; [|apply Hnext; reflexivity].
    destruct (OnDisk.str_eq (OnDisk.chars nm)
                (skipn 4 (entry_at (sector_view s fs_device b) j)))
      as [[|]|] eqn:Eeq.
    + exists s1. split; [reflexivity | exact Hstep].
    + apply Hnext. reflexivity.
    + exfalso. revert Eeq. apply str_eq_some.
      rewrite length_skipn, Hl20. lia.
Qed.


Lemma entry_rounds_run (s : state) :
  heap s p = Some ino -> OnDisk.entry_rounds p s = Done (S k) s.
Proof.
  intros Hp. unfold OnDisk.entry_rounds, bind, deref. rewrite Hp.
  unfold ret, inode_length, OnDisk.ENTRY_SIZE. rewrite Hlen.
  rewrite Z.mul_comm, Z.div_mul by lia. rewrite Nat2Z.id. reflexivity.
Qed.

(** [lookup] in a directory that lies in one sector. *)
Lemma lookup_run (d : OnDisk.dir) (nm : string) (s : state) :
  OnDisk.dir_inode d = p ->
  (List.length (OnDisk.chars nm) <= 15)%nat ->
  let es := entries_of (sector_view s fs_device b) k in
  dir_ready p ino b (reads_to nm es) s ->
  exists s',
    OnDisk.lookup d nm s = Done (find_entry nm es 0) s' /\
    dir_read b (reads_to nm es) s s'.
Proof.
  intros Hd Hnm es Hready. subst es.
  pose proof Hready as [_ [Hp _]].
  unfold OnDisk.lookup. rewrite Hd.
  rewrite (bind_Done _ _ _ _ _ (entry_rounds_run s Hp)).
  destruct (stack_entry_run s) as [e [He Hel]].
  rewrite (bind_Done _ _ _ _ _ He).
  exact (lookup_from_run d nm k 0 (S k) e s Hd ltac:(lia) ltac:(lia) Hnm Hel
           Hready).
Qed.

(** *** The loop of [dir_add] and the write of an entry *)

Lemma free_slot_from_run (d : OnDisk.dir) (n : nat) :
  forall (j fuel : nat) (e : list byte) (s : state),
    OnDisk.dir_inode d = p -> (j + n = k)%nat -> (n < fuel)%nat ->
    List.length e = 20%nat ->
    let es := map (entry_at (sector_view s fs_device b)) (seq j n) in
    dir_ready p ino b (reads_free es) s ->
    exists s',
      OnDisk.free_slot_from fuel d e (20 * Z.of_nat j) s =
        Done (free_slot es j e) s' /\
      dir_read b (reads_free es) s s'.
Proof.
  induction n as [|n IH]; intros j fuel e s Hd Hjn Hfuel He es Hready;
    subst es; (destruct fuel as [|fuel]; [lia|]);
    cbn [OnDisk.free_slot_from].
  - cbn [seq map free_slot reads_free] in *.
    pose proof Hready as [Hinv [Hp _]].
    rewrite Hd. replace j with k by lia.
    rewrite (bind_Done _ _ _ _ _ (read_entry_at_end s e Hp)).
    cbn [fst snd]. exists s. split; [reflexivity | apply dir_read_refl, Hinv].
  - cbn [seq map free_slot reads_free] in *.
    rewrite Hd.
    assert (Hready1 : dir_ready p ino b 1 s).
    { apply (dir_ready_less p ino b
               (if OnDisk.entry_in_use
                     (entry_at (sector_view s fs_device b) j)
                then S (reads_free
                          (map (entry_at (sector_view s fs_device b))
                             (seq (S j) n)))
                else 1%nat)); [|exact Hready].
      destruct (OnDisk.entry_in_use _); lia. }
    destruct (read_entry_inside s e j ltac:(lia) He Hready1)
      as [s1 [Hrd Hstep]].
    rewrite (bind_Done _ _ _ _ _ Hrd). cbn [fst snd].
    change (20 =? OnDisk.ENTRY_SIZE) with true. cbv iota.
    pose proof Hready as [Hinv _].
    assert (Hl20 : List.length (entry_at (sector_view s fs_device b) j)
                   = 20%nat).
    { apply entry_at_length.
      rewrite (sector_view_length s fs_device b Hinv).
      change (Z.to_nat BLOCK_SECTOR_SIZE) with 512%nat. lia. }
    destruct (OnDisk.entry_in_use (entry_at (sector_view s fs_device b) j))
      eqn:Euse; [|exists s1; split; [reflexivity | exact Hstep]].
    assert (Hv : map (entry_at (sector_view s1 fs_device b)) (seq (S j) n)
                 = map (entry_at (sector_view s fs_device b)) (seq (S j) n)).
    { destruct Hstep as [_ [_ [_ [_ [_ [_ [_ [_ [_ [_ Hv]]]]]]]]]].
      rewrite Hv. reflexivity. }
    destruct (IH (S j) fuel (entry_at (sector_view s fs_device b) j) s1
                Hd ltac:(lia) ltac:(lia) Hl20) as [s' [Hrun Hrd']].
    { rewrite Hv. apply (dir_ready_after p ino b 1 _ s); assumption. }
    rewrite Hv in Hrun, Hrd'.
    exists s'. split.
    + unfold OnDisk.ENTRY_SIZE. rewrite s32_small by lia.
      replace (20 * Z.of_nat j + 20) with (20 * Z.of_nat (S j)) by lia.
      exact Hrun.
    + exact (dir_read_trans b 1 _ s s1 s' Hstep Hrd').
Qed.

(** Writing an entry that lies in the file: the file does not grow, the
    sector is patched in the cache. *)
Lemma write_entry_inside (s : state) (e : list byte) (j : nat) :
  (j < k)%nat -> List.length e = 20%nat -> deny_write_cnt ino = 0 ->
  dir_ready p ino b 1 s ->
  exists s',
    inode_write_at p e OnDisk.ENTRY_SIZE (20 * Z.of_nat j) s = Done 20 s' /\
    cache_inv s' /\ heap s' = heap s /\ free_map s' = free_map s /\
    open_inodes s' = open_inodes s /\
    cached s' fs_device b <> None /\
    sector_view s' fs_device b =
      patch (sector_view s fs_device b) (20 * Z.of_nat j) e /\
    (forall dev sec, (dev =? fs_device) && (sec =? b) = false ->
                     sector_view s' dev sec = sector_view s dev sec).
Proof.
  intros Hj He Hdeny [Hinv [Hp [Hserve [Hn0 [Hn Hm]]]]].
  specialize (Hm O ltac:(lia)). rewrite Nat.add_0_r in Hm.
  assert (Hrem : Z.rem (20 * Z.of_nat j) BLOCK_SECTOR_SIZE = 20 * Z.of_nat j)
    by (apply Z.rem_small; unfold BLOCK_SECTOR_SIZE; lia).
  unfold inode_write_at, OnDisk.ENTRY_SIZE.
  unfold bind at 1, deref. rewrite Hp. rewrite Hdeny. cbn [Z.eqb negb].
  unfold inode_length. rewrite s32_small by lia.
  destruct (Z.gtb_spec (20 * Z.of_nat j + 20) (length (data ino))); [lia|].
  unfold bind at 1, ret.
  change (Z.to_nat 20) with (S 19).
  destruct (write_loop_one_chunk p ino 20 (20 * Z.of_nat j) b
              ltac:(lia) ltac:(lia) ltac:(lia) ltac:(lia)
              ltac:(unfold BLOCK_SECTOR_SIZE; lia)
              ltac:(rewrite Hrem; unfold BLOCK_SECTOR_SIZE; lia)
              ltac:(rewrite Z.div_small by (unfold BLOCK_SECTOR_SIZE; lia);
                    exact Hb)
              19%nat s e Hinv Hp Hserve
              ltac:(unfold READ_AHEAD_BUFFER_SIZE in *; lia) Hm
              ltac:(rewrite He; reflexivity))
    as [s' [Hw [Hinv' [Hh [Hfm [Hc [_ [_ [_ [Hview Hother]]]]]]]]]].
  pose proof (quiet_write_loop _ _ _ _ _ _ _ _ _ _ Hw) as [_ [Hoi _]].
  exists s'. rewrite Hrem in Hview.
  split; [exact Hw|]. split; [exact Hinv'|]. split; [exact Hh|].
  split; [exact Hfm|]. split; [exact Hoi|]. split; [exact Hc|].
  split; [exact Hview | exact Hother].
Qed.

(** *** The loops of [dir_readdir] and [dir_is_empty] *)

Lemma readdir_from_run (n : nat) :
  forall (j fuel : nat) (e : list byte) (s : state),
    (j + n = k)%nat -> (n < fuel)%nat -> List.length e = 20%nat ->
    let es := map (entry_at (sector_view s fs_device b)) (seq j n) in
    Forall (fun x => OnDisk.entry_in_use x = true -> terminated x) es ->
    dir_ready p ino b (reads_used es) s ->
    exists s',
      OnDisk.readdir_from fuel p e (20 * Z.of_nat j) s =
        Done (match next_used es j with
              | Some (x, i) =>
                  (Some (OnDisk.c_chars (OnDisk.entry_name x)),
                   20 * Z.of_nat (S i))
              | None => (None, 20 * Z.of_nat k)
              end) s' /\
      dir_read b (reads_used es) s s'.
Proof.
  induction n as [|n IH]; intros j fuel e s Hjn Hfuel He es Hterm Hready;
    subst es; (destruct fuel as [|fuel]; [lia|]);
    cbn [OnDisk.readdir_from].
  - cbn [seq map next_used reads_used] in *.
    pose proof Hready as [Hinv [Hp _]].
    replace j with k by lia.
    rewrite (bind_Done _ _ _ _ _ (read_entry_at_end s e Hp)).
    cbn [fst snd]. exists s. split; [reflexivity | apply dir_read_refl, Hinv].
  - cbn [seq map next_used reads_used] in *.
    pose proof (Forall_inv Hterm) as Hterm0.
    pose proof (Forall_inv_tail Hterm) as Htermr.
    assert (Hready1 : dir_ready p ino b 1 s).
    { apply (dir_ready_less p ino b
               (if OnDisk.entry_in_use
                     (entry_at (sector_view s fs_device b) j)
                then 1%nat
                else S (reads_used
                          (map (entry_at (sector_view s fs_device b))
                             (seq (S j) n))))); [|exact Hready].
      destruct (OnDisk.entry_in_use _); lia. }
    destruct (read_entry_inside s e j ltac:(lia) He Hready1)
      as [s1 [Hrd Hstep]].
    rewrite (bind_Done _ _ _ _ _ Hrd). cbn [fst snd].
    change (20 =? OnDisk.ENTRY_SIZE) with true. cbv iota zeta.
    pose proof Hready as [Hinv _].
    assert (Hl20 : List.length (entry_at (sector_view s fs_device b) j)
                   = 20%nat).
    { apply entry_at_length.
      rewrite (sector_view_length s fs_device b Hinv).
      change (Z.to_nat BLOCK_SECTOR_SIZE) with 512%nat. lia. }
    unfold OnDisk.ENTRY_SIZE. rewrite s32_small by lia.
    replace (20 * Z.of_nat j + 20) with (20 * Z.of_nat (S j)) by lia.
    destruct (OnDisk.entry_in_use (entry_at (sector_view s fs_device b) j))
      eqn:Euse.
    + destruct (name_read_back _ (Hterm0 Euse)) as [len [Hlen' Hname]].
      rewrite Hlen', Hname.
      exists s1. split; [reflexivity | exact Hstep].
    + assert (Hv : map (entry_at (sector_view s1 fs_device b)) (seq (S j) n)
                   = map (entry_at (sector_view s fs_device b)) (seq (S j) n)).
      { destruct Hstep as [_ [_ [_ [_ [_ [_ [_ [_ [_ [_ Hv]]]]]]]]]].
        rewrite Hv. reflexivity. }
      destruct (IH (S j) fuel (entry_at (sector_view s fs_device b) j) s1
                  ltac:(lia) ltac:(lia) Hl20) as [s' [Hrun Hrd']].
      { rewrite Hv. exact Htermr. }
      { rewrite Hv. apply (dir_ready_after p ino b 1 _ s); assumption. }
      rewrite Hv in Hrun, Hrd'.
      exists s'. split; [exact Hrun|].
      exact (dir_read_trans b 1 _ s s1 s' Hstep Hrd').
Qed.

Lemma is_empty_from_run (n : nat) :
  forall (j fuel : nat) (e : list byte) (s : state),
    (j + n = k)%nat -> (n < fuel)%nat -> List.length e = 20%nat ->
    let es := map (entry_at (sector_view s fs_device b)) (seq j n) in
    dir_ready p ino b (reads_foreign es) s ->
    exists s',
      OnDisk.is_empty_from fuel p e (20 * Z.of_nat j) s =
        Done (negb (existsb foreign es)) s' /\
      dir_read b (reads_foreign es) s s'.
Proof.
  induction n as [|n IH]; intros j fuel e s Hjn Hfuel He es Hready;
    subst es; (destruct fuel as [|fuel]; [lia|]);
    cbn [OnDisk.is_empty_from].
  - cbn [seq map existsb reads_foreign] in *.
    pose proof Hready as [Hinv [Hp _]].
    replace j with k by lia.
    rewrite (bind_Done _ _ _ _ _ (read_entry_at_end s e Hp)).
    cbn [fst snd]. exists s. split; [reflexivity | apply dir_read_refl, Hinv].
  - cbn [seq map existsb reads_foreign] in *.
    assert (Hready1 : dir_ready p ino b 1 s).
    { apply (dir_ready_less p ino b
               (if foreign (entry_at (sector_view s fs_device b) j)
                then 1%nat
                else S (reads_foreign
                          (map (entry_at (sector_view s fs_device b))
                             (seq (S j) n))))); [|exact Hready].
      destruct (foreign _); lia. }
    destruct (read_entry_inside s e j ltac:(lia) He Hready1)
      as [s1 [Hrd Hstep]].
    rewrite (bind_Done _ _ _ _ _ Hrd). cbn [fst snd].
    change (20 =? OnDisk.ENTRY_SIZE) with true. cbv iota.
    pose proof Hready as [Hinv _].
    assert (Hl20 : List.length (entry_at (sector_view s fs_device b) j)
                   = 20%nat).
    { apply entry_at_length.
      rewrite (sector_view_length s fs_device b Hinv).
      change (Z.to_nat BLOCK_SECTOR_SIZE) with 512%nat. lia. }
    unfold OnDisk.ENTRY_SIZE. rewrite s32_small by lia.
    replace (20 * Z.of_nat j + 20) with (20 * Z.of_nat (S j)) by lia.
    set (x := entry_at (sector_view s fs_device b) j) in *.
    assert (Hnext : foreign x = false ->
              exists s',
                OnDisk.is_empty_from fuel p x (20 * Z.of_nat (S j)) s1 =
                Done (negb (false ||
                            existsb foreign
                              (map (entry_at (sector_view s fs_device b))
                                 (seq (S j) n)))) s' /\
                dir_read b
                  (S (reads_foreign
                        (map (entry_at (sector_view s fs_device b))
                           (seq (S j) n)))) s s').
    { intros Hno. rewrite Hno in Hready.
      assert (Hv : map (entry_at (sector_view s1 fs_device b)) (seq (S j) n)
                   = map (entry_at (sector_view s fs_device b)) (seq (S j) n)).
      { destruct Hstep as [_ [_ [_ [_ [_ [_ [_ [_ [_ [_ Hv]]]]]]]]]].
        rewrite Hv. reflexivity. }
      destruct (IH (S j) fuel x s1 ltac:(lia) ltac:(lia) Hl20)
        as [s' [Hrun Hrd']].
      { rewrite Hv. apply (dir_ready_after p ino b 1 _ s); assumption. }
      rewrite Hv in Hrun, Hrd'.
      exists s'. split; [exact Hrun|].
      exact (dir_read_trans b 1 _ s s1 s' Hstep Hrd'). }
    unfold foreign, names in *.
    change (OnDisk.chars ".") with [x2e] in *.
    change (OnDisk.chars "..") with [x2e; x2e] in *.
    destruct (OnDisk.entry_in_use x) eqn:Euse; cbn [andb] in *;
      [|apply Hnext; reflexivity].
    destruct (OnDisk.str_eq [x2e] (skipn 4 x)) as [a|] eqn:Ea.
    2:{ exfalso. revert Ea. apply str_eq_some.
        rewrite length_skipn, Hl20. cbn. lia. }
    destruct (OnDisk.str_eq [x2e; x2e] (skipn 4 x)) as [c|] eqn:Ec.
    2:{ exfalso. revert Ec. apply str_eq_some.
        rewrite length_skipn, Hl20. cbn. lia. }
    destruct a, c; cbn [negb andb orb] in *;
      try (apply Hnext; reflexivity).
    exists s1. split; [reflexivity | exact Hstep].
Qed.

End OneSector.

(** *** Adding an entry *)

Lemma free_slot_spec (f : nat -> list byte) (n : nat) :
  forall j0 j e,
    (j0 <= j < j0 + n)%nat -> OnDisk.entry_in_use (f j) = false ->
    (forall i, (j0 <= i < j)%nat -> OnDisk.entry_in_use (f i) = true) ->
    free_slot (map f (seq j0 n)) j0 e = (f j, 20 * Z.of_nat j) /\
    reads_free (map f (seq j0 n)) = S (j - j0).
Proof.
  induction n as [|n IH]; intros j0 j e Hj Hfree Hused; [lia|].
  cbn [seq map free_slot reads_free].
  destruct (Nat.eq_dec j j0) as [->|Hne].
  - rewrite Hfree. split; [reflexivity | lia].
  - rewrite (Hused j0) by lia.
    destruct (IH (S j0) j (f j0) ltac:(lia) Hfree
                ltac:(intros i Hi; apply Hused; lia)) as [H1 H2].
    split; [exact H1 | lia].
Qed.

Lemma find_entry_none (nm : string) (f : nat -> list byte) (k : nat) :
  (forall i, (i < k)%nat -> names nm (f i) = false) ->
  find_entry nm (map f (seq 0 k)) 0 = None /\
  reads_to nm (map f (seq 0 k)) = k.
Proof.
  intros Hall. pose proof (find_entry_spec nm f k 0) as H.
  destruct (find_entry nm (map f (seq 0 k)) 0) as [[e ofs]|].
  - destruct H as [i [Hi [_ [_ [Hn _]]]]]. rewrite Hall in Hn by lia.
    discriminate.
  - destruct H as [_ Hr]. split; [reflexivity | exact Hr].
Qed.

Lemma find_entry_at (nm : string) (f : nat -> list byte) (k j : nat) :
  (j < k)%nat -> names nm (f j) = true ->
  (forall i, (i < j)%nat -> names nm (f i) = false) ->
  find_entry nm (map f (seq 0 k)) 0 = Some (f j, 20 * Z.of_nat j) /\
  reads_to nm (map f (seq 0 k)) = S j.
Proof.
  intros Hj Hn Hfirst. pose proof (find_entry_spec nm f k 0) as H.
  destruct (find_entry nm (map f (seq 0 k)) 0) as [[e ofs]|].
  - destruct H as [i [Hi [Hofs [He [Hni [Hbefore Hr]]]]]].
    assert (i = j).
    { destruct (Nat.lt_trichotomy i j) as [Hlt|[Heq|Hgt]]; [|exact Heq|].
      - rewrite Hfirst in Hni by exact Hlt. discriminate.
      - rewrite Hbefore in Hn by lia. discriminate. }
    subst i. split; [congruence | lia].
  - destruct H as [Hall _]. rewrite Hall in Hn by lia. discriminate.
Qed.

Lemma not_named (nm : string) (e : list byte) :
  (List.length (OnDisk.chars nm) <= NAME_MAX)%nat ->
  List.length e = 20%nat -> ~ entry_named nm e -> names nm e = false.
Proof.
  intros Hnm He Hno. destruct (names nm e) eqn:E; [|reflexivity].
  exfalso. apply Hno. apply names_spec; assumption.
Qed.

Lemma view_entry_length (s : state) (b : Z) (k i : nat) :
  cache_inv s -> (k <= 25)%nat -> (i < k)%nat ->
  List.length (entry_at (sector_view s fs_device b) i) = 20%nat.
Proof.
  intros Hinv Hk Hi. apply entry_at_length.
  rewrite (sector_view_length s fs_device b Hinv).
  change (Z.to_nat BLOCK_SECTOR_SIZE) with 512%nat. lia.
Qed.

Lemma rooted_ready (m : nat) :
  (m <= 64)%nat -> dir_ready 1 root_inode 2 m rooted.
Proof.
  intros Hm. unfold dir_ready.
  split; [exact (cache_init_inv _)|]. split; [reflexivity|].
  split; [right; unfold evictable; apply Exists_cons_hd; left; reflexivity|].
  split; [cbn; lia|]. split; [cbn; unfold READ_AHEAD_BUFFER_SIZE; lia|].
  intros j Hj. reflexivity.
Qed.

Lemma rooted_small_dir : small_dir root_inode 2 5.
Proof. split; [reflexivity|]. split; [lia | reflexivity]. Qed.

Lemma reads_to_le_k (nm : string) (v : list byte) (k : nat) :
  (reads_to nm (entries_of v k) <= k)%nat.
Proof.
  pose proof (reads_to_le nm (entries_of v k)) as H.
  unfold entries_of in *. rewrite length_map, length_seq in H. exact H.
Qed.

(** *** Looking a name up *)

(** X20.  [lookup] and [dir_lookup] of a name of at most [NAME_MAX]
    characters, in a directory of [k] entries, at most 25, whose file
    lies in one sector, on a coherent cache that holds the sector or can
    take it in, with room in the read-ahead queue and allocations that
    succeed for [k] reads: [lookup] returns; it finds the first entry
    that is in use and holds the name, with its offset, having read the
    entries up to that one and no further, or finds none when no entry in
    use holds the name, having read them all; [dir_lookup] then is
    [inode_open] of the sector the entry names, or null.  What the cache
    shows, the in-memory inodes and the free map are as before. *)
Theorem dir_lookup_opens_first (s : state) (d : OnDisk.dir) (ino : inode)
    (b : Z) (k : nat) (nm : string) :
  small_dir ino b k ->
  (List.length (OnDisk.chars nm) <= NAME_MAX)%nat ->
  dir_ready (OnDisk.dir_inode d) ino b k s ->
  exists s1,
    OnDisk.lookup d nm s
      = Done (find_entry nm (entries_of (sector_view s fs_device b) k) 0) s1 /\
    OnDisk.dir_lookup d nm s =
      match find_entry nm (entries_of (sector_view s fs_device b) k) 0 with
      | Some (e, _) => inode_open (OnDisk.entry_sector e) s1
      | None => Done None s1
      end /\
    match find_entry nm (entries_of (sector_view s fs_device b) k) 0 with
    | Some (e, ofs) =>
        exists i, (i < k)%nat /\ ofs = 20 * Z.of_nat i /\
                  e = entry_at (sector_view s fs_device b) i /\
                  entry_named nm e /\
                  (forall i', (i' < i)%nat ->
                     ~ entry_named nm (entry_at (sector_view s fs_device b) i')) /\
                  dir_read b (S i) s s1
    | None =>
        (forall i, (i < k)%nat ->
           ~ entry_named nm (entry_at (sector_view s fs_device b) i)) /\
        dir_read b k s s1
    end.
Proof.
  intros [Hlen [Hk Hb]] Hnm Hready.
  pose proof Hready as [Hinv _].
  set (v := sector_view s fs_device b) in *.
  assert (Hl20 : forall i, (i < k)%nat -> List.length (entry_at v i) = 20%nat)
    by (intros i Hi; apply (view_entry_length s b k i Hinv Hk Hi)).
  destruct (lookup_run (OnDisk.dir_inode d) ino b k Hlen Hk Hb d nm s eq_refl
              ltac:(unfold NAME_MAX in Hnm; lia)) as [s1 [Hlook Hr1]].
  { apply (dir_ready_less _ ino b k); [apply reads_to_le_k | exact Hready]. }
  fold v in Hlook, Hr1.
  exists s1. split; [exact Hlook|]. split.
  { unfold OnDisk.dir_lookup. rewrite (bind_Done _ _ _ _ _ Hlook).
    destruct (find_entry nm (entries_of v k) 0) as [[e ofs]|]; reflexivity. }
  unfold entries_of in *.
  pose proof (find_entry_spec nm (entry_at v) k 0) as Hspec.
  destruct (find_entry nm (map (entry_at v) (seq 0 k)) 0) as [[e ofs]|].
  - destruct Hspec as [i [Hi [Hofs [He [Hn [Hfirst Hreads]]]]]].
    rewrite Hreads, Nat.sub_0_r in Hr1.
    exists i. split; [lia|]. split; [exact Hofs|]. split; [exact He|].
    split; [subst e; apply names_spec; auto; apply Hl20; lia|].
    split; [|exact Hr1].
    intros i' Hi' Hnamed.
    apply names_spec in Hnamed; [|exact Hnm | apply Hl20; lia].
    rewrite Hfirst in Hnamed by lia. discriminate.
  - destruct Hspec as [Hall Hreads]. rewrite Hreads in Hr1.
    split; [|exact Hr1].
    intros i Hi Hnamed.
    apply names_spec in Hnamed; [|exact Hnm | apply Hl20; lia].
    rewrite Hall in Hnamed by lia. discriminate.
Qed.

Lemma dir_lookup_opens_first_witness :
  find_entry "d" (entries_of (sector_view rooted fs_device 2) 5) 0
    = Some (entry_bytes 5 "d", 40) /\
  exists s1,
    OnDisk.lookup root_dir "d" rooted
      = Done (find_entry "d" (entries_of (sector_view rooted fs_device 2) 5) 0)
          s1 /\
    OnDisk.dir_lookup root_dir "d" rooted =
      match find_entry "d" (entries_of (sector_view rooted fs_device 2) 5) 0
      with
      | Some (e, _) => inode_open (OnDisk.entry_sector e) s1
      | None => Done None s1
      end /\
    match find_entry "d" (entries_of (sector_view rooted fs_device 2) 5) 0
    with
    | Some (e, ofs) =>
        exists i, (i < 5)%nat /\ ofs = 20 * Z.of_nat i /\
                  e = entry_at (sector_view rooted fs_device 2) i /\
                  entry_named "d" e /\
                  (forall i', (i' < i)%nat ->
                     ~ entry_named "d"
                         (entry_at (sector_view rooted fs_device 2) i')) /\
                  dir_read 2 (S i) rooted s1
    | None =>
        (forall i, (i < 5)%nat ->
           ~ entry_named "d" (entry_at (sector_view rooted fs_device 2) i)) /\
        dir_read 2 5 rooted s1
    end.
Proof.
  split; [vm_compute; reflexivity|].
  apply (dir_lookup_opens_first rooted root_dir root_inode 2 5 "d").
  - exact rooted_small_dir.
  - vm_compute. lia.
  - apply rooted_ready. lia.
Defined.

(** X21.  [dir_add] of a name that is not empty, has at most [NAME_MAX]
    characters and is not in the directory, on a directory of at most 25
    entries whose file lies in one sector and has a free slot, with
    writes to the directory allowed, a coherent cache that holds the
    sector or can take it in, room in the read-ahead queue and
    allocations that succeed for the [k + j + 2] transfers it makes ([k]
    the number of entries, [j] the index of the first free slot):
    it returns [true]; slot [j] of the sector then holds the entry of
    the new name and the sector given, in use, and no other entry and no
    other sector has changed in what the cache shows; the in-memory
    inodes and the free map are as before; and [lookup] of the name
    afterwards finds that entry at offset [20 j]. *)
Theorem dir_add_fills_free_slot (s : state) (d : OnDisk.dir) (ino : inode)
    (b : Z) (k j : nat) (nm : string) (sec : Z) :
  small_dir ino b k -> deny_write_cnt ino = 0 ->
  OnDisk.chars nm <> [] ->
  (List.length (OnDisk.chars nm) <= NAME_MAX)%nat ->
  (forall i, (i < k)%nat ->
             ~ entry_named nm (entry_at (sector_view s fs_device b) i)) ->
  (j < k)%nat ->
  OnDisk.entry_in_use (entry_at (sector_view s fs_device b) j) = false ->
  (forall i, (i < j)%nat ->
             OnDisk.entry_in_use (entry_at (sector_view s fs_device b) i)
             = true) ->
  dir_ready (OnDisk.dir_inode d) ino b (k + j + 2) s ->
  exists s' e',
    OnDisk.dir_add d nm sec s = Done true s' /\
    List.length e' = 20%nat /\ OnDisk.entry_sector e' = u32 sec /\
    entry_named nm e' /\
    (forall i, (i < k)%nat ->
               entry_at (sector_view s' fs_device b) i =
               if Nat.eqb i j then e'
               else entry_at (sector_view s fs_device b) i) /\
    (forall dev sc, (dev =? fs_device) && (sc =? b) = false ->
                    sector_view s' dev sc = sector_view s dev sc) /\
    cache_inv s' /\ heap s' = heap s /\ free_map s' = free_map s /\
    open_inodes s' = open_inodes s /\
    (dir_ready (OnDisk.dir_inode d) ino b (S j) s' ->
     exists s'',
       OnDisk.lookup d nm s' = Done (Some (e', 20 * Z.of_nat j)) s'').
Proof.
  intros [Hlen [Hk Hb]] Hdeny Hne Hnm Habsent Hj Hfree Hused Hready.
  set (p := OnDisk.dir_inode d) in *.
  set (v := sector_view s fs_device b) in *.
  pose proof Hready as [Hinv [Hp _]].
  assert (Hl20 : forall i, (i < k)%nat -> List.length (entry_at v i) = 20%nat)
    by (intros i Hi; apply (view_entry_length s b k i Hinv Hk Hi)).
  unfold OnDisk.dir_add.
  destruct (OnDisk.chars nm) as [|c0 cs] eqn:Echars; [congruence|].
  destruct (Nat.ltb_spec NAME_MAX (List.length (c0 :: cs))) as [Hlong|_];
    [lia|]. cbn [orb]. rewrite <- Echars in *. clear Echars c0 cs.
  (* lookup does not find the name *)
  destruct (find_entry_none nm (entry_at v) k) as [Hnone Hreads].
  { intros i Hi. apply not_named; auto. }
  destruct (lookup_run p ino b k Hlen Hk Hb d nm s eq_refl
              ltac:(unfold NAME_MAX in Hnm; lia)) as [s1 [Hlook Hr1]].
  { unfold entries_of. fold v. rewrite Hreads.
    apply (dir_ready_less p ino b (k + j + 2)); [lia | exact Hready]. }
  unfold entries_of in Hlook, Hr1. fold v in Hlook, Hr1.
  rewrite Hnone in Hlook. rewrite Hreads in Hr1.
  rewrite (bind_Done _ _ _ _ _ Hlook).
  fold p.
  pose proof Hr1 as [Hinv1 [Hh1 [Hfm1 [Hoi1 [_ [_ [_ [_ [_ [_ Hv1]]]]]]]]]].
  assert (Hp1 : heap s1 p = Some ino) by (rewrite Hh1; exact Hp).
  rewrite (bind_Done _ _ _ _ _ (entry_rounds_run p ino k Hlen Hk s1 Hp1)).
  destruct (stack_entry_run s1) as [e0 [He0 He0l]].
  rewrite (bind_Done _ _ _ _ _ He0).
  (* the second loop stops at slot j *)
  destruct (free_slot_spec (entry_at v) k 0 j e0 ltac:(lia) Hfree
              ltac:(intros i Hi; apply Hused; lia)) as [Hslot Hrf].
  rewrite Nat.sub_0_r in Hrf.
  assert (Hready1 : dir_ready p ino b (j + 2) s1).
  { apply (dir_ready_after p ino b k (j + 2) s); [|exact Hr1].
    replace (k + (j + 2))%nat with (k + j + 2)%nat by lia. exact Hready. }
  destruct (free_slot_from_run p ino b k Hlen Hk Hb d k 0 (S k) e0 s1
              eq_refl ltac:(lia) ltac:(lia) He0l) as [s2 [Hloop Hr2]].
  { rewrite (Hv1 fs_device b). fold v. rewrite Hrf.
    apply (dir_ready_less p ino b (j + 2)); [lia | exact Hready1]. }
  rewrite (Hv1 fs_device b) in Hloop, Hr2. fold v in Hloop, Hr2.
  rewrite Hslot in Hloop. rewrite Hrf in Hr2.
  rewrite (bind_Done _ _ _ _ _ Hloop). cbn [fst snd].
  pose proof Hr2 as [Hinv2 [Hh2 [Hfm2 [Hoi2 [_ [_ [_ [_ [_ [_ Hv2]]]]]]]]]].
  (* the write *)
  destruct (new_entry nm sec (entry_at v j) Hnm (Hl20 j Hj))
    as [He'l [He's He'n]].
  set (e' := OnDisk.set_entry_sector sec
               (OnDisk.set_entry_name nm
                  (OnDisk.set_entry_in_use true (entry_at v j)))) in *.
  assert (Hready2 : dir_ready p ino b 1 s2).
  { apply (dir_ready_after p ino b (S j) 1 s1); [|exact Hr2].
    replace (S j + 1)%nat with (j + 2)%nat by lia. exact Hready1. }
  destruct (write_entry_inside p ino b k Hlen Hk Hb s2 e' j Hj He'l Hdeny
              Hready2)
    as [s3 [Hw [Hinv3 [Hh3 [Hfm3 [Hoi3 [Hc3 [Hview3 Hother3]]]]]]]].
  rewrite (bind_Done _ _ _ _ _ Hw).
  assert (Hview : sector_view s3 fs_device b = patch v (20 * Z.of_nat j) e').
  { rewrite Hview3, (Hv2 fs_device b), (Hv1 fs_device b). reflexivity. }
  assert (Hv512 : List.length v = 512%nat)
    by (apply (sector_view_length s fs_device b Hinv)).
  assert (Hentries : forall i, (i < k)%nat ->
            entry_at (sector_view s3 fs_device b) i =
            if Nat.eqb i j then e' else entry_at v i).
  { intros i Hi. rewrite Hview. apply entry_at_patch; [exact He'l | lia | lia]. }
  exists s3, e'. split; [reflexivity|].
  split; [exact He'l|]. split; [exact He's|]. split; [exact He'n|].
  split; [exact Hentries|].
  split.
  { intros dev sc Hsc. rewrite (Hother3 dev sc Hsc), Hv2, Hv1. reflexivity. }
  split; [exact Hinv3|]. split; [congruence|]. split; [congruence|].
  split; [congruence|].
  (* the name is found afterwards *)
  intros Hready3.
  destruct (find_entry_at nm (entry_at (sector_view s3 fs_device b)) k j Hj)
    as [Hfound Hreads3].
  { rewrite Hentries, Nat.eqb_refl by exact Hj.
    apply names_spec; assumption. }
  { intros i Hi. rewrite Hentries by lia.
    destruct (Nat.eqb_spec i j); [lia|]. apply not_named; auto.
    - apply Hl20. lia.
    - apply Habsent. lia. }
  destruct (lookup_run p ino b k Hlen Hk Hb d nm s3 eq_refl
              ltac:(unfold NAME_MAX in Hnm; lia)) as [s4 [Hlook4 _]].
  { unfold entries_of. rewrite Hreads3. exact Hready3. }
  unfold entries_of in Hlook4. rewrite Hfound in Hlook4.
  rewrite Hentries, Nat.eqb_refl in Hlook4 by exact Hj.
  exists s4. exact Hlook4.
Qed.

Lemma dir_add_fills_free_slot_witness :
  exists s' e',
    OnDisk.dir_add root_dir "g" 7 rooted = Done true s' /\
    List.length e' = 20%nat /\ OnDisk.entry_sector e' = u32 7 /\
    entry_named "g" e' /\
    (forall i, (i < 5)%nat ->
               entry_at (sector_view s' fs_device 2) i =
               if Nat.eqb i 3 then e'
               else entry_at (sector_view rooted fs_device 2) i) /\
    (forall dev sc, (dev =? fs_device) && (sc =? 2) = false ->
                    sector_view s' dev sc = sector_view rooted dev sc) /\
    cache_inv s' /\ heap s' = heap rooted /\ free_map s' = free_map rooted /\
    open_inodes s' = open_inodes rooted /\
    (dir_ready (OnDisk.dir_inode root_dir) root_inode 2 4 s' ->
     exists s'',
       OnDisk.lookup root_dir "g" s' = Done (Some (e', 20 * Z.of_nat 3)) s'').
Proof.
  apply (dir_add_fills_free_slot rooted root_dir root_inode 2 5 3 "g" 7).
  - exact rooted_small_dir.
  - reflexivity.
  - discriminate.
  - vm_compute. lia.
  - intros i Hi [_ Hn].
    destruct i as [|[|[|[|[|i]]]]]; [| | | | |lia];
      vm_compute in Hn; discriminate.
  - lia.
  - vm_compute. reflexivity.
  - intros i Hi. destruct i as [|[|[|i]]]; [| | |lia]; vm_compute; reflexivity.
  - apply rooted_ready. lia.
Defined.

(** *** A read cut short by a failed allocation *)

(** Reading the first entry of a directory when the allocation of the
    bounce buffer fails: nothing is read, and the count is 0 as at the
    end of the file. *)
Lemma read_entry_no_bounce (s : state) (p : Z) (ino : inode) (b : Z)
    (e : list byte) :
  heap s p = Some ino -> 20 <= length (data ino) < 2 ^ 31 ->
  nth_error (blocks (data ino)) 0 = Some b ->
  malloc_fails s (malloc_calls s) = true ->
  OnDisk.read_entry p e 0 s
  = Done (0, e) (set_malloc_calls (S (malloc_calls s)) s).
Proof.
  intros Hp Hlen Hb Hm.
  unfold OnDisk.read_entry, inode_read_at.
  change (Z.to_nat OnDisk.ENTRY_SIZE) with (S 19).
  unfold OnDisk.ENTRY_SIZE.
  rewrite read_loop_round. cbn [Z.gtb Z.compare].
  rewrite !bind_assoc. unfold bind at 1, deref. rewrite Hp.
  rewrite !bind_assoc.
  rewrite (bind_Done _ _ _ _ _
             (byte_to_sector_direct ino 0 b s
                ltac:(lia) ltac:(unfold BLOCK_SECTOR_SIZE; lia) Hb)).
  cbv zeta. unfold inode_length.
  rewrite (chunk_is_size (length (data ino)) 20 0)
    by (try (change (Z.rem 0 BLOCK_SECTOR_SIZE) with 0);
        unfold BLOCK_SECTOR_SIZE; lia).
  cbn [Z.leb Z.compare].
  change ((Z.rem 0 BLOCK_SECTOR_SIZE =? 0) && (20 =? BLOCK_SECTOR_SIZE))
    with false. cbv iota.
  unfold need_bounce. rewrite !bind_assoc. unfold bind at 1. unfold malloc.
  rewrite Hm. reflexivity.
Qed.

Lemma entry_rounds_some (s : state) (p : Z) (ino : inode) :
  heap s p = Some ino ->
  OnDisk.entry_rounds p s
  = Done (S (Z.to_nat (inode_length ino / OnDisk.ENTRY_SIZE))) s.
Proof.
  intros Hp. unfold OnDisk.entry_rounds, bind, deref. rewrite Hp. reflexivity.
Qed.

Lemma lookup_no_bounce (s : state) (d : OnDisk.dir) (ino : inode) (b : Z)
    (nm : string) :
  heap s (OnDisk.dir_inode d) = Some ino ->
  20 <= length (data ino) < 2 ^ 31 ->
  nth_error (blocks (data ino)) 0 = Some b ->
  malloc_fails s (malloc_calls s) = true ->
  OnDisk.lookup d nm s = Done None (set_malloc_calls (S (malloc_calls s)) s).
Proof.
  intros Hp Hlen Hb Hm. unfold OnDisk.lookup.
  rewrite (bind_Done _ _ _ _ _ (entry_rounds_some s _ ino Hp)).
  destruct (stack_entry_run s) as [e [He Hel]].
  rewrite (bind_Done _ _ _ _ _ He).
  cbn [OnDisk.lookup_from]. change (s32 0) with 0.
  rewrite (bind_Done _ _ _ _ _
             (read_entry_no_bounce s _ ino b e Hp Hlen Hb Hm)).
  reflexivity.
Qed.

Lemma free_slot_no_bounce (s : state) (d : OnDisk.dir) (ino : inode) (b : Z)
    (e : list byte) (fuel : nat) :
  heap s (OnDisk.dir_inode d) = Some ino ->
  20 <= length (data ino) < 2 ^ 31 ->
  nth_error (blocks (data ino)) 0 = Some b ->
  malloc_fails s (malloc_calls s) = true ->
  OnDisk.free_slot_from (S fuel) d e 0 s
  = Done (e, 0) (set_malloc_calls (S (malloc_calls s)) s).
Proof.
  intros Hp Hlen Hb Hm. cbn [OnDisk.free_slot_from].
  rewrite (bind_Done _ _ _ _ _
             (read_entry_no_bounce s _ ino b e Hp Hlen Hb Hm)).
  reflexivity.
Qed.

Lemma write_first_entry (s : state) (p : Z) (ino : inode) (b : Z)
    (e : list byte) :
  cache_inv s -> heap s p = Some ino -> deny_write_cnt ino = 0 ->
  20 <= length (data ino) < 2 ^ 31 ->
  nth_error (blocks (data ino)) 0 = Some b ->
  cached s fs_device b <> None \/ evictable s ->
  read_head_buffer_n s <> READ_AHEAD_BUFFER_SIZE ->
  malloc_fails s (malloc_calls s) = false ->
  List.length e = 20%nat ->
  exists s',
    inode_write_at p e OnDisk.ENTRY_SIZE 0 s = Done 20 s' /\
    heap s' = heap s /\ free_map s' = free_map s /\
    sector_view s' fs_device b = patch (sector_view s fs_device b) 0 e /\
    (forall dev sec, (dev =? fs_device) && (sec =? b) = false ->
                     sector_view s' dev sec = sector_view s dev sec).
Proof.
  intros Hinv Hp Hdeny Hlen Hb Hserve Hroom Hm He.
  unfold inode_write_at, OnDisk.ENTRY_SIZE.
  unfold bind at 1, deref. rewrite Hp. rewrite Hdeny. cbn [Z.eqb negb].
  unfold inode_length. change (s32 (0 + 20)) with 20.
  destruct (Z.gtb_spec 20 (length (data ino))); [lia|].
  unfold bind at 1, ret.
  change (Z.to_nat 20) with (S 19).
  destruct (write_loop_one_chunk p ino 20 0 b
              ltac:(lia) ltac:(lia) ltac:(lia) ltac:(lia)
              ltac:(unfold BLOCK_SECTOR_SIZE; lia)
              ltac:(change (Z.rem 0 BLOCK_SECTOR_SIZE) with 0;
                    unfold BLOCK_SECTOR_SIZE; lia)
              Hb 19%nat s e Hinv Hp Hserve Hroom Hm
              ltac:(rewrite He; reflexivity))
    as [s3 [Hw [Hinv3 [Hh3 [Hfm3 [Hc3 [_ [_ [_ [Hview3 Hother3]]]]]]]]]].
  change (Z.rem 0 BLOCK_SECTOR_SIZE) with 0 in Hview3.
  exists s3. auto.
Qed.

(** X22.  When the two allocations that [dir_add]'s reads of the
    directory need fail and the one for its write succeeds, [dir_add] of
    a name that is not empty and has at most [NAME_MAX] characters takes
    the short reads for the end of the file: it looks at no entry, writes
    the new entry over the first entry of the directory, whatever that
    was and whether or not the name is in the directory already, and
    returns [true].  (The directory has at least one entry, writes to it
    are allowed, the cache is coherent and holds the first sector of the
    directory or can take it in, and the read-ahead queue is not full.)
    The comment in [dir_add] says that [inode_read_at] returns a short
    read only at the end of the file. *)
Theorem dir_add_overwrites_on_short_read (s : state) (d : OnDisk.dir)
    (ino : inode) (b : Z) (nm : string) (sec : Z) :
  cache_inv s -> heap s (OnDisk.dir_inode d) = Some ino ->
  deny_write_cnt ino = 0 -> 20 <= length (data ino) < 2 ^ 31 ->
  nth_error (blocks (data ino)) 0 = Some b ->
  OnDisk.chars nm <> [] ->
  (List.length (OnDisk.chars nm) <= NAME_MAX)%nat ->
  malloc_fails s (malloc_calls s) = true ->
  malloc_fails s (S (malloc_calls s)) = true ->
  malloc_fails s (S (S (malloc_calls s))) = false ->
  cached s fs_device b <> None \/ evictable s ->
  read_head_buffer_n s <> READ_AHEAD_BUFFER_SIZE ->
  exists s' e',
    OnDisk.dir_add d nm sec s = Done true s' /\
    List.length e' = 20%nat /\ OnDisk.entry_sector e' = u32 sec /\
    entry_named nm e' /\
    sector_view s' fs_device b = patch (sector_view s fs_device b) 0 e' /\
    entry_at (sector_view s' fs_device b) 0 = e' /\
    (forall dev sc, (dev =? fs_device) && (sc =? b) = false ->
                    sector_view s' dev sc = sector_view s dev sc) /\
    heap s' = heap s /\ free_map s' = free_map s.
Proof.
  intros Hinv Hp Hdeny Hlen Hb Hne Hnm Hm0 Hm1 Hm2 Hserve Hroom.
  set (p := OnDisk.dir_inode d) in *.
  unfold OnDisk.dir_add.
  destruct (OnDisk.chars nm) as [|c0 cs] eqn:Echars; [congruence|].
  destruct (Nat.ltb_spec NAME_MAX (List.length (c0 :: cs))) as [Hlong|_];
    [lia|]. cbn [orb]. rewrite <- Echars in *. clear Echars c0 cs.
  rewrite (bind_Done _ _ _ _ _ (lookup_no_bounce s d ino b nm Hp Hlen Hb Hm0)).
  set (s1 := set_malloc_calls (S (malloc_calls s)) s).
  rewrite (bind_Done _ _ _ _ _ (entry_rounds_some s1 p ino Hp)).
  destruct (stack_entry_run s1) as [e0 [He0 He0l]].
  rewrite (bind_Done _ _ _ _ _ He0).
  rewrite (bind_Done _ _ _ _ _
             (free_slot_no_bounce s1 d ino b e0 _ Hp Hlen Hb Hm1)).
  cbn [fst snd].
  set (s2 := set_malloc_calls (S (malloc_calls s1)) s1).
  (* the write goes to offset 0 *)
  destruct (new_entry nm sec e0 Hnm He0l) as [He'l [He's He'n]].
  set (e' := OnDisk.set_entry_sector sec
               (OnDisk.set_entry_name nm (OnDisk.set_entry_in_use true e0)))
    in *.
  destruct (write_first_entry s2 p ino b e'
              ltac:(apply (cache_inv_ext s);
                    [reflexivity | reflexivity | exact Hinv])
              Hp Hdeny Hlen Hb
              ltac:(destruct Hserve as [H|H]; [left | right]; exact H)
              Hroom Hm2 He'l)
    as [s3 [Hw [Hh3 [Hfm3 [Hview3 Hother3]]]]].
  rewrite (bind_Done _ _ _ _ _ Hw).
  rewrite (sector_view_ext s s2) in Hview3 by reflexivity.
  exists s3, e'. split; [reflexivity|].
  split; [exact He'l|]. split; [exact He's|]. split; [exact He'n|].
  split; [exact Hview3|].
  split.
  { rewrite Hview3.
    pose proof (sector_view_length s fs_device b Hinv) as Hv.
    change (Z.to_nat BLOCK_SECTOR_SIZE) with 512%nat in Hv.
    exact (entry_at_patch (sector_view s fs_device b) e' 0 0 He'l
             ltac:(lia) ltac:(lia)). }
  split.
  { intros dev sc Hsc. rewrite (Hother3 dev sc Hsc).
    apply sector_view_ext; reflexivity. }
  split; [exact Hh3 | exact Hfm3].
Qed.

Lemma starved_inv : cache_inv starved.
Proof. exact (cache_init_inv _). Qed.

(** [starved] holds "d" in entry 2 of its root directory and "." in
    entry 0; [dir_add] of "d" for sector 9 succeeds and puts it into
    entry 0. *)
Lemma dir_add_overwrites_on_short_read_witness :
  entry_named "." (entry_at (sector_view starved fs_device 2) 0) /\
  entry_named "d" (entry_at (sector_view starved fs_device 2) 2) /\
  exists s' e',
    OnDisk.dir_add root_dir "d" 9 starved = Done true s' /\
    List.length e' = 20%nat /\ OnDisk.entry_sector e' = u32 9 /\
    entry_named "d" e' /\
    sector_view s' fs_device 2 = patch (sector_view starved fs_device 2) 0 e' /\
    entry_at (sector_view s' fs_device 2) 0 = e' /\
    (forall dev sc, (dev =? fs_device) && (sc =? 2) = false ->
                    sector_view s' dev sc = sector_view starved dev sc) /\
    heap s' = heap starved /\ free_map s' = free_map starved.
Proof.
  split; [split; vm_compute; reflexivity|].
  split; [split; vm_compute; reflexivity|].
  apply (dir_add_overwrites_on_short_read starved root_dir root_inode 2 "d" 9).
  - exact starved_inv.
  - reflexivity.
  - reflexivity.
  - cbn. lia.
  - reflexivity.
  - discriminate.
  - vm_compute. lia.
  - reflexivity.
  - reflexivity.
  - reflexivity.
  - right. unfold evictable. apply Exists_cons_hd. left. reflexivity.
  - discriminate.
Defined.

(** *** Listing a directory *)

Lemma next_used_spec (f : nat -> list byte) (n : nat) :
  forall j,
    match next_used (map f (seq j n)) j with
    | Some (x, i) =>
        (j <= i < j + n)%nat /\ x = f i /\ OnDisk.entry_in_use (f i) = true /\
        (forall i', (j <= i' < i)%nat -> OnDisk.entry_in_use (f i') = false) /\
        reads_used (map f (seq j n)) = S (i - j)
    | None =>
        (forall i, (j <= i < j + n)%nat -> OnDisk.entry_in_use (f i) = false) /\
        reads_used (map f (seq j n)) = n
    end.
Proof.
  induction n as [|n IH]; intros j; cbn [seq map next_used reads_used].
  - split; [intros i Hi; lia | reflexivity].
  - destruct (OnDisk.entry_in_use (f j)) eqn:E.
    + split; [lia|]. split; [reflexivity|]. split; [exact E|].
      split; [intros i' Hi'; lia | lia].
    + specialize (IH (S j)).
      destruct (next_used (map f (seq (S j) n)) (S j)) as [[x i]|].
      * destruct IH as [Hi [Hx [Hu [Hfirst Hr]]]].
        split; [lia|]. split; [exact Hx|]. split; [exact Hu|]. split; [|lia].
        intros i' Hi'. destruct (Nat.eq_dec i' j) as [->|Hne]; [exact E|].
        apply Hfirst. lia.
      * destruct IH as [Hall Hr]. split; [|lia].
        intros i Hi. destruct (Nat.eq_dec i j) as [->|Hne]; [exact E|].
        apply Hall. lia.
Qed.

(** X23.  [dir_readdir] on a directory of [k] entries, at most 25, whose
    file lies in one sector, from a position [20 j0] inside it, when
    every entry in use from there on has a terminator in its name field,
    on a coherent cache that holds the sector or can take it in, with
    room in the read-ahead queue and allocations that succeed for
    [k - j0] reads: it returns; the name it stores is that of the first
    entry in use at or behind the position, and the position moves
    behind that entry; when no such entry is left it stores nothing,
    returns [false] and leaves the position at the end of the file.
    What the cache shows, the in-memory inodes and the free map are as
    before. *)
Theorem dir_readdir_next (s : state) (d : OnDisk.dir) (ino : inode)
    (b : Z) (k j0 : nat) :
  small_dir ino b k ->
  OnDisk.dir_pos d = 20 * Z.of_nat j0 -> (j0 <= k)%nat ->
  (forall i, (j0 <= i < k)%nat ->
     OnDisk.entry_in_use (entry_at (sector_view s fs_device b) i) = true ->
     terminated (entry_at (sector_view s fs_device b) i)) ->
  dir_ready (OnDisk.dir_inode d) ino b (k - j0) s ->
  exists s1 r pos',
    OnDisk.dir_readdir d s
      = Done (r, OnDisk.mk_dir (OnDisk.dir_inode d) pos') s1 /\
    ((exists i,
        (j0 <= i < k)%nat /\
        OnDisk.entry_in_use (entry_at (sector_view s fs_device b) i) = true /\
        (forall i', (j0 <= i' < i)%nat ->
           OnDisk.entry_in_use (entry_at (sector_view s fs_device b) i')
           = false) /\
        r = Some (OnDisk.c_chars
                    (OnDisk.entry_name
                       (entry_at (sector_view s fs_device b) i))) /\
        pos' = 20 * Z.of_nat (S i) /\
        dir_read b (S (i - j0)) s s1)
     \/
     ((forall i, (j0 <= i < k)%nat ->
         OnDisk.entry_in_use (entry_at (sector_view s fs_device b) i)
         = false) /\
      r = None /\ pos' = 20 * Z.of_nat k /\
      dir_read b (k - j0) s s1)).
Proof.
  intros [Hlen [Hk Hb]] Hpos Hj0 Hterm Hready.
  set (p := OnDisk.dir_inode d) in *.
  set (v := sector_view s fs_device b) in *.
  pose proof Hready as [Hinv [Hp _]].
  unfold OnDisk.dir_readdir. fold p.
  rewrite (bind_Done _ _ _ _ _ (entry_rounds_run p ino k Hlen Hk s Hp)).
  destruct (stack_entry_run s) as [e [He Hel]].
  rewrite (bind_Done _ _ _ _ _ He). rewrite Hpos.
  pose proof (next_used_spec (entry_at v) (k - j0) j0) as Hspec.
  destruct (readdir_from_run p ino b k Hlen Hk Hb (k - j0) j0 (S k) e s
              ltac:(lia) ltac:(lia) Hel) as [s1 [Hrun Hr1]].
  { fold v. apply Forall_forall. intros x Hx.
    apply in_map_iff in Hx. destruct Hx as [i [<- Hi]].
    apply in_seq in Hi. apply Hterm. lia. }
  { apply (dir_ready_less p ino b (k - j0)); [|exact Hready].
    pose proof (reads_used_le (map (entry_at (sector_view s fs_device b))
                                 (seq j0 (k - j0)))) as H.
    rewrite length_map, length_seq in H. exact H. }
  fold v in Hrun, Hr1.
  rewrite (bind_Done _ _ _ _ _ Hrun).
  destruct (next_used (map (entry_at v) (seq j0 (k - j0))) j0) as [[x i]|].
  - destruct Hspec as [Hi [Hx [Hu [Hfirst Hreads]]]].
    rewrite Hreads in Hr1. subst x.
    eexists. eexists. eexists. split; [reflexivity|].
    left. exists i. split; [lia|]. split; [exact Hu|].
    split; [intros i' Hi'; apply Hfirst; lia|].
    split; [reflexivity|]. split; [reflexivity | exact Hr1].
  - destruct Hspec as [Hall Hreads]. rewrite Hreads in Hr1.
    eexists. eexists. eexists. split; [reflexivity|].
    right. split; [intros i Hi; apply Hall; lia|].
    split; [reflexivity|]. split; [reflexivity | exact Hr1].
Qed.

Lemma dir_readdir_next_witness :
  match OnDisk.dir_readdir root_dir rooted with
  | Done (r, d') _ => r = Some [x64] /\ OnDisk.dir_pos d' = 60
  | _ => False
  end /\
  exists s1 r pos',
    OnDisk.dir_readdir root_dir rooted
      = Done (r, OnDisk.mk_dir (OnDisk.dir_inode root_dir) pos') s1 /\
    ((exists i,
        (2 <= i < 5)%nat /\
        OnDisk.entry_in_use (entry_at (sector_view rooted fs_device 2) i)
        = true /\
        (forall i', (2 <= i' < i)%nat ->
           OnDisk.entry_in_use (entry_at (sector_view rooted fs_device 2) i')
           = false) /\
        r = Some (OnDisk.c_chars
                    (OnDisk.entry_name
                       (entry_at (sector_view rooted fs_device 2) i))) /\
        pos' = 20 * Z.of_nat (S i) /\
        dir_read 2 (S (i - 2)) rooted s1)
     \/
     ((forall i, (2 <= i < 5)%nat ->
         OnDisk.entry_in_use (entry_at (sector_view rooted fs_device 2) i)
         = false) /\
      r = None /\ pos' = 20 * Z.of_nat 5 /\
      dir_read 2 (5 - 2) rooted s1)).
Proof.
  split; [vm_compute; split; reflexivity|].
  apply (dir_readdir_next rooted root_dir root_inode 2 5 2).
  - exact rooted_small_dir.
  - reflexivity.
  - lia.
  - intros i Hi _. unfold terminated.
    destruct i as [|[|[|[|[|i]]]]]; try lia; vm_compute; discriminate.
  - apply rooted_ready. lia.
Defined.

(** *** An empty directory *)

(** X24.  [dir_is_empty] on a directory of [k] entries, at most 25, whose
    file lies in one sector, on a coherent cache that holds the sector
    or can take it in, with room in the read-ahead queue and allocations
    that succeed for [k] reads: it returns, and it returns [true] exactly
    when every entry in use is named "." or "..".  What the cache shows,
    the in-memory inodes and the free map are as before. *)
Theorem dir_is_empty_spec (s : state) (d : OnDisk.dir) (ino : inode)
    (b : Z) (k : nat) :
  small_dir ino b k ->
  dir_ready (OnDisk.dir_inode d) ino b k s ->
  exists s1 r m,
    OnDisk.dir_is_empty d s = Done r s1 /\
    (m <= k)%nat /\ dir_read b m s s1 /\
    (r = true <->
     forall i, (i < k)%nat ->
       OnDisk.entry_in_use (entry_at (sector_view s fs_device b) i) = true ->
       entry_named "." (entry_at (sector_view s fs_device b) i) \/
       entry_named ".." (entry_at (sector_view s fs_device b) i)).
Proof.
  intros [Hlen [Hk Hb]] Hready.
  set (p := OnDisk.dir_inode d) in *.
  set (v := sector_view s fs_device b) in *.
  pose proof Hready as [Hinv [Hp _]].
  assert (Hl20 : forall i, (i < k)%nat -> List.length (entry_at v i) = 20%nat)
    by (intros i Hi; apply (view_entry_length s b k i Hinv Hk Hi)).
  unfold OnDisk.dir_is_empty. fold p.
  rewrite (bind_Done _ _ _ _ _ (entry_rounds_run p ino k Hlen Hk s Hp)).
  destruct (stack_entry_run s) as [e [He Hel]].
  rewrite (bind_Done _ _ _ _ _ He).
  assert (Hle : (reads_foreign (map (entry_at v) (seq 0 k)) <= k)%nat).
  { pose proof (reads_foreign_le (map (entry_at v) (seq 0 k))) as H.
    rewrite length_map, length_seq in H. exact H. }
  destruct (is_empty_from_run p ino b k Hlen Hk Hb k 0 (S k) e s
              ltac:(lia) ltac:(lia) Hel) as [s1 [Hrun Hr1]].
  { fold v. apply (dir_ready_less p ino b k); [exact Hle | exact Hready]. }
  fold v in Hrun, Hr1.
  exists s1, (negb (existsb foreign (map (entry_at v) (seq 0 k)))),
    (reads_foreign (map (entry_at v) (seq 0 k))).
  split; [exact Hrun|]. split; [exact Hle|]. split; [exact Hr1|].
  assert (Hdot : (List.length (OnDisk.chars ".") <= NAME_MAX)%nat)
    by (vm_compute; lia).
  assert (Hdd : (List.length (OnDisk.chars "..") <= NAME_MAX)%nat)
    by (vm_compute; lia).
  rewrite negb_true_iff. split.
  - intros Hnone i Hi Hu.
    assert (Hf : foreign (entry_at v i) = false).
    { destruct (foreign (entry_at v i)) eqn:E; [|reflexivity].
      assert (Hex : existsb foreign (map (entry_at v) (seq 0 k)) = true).
      { apply existsb_exists. exists (entry_at v i). split; [|exact E].
        apply in_map, in_seq. lia. }
      congruence. }
    unfold foreign in Hf. rewrite Hu in Hf. cbn [andb] in Hf.
    destruct (names "." (entry_at v i)) eqn:E1.
    + left. apply names_spec; auto.
    + destruct (names ".." (entry_at v i)) eqn:E2; [|discriminate].
      right. apply names_spec; auto.
  - intros Hall.
    destruct (existsb foreign (map (entry_at v) (seq 0 k))) eqn:E;
      [|reflexivity].
    apply existsb_exists in E. destruct E as [x [Hx Hf]].
    apply in_map_iff in Hx. destruct Hx as [i [<- Hi]].
    apply in_seq in Hi. unfold foreign in Hf.
    destruct (OnDisk.entry_in_use (entry_at v i)) eqn:Hu; [|discriminate].
    cbn [andb] in Hf.
    destruct (Hall i ltac:(lia) Hu) as [H|H].
    + apply (proj2 (names_spec "." _ Hdot (Hl20 i ltac:(lia)))) in H.
      rewrite H in Hf. discriminate.
    + apply (proj2 (names_spec ".." _ Hdd (Hl20 i ltac:(lia)))) in H.
      rewrite H, andb_false_r in Hf. discriminate.
Qed.

Lemma dir_is_empty_spec_witness :
  match OnDisk.dir_is_empty root_dir rooted with
  | Done r _ => r = false
  | _ => False
  end /\
  exists s1 r m,
    OnDisk.dir_is_empty root_dir rooted = Done r s1 /\
    (m <= 5)%nat /\ dir_read 2 m rooted s1 /\
    (r = true <->
     forall i, (i < 5)%nat ->
       OnDisk.entry_in_use (entry_at (sector_view rooted fs_device 2) i)
       = true ->
       entry_named "." (entry_at (sector_view rooted fs_device 2) i) \/
       entry_named ".." (entry_at (sector_view rooted fs_device 2) i)).
Proof.
  split; [vm_compute; reflexivity|].
  apply (dir_is_empty_spec rooted root_dir root_inode 2 5).
  - exact rooted_small_dir.
  - apply rooted_ready. lia.
Defined.

(** *** Removing an entry *)

Lemma freed_entry (e : list byte) :
  List.length e = 20%nat ->
  List.length (OnDisk.set_entry_in_use false e) = 20%nat /\
  OnDisk.entry_in_use (OnDisk.set_entry_in_use false e) = false /\
  OnDisk.entry_sector (OnDisk.set_entry_in_use false e)
    = OnDisk.entry_sector e /\
  OnDisk.entry_name (OnDisk.set_entry_in_use false e) = OnDisk.entry_name e.
Proof.
  intros He. unfold OnDisk.set_entry_in_use.
  do 20 (destruct e as [|? e]; [discriminate|]).
  destruct e; [|discriminate]. repeat split.
Qed.

Lemma dir_ready_ext (p : Z) (ino : inode) (b : Z) (m : nat) (s s' : state) :
  cache s' = cache s -> disk s' = disk s -> clock s' = clock s ->
  clock_reads s' = clock_reads s -> heap s' p = heap s p ->
  read_head_buffer_n s' = read_head_buffer_n s ->
  malloc_fails s' = malloc_fails s -> malloc_calls s' = malloc_calls s ->
  dir_ready p ino b m s -> dir_ready p ino b m s'.
Proof.
  intros Hc Hd Hcl Hcr Hh Hn Hmf Hmc [Hinv [Hp [Hs [Hn0 [Hnm Hm]]]]].
  unfold dir_ready.
  split; [apply (cache_inv_ext s); assumption|].
  split; [rewrite Hh; exact Hp|].
  split.
  { destruct Hs as [H|H].
    - left. rewrite (cached_ext s s') by exact Hc. exact H.
    - right. apply (evictable_ext s); assumption. }
  rewrite Hn, Hmf, Hmc. auto.
Qed.

Lemma inode_remove_run (s : state) (a : Z) (x : inode) :
  heap s a = Some x ->
  inode_remove a s = Done tt (stored a (with_removed true x) s).
Proof.
  intros Ha. unfold inode_remove, bind, deref. rewrite Ha. reflexivity.
Qed.

(** [inode_close] by an opener that is not the last. *)
Lemma inode_close_not_last (s : state) (a : Z) (x : inode) :
  heap s a = Some x -> 1 < open_cnt x < 2 ^ 31 ->
  inode_close (Some a) s
  = Done tt (stored a (with_open_cnt (open_cnt x - 1) x) s).
Proof.
  intros Ha Hcnt. unfold inode_close. unfold bind at 1, deref. rewrite Ha.
  cbv zeta. unfold bind at 1. unfold store, modify.
  cbn [open_cnt with_open_cnt]. rewrite s32_small by lia.
  destruct (Z.eqb_spec (open_cnt x - 1) 0); [lia|]. reflexivity.
Qed.

(** X25.  [dir_remove] of a name of at most [NAME_MAX] characters whose
    first entry is entry [i] of a directory of at most 25 entries in one
    sector, for a file that is open at an address other than the
    directory's, with writes to the directory allowed, a coherent cache
    that holds the sector or can take it in, room in the read-ahead
    queue and allocations that succeed for [i + 2] transfers, and one
    in-memory inode per sector: it returns [true]; entry [i] is no longer
    in use and keeps its sector and name, no other entry and no other
    sector has changed in what the cache shows; the file's in-memory
    inode is marked removed and has the openers it had, so that its
    sectors are not released before its last close; the other in-memory
    inodes, the list of open inodes and the free map are as before. *)
Theorem dir_remove_open_file (s : state) (d : OnDisk.dir) (ino : inode)
    (b : Z) (k i : nat) (nm : string) (a : Z) (fi : inode) :
  small_dir ino b k -> deny_write_cnt ino = 0 ->
  (List.length (OnDisk.chars nm) <= NAME_MAX)%nat ->
  (i < k)%nat ->
  entry_named nm (entry_at (sector_view s fs_device b) i) ->
  (forall i', (i' < i)%nat ->
     ~ entry_named nm (entry_at (sector_view s fs_device b) i')) ->
  single_instance s -> heap s a = Some fi ->
  sector fi = OnDisk.entry_sector (entry_at (sector_view s fs_device b) i) ->
  a <> OnDisk.dir_inode d -> 1 <= open_cnt fi < 2 ^ 31 - 1 ->
  dir_ready (OnDisk.dir_inode d) ino b (i + 2) s ->
  exists s',
    OnDisk.dir_remove d nm s = Done true s' /\
    (forall i', (i' < k)%nat ->
       entry_at (sector_view s' fs_device b) i' =
       if Nat.eqb i' i
       then OnDisk.set_entry_in_use false
              (entry_at (sector_view s fs_device b) i)
       else entry_at (sector_view s fs_device b) i') /\
    OnDisk.entry_in_use (entry_at (sector_view s' fs_device b) i) = false /\
    (forall dev sc, (dev =? fs_device) && (sc =? b) = false ->
                    sector_view s' dev sc = sector_view s dev sc) /\
    heap s' a = Some (with_removed true fi) /\
    (forall c, c <> a -> heap s' c = heap s c) /\
    open_inodes s' = open_inodes s /\ free_map s' = free_map s /\
    cache_inv s'.
Proof.
  intros [Hlen [Hk Hb]] Hdeny Hnm Hi Hnamed Hfirst Hsi Ha Hsec Hap Hcnt
         Hready.
  set (p := OnDisk.dir_inode d) in *.
  set (v := sector_view s fs_device b) in *.
  pose proof Hready as [Hinv [Hp _]].
  assert (Hl20 : forall i', (i' < k)%nat ->
                   List.length (entry_at v i') = 20%nat)
    by (intros i' Hi'; apply (view_entry_length s b k i' Hinv Hk Hi')).
  (* lookup finds entry i *)
  destruct (find_entry_at nm (entry_at v) k i Hi) as [Hfound Hreads].
  { apply names_spec; auto. }
  { intros i' Hi'. apply not_named; auto. apply Hl20. lia. }
  destruct (lookup_run p ino b k Hlen Hk Hb d nm s eq_refl
              ltac:(unfold NAME_MAX in Hnm; lia)) as [s1 [Hlook Hr1]].
  { unfold entries_of. fold v. rewrite Hreads.
    apply (dir_ready_less p ino b (i + 2)); [lia | exact Hready]. }
  unfold entries_of in Hlook, Hr1. fold v in Hlook, Hr1.
  rewrite Hfound in Hlook. rewrite Hreads in Hr1.
  unfold OnDisk.dir_remove. rewrite (bind_Done _ _ _ _ _ Hlook).
  pose proof Hr1 as [Hinv1 [Hh1 [Hfm1 [Hoi1 [_ [_ [Hmc1 [_ [_ [_ Hv1]]]]]]]]]].
  (* the file is open: inode_open finds it *)
  assert (Hsi1 : single_instance s1).
  { apply (single_instance_ext s); auto. lia. }
  rewrite (bind_Done _ _ _ _ _
             (inode_open_again s1 _ a fi Hsi1
                ltac:(rewrite Hh1; exact Ha) Hsec)).
  rewrite s32_small by lia.
  set (fi1 := with_open_cnt (open_cnt fi + 1) fi).
  set (s2 := stored a fi1 s1).
  (* the entry is written back, not in use *)
  destruct (freed_entry (entry_at v i) (Hl20 i Hi)) as [Hfl [Hfu _]].
  assert (Hready2 : dir_ready p ino b 1 s2).
  { apply (dir_ready_ext p ino b 1 s1); try reflexivity.
    - unfold s2, stored. cbn [heap set_heap].
      destruct (Z.eqb_spec p a); [congruence | reflexivity].
    - apply (dir_ready_after p ino b (S i) 1 s); [|exact Hr1].
      replace (S i + 1)%nat with (i + 2)%nat by lia. exact Hready. }
  fold p.
  destruct (write_entry_inside p ino b k Hlen Hk Hb s2
              (OnDisk.set_entry_in_use false (entry_at v i)) i Hi Hfl Hdeny
              Hready2)
    as [s3 [Hw [Hinv3 [Hh3 [Hfm3 [Hoi3 [Hc3 [Hview3 Hother3]]]]]]]].
  rewrite (bind_Done _ _ _ _ _ Hw).
  change (20 =? OnDisk.ENTRY_SIZE) with true. cbv iota.
  (* the inode is marked and closed *)
  assert (Ha3 : heap s3 a = Some fi1).
  { rewrite Hh3. unfold s2, stored. cbn [heap set_heap].
    rewrite Z.eqb_refl. reflexivity. }
  rewrite (bind_Done _ _ _ _ _ (inode_remove_run s3 a fi1 Ha3)).
  rewrite (bind_Done _ _ _ _ _
             (inode_close_not_last (stored a (with_removed true fi1) s3) a
                (with_removed true fi1)
                ltac:(unfold stored; cbn [heap set_heap];
                      rewrite Z.eqb_refl; reflexivity)
                ltac:(cbn; lia))).
  eexists. split; [reflexivity|].
  unfold stored. cbn [heap set_heap open_inodes free_map].
  assert (Hview : sector_view s3 fs_device b
                  = patch v (20 * Z.of_nat i)
                      (OnDisk.set_entry_in_use false (entry_at v i))).
  { rewrite Hview3. unfold s2.
    rewrite (sector_view_ext s1 (stored a fi1 s1)) by reflexivity.
    rewrite (Hv1 fs_device b). reflexivity. }
  assert (Hv512 : List.length v = 512%nat)
    by (apply (sector_view_length s fs_device b Hinv)).
  assert (Hentries : forall i', (i' < k)%nat ->
            entry_at (sector_view s3 fs_device b) i' =
            if Nat.eqb i' i
            then OnDisk.set_entry_in_use false (entry_at v i)
            else entry_at v i').
  { intros i' Hi'. rewrite Hview.
    apply entry_at_patch; [exact Hfl | lia | lia]. }
  match goal with
  | |- context [sector_view ?st _ _] =>
      assert (Hsv : forall dev sc,
                sector_view st dev sc = sector_view s3 dev sc)
        by (intros dev sc; apply sector_view_ext; reflexivity)
  end.
  split.
  { intros i' Hi'. rewrite Hsv. apply Hentries, Hi'. }
  split.
  { rewrite Hsv, Hentries, Nat.eqb_refl by exact Hi. exact Hfu. }
  split.
  { intros dev sc Hsc. rewrite Hsv, (Hother3 dev sc Hsc). unfold s2.
    rewrite (sector_view_ext s1 (stored a fi1 s1)) by reflexivity.
    apply Hv1. }
  rewrite Z.eqb_refl.
  split.
  { subst fi1. destruct fi as [sc oc rm dw dt].
    unfold with_removed, with_open_cnt. cbn.
    replace (oc + 1 - 1) with oc by lia. reflexivity. }
  split.
  { intros c Hc. destruct (Z.eqb_spec c a); [contradiction|].
    rewrite Hh3. unfold s2, stored. cbn [heap set_heap].
    destruct (Z.eqb_spec c a); [contradiction|]. rewrite Hh1. reflexivity. }
  split; [rewrite Hoi3; unfold s2; cbn; exact Hoi1|].
  split; [rewrite Hfm3; unfold s2; cbn; exact Hfm1|].
  apply (cache_inv_ext s3); [reflexivity | reflexivity | exact Hinv3].
Qed.

Lemma inode_open_no_memory (s : state) (sec : Z) :
  single_instance s -> (forall c, sector_at s c <> Some sec) ->
  malloc_fails s (malloc_calls s) = true ->
  inode_open sec s = Done None (set_malloc_calls (S (malloc_calls s)) s).
Proof.
  intros Hsi Hnew Hm. unfold inode_open. unfold bind at 1, get.
  rewrite (bind_Done _ _ _ _ _ (find_open_fresh s sec Hsi Hnew)).
  unfold bind, malloc. rewrite Hm. reflexivity.
Qed.

(** X26.  When the name is in the directory, in entry [i] first, for a
    file that is not open, and the allocation of its in-memory inode
    fails, [dir_lookup] reports the name as missing and [dir_remove]
    returns [false]: the directory, the in-memory inodes and the free
    map are as before.  (The directory has at most 25 entries in one
    sector, the name at most [NAME_MAX] characters; the cache is coherent
    and holds the sector or can take it in, the read-ahead queue has
    room and the allocations succeed for the [i + 1] reads of [lookup];
    there is one in-memory inode per sector.)  The comment of
    [dir_remove] says that it fails only if there is no file with the
    name. *)
Theorem dir_remove_fails_without_memory (s : state) (d : OnDisk.dir)
    (ino : inode) (b : Z) (k i : nat) (nm : string) :
  small_dir ino b k ->
  (List.length (OnDisk.chars nm) <= NAME_MAX)%nat ->
  (i < k)%nat ->
  entry_named nm (entry_at (sector_view s fs_device b) i) ->
  (forall i', (i' < i)%nat ->
     ~ entry_named nm (entry_at (sector_view s fs_device b) i')) ->
  single_instance s ->
  (forall c, sector_at s c <>
             Some (OnDisk.entry_sector
                     (entry_at (sector_view s fs_device b) i))) ->
  dir_ready (OnDisk.dir_inode d) ino b (S i) s ->
  malloc_fails s (malloc_calls s + S i) = true ->
  exists s',
    OnDisk.dir_remove d nm s = Done false s' /\
    OnDisk.dir_lookup d nm s = Done None s' /\
    (forall dev sc, sector_view s' dev sc = sector_view s dev sc) /\
    heap s' = heap s /\ open_inodes s' = open_inodes s /\
    free_map s' = free_map s.
Proof.
  intros [Hlen [Hk Hb]] Hnm Hi Hnamed Hfirst Hsi Hnew Hready Hm.
  set (p := OnDisk.dir_inode d) in *.
  set (v := sector_view s fs_device b) in *.
  pose proof Hready as [Hinv [Hp _]].
  assert (Hl20 : forall i', (i' < k)%nat ->
                   List.length (entry_at v i') = 20%nat)
    by (intros i' Hi'; apply (view_entry_length s b k i' Hinv Hk Hi')).
  destruct (find_entry_at nm (entry_at v) k i Hi) as [Hfound Hreads].
  { apply names_spec; auto. }
  { intros i' Hi'. apply not_named; auto. apply Hl20. lia. }
  destruct (lookup_run p ino b k Hlen Hk Hb d nm s eq_refl
              ltac:(unfold NAME_MAX in Hnm; lia)) as [s1 [Hlook Hr1]].
  { unfold entries_of. fold v. rewrite Hreads. exact Hready. }
  unfold entries_of in Hlook, Hr1. fold v in Hlook, Hr1.
  rewrite Hfound in Hlook. rewrite Hreads in Hr1.
  pose proof Hr1
    as [Hinv1 [Hh1 [Hfm1 [Hoi1 [_ [Hmf1 [Hmc1 [_ [_ [_ Hv1]]]]]]]]]].
  assert (Hsi1 : single_instance s1).
  { apply (single_instance_ext s); auto. lia. }
  assert (Hopen : inode_open (OnDisk.entry_sector (entry_at v i)) s1
                  = Done None (set_malloc_calls (S (malloc_calls s1)) s1)).
  { apply inode_open_no_memory; [exact Hsi1 | |].
    - intros c. unfold sector_at. rewrite Hh1. apply Hnew.
    - rewrite Hmf1, Hmc1. exact Hm. }
  exists (set_malloc_calls (S (malloc_calls s1)) s1).
  split.
  { unfold OnDisk.dir_remove. rewrite (bind_Done _ _ _ _ _ Hlook).
    rewrite (bind_Done _ _ _ _ _ Hopen). reflexivity. }
  split.
  { unfold OnDisk.dir_lookup. rewrite (bind_Done _ _ _ _ _ Hlook).
    exact Hopen. }
  split.
  { intros dev sc. rewrite <- Hv1. apply sector_view_ext; reflexivity. }
  cbn [heap open_inodes free_map set_malloc_calls]. auto.
Qed.

Lemma rooted_with_single_instance (fails : nat -> bool) :
  single_instance (rooted_with fails).
Proof.
  unfold single_instance, sector_at. cbn.
  split; [repeat constructor; intros []|].
  split.
  { intros a. destruct (Z.eqb_spec a 1) as [->|Hne].
    - split; [discriminate | auto].
    - split; [intros [H|[]]; congruence | congruence]. }
  split.
  { intros a c sec.
    destruct (Z.eqb_spec a 1), (Z.eqb_spec c 1); cbn; congruence. }
  intros a [<-|[]]. lia.
Qed.

Lemma shared_single_instance : single_instance shared.
Proof.
  unfold single_instance, sector_at. cbn.
  split.
  { constructor; [intros [H|[]]; discriminate|].
    constructor; [intros []| constructor]. }
  split.
  { intros a. destruct (Z.eqb_spec a 2) as [->|H2].
    - split; [discriminate | auto].
    - destruct (Z.eqb_spec a 1) as [->|H1].
      + split; [discriminate | auto].
      + split; [intros [H|[H|[]]]; congruence | congruence]. }
  split.
  { intros a c sec.
    destruct (Z.eqb_spec a 2), (Z.eqb_spec c 2),
             (Z.eqb_spec a 1), (Z.eqb_spec c 1); cbn;
      intros H1 H2; try congruence;
      unfold ROOT_DIR_SECTOR in *; congruence. }
  intros a [<-|[<-|[]]]; lia.
Qed.

Lemma shared_ready (m : nat) :
  (m <= 64)%nat -> dir_ready 1 root_inode 2 m shared.
Proof.
  intros Hm.
  apply (dir_ready_ext 1 root_inode 2 m rooted); try reflexivity.
  apply rooted_ready, Hm.
Qed.

Lemma dir_remove_open_file_witness :
  exists s',
    OnDisk.dir_remove root_dir "f" shared = Done true s' /\
    (forall i', (i' < 5)%nat ->
       entry_at (sector_view s' fs_device 2) i' =
       if Nat.eqb i' 4
       then OnDisk.set_entry_in_use false
              (entry_at (sector_view shared fs_device 2) 4)
       else entry_at (sector_view shared fs_device 2) i') /\
    OnDisk.entry_in_use (entry_at (sector_view s' fs_device 2) 4) = false /\
    (forall dev sc, (dev =? fs_device) && (sc =? 2) = false ->
                    sector_view s' dev sc = sector_view shared dev sc) /\
    heap s' 2 = Some (with_removed true
                        (mk_inode 6 1 false 0 (empty_inode_disk false))) /\
    (forall c, c <> 2 -> heap s' c = heap shared c) /\
    open_inodes s' = open_inodes shared /\ free_map s' = free_map shared /\
    cache_inv s'.
Proof.
  apply (dir_remove_open_file shared root_dir root_inode 2 5 4 "f" 2
           (mk_inode 6 1 false 0 (empty_inode_disk false))).
  - exact rooted_small_dir.
  - reflexivity.
  - vm_compute. lia.
  - lia.
  - split; vm_compute; reflexivity.
  - intros i' Hi' [_ Hn].
    destruct i' as [|[|[|[|i']]]]; [| | | |lia];
      vm_compute in Hn; discriminate.
  - exact shared_single_instance.
  - reflexivity.
  - vm_compute. reflexivity.
  - discriminate.
  - cbn. lia.
  - apply shared_ready. lia.
Defined.

Lemma penniless_ready : dir_ready 1 root_inode 2 5 penniless.
Proof.
  unfold dir_ready.
  split; [exact (cache_init_inv _)|]. split; [reflexivity|].
  split; [right; unfold evictable; apply Exists_cons_hd; left; reflexivity|].
  split; [cbn; lia|]. split; [cbn; unfold READ_AHEAD_BUFFER_SIZE; lia|].
  intros j Hj. cbn.
  destruct j as [|[|[|[|[|j]]]]]; [reflexivity.. | lia].
Qed.

Lemma dir_remove_fails_without_memory_witness :
  exists s',
    OnDisk.dir_remove root_dir "f" penniless = Done false s' /\
    OnDisk.dir_lookup root_dir "f" penniless = Done None s' /\
    (forall dev sc, sector_view s' dev sc = sector_view penniless dev sc) /\
    heap s' = heap penniless /\ open_inodes s' = open_inodes penniless /\
    free_map s' = free_map penniless.
Proof.
  apply (dir_remove_fails_without_memory penniless root_dir root_inode 2 5 4
           "f").
  - exact rooted_small_dir.
  - vm_compute. lia.
  - lia.
  - split; vm_compute; reflexivity.
  - intros i' Hi' [_ Hn].
    destruct i' as [|[|[|[|i']]]]; [| | | |lia];
      vm_compute in Hn; discriminate.
  - exact (rooted_with_single_instance _).
  - intros c. unfold sector_at. cbn.
    destruct (Z.eqb_spec c 1); cbn; [vm_compute|]; discriminate.
  - exact penniless_ready.
  - reflexivity.
Defined.

(** *** The directory model of the path resolver *)

Lemma names_model (nm : string) (e : list byte) :
  (List.length (OnDisk.chars nm) <= NAME_MAX)%nat ->
  OnDisk.chars nm = list_byte_of_string nm ->
  List.length e = 20%nat ->
  names nm e = in_use (entry_of e) && String.eqb nm (name (entry_of e)).
Proof.
  intros Hnm Hc He. cbn [entry_of in_use name].
  destruct (names nm e) eqn:E.
  - apply names_spec in E; auto. destruct E as [Hu Hn].
    rewrite Hu, Hn, Hc, string_of_list_byte_of_string, String.eqb_refl.
    reflexivity.
  - symmetry. apply andb_false_iff.
    destruct (OnDisk.entry_in_use e) eqn:Hu; [right | left; reflexivity].
    apply String.eqb_neq. intros Heq.
    assert (Hn : entry_named nm e).
    { split; [exact Hu|]. rewrite Hc, Heq at 1.
      rewrite list_byte_of_string_of_list_byte. reflexivity. }
    apply names_spec in Hn; auto. congruence.
Qed.

Lemma lookup_from_model (nm : string) (es : list (list byte)) :
  (List.length (OnDisk.chars nm) <= NAME_MAX)%nat ->
  OnDisk.chars nm = list_byte_of_string nm ->
  Forall (fun e => List.length e = 20%nat) es ->
  forall j,
    lookup_from (map entry_of es) nm j =
    option_map (fun r => (entry_of (fst r), Z.to_nat (snd r / 20)))
      (find_entry nm es j).
Proof.
  intros Hnm Hc Hes. induction Hes as [|e t He Ht IH]; intros j;
    cbn [map lookup_from find_entry option_map]; [reflexivity|].
  rewrite <- (names_model nm e Hnm Hc He).
  destruct (names nm e).
  - cbn [option_map fst snd]. rewrite Z.mul_comm, Z.div_mul by lia.
    rewrite Nat2Z.id. reflexivity.
  - apply IH.
Qed.

Lemma foreign_model (e : list byte) :
  List.length e = 20%nat ->
  foreign e =
  in_use (entry_of e) && negb (String.eqb (name (entry_of e)) ".")
  && negb (String.eqb (name (entry_of e)) "..").
Proof.
  intros He. unfold foreign.
  rewrite (names_model "." e ltac:(vm_compute; lia) eq_refl He).
  rewrite (names_model ".." e ltac:(vm_compute; lia) eq_refl He).
  rewrite (String.eqb_sym "." (name (entry_of e))).
  rewrite (String.eqb_sym ".." (name (entry_of e))).
  cbn [entry_of in_use].
  destruct (OnDisk.entry_in_use e); reflexivity.
Qed.

Lemma dir_is_empty_from_model (es : list (list byte)) :
  Forall (fun e => List.length e = 20%nat) es ->
  dir_is_empty_from (map entry_of es) = negb (existsb foreign es).
Proof.
  intros Hes. induction Hes as [|e t He Ht IH];
    cbn [map dir_is_empty_from existsb]; [reflexivity|].
  rewrite <- (foreign_model e He).
  destruct (foreign e); [reflexivity | exact IH].
Qed.

(** X27.  The directory model that the path resolver and
    [filesys_remove] are stated on agrees with the code over the inode
    layer: for a directory of at most 25 entries in one sector and a
    name of at most [NAME_MAX] characters without a NUL, on a coherent
    cache that holds the sector or can take it in, with room in the
    read-ahead queue and allocations that succeed for [k] reads, and any
    file system of the model in which the directory has the entries its
    sector decodes to: [lookup] returns the entry and the index the
    model's [lookup] gives, [dir_lookup] is [inode_open] of the sector
    the model's [dir_lookup] gives, or null where that gives none, and
    [dir_is_empty] returns what the model's [dir_is_empty] gives. *)
Theorem dir_model_agrees (s : state) (d : OnDisk.dir) (ino : inode) (b : Z)
    (k : nat) (nm : string) (t : tree) (dsec : Z) :
  small_dir ino b k ->
  (List.length (OnDisk.chars nm) <= NAME_MAX)%nat ->
  OnDisk.chars nm = list_byte_of_string nm ->
  dir_ready (OnDisk.dir_inode d) ino b k s ->
  entries t dsec = map entry_of (entries_of (sector_view s fs_device b) k) ->
  (exists s1 r,
     OnDisk.lookup d nm s = Done r s1 /\
     option_map (fun x => (entry_of (fst x), Z.to_nat (snd x / 20))) r
       = lookup t dsec nm /\
     OnDisk.dir_lookup d nm s =
       match dir_lookup t dsec nm with
       | Some sec => inode_open sec s1
       | None => Done None s1
       end) /\
  (exists s2, OnDisk.dir_is_empty d s = Done (dir_is_empty t dsec) s2).
Proof.
  intros [Hlen [Hk Hb]] Hnm Hc Hready Ht.
  set (p := OnDisk.dir_inode d) in *.
  set (v := sector_view s fs_device b) in *.
  pose proof Hready as [Hinv [Hp _]].
  assert (Hes : Forall (fun e => List.length e = 20%nat) (entries_of v k)).
  { apply Forall_forall. intros e He. unfold entries_of in He.
    apply in_map_iff in He. destruct He as [i [<- Hi]]. apply in_seq in Hi.
    apply (view_entry_length s b k i Hinv Hk). lia. }
  split.
  - destruct (lookup_run p ino b k Hlen Hk Hb d nm s eq_refl
                ltac:(unfold NAME_MAX in Hnm; lia)) as [s1 [Hlook _]].
    { apply (dir_ready_less p ino b k); [apply reads_to_le_k | exact Hready]. }
    fold v in Hlook.
    exists s1, (find_entry nm (entries_of v k) 0).
    split; [exact Hlook|].
    assert (Hm : option_map
                   (fun x => (entry_of (fst x), Z.to_nat (snd x / 20)))
                   (find_entry nm (entries_of v k) 0) = lookup t dsec nm).
    { unfold lookup. rewrite Ht. symmetry.
      apply lookup_from_model; assumption. }
    split; [exact Hm|].
    unfold OnDisk.dir_lookup, dir_lookup.
    rewrite (bind_Done _ _ _ _ _ Hlook), <- Hm.
    destruct (find_entry nm (entries_of v k) 0) as [[e ofs]|]; reflexivity.
  - unfold OnDisk.dir_is_empty. fold p.
    rewrite (bind_Done _ _ _ _ _ (entry_rounds_run p ino k Hlen Hk s Hp)).
    destruct (stack_entry_run s) as [e [He Hel]].
    rewrite (bind_Done _ _ _ _ _ He).
    destruct (is_empty_from_run p ino b k Hlen Hk Hb k 0 (S k) e s
                ltac:(lia) ltac:(lia) Hel) as [s2 [Hrun _]].
    { fold v. apply (dir_ready_less p ino b k); [|exact Hready].
      pose proof (reads_foreign_le (map (entry_at v) (seq 0 k))) as H.
      rewrite length_map, length_seq in H. exact H. }
    fold v in Hrun. exists s2.
    replace (dir_is_empty t dsec)
      with (negb (existsb foreign (map (entry_at v) (seq 0 k)))).
    + exact Hrun.
    + unfold dir_is_empty. rewrite Ht. symmetry.
      apply dir_is_empty_from_model. exact Hes.
Qed.

(** The root directory of [tree1], as [tree1_disk] holds it: "d" is
    found in entry 2, for sector 5, and the directory is not empty. *)
Lemma dir_model_agrees_witness :
  lookup tree1 1 "d" = Some (mk_dir_entry 5 "d" true, 2%nat) /\
  dir_lookup tree1 1 "d" = Some 5 /\ dir_is_empty tree1 1 = false /\
  (exists s1 r,
     OnDisk.lookup root_dir "d" tree1_disk = Done r s1 /\
     option_map (fun x => (entry_of (fst x), Z.to_nat (snd x / 20))) r
       = lookup tree1 1 "d" /\
     OnDisk.dir_lookup root_dir "d" tree1_disk =
       match dir_lookup tree1 1 "d" with
       | Some sec => inode_open sec s1
       | None => Done None s1
       end) /\
  (exists s2,
     OnDisk.dir_is_empty root_dir tree1_disk
     = Done (dir_is_empty tree1 1) s2).
Proof.
  split; [reflexivity|]. split; [reflexivity|]. split; [reflexivity|].
  apply (dir_model_agrees tree1_disk root_dir tree1_inode 2 4 "d" tree1 1).
  - split; [reflexivity|]. split; [lia | reflexivity].
  - vm_compute. lia.
  - reflexivity.
  - unfold dir_ready.
    split; [exact (cache_init_inv _)|]. split; [reflexivity|].
    split; [right; unfold evictable; apply Exists_cons_hd; left; reflexivity|].
    split; [cbn; lia|]. split; [cbn; unfold READ_AHEAD_BUFFER_SIZE; lia|].
    intros j Hj. reflexivity.
  - vm_compute. reflexivity.
Defined.

(** *** Handles on a directory *)

(** X28.  A second handle on an open directory: [dir_reopen] takes one
    more opener on the directory's in-memory inode; when the allocation
    of the handle succeeds it returns a handle on the same inode at
    position [2 * sizeof e], and [dir_close] of that handle gives the
    opener back; when the allocation fails [dir_open] closes the inode
    itself and [dir_reopen] returns null.  Either way the in-memory
    inodes are in the end as they were, and the list of open inodes, the
    cache, the device and the free map are untouched throughout.  (The
    inode has between 1 and 2^31 - 2 openers.)  [dir_open_root], when the
    root directory's inode is open and there is one in-memory inode per
    sector, likewise returns a handle on that inode, with one more
    opener. *)
Theorem dir_reopen_close_balance (s : state) (d : OnDisk.dir) (i : inode) :
  heap s (OnDisk.dir_inode d) = Some i -> 1 <= open_cnt i < 2 ^ 31 - 1 ->
  (malloc_fails s (malloc_calls s) = false ->
   exists s1 s2,
     OnDisk.dir_reopen d s
       = Done (Some (OnDisk.mk_dir (OnDisk.dir_inode d) 40)) s1 /\
     heap s1 (OnDisk.dir_inode d)
       = Some (with_open_cnt (open_cnt i + 1) i) /\
     OnDisk.dir_close (Some (OnDisk.mk_dir (OnDisk.dir_inode d) 40)) s1
       = Done tt s2 /\
     (forall c, heap s2 c = heap s c) /\
     open_inodes s2 = open_inodes s /\ cache s2 = cache s /\
     disk s2 = disk s /\ free_map s2 = free_map s) /\
  (malloc_fails s (malloc_calls s) = true ->
   exists s1,
     OnDisk.dir_reopen d s = Done None s1 /\
     (forall c, heap s1 c = heap s c) /\
     open_inodes s1 = open_inodes s /\ cache s1 = cache s /\
     disk s1 = disk s /\ free_map s1 = free_map s) /\
  (single_instance s -> sector i = ROOT_DIR_SECTOR ->
   malloc_fails s (malloc_calls s) = false ->
   exists s1,
     OnDisk.dir_open_root s
       = Done (Some (OnDisk.mk_dir (OnDisk.dir_inode d) 40)) s1 /\
     heap s1 (OnDisk.dir_inode d)
       = Some (with_open_cnt (open_cnt i + 1) i)).
Proof.
  intros Ha Hcnt.
  set (a := OnDisk.dir_inode d) in *.
  set (i1 := with_open_cnt (open_cnt i + 1) i).
  assert (Hre : inode_reopen (Some a) s = Done (Some a) (stored a i1 s)).
  { unfold inode_reopen, bind, deref. rewrite Ha.
    unfold store, modify, ret. rewrite s32_small by lia. reflexivity. }
  assert (Ha1 : heap (stored a i1 s) a = Some i1).
  { unfold stored. cbn [heap set_heap]. rewrite Z.eqb_refl. reflexivity. }
  assert (Hback : with_open_cnt (open_cnt i1 - 1) i1 = i).
  { subst i1. destruct i as [sc oc rm dw dt].
    unfold with_open_cnt. cbn. replace (oc + 1 - 1) with oc by lia.
    reflexivity. }
  assert (Hclose : forall st, heap st a = Some i1 ->
            inode_close (Some a) st = Done tt (stored a i st)).
  { intros st Hst.
    rewrite (inode_close_not_last st a i1 Hst ltac:(cbn; lia)).
    rewrite Hback. reflexivity. }
  split; [|split].
  - intros Hm. unfold OnDisk.dir_reopen.
    rewrite (bind_Done _ _ _ _ _ Hre).
    unfold OnDisk.dir_open, bind at 1, malloc.
    change (malloc_fails (stored a i1 s) (malloc_calls (stored a i1 s)))
      with (malloc_fails s (malloc_calls s)). rewrite Hm.
    eexists. eexists. split; [reflexivity|].
    split; [exact Ha1|]. split.
    { unfold OnDisk.dir_close. cbn [OnDisk.dir_inode]. apply Hclose.
      exact Ha1. }
    unfold stored. cbn [heap set_heap open_inodes cache disk free_map].
    split.
    { intros c. cbn. destruct (c =? a) eqn:E; [|reflexivity].
      apply Z.eqb_eq in E. subst c. symmetry. exact Ha. }
    repeat split; reflexivity.
  - intros Hm. unfold OnDisk.dir_reopen.
    rewrite (bind_Done _ _ _ _ _ Hre).
    unfold OnDisk.dir_open, bind at 1, malloc.
    change (malloc_fails (stored a i1 s) (malloc_calls (stored a i1 s)))
      with (malloc_fails s (malloc_calls s)). rewrite Hm.
    erewrite bind_Done; [|apply Hclose; exact Ha1].
    eexists. split; [reflexivity|].
    unfold stored. cbn [heap set_heap open_inodes cache disk free_map].
    split.
    { intros c. cbn. destruct (c =? a) eqn:E; [|reflexivity].
      apply Z.eqb_eq in E. subst c. symmetry. exact Ha. }
    repeat split; reflexivity.
  - intros Hsi Hsec Hm. unfold OnDisk.dir_open_root.
    rewrite (bind_Done _ _ _ _ _ (inode_open_again s _ a i Hsi Ha Hsec)).
    rewrite s32_small by lia. fold i1.
    unfold OnDisk.dir_open, bind at 1, malloc.
    change (malloc_fails (stored a i1 s) (malloc_calls (stored a i1 s)))
      with (malloc_fails s (malloc_calls s)). rewrite Hm.
    eexists. split; [reflexivity | exact Ha1].
Qed.

Lemma dir_reopen_close_balance_witness :
  (exists s1 s2,
     OnDisk.dir_reopen root_dir rooted = Done (Some root_dir) s1 /\
     heap s1 1 = Some (with_open_cnt 2 root_inode) /\
     OnDisk.dir_close (Some root_dir) s1 = Done tt s2 /\
     (forall c, heap s2 c = heap rooted c) /\
     open_inodes s2 = open_inodes rooted /\ cache s2 = cache rooted /\
     disk s2 = disk rooted /\ free_map s2 = free_map rooted) /\
  (exists s1,
     OnDisk.dir_reopen root_dir starved = Done None s1 /\
     (forall c, heap s1 c = heap starved c) /\
     open_inodes s1 = open_inodes starved /\ cache s1 = cache starved /\
     disk s1 = disk starved /\ free_map s1 = free_map starved) /\
  (exists s1,
     OnDisk.dir_open_root rooted = Done (Some root_dir) s1 /\
     heap s1 1 = Some (with_open_cnt 2 root_inode)).
Proof.
  assert (Hcnt : 1 <= open_cnt root_inode < 2 ^ 31 - 1)
    by (vm_compute; split; [discriminate | reflexivity]).
  split; [|split].
  - apply (dir_reopen_close_balance rooted root_dir root_inode eq_refl Hcnt).
    reflexivity.
  - apply (dir_reopen_close_balance starved root_dir root_inode eq_refl Hcnt).
    reflexivity.
  - apply (dir_reopen_close_balance rooted root_dir root_inode eq_refl Hcnt).
    + exact (rooted_with_single_instance _).
    + reflexivity.
    + reflexivity.
Defined.
